(** * A shallow embedding of the puffs parser (lang/parse/parse.go)

    The parser is a hand-written recursive-descent parser over a
    pre-tokenized stream.  It is embedded as a state-and-error monad over
    the remaining token slice [p.src]; the other fields of the Go [parser]
    struct ([tm], [filename], [lastLine]) are written once by [Parse] /
    [ParseExpr] and only read afterwards, so they are a read-only context.

    The packages [lang/token] (imported as [t]), [lang/ast] (imported as
    [a]) and [lang/base38] are external collaborators of the parser: their
    types are modelled below and their tables and predicates are taken as
    parameters (type classes [t.Ops], [a.Ops], [base38.Ops]). *)

From Stdlib Require Import List String Ascii NArith Arith Bool Lia.
Import ListNotations.
Local Open Scope string_scope.

(** ** Strings *)

(** The double-quote character, written by its code point. *)
Definition dq : string := String (ascii_of_nat 34) EmptyString.

(** ** Package [t] (lang/token) *)

Module t.

(** Modelled from the spec: the token package is not among the sources.
    [Key] is the classification key of a token; the constructors are the
    key constants that parse.go names, which are distinct keys, and
    [KeyOther] stands for every other key (identifiers, literals,
    operators, the invalid key 0, ...). *)
Inductive Key : Type :=
| KeyPackageID | KeyUse | KeySemicolon | KeyPub | KeyPri | KeyConst | KeyEq
| KeyDollar | KeyFunc | KeyExclam | KeyQuestion | KeyOpenParen
| KeyCloseParen | KeyComma | KeyOpenCurly | KeyCloseCurly | KeyError
| KeySuspension | KeyStatus | KeyStruct | KeyDot | KeyPtr | KeyOpenBracket
| KeyCloseBracket | KeyColon | KeyAssert | KeyPre | KeyInv | KeyPost
| KeyVia | KeyBreak | KeyContinue | KeyIf | KeyElse | KeyIterate
| KeyReturn | KeyVar | KeyWhile | KeyTry | KeyAs
| KeyOther (n : N).

Definition Key_eq_dec (x y : Key) : {x = y} + {x <> y}.
Proof. decide equality. apply N.eq_dec. Defined.

Definition Key_eqb (x y : Key) : bool :=
  if Key_eq_dec x y then true else false.

(** [ID] is a uint32; the zero ID is what [peek1] returns at the end of
    the stream. *)
Definition ID : Type := N.

Record Token : Type := mkToken { Token_ID : ID; Token_Line : N }.

(** The intern table [*t.Map]: it maps keys, IDs and tokens to their
    display text. *)
Record Map : Type := mkMap {
  ByID : ID -> string;
  ByKey : Key -> string;
  ByToken : Token -> string
}.

(** The methods of [t.ID], the ID constants and [t.Unescape] that
    parse.go uses. *)
Class Ops : Type := {
  ID_Key : ID -> Key;
  ID_IsBuiltIn : ID -> bool;
  ID_IsIdent : ID -> bool;
  ID_IsLiteral : ID -> bool;
  ID_IsStrLiteral : ID -> bool;
  ID_IsUnaryOp : ID -> bool;
  ID_IsBinaryOp : ID -> bool;
  ID_IsAssociativeOp : ID -> bool;
  ID_IsAssign : ID -> bool;
  ID_UnaryForm : ID -> ID;
  ID_BinaryForm : ID -> ID;
  ID_AssociativeForm : ID -> ID;
  ID_String : ID -> Map -> string;
  Unescape : string -> string * bool;
  IDIn : ID; IDOut : ID; IDPtr : ID; IDColon : ID; IDOpenBracket : ID;
  IDDotDot : ID; IDEq : ID; IDDollar : ID; IDTry : ID; IDOpenParen : ID;
  IDDot : ID
}.

(** A token's methods are those of its ID. *)
Definition Token_Key `{Ops} (x : Token) : Key := ID_Key (Token_ID x).
Definition Token_IsIdent `{Ops} (x : Token) : bool := ID_IsIdent (Token_ID x).

End t.

Module fmt.

(** An argument of a format verb: [%q] and [%s] take text, [%d] a
    number, [%x] of a [t.Key] the key. *)
Inductive arg : Type :=
| AStr (s : string)
| ANum (n : N)
| AKey (k : t.Key).

(** [fmt.Errorf format args...], kept as the format string and its
    arguments. *)
Inductive error : Type :=
| Errorf (format : string) (args : list arg).

End fmt.

(** ** Package [a] (lang/ast) *)

Module a.

Definition Flags : Type := N.

Inductive Kind : Type :=
| KPackageID | KUse | KConst | KFunc | KStatus | KStruct | KField
| KTypeExpr | KExpr | KAssert | KArg | KVar | KAssign | KJump | KIf
| KIterate | KWhile | KReturn.

(** Modelled from the spec: the ast package is not among the sources.
    A node is a closed tagged variant; every node carries a filename and a
    line, and its payload is the argument list of its constructor function
    ([a.NewExpr], [a.NewVar], ...).  A Go pointer argument that may be nil
    is an [option]. *)
Inductive Node : Type :=
| MkNode (filename : string) (line : N) (d : Desc)
with Desc : Type :=
| DPackageID (path : t.ID)
| DUse (path : t.ID)
| DConst (flags : Flags) (id : t.ID) (typ value : option Node)
| DFunc (flags : Flags) (receiver name : t.ID) (in_ out : option Node)
        (asserts body : list Node)
| DStatus (flags : Flags) (keyword message : t.ID)
| DStruct (flags : Flags) (name : t.ID) (fields : list Node)
| DField (name : t.ID) (typ defaultValue : option Node)
| DTypeExpr (pkgOrDec name : t.ID) (lhs mhs inner : option Node)
| DExpr (flags : Flags) (operator nameLiteralSelector : t.ID)
        (lhs mhs rhs : option Node) (args : list Node)
| DAssert (keyword : t.ID) (condition : option Node) (reason : t.ID)
          (args : list Node)
| DArg (name : t.ID) (value : option Node)
| DVar (op id : t.ID) (typ value : option Node)
| DAssign (op : t.ID) (lhs rhs : option Node)
| DJump (keyword label : t.ID)
| DIf (condition elseIf : option Node) (bodyIfTrue bodyIfFalse : list Node)
| DIterate (label : t.ID) (unroll : option Node)
           (vars asserts body : list Node)
| DWhile (label : t.ID) (condition : option Node) (asserts body : list Node)
| DReturn (value : option Node).

Record File : Type := NewFile { File_Filename : string; File_TopLevelDecls : list Node }.

(** Constructor functions.  Those that take no position leave the zero
    filename and line, to be stamped by [SetFilenameLine]. *)
Definition unstamped (d : Desc) : Node := MkNode EmptyString 0 d.

Definition NewPackageID filename line path := MkNode filename line (DPackageID path).
Definition NewUse filename line path := MkNode filename line (DUse path).
Definition NewConst flags filename line id typ value :=
  MkNode filename line (DConst flags id typ value).
Definition NewFunc flags filename line receiver name in_ out asserts body :=
  MkNode filename line (DFunc flags receiver name in_ out asserts body).
Definition NewStatus flags filename line keyword message :=
  MkNode filename line (DStatus flags keyword message).
Definition NewStruct flags filename line name fields :=
  MkNode filename line (DStruct flags name fields).
Definition NewField name typ defaultValue := unstamped (DField name typ defaultValue).
Definition NewTypeExpr pkgOrDec name lhs mhs inner :=
  unstamped (DTypeExpr pkgOrDec name lhs mhs inner).
Definition NewExpr flags operator nameLiteralSelector lhs mhs rhs args :=
  unstamped (DExpr flags operator nameLiteralSelector lhs mhs rhs args).
Definition NewAssert keyword condition reason args :=
  unstamped (DAssert keyword condition reason args).
Definition NewArg name value := unstamped (DArg name value).
Definition NewVar op id typ value := unstamped (DVar op id typ value).
Definition NewAssign op lhs rhs := unstamped (DAssign op lhs rhs).
Definition NewJump keyword label := unstamped (DJump keyword label).
Definition NewIf condition elseIf bodyIfTrue bodyIfFalse :=
  unstamped (DIf condition elseIf bodyIfTrue bodyIfFalse).
Definition NewIterate label unroll vars asserts body :=
  unstamped (DIterate label unroll vars asserts body).
Definition NewWhile label condition asserts body :=
  unstamped (DWhile label condition asserts body).
Definition NewReturn value := unstamped (DReturn value).

Definition desc (n : Node) : Desc := match n with MkNode _ _ d => d end.
Definition Filename (n : Node) : string := match n with MkNode f _ _ => f end.
Definition Line (n : Node) : N := match n with MkNode _ l _ => l end.

Definition SetFilenameLine (f : string) (l : N) (n : Node) : Node :=
  MkNode f l (desc n).

Definition Kind_of (n : Node) : Kind :=
  match desc n with
  | DPackageID _ => KPackageID | DUse _ => KUse | DConst _ _ _ _ => KConst
  | DFunc _ _ _ _ _ _ _ => KFunc | DStatus _ _ _ => KStatus
  | DStruct _ _ _ => KStruct | DField _ _ _ => KField
  | DTypeExpr _ _ _ _ _ => KTypeExpr | DExpr _ _ _ _ _ _ _ => KExpr
  | DAssert _ _ _ _ => KAssert | DArg _ _ => KArg | DVar _ _ _ _ => KVar
  | DAssign _ _ _ => KAssign | DJump _ _ => KJump | DIf _ _ _ _ => KIf
  | DIterate _ _ _ _ _ => KIterate | DWhile _ _ _ _ => KWhile
  | DReturn _ => KReturn
  end.

(** Accessors of [*a.Assert] and [*a.Expr]; on a node of another kind
    they give the zero value. *)
Definition Keyword (n : Node) : t.ID :=
  match desc n with DAssert k _ _ _ => k | _ => 0%N end.
Definition Flags_of (n : Node) : Flags :=
  match desc n with
  | DExpr f _ _ _ _ _ _ => f | DConst f _ _ _ => f
  | DFunc f _ _ _ _ _ _ => f | DStatus f _ _ => f | DStruct f _ _ => f
  | _ => 0%N
  end.
Definition ID0 (n : Node) : t.ID :=
  match desc n with DExpr _ op _ _ _ _ _ => op | _ => 0%N end.
Definition ID1 (n : Node) : t.ID :=
  match desc n with DExpr _ _ x _ _ _ _ => x | _ => 0%N end.
Definition LHS (n : Node) : option Node :=
  match desc n with DExpr _ _ _ l _ _ _ => l | _ => None end.
Definition MHS (n : Node) : option Node :=
  match desc n with DExpr _ _ _ _ m _ _ => m | _ => None end.
Definition RHS (n : Node) : option Node :=
  match desc n with DExpr _ _ _ _ _ r _ => r | _ => None end.
Definition Args (n : Node) : list Node :=
  match desc n with DExpr _ _ _ _ _ _ xs => xs | _ => [] end.

(** Stamping the loop variables of an iterate node
    ([o.Raw().SetFilenameLine] for each of [n.Iterate().Variables()]). *)
Definition stampVariables (f : string) (l : N) (n : Node) : Node :=
  match n with
  | MkNode nf nl (DIterate label unroll vars asserts body) =>
      MkNode nf nl (DIterate label unroll (map (SetFilenameLine f l) vars) asserts body)
  | _ => n
  end.

(** The flag constants and the String method of an expression. *)
Class Ops : Type := {
  FlagsPublic : Flags;
  FlagsImpure : Flags;
  FlagsSuspendible : Flags;
  FlagsCallImpure : Flags;
  FlagsCallSuspendible : Flags;
  Expr_String : Node -> t.Map -> string
}.

End a.

(** ** Package [base38] *)

Module base38.

Class Ops : Type := {
  Encode : string -> N * bool
}.

End base38.

(** ** The parser monad *)

(** Outcome of running a parser method on the remaining tokens: a value
    with the new [p.src]; the returned error; a Go run-time panic
    (slicing or indexing an empty [p.src]); or the recursion budget of the
    embedding used up. *)
Inductive res (A : Type) : Type :=
| Ok (x : A) (src : list t.Token)
| Err (e : fmt.error)
| Panic
| OutOfFuel.

Arguments Ok {A} x src.
Arguments Err {A} e.
Arguments Panic {A}.
Arguments OutOfFuel {A}.

Definition M (A : Type) : Type := list t.Token -> res A.

Definition ret {A} (x : A) : M A := fun s => Ok x s.

Definition bind {A B} (m : M A) (k : A -> M B) : M B :=
  fun s =>
    match m s with
    | Ok x s' => k x s'
    | Err e => Err e
    | Panic => Panic
    | OutOfFuel => OutOfFuel
    end.

Definition fail {A} (e : fmt.error) : M A := fun _ => Err e.
Definition out_of_fuel {A} : M A := fun _ => OutOfFuel.

(** [p.src], read. *)
Definition get_src : M (list t.Token) := fun s => Ok s s.

(** [p.src = p.src[1:]]; Go panics when the slice is empty. *)
Definition advance : M unit :=
  fun s => match s with [] => Panic | _ :: s' => Ok tt s' end.

(** [p.src[0]]; Go panics when the slice is empty. *)
Definition src0 : M t.Token :=
  fun s => match s with [] => Panic | x :: _ => Ok x s end.

Declare Scope parser_scope.
Delimit Scope parser_scope with parser.
Notation "x <- m ;; k" := (bind m (fun x => k))
  (at level 61, m at next level, right associativity) : parser_scope.
Notation "' pat <- m ;; k" := (bind m (fun x => match x with pat => k end))
  (at level 61, pat pattern, m at next level, right associativity) : parser_scope.
Notation "m ;; k" := (bind m (fun _ => k))
  (at level 61, right associativity) : parser_scope.
Local Open Scope parser_scope.

Import fmt.

Section Parser.

Context `{TO : t.Ops} `{AO : a.Ops} `{BO : base38.Ops}.

(** The read-only fields of the [parser] struct. *)
Variable tm : t.Map.
Variable filename : string.
Variable lastLine : N.

Definition line : M N :=
  fun s => Ok (match s with x :: _ => t.Token_Line x | [] => lastLine end) s.

Definition peek1 : M t.ID :=
  fun s => Ok (match s with x :: _ => t.Token_ID x | [] => 0%N end) s.

(** [p.peek1().Key()] *)
Definition peek1Key : M t.Key := x <- peek1 ;; ret (t.ID_Key x).

(** The recurring check
    [if x := p.peek1().Key(); x != k { return nil, fmt.Errorf(...) }],
    whose message names [what] as the expected token. *)
Definition check (k : t.Key) (what : string) : M unit :=
  x <- peek1Key ;;
  if negb (t.Key_eqb x k) then
    l <- line ;;
    fail (Errorf ("parse: expected " ++ what ++ ", got %q at %s:%d")
                 [AStr (t.ByKey tm x); AStr filename; ANum l])
  else ret tt.

Definition implicitSemicolon : string := "(implicit) " ++ dq ++ ";" ++ dq.
Definition quoted (s : string) : string := dq ++ s ++ dq.

(** The recurring string-literal check on the next token, which is then
    consumed. *)
Definition expectStrLiteral : M t.ID :=
  x <- peek1 ;;
  if negb (t.ID_IsStrLiteral x) then
    l <- line ;;
    fail (Errorf "parse: expected string literal, got %q at %s:%d"
                 [AStr (t.ByID tm x); AStr filename; ANum l])
  else advance ;; ret x.

Definition parseIdent : M t.ID :=
  src <- get_src ;;
  match src with
  | [] =>
      l <- line ;;
      fail (Errorf "parse: expected identifier at %s:%d" [AStr filename; ANum l])
  | x :: _ =>
      if negb (t.Token_IsIdent x) then
        l <- line ;;
        fail (Errorf "parse: expected identifier, got %q at %s:%d"
                     [AStr (t.ByToken tm x); AStr filename; ANum l])
      else advance ;; ret (t.Token_ID x)
  end.

(** parseQualifiedIdent parses "foo.bar" or "bar". *)
Definition parseQualifiedIdent : M (t.ID * t.ID) :=
  x <- parseIdent ;;
  k <- peek1Key ;;
  match k with
  | t.KeyDot =>
      advance ;;
      y <- parseIdent ;;
      ret (x, y)
  | _ => ret (0%N, x)
  end.

Definition parseLabel : M t.ID :=
  k <- peek1Key ;;
  match k with
  | t.KeyColon => advance ;; parseIdent
  | _ => ret 0%N
  end.

(** [if stop == t.KeyCloseParen { p.src = p.src[1:] }] *)
Definition closeList (stop : t.Key) : M unit :=
  if t.Key_eqb stop t.KeyCloseParen then advance else ret tt.

Fixpoint parseListLoop (fuel : nat) (stop : t.Key) (parseElem : M a.Node)
    (acc : list a.Node) : M (list a.Node) :=
  match fuel with
  | O => out_of_fuel
  | S n =>
      src <- get_src ;;
      match src with
      | [] =>
          l <- line ;;
          fail (Errorf "parse: expected %q at %s:%d"
                       [AStr (t.ByKey tm stop); AStr filename; ANum l])
      | x :: _ =>
          if t.Key_eqb (t.ID_Key (t.Token_ID x)) stop then
            closeList stop ;; ret acc
          else
            elem <- parseElem ;;
            let acc := (acc ++ [elem])%list in
            x <- peek1Key ;;
            if t.Key_eqb x stop then closeList stop ;; ret acc
            else
              match x with
              | t.KeyComma => advance ;; parseListLoop n stop parseElem acc
              | _ =>
                  l <- line ;;
                  fail (Errorf "parse: expected %q, got %q at %s:%d"
                               [AStr (t.ByKey tm stop); AStr (t.ByKey tm x);
                                AStr filename; ANum l])
              end
      end
  end.

Definition parseList (fuel : nat) (stop : t.Key) (parseElem : M a.Node)
    : M (list a.Node) :=
  (if t.Key_eqb stop t.KeyCloseParen then
     check t.KeyOpenParen (quoted "(") ;; advance
   else ret tt) ;;
  parseListLoop fuel stop parseElem [].

Definition orderError (l : N) : error :=
  Errorf ("parse: assertion chain not in " ++ quoted "pre" ++ ", " ++ quoted "inv"
          ++ ", " ++ quoted "post" ++ " order at %s:%d")
         [AStr filename; ANum l].

Definition bareAssertError (l : N) : error :=
  Errorf ("parse: assertion chain cannot contain " ++ quoted "assert" ++ ", only "
          ++ quoted "pre" ++ ", " ++ quoted "inv" ++ " and " ++ quoted "post"
          ++ " at %s:%d")
         [AStr filename; ANum l].

(** The loop of assertsSorted, with its two flags as arguments; [l] is
    [p.line()], which the loop does not change.  [None] is the nil error. *)
Fixpoint assertsSortedLoop (l : N) (seenInv seenPost : bool)
    (asserts : list a.Node) : option error :=
  match asserts with
  | [] => None
  | x :: rest =>
      match t.ID_Key (a.Keyword x) with
      | t.KeyAssert => Some (bareAssertError l)
      | t.KeyPre =>
          if seenPost || seenInv then Some (orderError l)
          else assertsSortedLoop l seenInv seenPost rest
      | t.KeyInv =>
          if seenPost then Some (orderError l)
          else assertsSortedLoop l true seenPost rest
      | _ => assertsSortedLoop l seenInv true rest
      end
  end.

Definition assertsSorted (asserts : list a.Node) : M unit :=
  l <- line ;;
  match assertsSortedLoop l false false asserts with
  | Some e => fail e
  | None => ret tt
  end.

(** The whitelist of the [switch unrollStr] in parseStatement1. *)
Definition unrollCounts : list string :=
  ["1"; "2"; "4"; "8"; "16"; "32"; "64"; "128"; "256"].

Definition isUnrollCount (s : string) : bool :=
  existsb (String.eqb s) unrollCounts.

Definition noForm (which : string) (x : t.ID) : error :=
  Errorf ("parse: internal error: no " ++ which ++ " form for token.Key 0x%#02x")
         [AKey (t.ID_Key x)].

(** The mutually recursive methods of types and expressions.  [fuel]
    bounds the depth of the calls: every call of a method of the block and
    every iteration of one of its loops takes one unit. *)
Fixpoint parseTypeExpr (fuel : nat) : M a.Node :=
  match fuel with
  | O => out_of_fuel
  | S n =>
      k <- peek1Key ;;
      match k with
      | t.KeyPtr =>
          advance ;;
          rhs <- parseTypeExpr n ;;
          ret (a.NewTypeExpr t.IDPtr 0%N None None (Some rhs))
      | t.KeyOpenBracket =>
          advance ;;
          k <- peek1Key ;;
          ' (decorator, lhs) <-
            match k with
            | t.KeyCloseBracket => ret (t.IDColon, None)
            | _ =>
                lhs <- parseExpr n ;;
                check t.KeyCloseBracket (quoted "]") ;;
                ret (t.IDOpenBracket, Some lhs)
            end ;;
          advance ;;
          rhs <- parseTypeExpr n ;;
          ret (a.NewTypeExpr decorator 0%N lhs None (Some rhs))
      | _ =>
          ' (pkg, name) <- parseQualifiedIdent ;;
          k <- peek1Key ;;
          ' (lhs, mhs) <-
            match k with
            | t.KeyOpenBracket =>
                ' (_, lhs, mhs) <- parseBracket n t.IDDotDot ;;
                ret (lhs, mhs)
            | _ => ret (None, None)
            end ;;
          ret (a.NewTypeExpr pkg name lhs mhs None)
      end
  end

(** parseBracket parses "[i:j]", "[i:]", "[:j]" and "[:]". A double dot
    replaces the colon if sep is t.IDDotDot instead of t.IDColon. If sep is
    t.IDColon, it also parses "[x]". The returned op is sep for a range or
    refinement and t.IDOpenBracket for an index. *)
with parseBracket (fuel : nat) (sep : t.ID)
    : M (t.ID * option a.Node * option a.Node) :=
  match fuel with
  | O => out_of_fuel
  | S n =>
      check t.KeyOpenBracket (quoted "[") ;;
      advance ;;
      x <- peek1 ;;
      ei <- (if negb (N.eqb x sep) then e <- parseExpr n ;; ret (Some e)
             else ret None) ;;
      x <- peek1Key ;;
      if t.Key_eqb x (t.ID_Key sep) then
        advance ;;
        k <- peek1Key ;;
        ej <- (if negb (t.Key_eqb k t.KeyCloseBracket)
               then e <- parseExpr n ;; ret (Some e)
               else ret None) ;;
        check t.KeyCloseBracket (quoted "]") ;;
        advance ;;
        ret (sep, ei, ej)
      else if t.Key_eqb x t.KeyCloseBracket && t.Key_eqb (t.ID_Key sep) t.KeyColon then
        advance ;;
        ret (t.IDOpenBracket, None, ei)
      else
        let extra :=
          if t.Key_eqb (t.ID_Key sep) t.KeyColon then " or " ++ quoted "]"
          else EmptyString in
        l <- line ;;
        fail (Errorf "parse: expected %q%s, got %q at %s:%d"
                     [AStr (t.ByID tm sep); AStr extra; AStr (t.ByKey tm x);
                      AStr filename; ANum l])
  end

with parseArgNode (fuel : nat) : M a.Node :=
  match fuel with
  | O => out_of_fuel
  | S n =>
      name <- parseIdent ;;
      check t.KeyColon (quoted ":") ;;
      advance ;;
      value <- parseExpr n ;;
      ret (a.NewArg name (Some value))
  end

with parseExpr (fuel : nat) : M a.Node :=
  match fuel with
  | O => out_of_fuel
  | S n =>
      lhs <- parseOperand n ;;
      x <- peek1 ;;
      if t.ID_IsBinaryOp x then
        advance ;;
        rhs <- match t.ID_Key x with
               | t.KeyAs => parseTypeExpr n
               | _ => parseOperand n
               end ;;
        y <- peek1 ;;
        if negb (t.ID_IsAssociativeOp x) || negb (N.eqb x y) then
          let op := t.ID_BinaryForm x in
          if N.eqb op 0 then fail (noForm "binary" x)
          else ret (a.NewExpr 0%N op 0%N (Some lhs) None (Some rhs) [])
        else
          args <- parseExprLoop n x [lhs; rhs] ;;
          let op := t.ID_AssociativeForm x in
          if N.eqb op 0 then fail (noForm "associative" x)
          else ret (a.NewExpr 0%N op 0%N None None None args)
      else ret lhs
  end

(** The loop [for p.peek1() == x] of parseExpr. *)

with parseExprLoop (fuel : nat) (x : t.ID) (args : list a.Node)
    : M (list a.Node) :=
  match fuel with
  | O => out_of_fuel
  | S n =>
      y <- peek1 ;;
      if N.eqb y x then
        advance ;;
        arg <- parseOperand n ;;
        parseExprLoop n x (args ++ [arg])%list
      else ret args
  end

with parseOperand (fuel : nat) : M a.Node :=
  match fuel with
  | O => out_of_fuel
  | S n =>
      x <- peek1 ;;
      if t.ID_IsUnaryOp x then
        advance ;;
        rhs <- parseOperand n ;;
        let op := t.ID_UnaryForm x in
        if N.eqb op 0 then fail (noForm "unary" x)
        else ret (a.NewExpr 0%N op 0%N None None (Some rhs) [])
      else if t.ID_IsLiteral x then
        advance ;;
        ret (a.NewExpr 0%N 0%N x None None None [])
      else
        match t.ID_Key x with
        | t.KeyOpenParen =>
            advance ;;
            expr <- parseExpr n ;;
            check t.KeyCloseParen (quoted ")") ;;
            advance ;;
            ret expr
        | t.KeyError | t.KeyStatus | t.KeySuspension =>
            advance ;;
            message <- expectStrLiteral ;;
            ret (a.NewExpr 0%N x message None None None [])
        | _ =>
            id <- parseIdent ;;
            parseOperandLoop n (a.NewExpr 0%N 0%N id None None None [])
        end
  end

(** The postfix loop [for { ... }] of parseOperand. *)
with parseOperandLoop (fuel : nat) (lhs : a.Node) : M a.Node :=
  match fuel with
  | O => out_of_fuel
  | S n =>
      let flags := 0%N in
      k <- peek1Key ;;
      match k with
      | t.KeyExclam | t.KeyQuestion =>
          let flags := N.lor flags (N.lor a.FlagsImpure a.FlagsCallImpure) in
          x <- src0 ;;
          let flags :=
            if t.Key_eqb (t.Token_Key x) t.KeyQuestion
            then N.lor flags (N.lor a.FlagsSuspendible a.FlagsCallSuspendible)
            else flags in
          advance ;;
          args <- parseList n t.KeyCloseParen (parseArgNode n) ;;
          parseOperandLoop n (a.NewExpr flags t.IDOpenParen 0%N (Some lhs) None None args)
      | t.KeyOpenParen =>
          args <- parseList n t.KeyCloseParen (parseArgNode n) ;;
          parseOperandLoop n (a.NewExpr flags t.IDOpenParen 0%N (Some lhs) None None args)
      | t.KeyOpenBracket =>
          ' (id0, mhs, rhs) <- parseBracket n t.IDColon ;;
          parseOperandLoop n (a.NewExpr 0%N id0 0%N (Some lhs) mhs rhs [])
      | t.KeyDot =>
          advance ;;
          selector <- parseIdent ;;
          parseOperandLoop n (a.NewExpr 0%N t.IDDot selector (Some lhs) None None [])
      | _ => ret lhs
      end
  end.

Definition parseTryExpr (fuel : nat) : M a.Node :=
  match fuel with
  | O => out_of_fuel
  | S n =>
      check t.KeyTry (quoted "try") ;;
      advance ;;
      call <- parseExpr n ;;
      if negb (N.eqb (a.ID0 call) t.IDOpenParen) then
        l <- line ;;
        fail (Errorf ("parse: expected function call after " ++ quoted "try"
                      ++ ", got %q at %s:%d")
                     [AStr (a.Expr_String call tm); AStr filename; ANum l])
      else
        ret (a.NewExpr (a.Flags_of call) t.IDTry (a.ID1 call)
                       (a.LHS call) (a.MHS call) (a.RHS call) (a.Args call))
  end.

Definition parseVar (fuel : nat) (inIterate : bool) : M a.Node :=
  match fuel with
  | O => out_of_fuel
  | S n =>
      id <- parseIdent ;;
      typ <- parseTypeExpr n ;;
      if inIterate then
        check t.KeyColon (quoted ":") ;;
        advance ;;
        value <- parseExpr n ;;
        ret (a.NewVar t.IDColon id (Some typ) (Some value))
      else
        k <- peek1Key ;;
        match k with
        | t.KeyEq =>
            advance ;;
            k <- peek1Key ;;
            value <- match k with
                     | t.KeyTry => parseTryExpr n
                     | _ => parseExpr n
                     end ;;
            ret (a.NewVar t.IDEq id (Some typ) (Some value))
        | _ => ret (a.NewVar 0%N id (Some typ) None)
        end
  end.

Definition parseIterateVariableNode (fuel : nat) : M a.Node :=
  match fuel with
  | O => out_of_fuel
  | S n => parseVar n true
  end.

Definition parseAssertNode (fuel : nat) : M a.Node :=
  match fuel with
  | O => out_of_fuel
  | S n =>
      x <- peek1 ;;
      match t.ID_Key x with
      | t.KeyAssert | t.KeyPre | t.KeyInv | t.KeyPost =>
          advance ;;
          condition <- parseExpr n ;;
          k <- peek1Key ;;
          ' (reason, args) <-
            match k with
            | t.KeyVia =>
                advance ;;
                reason <- expectStrLiteral ;;
                args <- parseList n t.KeyCloseParen (parseArgNode n) ;;
                ret (reason, args)
            | _ => ret (0%N, [])
            end ;;
          ret (a.NewAssert x (Some condition) reason args)
      | _ =>
          l <- line ;;
          fail (Errorf ("parse: expected " ++ quoted "assert" ++ ", " ++ quoted "pre"
                        ++ " or " ++ quoted "post" ++ " at %s:%d")
                       [AStr filename; ANum l])
      end
  end.

Definition parseAsserts (fuel : nat) : M (list a.Node) :=
  match fuel with
  | O => out_of_fuel
  | S n =>
      k <- peek1Key ;;
      match k with
      | t.KeyComma =>
          advance ;;
          asserts <- parseList n t.KeyOpenCurly (parseAssertNode n) ;;
          assertsSorted asserts ;;
          ret asserts
      | _ => ret []
      end
  end.

(** The mutually recursive methods of statements. *)
Fixpoint parseBlock (fuel : nat) : M (list a.Node) :=
  match fuel with
  | O => out_of_fuel
  | S n =>
      check t.KeyOpenCurly (quoted "{") ;;
      advance ;;
      parseBlockLoop n []
  end

with parseBlockLoop (fuel : nat) (block : list a.Node) : M (list a.Node) :=
  match fuel with
  | O => out_of_fuel
  | S n =>
      src <- get_src ;;
      match src with
      | [] =>
          l <- line ;;
          fail (Errorf ("parse: expected " ++ quoted "}" ++ " at %s:%d")
                       [AStr filename; ANum l])
      | x :: _ =>
          if t.Key_eqb (t.ID_Key (t.Token_ID x)) t.KeyCloseCurly then
            advance ;; ret block
          else
            s <- parseStatement n ;;
            check t.KeySemicolon implicitSemicolon ;;
            advance ;;
            parseBlockLoop n (block ++ [s])%list
      end
  end

with parseStatement (fuel : nat) : M a.Node :=
  match fuel with
  | O => out_of_fuel
  | S n =>
      src <- get_src ;;
      let line0 := match src with x :: _ => t.Token_Line x | [] => 0%N end in
      s <- parseStatement1 n ;;
      ret (a.stampVariables filename line0 (a.SetFilenameLine filename line0 s))
  end

with parseStatement1 (fuel : nat) : M a.Node :=
  match fuel with
  | O => out_of_fuel
  | S n =>
      x <- peek1 ;;
      match t.ID_Key x with
      | t.KeyAssert | t.KeyPre | t.KeyPost => parseAssertNode n
      | t.KeyBreak | t.KeyContinue =>
          advance ;;
          label <- parseLabel ;;
          ret (a.NewJump x label)
      | t.KeyIf => parseIf n
      | t.KeyIterate =>
          advance ;;
          check t.KeyDot (quoted ".") ;;
          advance ;;
          unrollID <- peek1 ;;
          let unrollStr := t.ByKey tm (t.ID_Key unrollID) in
          if negb (t.ID_IsLiteral unrollID) then
            l <- line ;;
            fail (Errorf "parse: expected literal unroll count, got %q at %s:%d"
                         [AStr unrollStr; AStr filename; ANum l])
          else
            advance ;;
            if negb (isUnrollCount unrollStr) then
              l <- line ;;
              fail (Errorf "parse: expected power-of-2 unroll count in [1..256], got %q at %s:%d"
                           [AStr unrollStr; AStr filename; ANum l])
            else
              let unroll := a.NewExpr 0%N 0%N unrollID None None None [] in
              label <- parseLabel ;;
              vars <- parseList n t.KeyCloseParen (parseIterateVariableNode n) ;;
              asserts <- parseAsserts n ;;
              body <- parseBlock n ;;
              ret (a.NewIterate label (Some unroll) vars asserts body)
      | t.KeyReturn =>
          advance ;;
          k <- peek1Key ;;
          value <- match k with
                   | t.KeySemicolon => ret None
                   | _ => e <- parseExpr n ;; ret (Some e)
                   end ;;
          ret (a.NewReturn value)
      | t.KeyVar =>
          advance ;;
          parseVar n false
      | t.KeyWhile =>
          advance ;;
          label <- parseLabel ;;
          condition <- parseExpr n ;;
          asserts <- parseAsserts n ;;
          body <- parseBlock n ;;
          ret (a.NewWhile label (Some condition) asserts body)
      | _ =>
          lhs <- parseExpr n ;;
          op <- peek1 ;;
          if t.ID_IsAssign op then
            advance ;;
            rhs <- parseExpr n ;;
            ret (a.NewAssign op (Some lhs) (Some rhs))
          else ret lhs
      end
  end

with parseIf (fuel : nat) : M a.Node :=
  match fuel with
  | O => out_of_fuel
  | S n =>
      check t.KeyIf (quoted "if") ;;
      advance ;;
      condition <- parseExpr n ;;
      bodyIfTrue <- parseBlock n ;;
      k <- peek1Key ;;
      ' (elseIf, bodyIfFalse) <-
        match k with
        | t.KeyElse =>
            advance ;;
            k <- peek1Key ;;
            match k with
            | t.KeyIf => o <- parseIf n ;; ret (Some o, [])
            | _ => b <- parseBlock n ;; ret (None, b)
            end
        | _ => ret (None, [])
        end ;;
      ret (a.NewIf (Some condition) elseIf bodyIfTrue bodyIfFalse)
  end.

Definition parseExprNode (fuel : nat) : M a.Node :=
  match fuel with
  | O => out_of_fuel
  | S n => parseExpr n
  end.

Definition parseFieldNode (fuel : nat) : M a.Node :=
  match fuel with
  | O => out_of_fuel
  | S n =>
      name <- parseIdent ;;
      typ <- parseTypeExpr n ;;
      k <- peek1Key ;;
      defaultValue <- match k with
                      | t.KeyEq => advance ;; e <- parseExpr n ;; ret (Some e)
                      | _ => ret None
                      end ;;
      ret (a.NewField name (Some typ) defaultValue)
  end.

Definition parseDollarExpr (fuel : nat) : M a.Node :=
  match fuel with
  | O => out_of_fuel
  | S n =>
      check t.KeyDollar (quoted "$") ;;
      advance ;;
      args <- parseList n t.KeyCloseParen (parseExprNode n) ;;
      ret (a.NewExpr 0%N t.IDDollar 0%N None None None args)
  end.

Definition invalidPackageID (s : string) : error :=
  Errorf "parse: %q is not a valid packageid" [AStr s].

Definition parseTopLevelDecl (fuel : nat) : M a.Node :=
  match fuel with
  | O => out_of_fuel
  | S n =>
      let flags := 0%N in
      x <- src0 ;;
      let line0 := t.Token_Line x in
      k <- peek1Key ;;
      match k with
      | t.KeyPackageID | t.KeyUse =>
          advance ;;
          path <- expectStrLiteral ;;
          check t.KeySemicolon implicitSemicolon ;;
          advance ;;
          match k with
          | t.KeyPackageID =>
              let raw := t.ID_String path tm in
              let (s, ok) := t.Unescape raw in
              if negb ok then fail (invalidPackageID raw)
              else
                let (u, ok) := base38.Encode s in
                if negb ok || N.eqb u 0 then fail (invalidPackageID s)
                else ret (a.NewPackageID filename line0 path)
          | _ => ret (a.NewUse filename line0 path)
          end
      | t.KeyPub | t.KeyPri =>
          let flags := match k with
                       | t.KeyPub => N.lor flags a.FlagsPublic
                       | _ => flags
                       end in
          advance ;;
          k <- peek1Key ;;
          match k with
          | t.KeyConst =>
              advance ;;
              id <- parseIdent ;;
              typ <- parseTypeExpr n ;;
              k <- peek1Key ;;
              match k with
              | t.KeyEq =>
                  advance ;;
                  (* TODO: parse lists of lists. *)
                  k <- peek1Key ;;
                  value <- match k with
                           | t.KeyDollar => parseDollarExpr n
                           | _ => parseExpr n
                           end ;;
                  check t.KeySemicolon implicitSemicolon ;;
                  advance ;;
                  ret (a.NewConst flags filename line0 id (Some typ) (Some value))
              | _ =>
                  l <- line ;;
                  fail (Errorf "parse: const %q has no value at %s:%d"
                               [AStr (t.ByID tm id); AStr filename; ANum l])
              end
          | t.KeyFunc =>
              advance ;;
              ' (id0, id1) <- parseQualifiedIdent ;;
              if negb (N.eqb id0 0) && t.ID_IsBuiltIn id0 then
                l <- line ;;
                fail (Errorf "parse: built-in %q used for func receiver at %s:%d"
                             [AStr (t.ByID tm id0); AStr filename; ANum l])
              else if t.ID_IsBuiltIn id1 then
                l <- line ;;
                fail (Errorf "parse: built-in %q used for func name at %s:%d"
                             [AStr (t.ByID tm id1); AStr filename; ANum l])
              else
                k <- peek1Key ;;
                flags <- match k with
                         | t.KeyExclam =>
                             advance ;; ret (N.lor flags a.FlagsImpure)
                         | t.KeyQuestion =>
                             advance ;;
                             ret (N.lor flags (N.lor a.FlagsImpure a.FlagsSuspendible))
                         | _ => ret flags
                         end ;;
                inFields <- parseList n t.KeyCloseParen (parseFieldNode n) ;;
                outFields <- parseList n t.KeyCloseParen (parseFieldNode n) ;;
                k <- peek1Key ;;
                asserts <- match k with
                           | t.KeyComma =>
                               advance ;;
                               asserts <- parseList n t.KeyOpenCurly (parseAssertNode n) ;;
                               assertsSorted asserts ;;
                               ret asserts
                           | _ => ret []
                           end ;;
                body <- parseBlock n ;;
                check t.KeySemicolon implicitSemicolon ;;
                advance ;;
                let in_ := a.NewStruct 0%N filename line0 t.IDIn inFields in
                let out := a.NewStruct 0%N filename line0 t.IDOut outFields in
                ret (a.NewFunc flags filename line0 id0 id1 (Some in_) (Some out)
                               asserts body)
          | t.KeyError | t.KeySuspension =>
              x <- src0 ;;
              let keyword := t.Token_ID x in
              advance ;;
              message <- expectStrLiteral ;;
              check t.KeySemicolon implicitSemicolon ;;
              advance ;;
              ret (a.NewStatus flags filename line0 keyword message)
          | t.KeyStruct =>
              advance ;;
              name <- parseIdent ;;
              if t.ID_IsBuiltIn name then
                l <- line ;;
                fail (Errorf "parse: built-in %q used for struct name at %s:%d"
                             [AStr (t.ByID tm name); AStr filename; ANum l])
              else
                k <- peek1Key ;;
                flags <- match k with
                         | t.KeyQuestion =>
                             advance ;; ret (N.lor flags a.FlagsSuspendible)
                         | _ => ret flags
                         end ;;
                fields <- parseList n t.KeyCloseParen (parseFieldNode n) ;;
                check t.KeySemicolon implicitSemicolon ;;
                advance ;;
                ret (a.NewStruct flags filename line0 name fields)
          | _ =>
              fail (Errorf "parse: unrecognized top level declaration at %s:%d"
                           [AStr filename; ANum line0])
          end
      | _ =>
          fail (Errorf "parse: unrecognized top level declaration at %s:%d"
                       [AStr filename; ANum line0])
      end
  end.

(** The loop [for len(p.src) > 0] of parseFile. *)
Fixpoint parseFileLoop (fuel : nat) (topLevelDecls : list a.Node) : M a.File :=
  match fuel with
  | O => out_of_fuel
  | S n =>
      src <- get_src ;;
      match src with
      | [] => ret (a.NewFile filename topLevelDecls)
      | _ :: _ =>
          d <- parseTopLevelDecl n ;;
          parseFileLoop n (topLevelDecls ++ [d])%list
      end
  end.

Definition parseFile (fuel : nat) : M a.File := parseFileLoop fuel [].

End Parser.

(** ** Entry points *)

(** The recursion budget of the entry points, from the number of
    tokens. *)
Definition fuelFor (src : list t.Token) : nat := 16 * S (List.length src).

(** [src[len(src)-1].Line] when [len(src) > 0], else the zero value. *)
Definition lastLineOf (src : list t.Token) : N :=
  last (map t.Token_Line src) 0%N.

(** [Parse] and [ParseExpr] return the outcome of the run, which for a
    success carries the final [p.src] besides the value. *)
Definition Parse `{TO : t.Ops} `{AO : a.Ops} `{BO : base38.Ops}
    (tm : t.Map) (filename : string) (src : list t.Token) : res a.File :=
  parseFile tm filename (lastLineOf src) (fuelFor src) src.

Definition ParseExpr `{TO : t.Ops} `{AO : a.Ops}
    (tm : t.Map) (filename : string) (src : list t.Token) : res a.Node :=
  parseExpr tm filename (lastLineOf src) (fuelFor src) src.

(** ** A concrete token table *)

Module Sample.

Local Open Scope N_scope.

(** Modelled from the spec: the token table of lang/token is not among
    the sources.  An ID carries a classification key, in its high bits,
    and the flags that the predicates test, in its low 16 bits; the zero
    ID has no flag and the invalid key. *)
Definition FlagsOther : N := 1.
Definition FlagsUnaryOp : N := 2.
Definition FlagsBinaryOp : N := 4.
Definition FlagsAssociativeOp : N := 8.
Definition FlagsLiteral : N := 16.
Definition FlagsStrLiteral : N := 64.
Definition FlagsIdent : N := 128.
Definition FlagsAssign : N := 4096.

Definition KeyShift : N := 16.
Definition nBuiltInKeys : N := 256.

Definition mkID (key flags : N) : t.ID := N.lor (N.shiftl key KeyShift) flags.
Definition keyNumber (x : t.ID) : N := N.shiftr x KeyShift.
Definition hasFlag (f : N) (x : t.ID) : bool := negb (N.land x f =? 0).

Definition keyOfNumber (n : N) : t.Key :=
  match n with
  | 16 => t.KeyOpenParen | 17 => t.KeyCloseParen | 18 => t.KeyOpenBracket
  | 19 => t.KeyCloseBracket | 20 => t.KeyOpenCurly | 21 => t.KeyCloseCurly
  | 22 => t.KeyDot | 23 => t.KeyComma | 24 => t.KeyColon
  | 25 => t.KeySemicolon | 26 => t.KeyDollar | 27 => t.KeyExclam
  | 28 => t.KeyQuestion | 29 => t.KeyEq
  | 64 => t.KeyPackageID | 65 => t.KeyUse | 66 => t.KeyPub | 67 => t.KeyPri
  | 68 => t.KeyConst | 69 => t.KeyFunc | 70 => t.KeyError
  | 71 => t.KeySuspension | 72 => t.KeyStatus | 73 => t.KeyStruct
  | 74 => t.KeyPtr | 75 => t.KeyAssert | 76 => t.KeyPre | 77 => t.KeyInv
  | 78 => t.KeyPost | 79 => t.KeyVia | 80 => t.KeyBreak
  | 81 => t.KeyContinue | 82 => t.KeyIf | 83 => t.KeyElse
  | 84 => t.KeyIterate | 85 => t.KeyReturn | 86 => t.KeyVar
  | 87 => t.KeyWhile | 88 => t.KeyTry | 89 => t.KeyAs
  | _ => t.KeyOther n
  end.

(** Punctuation and keywords. *)
Definition IDOpenParen := mkID 16 FlagsOther.
Definition IDCloseParen := mkID 17 FlagsOther.
Definition IDOpenBracket := mkID 18 FlagsOther.
Definition IDCloseBracket := mkID 19 FlagsOther.
Definition IDOpenCurly := mkID 20 FlagsOther.
Definition IDCloseCurly := mkID 21 FlagsOther.
Definition IDDot := mkID 22 FlagsOther.
Definition IDComma := mkID 23 FlagsOther.
Definition IDColon := mkID 24 FlagsOther.
Definition IDSemicolon := mkID 25 FlagsOther.
Definition IDDollar := mkID 26 FlagsOther.
Definition IDExclam := mkID 27 FlagsOther.
Definition IDQuestion := mkID 28 FlagsOther.
Definition IDEq := mkID 29 FlagsAssign.
Definition IDDotDot := mkID 30 FlagsOther.
Definition IDPackageID := mkID 64 FlagsOther.
Definition IDUse := mkID 65 FlagsOther.
Definition IDPub := mkID 66 FlagsOther.
Definition IDPri := mkID 67 FlagsOther.
Definition IDConst := mkID 68 FlagsOther.
Definition IDFunc := mkID 69 FlagsOther.
Definition IDPtr := mkID 74 FlagsOther.
Definition IDAssert := mkID 75 FlagsOther.
Definition IDPre := mkID 76 FlagsOther.
Definition IDInv := mkID 77 FlagsOther.
Definition IDPost := mkID 78 FlagsOther.
Definition IDIterate := mkID 84 FlagsOther.
Definition IDVar := mkID 86 FlagsOther.
Definition IDWhile := mkID 87 FlagsOther.
Definition IDTry := mkID 88 FlagsOther.

(** Operators: the ambiguous source tokens and their disambiguated
    forms. *)
Definition IDPlus := mkID 32 (FlagsUnaryOp + FlagsBinaryOp + FlagsAssociativeOp).
Definition IDStar := mkID 33 (FlagsBinaryOp + FlagsAssociativeOp).
Definition IDMinus := mkID 34 (FlagsUnaryOp + FlagsBinaryOp).
Definition IDAnd := mkID 35 (FlagsBinaryOp + FlagsAssociativeOp).
Definition IDXUnaryPlus := mkID 48 FlagsOther.
Definition IDXUnaryMinus := mkID 49 FlagsOther.
Definition IDXBinaryPlus := mkID 50 FlagsOther.
Definition IDXBinaryStar := mkID 51 FlagsOther.
Definition IDXBinaryMinus := mkID 52 FlagsOther.
Definition IDXBinaryAnd := mkID 53 FlagsOther.
Definition IDXAssociativePlus := mkID 54 FlagsOther.
Definition IDXAssociativeStar := mkID 55 FlagsOther.
Definition IDXAssociativeAnd := mkID 56 FlagsOther.

(** Built-in identifiers. *)
Definition IDIn := mkID 96 FlagsIdent.
Definition IDOut := mkID 97 FlagsIdent.
Definition IDU8 := mkID 98 FlagsIdent.

(** Identifiers, number literals and string literals of a source file:
    their keys start at [nBuiltInKeys]. *)
Definition ident (n : N) : t.ID := mkID (nBuiltInKeys + n) FlagsIdent.
Definition IDa := ident 0.
Definition IDb := ident 1.
Definition IDc := ident 2.
Definition IDf := ident 3.
Definition IDx := ident 4.
Definition IDT := ident 5.
Definition numLiteral (n : N) : t.ID := mkID (nBuiltInKeys + 16 + n) FlagsLiteral.
Definition ID1 := numLiteral 0.
Definition ID2 := numLiteral 1.
Definition ID3 := numLiteral 2.
Definition ID16 := numLiteral 3.
Definition strLiteral (n : N) : t.ID :=
  mkID (nBuiltInKeys + 32 + n) (FlagsLiteral + FlagsStrLiteral).
Definition IDStrFoo := strLiteral 0.
Definition IDStrBang := strLiteral 1.

Definition unaryForm (x : t.ID) : t.ID :=
  match keyNumber x with
  | 32 => IDXUnaryPlus | 34 => IDXUnaryMinus | _ => 0
  end.
Definition binaryForm (x : t.ID) : t.ID :=
  match keyNumber x with
  | 32 => IDXBinaryPlus | 33 => IDXBinaryStar | 34 => IDXBinaryMinus
  | 35 => IDXBinaryAnd | _ => 0
  end.
Definition associativeForm (x : t.ID) : t.ID :=
  match keyNumber x with
  | 32 => IDXAssociativePlus | 33 => IDXAssociativeStar
  | 35 => IDXAssociativeAnd | _ => 0
  end.

(** The text of a string literal is kept with its quotes; [Unescape]
    strips them. *)
Definition unquote (s : string) : string * bool :=
  match s with
  | String c rest =>
      if (Ascii.eqb c (ascii_of_nat 34) && (2 <=? String.length s)%nat
          && String.eqb (substring (String.length rest - 1) 1 rest) dq)%bool
      then (substring 0 (String.length rest - 1) rest, true)
      else (EmptyString, false)
  | EmptyString => (EmptyString, false)
  end.

(** Modelled from the spec: the methods of [t.ID] of lang/token, which is
    not among the sources, on the table above. *)
#[export] Instance tokenOps : t.Ops := {|
  t.ID_Key := fun x => keyOfNumber (keyNumber x);
  t.ID_IsBuiltIn := fun x => keyNumber x <? nBuiltInKeys;
  t.ID_IsIdent := hasFlag FlagsIdent;
  t.ID_IsLiteral := hasFlag FlagsLiteral;
  t.ID_IsStrLiteral := hasFlag FlagsStrLiteral;
  t.ID_IsUnaryOp := hasFlag FlagsUnaryOp;
  t.ID_IsBinaryOp := hasFlag FlagsBinaryOp;
  t.ID_IsAssociativeOp := hasFlag FlagsAssociativeOp;
  t.ID_IsAssign := hasFlag FlagsAssign;
  t.ID_UnaryForm := unaryForm;
  t.ID_BinaryForm := binaryForm;
  t.ID_AssociativeForm := associativeForm;
  t.ID_String := fun x m => t.ByID m x;
  t.Unescape := unquote;
  t.IDIn := IDIn; t.IDOut := IDOut; t.IDPtr := IDPtr; t.IDColon := IDColon;
  t.IDOpenBracket := IDOpenBracket; t.IDDotDot := IDDotDot; t.IDEq := IDEq;
  t.IDDollar := IDDollar; t.IDTry := IDTry; t.IDOpenParen := IDOpenParen;
  t.IDDot := IDDot
|}.

(** Modelled from the spec: the flag constants of lang/ast, which is not
    among the sources, as distinct bits; the String method of an
    expression is a fixed text. *)
#[export] Instance astOps : a.Ops := {|
  a.FlagsPublic := 1;
  a.FlagsImpure := 2;
  a.FlagsSuspendible := 4;
  a.FlagsCallImpure := 8;
  a.FlagsCallSuspendible := 16;
  a.Expr_String := fun _ _ => "<expr>"%string
|}.

(** Modelled from the spec: the package-id validator of lang/base38,
    which is not among the sources.  A package id is four characters of
    the base-38 alphabet (space, digits, question mark, lower-case
    letters). *)
Definition base38Digit (c : ascii) : option N :=
  let n := N_of_ascii c in
  if n =? 32 then Some 0
  else if (48 <=? n) && (n <=? 57) then Some (n - 48 + 1)
  else if n =? 63 then Some 11
  else if (97 <=? n) && (n <=? 122) then Some (n - 97 + 12)
  else None.

Fixpoint base38Value (s : string) (acc : N) : option N :=
  match s with
  | EmptyString => Some acc
  | String c rest =>
      match base38Digit c with
      | Some d => base38Value rest (38 * acc + d)
      | None => None
      end
  end.

(** Modelled from the spec: [base38.Encode], on the digits above. *)
#[export] Instance base38Ops : base38.Ops := {|
  base38.Encode := fun s =>
    if (String.length s =? 4)%nat then
      match base38Value s 0 with
      | Some u => (u, true)
      | None => (0, false)
      end
    else (0, false)
|}.

(** The text of the keys, for diagnostics. *)
Definition textOfKey (k : t.Key) : string :=
  (match k with
   | t.KeyOpenParen => "(" | t.KeyCloseParen => ")" | t.KeyOpenBracket => "["
   | t.KeyCloseBracket => "]" | t.KeyOpenCurly => "{" | t.KeyCloseCurly => "}"
   | t.KeyDot => "." | t.KeyComma => "," | t.KeyColon => ":"
   | t.KeySemicolon => ";" | t.KeyDollar => "$" | t.KeyExclam => "!"
   | t.KeyQuestion => "?" | t.KeyEq => "="
   | t.KeyPackageID => "packageid" | t.KeyUse => "use" | t.KeyPub => "pub"
   | t.KeyPri => "pri" | t.KeyConst => "const" | t.KeyFunc => "func"
   | t.KeyError => "error" | t.KeySuspension => "suspension"
   | t.KeyStatus => "status" | t.KeyStruct => "struct" | t.KeyPtr => "ptr"
   | t.KeyAssert => "assert" | t.KeyPre => "pre" | t.KeyInv => "inv"
   | t.KeyPost => "post" | t.KeyVia => "via" | t.KeyBreak => "break"
   | t.KeyContinue => "continue" | t.KeyIf => "if" | t.KeyElse => "else"
   | t.KeyIterate => "iterate" | t.KeyReturn => "return" | t.KeyVar => "var"
   | t.KeyWhile => "while" | t.KeyTry => "try" | t.KeyAs => "as"
   | t.KeyOther 30 => ".."
   | t.KeyOther 32 => "+" | t.KeyOther 33 => "*" | t.KeyOther 34 => "-"
   | t.KeyOther 35 => "and"
   | t.KeyOther 96 => "in" | t.KeyOther 97 => "out" | t.KeyOther 98 => "u8"
   | t.KeyOther 256 => "a" | t.KeyOther 257 => "b" | t.KeyOther 258 => "c"
   | t.KeyOther 259 => "f" | t.KeyOther 260 => "x" | t.KeyOther 261 => "T"
   | t.KeyOther 272 => "1" | t.KeyOther 273 => "2" | t.KeyOther 274 => "3"
   | t.KeyOther 275 => "16"
   | t.KeyOther 288 => quoted "foo"
   | t.KeyOther 289 => quoted "!"
   | t.KeyOther _ => EmptyString
   end)%string.

Definition tm : t.Map := {|
  t.ByID := fun x => textOfKey (t.ID_Key x);
  t.ByKey := textOfKey;
  t.ByToken := fun x => textOfKey (t.Token_Key x)
|}.

(** A token sequence from IDs, all on line [l]. *)
Definition onLine (l : N) (ids : list t.ID) : list t.Token :=
  map (fun x => t.mkToken x l) ids.

(** Example inputs: [pri func f()() { <body> };], all on line 1, and the
    three assertion chains of the examples. *)
Definition funcHeader : list t.ID :=
  [IDPri; IDFunc; IDf; IDOpenParen; IDCloseParen; IDOpenParen; IDCloseParen].

Definition funcWithBody (body : list t.ID) : list t.Token :=
  onLine 1 (funcHeader ++ [IDOpenCurly] ++ body ++ [IDCloseCurly; IDSemicolon]).

Definition funcWithChain (chain : list t.ID) : list t.Token :=
  onLine 1 (funcHeader ++ [IDComma] ++ chain ++ [IDOpenCurly; IDCloseCurly; IDSemicolon]).

Definition whileWithChain (chain : list t.ID) : list t.Token :=
  funcWithBody ([IDWhile; IDa; IDComma] ++ chain
                ++ [IDOpenCurly; IDCloseCurly; IDSemicolon]).

Definition iterateWithChain (chain : list t.ID) : list t.Token :=
  funcWithBody ([IDIterate; IDDot; ID16; IDOpenParen; IDCloseParen; IDComma] ++ chain
                ++ [IDOpenCurly; IDCloseCurly; IDSemicolon]).

Definition chainPrePostInv : list t.ID :=
  [IDPre; IDa; IDComma; IDPost; IDb; IDComma; IDInv; IDc].
Definition chainPreInvPost : list t.ID :=
  [IDPre; IDa; IDComma; IDInv; IDb; IDComma; IDPost; IDc].
Definition chainWithAssert : list t.ID :=
  [IDPre; IDa; IDComma; IDAssert; IDb].

Definition exprOf (x : t.ID) : a.Node := a.NewExpr 0 0 x None None None [].
Definition assertOf (keyword x : t.ID) : a.Node :=
  a.NewAssert keyword (Some (exprOf x)) 0 [].

(** [var x T = try (1 + 2);] *)
Definition varTryNoCall : list t.ID :=
  [IDVar; IDx; IDT; IDEq; IDTry; IDOpenParen; ID1; IDPlus; ID2; IDCloseParen;
   IDSemicolon].
(** [var x T = try f(1, 2);] *)
Definition varTryPositional : list t.ID :=
  [IDVar; IDx; IDT; IDEq; IDTry; IDf; IDOpenParen; ID1; IDComma; ID2; IDCloseParen;
   IDSemicolon].
(** [var x T = try f(a: 1, b: 2);] *)
Definition varTryNamed : list t.ID :=
  [IDVar; IDx; IDT; IDEq; IDTry; IDf; IDOpenParen; IDa; IDColon; ID1; IDComma;
   IDb; IDColon; ID2; IDCloseParen; IDSemicolon].
(** [iterate.3 () {};] and [iterate.16 () {};] *)
Definition iterateUnroll (count : t.ID) : list t.ID :=
  [IDIterate; IDDot; count; IDOpenParen; IDCloseParen; IDOpenCurly; IDCloseCurly;
   IDSemicolon].
Definition argOf (name value : t.ID) : a.Node :=
  a.NewArg name (Some (exprOf value)).
Definition typeT : a.Node := a.NewTypeExpr 0 IDT None None None.

(** Further keywords. *)
Definition IDIf := mkID 82 FlagsOther.
Definition IDElse := mkID 83 FlagsOther.

End Sample.

(** ** Vocabulary of the statements *)

(** [m2] gives every result that [m1] gives with its budget: the order
    in which a larger recursion budget refines a smaller one. *)
Definition refines {A} (m1 m2 : M A) : Prop :=
  forall s, m1 s <> OutOfFuel -> m2 s = m1 s.

(** [returns f s r]: the method [f], run on the remaining tokens [s],
    returns [r] (a value and the new [p.src], an error, or a panic) once
    its budget is large enough. *)
Definition returns {A} (f : nat -> M A) (s : list t.Token) (r : res A) : Prop :=
  r <> OutOfFuel /\ exists n0, forall n, n0 <= n -> f n s = r.

(** The tokens of [s] are on lines among [lines]. *)
Definition onLines (lines : list N) (s : list t.Token) : Prop :=
  Forall (fun x => In (t.Token_Line x) lines) s.

(** Started on tokens whose lines are among [lines], [m] leaves such
    tokens when it succeeds, and returns an error that satisfies [P] when
    it fails. *)
Definition errors_satisfy {A} (lines : list N) (P : error -> Prop) (m : M A) : Prop :=
  forall s, onLines lines s ->
    match m s with
    | Ok _ s' => onLines lines s'
    | Err e => P e
    | _ => True
    end.

(** On at most [b] remaining tokens, [m] does not run out of budget and
    does not lengthen [p.src] ([total_on]), or consumes at least one token
    when it succeeds ([consumes_on]). *)
Definition total_on {A} (b : nat) (m : M A) : Prop :=
  forall s, List.length s <= b ->
    m s <> OutOfFuel /\
    forall x s', m s = Ok x s' -> List.length s' <= List.length s.

Definition consumes_on {A} (b : nat) (m : M A) : Prop :=
  forall s, List.length s <= b ->
    m s <> OutOfFuel /\
    forall x s', m s = Ok x s' -> List.length s' < List.length s.

(** *** Diagnostics *)

(** The format is [parse: <problem> at %s:%d]: it equals its own middle
    part put between the two fixed ends. *)
Definition positionedFormat (f : string) : bool :=
  String.eqb f ("parse: " ++ substring 7 (String.length f - 16) f ++ " at %s:%d").

(** The error is a message [parse: <problem> at <filename>:<line>]: its
    format has that shape and its last two arguments, those of the final
    [%s:%d], are the filename and a line number among [lines]. *)
Definition positioned (filename : string) (lines : list N) (e : error) : Prop :=
  match e with
  | Errorf f args =>
      positionedFormat f = true /\
      match rev args with
      | ANum l :: AStr fn :: _ => fn = filename /\ In l lines
      | _ => False
      end
  end.

(** The lines that a diagnostic of a parse of [src] can name: the lines
    of the tokens, and the line that stands for the end of the stream (that
    of the last token; 0 when [src] is empty). *)
Definition sourceLines (src : list t.Token) : list N :=
  lastLineOf src :: map t.Token_Line src.

(** The errors that parse.go formats without a position. *)
Inductive unpositioned `{TO : t.Ops} : error -> Prop :=
| unpositioned_packageid (s : string) :
    unpositioned (Errorf "parse: %q is not a valid packageid" [AStr s])
| unpositioned_form (which : string) (x : t.ID) :
    unpositioned (Errorf ("parse: internal error: no " ++ which
                          ++ " form for token.Key 0x%#02x") [AKey (t.ID_Key x)]).

(** An error of parse.go: positioned, or one of the five that are
    formatted without a position. *)
Definition wellFormed `{TO : t.Ops} (filename : string) (lines : list N)
    (e : error) : Prop :=
  positioned filename lines e \/ unpositioned e.

(** *** Assertion chains *)

Definition keywordKey `{TO : t.Ops} (n : a.Node) : t.Key := t.ID_Key (a.Keyword n).

(** The keywords of the chain are drawn from assert, pre, inv, post. *)
Definition chainKeywords `{TO : t.Ops} (asserts : list a.Node) : Prop :=
  Forall (fun n => In (keywordKey n) [t.KeyAssert; t.KeyPre; t.KeyInv; t.KeyPost])
         asserts.

(** No node of the chain is a bare [assert]. *)
Definition noBareAssert `{TO : t.Ops} (asserts : list a.Node) : Prop :=
  Forall (fun n => keywordKey n <> t.KeyAssert) asserts.

(** The keywords of the chain match pre* inv* post*. *)
Definition preInvPost `{TO : t.Ops} (asserts : list a.Node) : Prop :=
  exists pres invs posts,
    asserts = (pres ++ invs ++ posts)%list /\
    Forall (fun n => keywordKey n = t.KeyPre) pres /\
    Forall (fun n => keywordKey n = t.KeyInv) invs /\
    Forall (fun n => keywordKey n = t.KeyPost) posts.

(** The remaining tokens after the optional purity marker ([!] or [?])
    that may follow the name of a func. *)
Definition afterPurityMarker `{TO : t.Ops} (s : list t.Token) : list t.Token :=
  match s with
  | x :: s' =>
      match t.Token_Key x with
      | t.KeyExclam | t.KeyQuestion => s'
      | _ => s
      end
  | [] => s
  end.

(** *** The zero ID *)

(** The zero ID, which [peek1] returns at the end of the stream, has no
    classification: its key is none of the named keys, and it is neither a
    unary operator nor a literal. *)
Definition zeroIDInert `{TO : t.Ops} : Prop :=
  (exists n, t.ID_Key 0%N = t.KeyOther n) /\
  t.ID_IsUnaryOp 0%N = false /\ t.ID_IsLiteral 0%N = false.

(** *** Lists, expressions and statements *)

(** [ListOf stop parseElem s elems s']: the tokens [s] are elements, each
    parsed by [parseElem] and each but the last followed by a comma, up to
    [s'], which starts with the stop token; a comma may precede the
    stop. *)
Inductive ListOf `{TO : t.Ops} (stop : t.Key) (parseElem : M a.Node)
    : list t.Token -> list a.Node -> list t.Token -> Prop :=
| ListOf_stop x rest :
    t.ID_Key (t.Token_ID x) = stop ->
    ListOf stop parseElem (x :: rest) [] (x :: rest)
| ListOf_last x rest elem x' rest' :
    t.ID_Key (t.Token_ID x) <> stop ->
    parseElem (x :: rest) = Ok elem (x' :: rest') ->
    t.ID_Key (t.Token_ID x') = stop ->
    ListOf stop parseElem (x :: rest) [elem] (x' :: rest')
| ListOf_comma x rest elem x' rest' elems s' :
    t.ID_Key (t.Token_ID x) <> stop ->
    parseElem (x :: rest) = Ok elem (x' :: rest') ->
    t.ID_Key (t.Token_ID x') <> stop ->
    t.ID_Key (t.Token_ID x') = t.KeyComma ->
    ListOf stop parseElem rest' elems s' ->
    ListOf stop parseElem (x :: rest) (elem :: elems) s'.

(** The tokens that remain once the list is closed at the stop token
    [x]: the stop token is consumed only in the paren-wrapped case. *)
Definition afterStop (stop : t.Key) (x : t.Token) (rest : list t.Token)
    : list t.Token :=
  if t.Key_eqb stop t.KeyCloseParen then rest else x :: rest.

(** [p.peek1()] as a function of [p.src]. *)
Definition peek1Of (s : list t.Token) : t.ID :=
  match s with x :: _ => t.Token_ID x | [] => 0%N end.

(** [p.line()] as a function of [p.src]. *)
Definition lineOf (lastLine : N) (s : list t.Token) : N :=
  match s with x :: _ => t.Token_Line x | [] => lastLine end.

(** The right-hand side of a binary operator [x] in parseExpr: a type
    expression after [as], an operand otherwise. *)
Definition parseRHS `{TO : t.Ops} `{AO : a.Ops} (tm : t.Map) (filename : string)
    (lastLine : N) (x : t.ID) (fuel : nat) : M a.Node :=
  match t.ID_Key x with
  | t.KeyAs => parseTypeExpr tm filename lastLine fuel
  | _ => parseOperand tm filename lastLine fuel
  end.

(** [OperandRun x s more s']: the tokens [s] are pairs of the operator
    token [x] and an operand, the operands being [more] in order, up to
    [s'], whose next token is not [x]. *)
Inductive OperandRun `{TO : t.Ops} `{AO : a.Ops} (tm : t.Map) (filename : string)
    (lastLine : N) (x : t.ID)
    : list t.Token -> list a.Node -> list t.Token -> Prop :=
| OperandRun_done s :
    peek1Of s <> x ->
    OperandRun tm filename lastLine x s [] s
| OperandRun_step y rest arg s1 more s' :
    t.Token_ID y = x ->
    returns (parseOperand tm filename lastLine) rest (Ok arg s1) ->
    OperandRun tm filename lastLine x s1 more s' ->
    OperandRun tm filename lastLine x (y :: rest) (arg :: more) s'.



Definition receiverError `{TO : t.Ops} (tm : t.Map) (filename : string)
    (id0 : t.ID) (l : N) : error :=
  Errorf "parse: built-in %q used for func receiver at %s:%d"
         [AStr (t.ByID tm id0); AStr filename; ANum l].

Definition nameError `{TO : t.Ops} (tm : t.Map) (filename : string)
    (id1 : t.ID) (l : N) : error :=
  Errorf "parse: built-in %q used for func name at %s:%d"
         [AStr (t.ByID tm id1); AStr filename; ANum l].


(** *** Further vocabulary: progress, the file loop, the zero ID *)

(** When [m] succeeds, the tokens it leaves are a suffix of those it
    started on. *)
Definition leaves_suffix {A} (m : M A) : Prop :=
  forall s x s', m s = Ok x s' -> exists pre, s = (pre ++ s')%list.

(** The outcome of parseFile once the declarations [ds] have been parsed
    before the declarations of the outcome [r]. *)
Definition prependDecls (ds : list a.Node) (r : res a.File) : res a.File :=
  match r with
  | Ok f rest => Ok (a.NewFile (a.File_Filename f) (ds ++ a.File_TopLevelDecls f)%list) rest
  | other => other
  end.

(** The zero ID, which [peek1] returns at the end of the stream, is in no
    class of tokens and its key is none of the keys that parse.go names,
    nor that of the colon or of the double dot. *)
Definition zeroIDInvalid `{TO : t.Ops} : Prop :=
  (exists n, t.ID_Key 0%N = t.KeyOther n) /\
  t.ID_IsUnaryOp 0%N = false /\ t.ID_IsLiteral 0%N = false /\
  t.ID_IsStrLiteral 0%N = false /\ t.ID_IsBinaryOp 0%N = false /\
  t.ID_IsAssign 0%N = false /\
  t.ID_Key t.IDColon <> t.ID_Key 0%N /\ t.ID_Key t.IDDotDot <> t.ID_Key 0%N.

(** *** The shape of the syntax tree *)

Definition optNodes (o : option a.Node) : list a.Node :=
  match o with Some n => [n] | None => [] end.

(** The nodes that a node holds. *)
Definition children (n : a.Node) : list a.Node :=
  match a.desc n with
  | a.DPackageID _ | a.DUse _ | a.DStatus _ _ _ | a.DJump _ _ => []
  | a.DConst _ _ typ value => optNodes typ ++ optNodes value
  | a.DFunc _ _ _ in_ out asserts body =>
      optNodes in_ ++ optNodes out ++ asserts ++ body
  | a.DStruct _ _ fields => fields
  | a.DField _ typ defaultValue => optNodes typ ++ optNodes defaultValue
  | a.DTypeExpr _ _ lhs mhs inner => optNodes lhs ++ optNodes mhs ++ optNodes inner
  | a.DExpr _ _ _ lhs mhs rhs args =>
      optNodes lhs ++ optNodes mhs ++ optNodes rhs ++ args
  | a.DAssert _ condition _ args => optNodes condition ++ args
  | a.DArg _ value => optNodes value
  | a.DVar _ _ typ value => optNodes typ ++ optNodes value
  | a.DAssign _ lhs rhs => optNodes lhs ++ optNodes rhs
  | a.DIf condition elseIf bodyIfTrue bodyIfFalse =>
      optNodes condition ++ optNodes elseIf ++ bodyIfTrue ++ bodyIfFalse
  | a.DIterate _ unroll vars asserts body =>
      optNodes unroll ++ vars ++ asserts ++ body
  | a.DWhile _ condition asserts body => optNodes condition ++ asserts ++ body
  | a.DReturn value => optNodes value
  end%list.

(** [within n m]: the node [m] is [n] or occurs below it. *)
Inductive within : a.Node -> a.Node -> Prop :=
| within_here n : within n n
| within_child n c m : In c (children n) -> within c m -> within n m.

(** [P] holds of the node and of every node below it. *)
Definition everywhere (P : a.Node -> Prop) (n : a.Node) : Prop :=
  forall m, within n m -> P m.

Definition kindIs (k : a.Kind) (n : a.Node) : Prop := a.Kind_of n = k.

(** A pointer argument that may be nil, and one that is never nil. *)
Definition optionally (Q : a.Node -> Prop) (o : option a.Node) : Prop :=
  match o with Some n => Q n | None => True end.

Definition present (Q : a.Node -> Prop) (o : option a.Node) : Prop :=
  match o with Some n => Q n | None => False end.

Definition isStatementKind (k : a.Kind) : bool :=
  match k with
  | a.KAssert | a.KJump | a.KIf | a.KIterate | a.KReturn | a.KVar | a.KWhile
  | a.KExpr | a.KAssign => true
  | _ => false
  end.

Definition isDeclKind (k : a.Kind) : bool :=
  match k with
  | a.KPackageID | a.KUse | a.KConst | a.KFunc | a.KStatus | a.KStruct => true
  | _ => false
  end.

(** The node carries the filename and a line among [lines]. *)
Definition positionedAt (filename : string) (lines : list N) (n : a.Node) : Prop :=
  a.Filename n = filename /\ In (a.Line n) lines.

(** A statement of a block carries its position, and the variables of an
    iterate statement carry it too. *)
Definition positionedStatement (filename : string) (lines : list N) (n : a.Node) : Prop :=
  positionedAt filename lines n /\
  match a.desc n with
  | a.DIterate _ _ vars _ _ => Forall (positionedAt filename lines) vars
  | _ => True
  end.

Definition statementKind (n : a.Node) : Prop := isStatementKind (a.Kind_of n) = true.

(** The right-hand side of an operator: an expression, or the type of a
    conversion. *)
Definition operandKind (n : a.Node) : Prop := kindIs a.KExpr n \/ kindIs a.KTypeExpr n.

(** What a node holds, by its kind: the kinds of the nodes that parse.go
    passes to its constructor function.  An if node has an else-if or an
    else block, not both. *)
Definition wellShaped (n : a.Node) : Prop :=
  match a.desc n with
  | a.DPackageID _ | a.DUse _ | a.DStatus _ _ _ | a.DJump _ _ => True
  | a.DConst _ _ typ value =>
      present (kindIs a.KTypeExpr) typ /\ present (kindIs a.KExpr) value
  | a.DFunc _ _ _ in_ out asserts body =>
      present (kindIs a.KStruct) in_ /\ present (kindIs a.KStruct) out /\
      Forall (kindIs a.KAssert) asserts /\ Forall statementKind body
  | a.DStruct _ _ fields => Forall (kindIs a.KField) fields
  | a.DField _ typ defaultValue =>
      present (kindIs a.KTypeExpr) typ /\ optionally (kindIs a.KExpr) defaultValue
  | a.DTypeExpr _ _ lhs mhs inner =>
      optionally (kindIs a.KExpr) lhs /\ optionally (kindIs a.KExpr) mhs /\
      optionally (kindIs a.KTypeExpr) inner
  | a.DExpr _ _ _ lhs mhs rhs args =>
      optionally (kindIs a.KExpr) lhs /\ optionally (kindIs a.KExpr) mhs /\
      optionally operandKind rhs /\
      (Forall (kindIs a.KArg) args \/ Forall operandKind args)
  | a.DAssert _ condition _ args =>
      present (kindIs a.KExpr) condition /\ Forall (kindIs a.KArg) args
  | a.DArg _ value => present (kindIs a.KExpr) value
  | a.DVar _ _ typ value =>
      present (kindIs a.KTypeExpr) typ /\ optionally (kindIs a.KExpr) value
  | a.DAssign _ lhs rhs =>
      present (kindIs a.KExpr) lhs /\ present (kindIs a.KExpr) rhs
  | a.DIf condition elseIf bodyIfTrue bodyIfFalse =>
      present (kindIs a.KExpr) condition /\ optionally (kindIs a.KIf) elseIf /\
      Forall statementKind bodyIfTrue /\ Forall statementKind bodyIfFalse /\
      (elseIf <> None -> bodyIfFalse = [])
  | a.DIterate _ unroll vars asserts body =>
      present (kindIs a.KExpr) unroll /\ Forall (kindIs a.KVar) vars /\
      Forall (kindIs a.KAssert) asserts /\ Forall statementKind body
  | a.DWhile _ condition asserts body =>
      present (kindIs a.KExpr) condition /\ Forall (kindIs a.KAssert) asserts /\
      Forall statementKind body
  | a.DReturn value => optionally (kindIs a.KExpr) value
  end.

(** The statements of the blocks that the node holds carry their
    position. *)
Definition blocksPositioned (filename : string) (lines : list N) (n : a.Node) : Prop :=
  match a.desc n with
  | a.DFunc _ _ _ _ _ _ body => Forall (positionedStatement filename lines) body
  | a.DIf _ _ bodyIfTrue bodyIfFalse =>
      Forall (positionedStatement filename lines) bodyIfTrue /\
      Forall (positionedStatement filename lines) bodyIfFalse
  | a.DIterate _ _ _ _ body => Forall (positionedStatement filename lines) body
  | a.DWhile _ _ _ body => Forall (positionedStatement filename lines) body
  | _ => True
  end.

(** The chain has no bare assert and its keywords match pre* inv*
    post*. *)
Definition sortedChain `{TO : t.Ops} (asserts : list a.Node) : Prop :=
  noBareAssert asserts /\ preInvPost asserts.

(** The flags of a call: none, those of a call marked [!], and those of a
    call marked [?]. *)
Definition impureCall `{AO : a.Ops} : a.Flags := N.lor a.FlagsImpure a.FlagsCallImpure.
Definition suspendibleCall `{AO : a.Ops} : a.Flags :=
  N.lor impureCall (N.lor a.FlagsSuspendible a.FlagsCallSuspendible).

(** What the parser has checked of a node, or has put in it: the flags of
    an expression, which are those of a call; the keyword of an assert
    node and of a jump; the names of a func and its chain; the chain of a
    while statement; the unroll count of an iterate statement, a literal
    whose text is in the whitelist, and its chain. *)
Definition validNode `{TO : t.Ops} `{AO : a.Ops} (tm : t.Map) (n : a.Node) : Prop :=
  match a.desc n with
  | a.DExpr flags _ _ _ _ _ _ => In flags [0%N; impureCall; suspendibleCall]
  | a.DAssert keyword _ _ _ =>
      In (t.ID_Key keyword) [t.KeyAssert; t.KeyPre; t.KeyInv; t.KeyPost]
  | a.DJump keyword _ => In (t.ID_Key keyword) [t.KeyBreak; t.KeyContinue]
  | a.DFunc _ receiver name _ _ asserts _ =>
      (receiver = 0%N \/ t.ID_IsBuiltIn receiver = false) /\
      t.ID_IsBuiltIn name = false /\ sortedChain asserts
  | a.DWhile _ _ asserts _ => sortedChain asserts
  | a.DIterate _ unroll _ asserts _ =>
      (exists u, unroll = Some (a.NewExpr 0%N 0%N u None None None []) /\
                 t.ID_IsLiteral u = true /\
                 In (t.ByKey tm (t.ID_Key u))
                    ["1"; "2"; "4"; "8"; "16"; "32"; "64"; "128"; "256"]) /\
      sortedChain asserts
  | _ => True
  end.

(** The name of a top-level struct is not built in. *)
Definition declNames `{TO : t.Ops} (n : a.Node) : Prop :=
  match a.desc n with
  | a.DStruct _ name _ => t.ID_IsBuiltIn name = false
  | _ => True
  end.

Definition wellFormedNode `{TO : t.Ops} `{AO : a.Ops} (tm : t.Map) (filename : string)
    (lines : list N) (n : a.Node) : Prop :=
  wellShaped n /\ blocksPositioned filename lines n /\ validNode tm n.

(** Started on tokens whose lines are among [lines], [m] leaves such
    tokens when it succeeds, and its value satisfies [Q]. *)
Definition yields {A} (lines : list N) (Q : A -> Prop) (m : M A) : Prop :=
  forall s, onLines lines s ->
    match m s with
    | Ok x s' => onLines lines s' /\ Q x
    | _ => True
    end.

(** A node of kind [k] that is well formed everywhere. *)
Definition nodeOf `{TO : t.Ops} `{AO : a.Ops} (tm : t.Map) (filename : string)
    (lines : list N) (k : a.Kind) (n : a.Node) : Prop :=
  kindIs k n /\ everywhere (wellFormedNode tm filename lines) n.

Definition operandOf `{TO : t.Ops} `{AO : a.Ops} (tm : t.Map) (filename : string)
    (lines : list N) (n : a.Node) : Prop :=
  operandKind n /\ everywhere (wellFormedNode tm filename lines) n.

Definition statementOf `{TO : t.Ops} `{AO : a.Ops} (tm : t.Map) (filename : string)
    (lines : list N) (n : a.Node) : Prop :=
  statementKind n /\ positionedStatement filename lines n /\
  everywhere (wellFormedNode tm filename lines) n.

(** What parseStatement1 returns, before parseStatement puts the position
    on it. *)
Definition unstampedStatementOf `{TO : t.Ops} `{AO : a.Ops} (tm : t.Map) (filename : string)
    (lines : list N) (n : a.Node) : Prop :=
  statementKind n /\ everywhere (wellFormedNode tm filename lines) n.

(** A top-level declaration. *)
Definition declOf `{TO : t.Ops} `{AO : a.Ops} (tm : t.Map) (filename : string)
    (lines : list N) (n : a.Node) : Prop :=
  isDeclKind (a.Kind_of n) = true /\ positionedAt filename lines n /\ declNames n /\
  everywhere (wellFormedNode tm filename lines) n.

(** *** Brackets, selectors, blocks and declarations *)

(** The error of parseBracket at a token [y] that is neither the
    separator nor, for the colon, the closing bracket. *)
Definition expectedSeparator `{TO : t.Ops} (tm : t.Map) (filename : string)
    (sep : t.ID) (y : t.Token) : error :=
  Errorf "parse: expected %q%s, got %q at %s:%d"
         [AStr (t.ByID tm sep);
          AStr (if t.Key_eqb (t.ID_Key sep) t.KeyColon then " or " ++ quoted "]"
                else EmptyString);
          AStr (t.ByKey tm (t.ID_Key (t.Token_ID y))); AStr filename;
          ANum (t.Token_Line y)].

(** The keys on which the postfix loop of parseOperand goes on. *)
Definition isPostfixKey (k : t.Key) : bool :=
  match k with
  | t.KeyExclam | t.KeyQuestion | t.KeyOpenParen | t.KeyOpenBracket | t.KeyDot => true
  | _ => false
  end.

(** The keys on which parseOperand does not start with an identifier. *)
Definition isOperandKeyword (k : t.Key) : bool :=
  match k with
  | t.KeyOpenParen | t.KeyError | t.KeyStatus | t.KeySuspension => true
  | _ => false
  end.

(** [Selectors s ys s']: the tokens [s] are the selectors [. y] of the
    identifiers [ys], in order, up to [s']. *)
Inductive Selectors `{TO : t.Ops} : list t.Token -> list t.ID -> list t.Token -> Prop :=
| Selectors_nil s : Selectors s [] s
| Selectors_cons dot y s ys s' :
    t.ID_Key (t.Token_ID dot) = t.KeyDot ->
    t.ID_IsIdent (t.Token_ID y) = true ->
    Selectors s ys s' ->
    Selectors (dot :: y :: s) (t.Token_ID y :: ys) s'.

(** The expression [lhs.y]. *)
Definition selectorOf `{TO : t.Ops} (lhs : a.Node) (y : t.ID) : a.Node :=
  a.NewExpr 0%N t.IDDot y (Some lhs) None None [].

(** [BlockOf s stmts s']: the tokens [s] are the statements [stmts], each
    followed by a semicolon, and the closing brace, up to [s']. *)
Inductive BlockOf `{TO : t.Ops} `{AO : a.Ops} (tm : t.Map) (filename : string)
    (lastLine : N) : list t.Token -> list a.Node -> list t.Token -> Prop :=
| BlockOf_close x rest :
    t.ID_Key (t.Token_ID x) = t.KeyCloseCurly ->
    BlockOf tm filename lastLine (x :: rest) [] rest
| BlockOf_statement x rest st semi s1 stmts s' :
    t.ID_Key (t.Token_ID x) <> t.KeyCloseCurly ->
    returns (parseStatement tm filename lastLine) (x :: rest) (Ok st (semi :: s1)) ->
    t.ID_Key (t.Token_ID semi) = t.KeySemicolon ->
    BlockOf tm filename lastLine s1 stmts s' ->
    BlockOf tm filename lastLine (x :: rest) (st :: stmts) s'.

(** The keys that start a top-level declaration, and those that follow
    [pub] or [pri]. *)
Definition startsDecl (k : t.Key) : bool :=
  match k with
  | t.KeyPackageID | t.KeyUse | t.KeyPub | t.KeyPri => true
  | _ => false
  end.

Definition followsVisibility (k : t.Key) : bool :=
  match k with
  | t.KeyConst | t.KeyFunc | t.KeyError | t.KeySuspension | t.KeyStruct => true
  | _ => false
  end.

Definition unrecognizedDecl (filename : string) (l : N) : error :=
  Errorf "parse: unrecognized top level declaration at %s:%d" [AStr filename; ANum l].

(** [m] returns values that satisfy [Q]. *)
Definition results {A} (Q : A -> Prop) (m : M A) : Prop :=
  forall s v s', m s = Ok v s' -> Q v.

(** *** Type expressions, if statements and expressions *)

(** [TypeOf s ty s']: the tokens [s] are the type expression [ty], up to
    [s']: a pointer type [ptr T], a slice type [[] T], an array type
    [[n] T], or a possibly qualified name with an optional refinement
    [[i..j]]. *)
Inductive TypeOf `{TO : t.Ops} `{AO : a.Ops} (tm : t.Map) (filename : string)
    (lastLine : N) : list t.Token -> a.Node -> list t.Token -> Prop :=
| TypeOf_ptr x rest ty s' :
    t.ID_Key (t.Token_ID x) = t.KeyPtr ->
    TypeOf tm filename lastLine rest ty s' ->
    TypeOf tm filename lastLine (x :: rest)
           (a.NewTypeExpr t.IDPtr 0%N None None (Some ty)) s'
| TypeOf_slice x y rest ty s' :
    t.ID_Key (t.Token_ID x) = t.KeyOpenBracket ->
    t.ID_Key (t.Token_ID y) = t.KeyCloseBracket ->
    TypeOf tm filename lastLine rest ty s' ->
    TypeOf tm filename lastLine (x :: y :: rest)
           (a.NewTypeExpr t.IDColon 0%N None None (Some ty)) s'
| TypeOf_array x rest len close s1 ty s' :
    t.ID_Key (t.Token_ID x) = t.KeyOpenBracket ->
    t.ID_Key (peek1Of rest) <> t.KeyCloseBracket ->
    returns (parseExpr tm filename lastLine) rest (Ok len (close :: s1)) ->
    t.ID_Key (t.Token_ID close) = t.KeyCloseBracket ->
    TypeOf tm filename lastLine s1 ty s' ->
    TypeOf tm filename lastLine (x :: rest)
           (a.NewTypeExpr t.IDOpenBracket 0%N (Some len) None (Some ty)) s'
| TypeOf_name s pkg name s' :
    t.ID_Key (peek1Of s) <> t.KeyPtr ->
    t.ID_Key (peek1Of s) <> t.KeyOpenBracket ->
    parseQualifiedIdent tm filename lastLine s = Ok (pkg, name) s' ->
    t.ID_Key (peek1Of s') <> t.KeyOpenBracket ->
    TypeOf tm filename lastLine s (a.NewTypeExpr pkg name None None None) s'
| TypeOf_refined s pkg name s1 op lhs mhs s' :
    t.ID_Key (peek1Of s) <> t.KeyPtr ->
    t.ID_Key (peek1Of s) <> t.KeyOpenBracket ->
    parseQualifiedIdent tm filename lastLine s = Ok (pkg, name) s1 ->
    t.ID_Key (peek1Of s1) = t.KeyOpenBracket ->
    returns (fun n => parseBracket tm filename lastLine n t.IDDotDot) s1
            (Ok (op, lhs, mhs) s') ->
    TypeOf tm filename lastLine s (a.NewTypeExpr pkg name lhs mhs None) s'.

(** [IfOf s node s']: the tokens [s] are the if statement [node], up to
    [s']: [if condition block], followed by nothing, by [else] and an
    if statement, or by [else] and a block. *)
Inductive IfOf `{TO : t.Ops} `{AO : a.Ops} (tm : t.Map) (filename : string)
    (lastLine : N) : list t.Token -> a.Node -> list t.Token -> Prop :=
| IfOf_then x s condition s1 bodyIfTrue s' :
    t.ID_Key (t.Token_ID x) = t.KeyIf ->
    returns (parseExpr tm filename lastLine) s (Ok condition s1) ->
    returns (parseBlock tm filename lastLine) s1 (Ok bodyIfTrue s') ->
    t.ID_Key (peek1Of s') <> t.KeyElse ->
    IfOf tm filename lastLine (x :: s)
         (a.NewIf (Some condition) None bodyIfTrue []) s'
| IfOf_else_if x s condition s1 bodyIfTrue e s2 elseIf s' :
    t.ID_Key (t.Token_ID x) = t.KeyIf ->
    returns (parseExpr tm filename lastLine) s (Ok condition s1) ->
    returns (parseBlock tm filename lastLine) s1 (Ok bodyIfTrue (e :: s2)) ->
    t.ID_Key (t.Token_ID e) = t.KeyElse ->
    t.ID_Key (peek1Of s2) = t.KeyIf ->
    IfOf tm filename lastLine s2 elseIf s' ->
    IfOf tm filename lastLine (x :: s)
         (a.NewIf (Some condition) (Some elseIf) bodyIfTrue []) s'
| IfOf_else x s condition s1 bodyIfTrue e s2 bodyIfFalse s' :
    t.ID_Key (t.Token_ID x) = t.KeyIf ->
    returns (parseExpr tm filename lastLine) s (Ok condition s1) ->
    returns (parseBlock tm filename lastLine) s1 (Ok bodyIfTrue (e :: s2)) ->
    t.ID_Key (t.Token_ID e) = t.KeyElse ->
    t.ID_Key (peek1Of s2) <> t.KeyIf ->
    returns (parseBlock tm filename lastLine) s2 (Ok bodyIfFalse s') ->
    IfOf tm filename lastLine (x :: s)
         (a.NewIf (Some condition) None bodyIfTrue bodyIfFalse) s'.

(** [ExprOf s e s']: the tokens [s] are the expression [e], up to [s']:
    one operand; or two operands around a binary operator; or three or
    more operands separated by one associative operator. *)
Inductive ExprOf `{TO : t.Ops} `{AO : a.Ops} (tm : t.Map) (filename : string)
    (lastLine : N) : list t.Token -> a.Node -> list t.Token -> Prop :=
| ExprOf_operand s e s' :
    returns (parseOperand tm filename lastLine) s (Ok e s') ->
    t.ID_IsBinaryOp (peek1Of s') = false ->
    ExprOf tm filename lastLine s e s'
| ExprOf_binary s lhs y rest1 rhs s2 :
    returns (parseOperand tm filename lastLine) s (Ok lhs (y :: rest1)) ->
    t.ID_IsBinaryOp (t.Token_ID y) = true ->
    returns (parseRHS tm filename lastLine (t.Token_ID y)) rest1 (Ok rhs s2) ->
    t.ID_IsAssociativeOp (t.Token_ID y) = false \/ peek1Of s2 <> t.Token_ID y ->
    t.ID_BinaryForm (t.Token_ID y) <> 0%N ->
    ExprOf tm filename lastLine s
           (a.NewExpr 0%N (t.ID_BinaryForm (t.Token_ID y)) 0%N (Some lhs) None
                      (Some rhs) []) s2
| ExprOf_associative s lhs y rest1 rhs s2 more s3 :
    returns (parseOperand tm filename lastLine) s (Ok lhs (y :: rest1)) ->
    t.ID_IsBinaryOp (t.Token_ID y) = true ->
    returns (parseRHS tm filename lastLine (t.Token_ID y)) rest1 (Ok rhs s2) ->
    t.ID_IsAssociativeOp (t.Token_ID y) = true ->
    peek1Of s2 = t.Token_ID y ->
    OperandRun tm filename lastLine (t.Token_ID y) s2 more s3 ->
    more <> [] ->
    t.ID_AssociativeForm (t.Token_ID y) <> 0%N ->
    ExprOf tm filename lastLine s
           (a.NewExpr 0%N (t.ID_AssociativeForm (t.Token_ID y)) 0%N None None None
                      (lhs :: rhs :: more)) s3.

(** *** Trees up to positions *)

(** The tree without its positions: every filename and line is set to
    the zero value. *)
Fixpoint erasePositions (n : a.Node) : a.Node :=
  match n with
  | a.MkNode _ _ d => a.MkNode EmptyString 0%N (erasePositionsIn d)
  end
with erasePositionsIn (d : a.Desc) : a.Desc :=
  match d with
  | a.DPackageID path => a.DPackageID path
  | a.DUse path => a.DUse path
  | a.DConst flags id typ value =>
      a.DConst flags id (option_map erasePositions typ) (option_map erasePositions value)
  | a.DFunc flags receiver name in_ out asserts body =>
      a.DFunc flags receiver name (option_map erasePositions in_)
              (option_map erasePositions out) (map erasePositions asserts)
              (map erasePositions body)
  | a.DStatus flags keyword message => a.DStatus flags keyword message
  | a.DStruct flags name fields => a.DStruct flags name (map erasePositions fields)
  | a.DField name typ defaultValue =>
      a.DField name (option_map erasePositions typ) (option_map erasePositions defaultValue)
  | a.DTypeExpr pkgOrDec name lhs mhs inner =>
      a.DTypeExpr pkgOrDec name (option_map erasePositions lhs)
                  (option_map erasePositions mhs) (option_map erasePositions inner)
  | a.DExpr flags operator x lhs mhs rhs args =>
      a.DExpr flags operator x (option_map erasePositions lhs)
              (option_map erasePositions mhs) (option_map erasePositions rhs)
              (map erasePositions args)
  | a.DAssert keyword condition reason args =>
      a.DAssert keyword (option_map erasePositions condition) reason
                (map erasePositions args)
  | a.DArg name value => a.DArg name (option_map erasePositions value)
  | a.DVar op id typ value =>
      a.DVar op id (option_map erasePositions typ) (option_map erasePositions value)
  | a.DAssign op lhs rhs =>
      a.DAssign op (option_map erasePositions lhs) (option_map erasePositions rhs)
  | a.DJump keyword label => a.DJump keyword label
  | a.DIf condition elseIf bodyIfTrue bodyIfFalse =>
      a.DIf (option_map erasePositions condition) (option_map erasePositions elseIf)
            (map erasePositions bodyIfTrue) (map erasePositions bodyIfFalse)
  | a.DIterate label unroll vars asserts body =>
      a.DIterate label (option_map erasePositions unroll) (map erasePositions vars)
                 (map erasePositions asserts) (map erasePositions body)
  | a.DWhile label condition asserts body =>
      a.DWhile label (option_map erasePositions condition) (map erasePositions asserts)
               (map erasePositions body)
  | a.DReturn value => a.DReturn (option_map erasePositions value)
  end.

(** The two token sequences have the same IDs, in order; their lines may
    differ. *)
Definition sameIDs (s1 s2 : list t.Token) : Prop :=
  map t.Token_ID s1 = map t.Token_ID s2.

Definition sameTree (x y : a.Node) : Prop := erasePositions x = erasePositions y.

Definition sameTrees (xs ys : list a.Node) : Prop :=
  map erasePositions xs = map erasePositions ys.

Definition sameOption (x y : option a.Node) : Prop :=
  option_map erasePositions x = option_map erasePositions y.

Definition sameBracket (r1 r2 : t.ID * option a.Node * option a.Node) : Prop :=
  fst (fst r1) = fst (fst r2) /\ sameOption (snd (fst r1)) (snd (fst r2)) /\
  sameOption (snd r1) (snd r2).

Definition sameFormat (e1 e2 : error) : Prop :=
  match e1, e2 with Errorf f1 _, Errorf f2 _ => f1 = f2 end.

(** The two outcomes are of the same sort: values related by [R] with
    remaining tokens of the same IDs, or errors of the same format. *)
Definition sameOutcome {A} (R : A -> A -> Prop) (r1 r2 : res A) : Prop :=
  match r1, r2 with
  | Ok x s1, Ok y s2 => R x y /\ sameIDs s1 s2
  | Err e1, Err e2 => sameFormat e1 e2
  | Panic, Panic => True
  | OutOfFuel, OutOfFuel => True
  | _, _ => False
  end.

(** On token sequences of the same IDs, [m1] and [m2] have outcomes of
    the same sort. *)
Definition corresponds {A} (R : A -> A -> Prop) (m1 m2 : M A) : Prop :=
  forall s1 s2, sameIDs s1 s2 -> sameOutcome R (m1 s1) (m2 s2).

(** *** Operands, unterminated blocks and flags *)

(** The call [lhs(args)], with its flags. *)
Definition callOf `{TO : t.Ops} (flags : a.Flags) (lhs : a.Node) (args : list a.Node)
    : a.Node :=
  a.NewExpr flags t.IDOpenParen 0%N (Some lhs) None None args.

(** The argument list of a call. *)
Definition parseArgs `{TO : t.Ops} `{AO : a.Ops} (tm : t.Map) (filename : string)
    (lastLine : N) (fuel : nat) : M (list a.Node) :=
  parseList tm filename lastLine fuel t.KeyCloseParen (parseArgNode tm filename lastLine fuel).

(** [PostfixOf lhs s e s']: the tokens [s] are calls, indexes, ranges and
    selectors applied in turn to the expression [lhs], which give the
    expression [e], up to [s'], whose next token continues no operand. *)
Inductive PostfixOf `{TO : t.Ops} `{AO : a.Ops} (tm : t.Map) (filename : string)
    (lastLine : N) : a.Node -> list t.Token -> a.Node -> list t.Token -> Prop :=
| PostfixOf_done lhs s :
    isPostfixKey (t.ID_Key (peek1Of s)) = false ->
    PostfixOf tm filename lastLine lhs s lhs s
| PostfixOf_call lhs s args s1 e s' :
    t.ID_Key (peek1Of s) = t.KeyOpenParen ->
    returns (parseArgs tm filename lastLine) s (Ok args s1) ->
    PostfixOf tm filename lastLine (callOf 0%N lhs args) s1 e s' ->
    PostfixOf tm filename lastLine lhs s e s'
| PostfixOf_impure_call lhs x s args s1 e s' :
    t.ID_Key (t.Token_ID x) = t.KeyExclam ->
    returns (parseArgs tm filename lastLine) s (Ok args s1) ->
    PostfixOf tm filename lastLine (callOf impureCall lhs args) s1 e s' ->
    PostfixOf tm filename lastLine lhs (x :: s) e s'
| PostfixOf_suspendible_call lhs x s args s1 e s' :
    t.ID_Key (t.Token_ID x) = t.KeyQuestion ->
    returns (parseArgs tm filename lastLine) s (Ok args s1) ->
    PostfixOf tm filename lastLine (callOf suspendibleCall lhs args) s1 e s' ->
    PostfixOf tm filename lastLine lhs (x :: s) e s'
| PostfixOf_bracket lhs s op mhs rhs s1 e s' :
    t.ID_Key (peek1Of s) = t.KeyOpenBracket ->
    returns (fun n => parseBracket tm filename lastLine n t.IDColon) s
            (Ok (op, mhs, rhs) s1) ->
    PostfixOf tm filename lastLine (a.NewExpr 0%N op 0%N (Some lhs) mhs rhs []) s1 e s' ->
    PostfixOf tm filename lastLine lhs s e s'
| PostfixOf_selector lhs dot y s e s' :
    t.ID_Key (t.Token_ID dot) = t.KeyDot ->
    t.ID_IsIdent (t.Token_ID y) = true ->
    PostfixOf tm filename lastLine (selectorOf lhs (t.Token_ID y)) s e s' ->
    PostfixOf tm filename lastLine lhs (dot :: y :: s) e s'.

(** [OperandOf s e s']: the tokens [s] are the operand [e], up to [s']: a
    unary operator and its operand; a literal; an expression in
    parentheses; a status literal; or an identifier with its calls,
    indexes, ranges and selectors. *)
Inductive OperandOf `{TO : t.Ops} `{AO : a.Ops} (tm : t.Map) (filename : string)
    (lastLine : N) : list t.Token -> a.Node -> list t.Token -> Prop :=
| OperandOf_unary x s rhs s' :
    t.ID_IsUnaryOp (t.Token_ID x) = true ->
    OperandOf tm filename lastLine s rhs s' ->
    t.ID_UnaryForm (t.Token_ID x) <> 0%N ->
    OperandOf tm filename lastLine (x :: s)
              (a.NewExpr 0%N (t.ID_UnaryForm (t.Token_ID x)) 0%N None None (Some rhs) []) s'
| OperandOf_literal x s :
    t.ID_IsUnaryOp (t.Token_ID x) = false ->
    t.ID_IsLiteral (t.Token_ID x) = true ->
    OperandOf tm filename lastLine (x :: s)
              (a.NewExpr 0%N 0%N (t.Token_ID x) None None None []) s
| OperandOf_parenthesized x s e close s' :
    t.ID_IsUnaryOp (t.Token_ID x) = false ->
    t.ID_IsLiteral (t.Token_ID x) = false ->
    t.ID_Key (t.Token_ID x) = t.KeyOpenParen ->
    returns (parseExpr tm filename lastLine) s (Ok e (close :: s')) ->
    t.ID_Key (t.Token_ID close) = t.KeyCloseParen ->
    OperandOf tm filename lastLine (x :: s) e s'
| OperandOf_status x message s :
    t.ID_IsUnaryOp (t.Token_ID x) = false ->
    t.ID_IsLiteral (t.Token_ID x) = false ->
    In (t.ID_Key (t.Token_ID x)) [t.KeyError; t.KeyStatus; t.KeySuspension] ->
    t.ID_IsStrLiteral (t.Token_ID message) = true ->
    OperandOf tm filename lastLine (x :: message :: s)
              (a.NewExpr 0%N (t.Token_ID x) (t.Token_ID message) None None None []) s
| OperandOf_name x s e s' :
    t.ID_IsUnaryOp (t.Token_ID x) = false ->
    t.ID_IsLiteral (t.Token_ID x) = false ->
    isOperandKeyword (t.ID_Key (t.Token_ID x)) = false ->
    t.ID_IsIdent (t.Token_ID x) = true ->
    PostfixOf tm filename lastLine (a.NewExpr 0%N 0%N (t.Token_ID x) None None None []) s e s' ->
    OperandOf tm filename lastLine (x :: s) e s'.

(** [OpenBlockOf s]: the tokens [s] are statements, each parsed by
    parseStatement and followed by a semicolon, up to the end of the
    stream: the closing brace is missing. *)
Inductive OpenBlockOf `{TO : t.Ops} `{AO : a.Ops} (tm : t.Map) (filename : string)
    (lastLine : N) : list t.Token -> Prop :=
| OpenBlockOf_end : OpenBlockOf tm filename lastLine []
| OpenBlockOf_statement x rest st semi s1 :
    t.ID_Key (t.Token_ID x) <> t.KeyCloseCurly ->
    returns (parseStatement tm filename lastLine) (x :: rest) (Ok st (semi :: s1)) ->
    t.ID_Key (t.Token_ID semi) = t.KeySemicolon ->
    OpenBlockOf tm filename lastLine s1 ->
    OpenBlockOf tm filename lastLine (x :: rest).

Definition expectedCloseCurly (filename : string) (l : N) : error :=
  Errorf ("parse: expected " ++ quoted "}" ++ " at %s:%d") [AStr filename; ANum l].

(** The flag of the visibility keyword [x] of a declaration. *)
Definition visibility `{TO : t.Ops} `{AO : a.Ops} (x : t.Token) : a.Flags :=
  match t.ID_Key (t.Token_ID x) with
  | t.KeyPub => a.FlagsPublic
  | _ => 0%N
  end.

(** The flags that the effect marker after the name of a func adds: none
    without a marker, [FlagsImpure] for [!], [FlagsImpure] and
    [FlagsSuspendible] for [?]. *)
Definition funcEffect `{AO : a.Ops} (k : t.Key) : a.Flags :=
  match k with
  | t.KeyExclam => a.FlagsImpure
  | t.KeyQuestion => N.lor a.FlagsImpure a.FlagsSuspendible
  | _ => 0%N
  end.

(** The flag that the marker after the name of a struct adds: none without
    a marker, [FlagsSuspendible] for [?]. *)
Definition structEffect `{AO : a.Ops} (k : t.Key) : a.Flags :=
  match k with
  | t.KeyQuestion => a.FlagsSuspendible
  | _ => 0%N
  end.

(** ** Monotonicity in the recursion budget *)

Lemma refines_refl {A} (m : M A) : refines m m.
Proof. intros s _. reflexivity. Qed.

Lemma refines_out_of_fuel {A} (m : M A) : refines out_of_fuel m.
Proof. intros s H. exfalso. apply H. reflexivity. Qed.

Lemma refines_bind {A B} (m1 m2 : M A) (k1 k2 : A -> M B) :
  refines m1 m2 -> (forall x, refines (k1 x) (k2 x)) ->
  refines (bind m1 k1) (bind m2 k2).
Proof.
  intros Hm Hk s H. unfold bind in *.
  destruct (m1 s) eqn:E.
  - rewrite (Hm s) by (rewrite E; discriminate). rewrite E. apply Hk. exact H.
  - rewrite (Hm s) by (rewrite E; discriminate). rewrite E. reflexivity.
  - rewrite (Hm s) by (rewrite E; discriminate). rewrite E. reflexivity.
  - contradiction.
Qed.

Create HintDb mono.
#[export] Hint Extern 1 (_ <= _) => lia : mono.

(** Walks two runs of the same method body with different budgets: the
    binds, matches and tests agree, the calls differ by their budget. *)
Ltac walk_refines :=
  repeat first
    [ apply refines_refl
    | apply refines_out_of_fuel
    | solve [auto 4 with mono]
    | apply refines_bind; [ | intros ? ]
    | match goal with
      | |- refines (match ?x with _ => _ end) _ => destruct x
      end ].

Section Monotone.

Context `{TO : t.Ops} `{AO : a.Ops} `{BO : base38.Ops}.
Variables (tm : t.Map) (filename : string) (lastLine : N).

Lemma parseListLoop_mono n : forall m stop pe pe' acc,
  n <= m -> refines pe pe' ->
  refines (parseListLoop tm filename lastLine n stop pe acc)
          (parseListLoop tm filename lastLine m stop pe' acc).
Proof.
  induction n as [|n IH]; intros m stop pe pe' acc Hle Hpe.
  - apply refines_out_of_fuel.
  - destruct m as [|m]; [lia|]. simpl.
    assert (IH' : forall acc,
               refines (parseListLoop tm filename lastLine n stop pe acc)
                       (parseListLoop tm filename lastLine m stop pe' acc))
      by (intros; apply IH; [lia|assumption]).
    clear IH. walk_refines; try assumption; apply IH'.
Qed.

Lemma parseList_mono n m stop pe pe' :
  n <= m -> refines pe pe' ->
  refines (parseList tm filename lastLine n stop pe)
          (parseList tm filename lastLine m stop pe').
Proof.
  intros. unfold parseList. apply refines_bind; [apply refines_refl|intros _].
  apply parseListLoop_mono; assumption.
Qed.

Local Hint Resolve parseList_mono : mono.

Lemma expr_mono n : forall m, n <= m ->
  refines (parseTypeExpr tm filename lastLine n) (parseTypeExpr tm filename lastLine m) /\
  (forall sep, refines (parseBracket tm filename lastLine n sep)
                       (parseBracket tm filename lastLine m sep)) /\
  refines (parseArgNode tm filename lastLine n) (parseArgNode tm filename lastLine m) /\
  refines (parseExpr tm filename lastLine n) (parseExpr tm filename lastLine m) /\
  (forall x args, refines (parseExprLoop tm filename lastLine n x args)
                          (parseExprLoop tm filename lastLine m x args)) /\
  refines (parseOperand tm filename lastLine n) (parseOperand tm filename lastLine m) /\
  (forall lhs, refines (parseOperandLoop tm filename lastLine n lhs)
                       (parseOperandLoop tm filename lastLine m lhs)).
Proof.
  induction n as [|n IH]; intros m Hle.
  - repeat split; intros; apply refines_out_of_fuel.
  - destruct m as [|m]; [lia|].
    assert (Hnm : n <= m) by lia.
    destruct (IH m Hnm) as (IH1 & IH2 & IH3 & IH4 & IH5 & IH6 & IH7). clear IH.
    repeat split; intros; simpl; walk_refines.
Qed.

Lemma parseTypeExpr_mono n m : n <= m ->
  refines (parseTypeExpr tm filename lastLine n) (parseTypeExpr tm filename lastLine m).
Proof. intros H. apply (expr_mono n m H). Qed.

Lemma parseBracket_mono n m sep : n <= m ->
  refines (parseBracket tm filename lastLine n sep) (parseBracket tm filename lastLine m sep).
Proof. intros H. apply (expr_mono n m H). Qed.

Lemma parseArgNode_mono n m : n <= m ->
  refines (parseArgNode tm filename lastLine n) (parseArgNode tm filename lastLine m).
Proof. intros H. apply (expr_mono n m H). Qed.

Lemma parseExpr_mono n m : n <= m ->
  refines (parseExpr tm filename lastLine n) (parseExpr tm filename lastLine m).
Proof. intros H. apply (expr_mono n m H). Qed.

Lemma parseExprLoop_mono n m x args : n <= m ->
  refines (parseExprLoop tm filename lastLine n x args)
          (parseExprLoop tm filename lastLine m x args).
Proof. intros H. apply (expr_mono n m H). Qed.

Lemma parseOperand_mono n m : n <= m ->
  refines (parseOperand tm filename lastLine n) (parseOperand tm filename lastLine m).
Proof. intros H. apply (expr_mono n m H). Qed.

Lemma parseOperandLoop_mono n m lhs : n <= m ->
  refines (parseOperandLoop tm filename lastLine n lhs)
          (parseOperandLoop tm filename lastLine m lhs).
Proof. intros H. apply (expr_mono n m H). Qed.

Local Hint Resolve parseTypeExpr_mono parseBracket_mono parseArgNode_mono
  parseExpr_mono parseExprLoop_mono parseOperand_mono parseOperandLoop_mono : mono.

(** The methods outside the recursion blocks: one unfolding each. *)
Ltac mono_by_cases n m :=
  destruct n as [|n]; [apply refines_out_of_fuel|];
  destruct m as [|m]; [lia|]; simpl; walk_refines.

Lemma parseTryExpr_mono n m : n <= m ->
  refines (parseTryExpr tm filename lastLine n) (parseTryExpr tm filename lastLine m).
Proof. intros H. mono_by_cases n m. Qed.

Lemma parseVar_mono n m inIterate : n <= m ->
  refines (parseVar tm filename lastLine n inIterate)
          (parseVar tm filename lastLine m inIterate).
Proof.
  pose proof parseTryExpr_mono.
  intros H'. mono_by_cases n m.
Qed.

Local Hint Resolve parseTryExpr_mono parseVar_mono : mono.

Lemma parseIterateVariableNode_mono n m : n <= m ->
  refines (parseIterateVariableNode tm filename lastLine n)
          (parseIterateVariableNode tm filename lastLine m).
Proof. intros H. mono_by_cases n m. Qed.

Lemma parseAssertNode_mono n m : n <= m ->
  refines (parseAssertNode tm filename lastLine n)
          (parseAssertNode tm filename lastLine m).
Proof. intros H. mono_by_cases n m. Qed.

Local Hint Resolve parseIterateVariableNode_mono parseAssertNode_mono : mono.

Lemma parseAsserts_mono n m : n <= m ->
  refines (parseAsserts tm filename lastLine n) (parseAsserts tm filename lastLine m).
Proof. intros H. mono_by_cases n m. Qed.

Lemma parseExprNode_mono n m : n <= m ->
  refines (parseExprNode tm filename lastLine n) (parseExprNode tm filename lastLine m).
Proof. intros H. mono_by_cases n m. Qed.

Lemma parseFieldNode_mono n m : n <= m ->
  refines (parseFieldNode tm filename lastLine n) (parseFieldNode tm filename lastLine m).
Proof. intros H. mono_by_cases n m. Qed.

Local Hint Resolve parseAsserts_mono parseExprNode_mono parseFieldNode_mono : mono.

Lemma parseDollarExpr_mono n m : n <= m ->
  refines (parseDollarExpr tm filename lastLine n)
          (parseDollarExpr tm filename lastLine m).
Proof. intros H. mono_by_cases n m. Qed.

Local Hint Resolve parseDollarExpr_mono : mono.

Lemma stmt_mono n : forall m, n <= m ->
  refines (parseBlock tm filename lastLine n) (parseBlock tm filename lastLine m) /\
  (forall block, refines (parseBlockLoop tm filename lastLine n block)
                         (parseBlockLoop tm filename lastLine m block)) /\
  refines (parseStatement tm filename lastLine n) (parseStatement tm filename lastLine m) /\
  refines (parseStatement1 tm filename lastLine n) (parseStatement1 tm filename lastLine m) /\
  refines (parseIf tm filename lastLine n) (parseIf tm filename lastLine m).
Proof.
  induction n as [|n IH]; intros m Hle.
  - repeat split; intros; apply refines_out_of_fuel.
  - destruct m as [|m]; [lia|].
    assert (Hnm : n <= m) by lia.
    destruct (IH m Hnm) as (IH1 & IH2 & IH3 & IH4 & IH5). clear IH.
    repeat split; intros; simpl; walk_refines.
Qed.

Lemma parseBlock_mono n m : n <= m ->
  refines (parseBlock tm filename lastLine n) (parseBlock tm filename lastLine m).
Proof. intros H. apply (stmt_mono n m H). Qed.

Lemma parseBlockLoop_mono n m block : n <= m ->
  refines (parseBlockLoop tm filename lastLine n block)
          (parseBlockLoop tm filename lastLine m block).
Proof. intros H. apply (stmt_mono n m H). Qed.

Lemma parseStatement_mono n m : n <= m ->
  refines (parseStatement tm filename lastLine n) (parseStatement tm filename lastLine m).
Proof. intros H. apply (stmt_mono n m H). Qed.

Lemma parseStatement1_mono n m : n <= m ->
  refines (parseStatement1 tm filename lastLine n) (parseStatement1 tm filename lastLine m).
Proof. intros H. apply (stmt_mono n m H). Qed.

Lemma parseIf_mono n m : n <= m ->
  refines (parseIf tm filename lastLine n) (parseIf tm filename lastLine m).
Proof. intros H. apply (stmt_mono n m H). Qed.

Local Hint Resolve parseBlock_mono parseBlockLoop_mono parseStatement_mono
  parseStatement1_mono parseIf_mono : mono.

Lemma parseTopLevelDecl_mono n m : n <= m ->
  refines (parseTopLevelDecl tm filename lastLine n)
          (parseTopLevelDecl tm filename lastLine m).
Proof. intros H. mono_by_cases n m. Qed.

Local Hint Resolve parseTopLevelDecl_mono : mono.

Lemma parseFileLoop_mono n : forall m decls, n <= m ->
  refines (parseFileLoop tm filename lastLine n decls)
          (parseFileLoop tm filename lastLine m decls).
Proof.
  induction n as [|n IH]; intros m decls Hle.
  - apply refines_out_of_fuel.
  - destruct m as [|m]; [lia|]. simpl.
    assert (IH' : forall decls,
               refines (parseFileLoop tm filename lastLine n decls)
                       (parseFileLoop tm filename lastLine m decls))
      by (intros; apply IH; lia).
    clear IH. walk_refines.
Qed.

End Monotone.

(** ** Termination: the budget of the entry points is enough *)

Lemma consumes_total {A} b (m : M A) : consumes_on b m -> total_on b m.
Proof.
  intros H s Hs. destruct (H s Hs) as [H1 H2]. split; [exact H1|].
  intros x s' E. apply Nat.lt_le_incl. eapply H2; eassumption.
Qed.

Lemma total_weaken {A} b b' (m : M A) : b' <= b -> total_on b m -> total_on b' m.
Proof. intros Hb H s Hs. apply H. lia. Qed.

Lemma consumes_weaken {A} b b' (m : M A) :
  b' <= b -> consumes_on b m -> consumes_on b' m.
Proof. intros Hb H s Hs. apply H. lia. Qed.

Lemma total_ret {A} b (x : A) : total_on b (ret x).
Proof.
  intros s _. split; [discriminate|]. intros y s' E. inversion E. subst. lia.
Qed.

Lemma total_fail {A} b e : total_on b (@fail A e).
Proof. intros s _. split; discriminate. Qed.

Lemma consumes_fail {A} b e : consumes_on b (@fail A e).
Proof. intros s _. split; discriminate. Qed.

Lemma total_get_src b : total_on b get_src.
Proof.
  intros s _. split; [discriminate|]. intros y s' E. inversion E. subst. lia.
Qed.

Lemma total_src0 b : total_on b src0.
Proof.
  intros [|x s] _; split; try discriminate.
  intros y s' E. inversion E. subst. lia.
Qed.

Lemma consumes_advance b : consumes_on b advance.
Proof.
  intros [|x s] _; split; try discriminate.
  intros y s' E. inversion E. subst. simpl. lia.
Qed.

Lemma total_bind {A B} b (m : M A) (k : A -> M B) :
  total_on b m -> (forall x, total_on b (k x)) -> total_on b (bind m k).
Proof.
  intros Hm Hk s Hs. unfold bind. destruct (Hm s Hs) as [H1 H2].
  destruct (m s) as [x s1| | |] eqn:E; try (split; [discriminate|discriminate]).
  - assert (Hl : List.length s1 <= List.length s) by (eapply H2; reflexivity).
    destruct (Hk x s1 ltac:(lia)) as [H3 H4]. split; [exact H3|].
    intros y s' E'. specialize (H4 y s' E'). lia.
  - contradiction.
Qed.

Lemma consumes_bind_l {A B} b (m : M A) (k : A -> M B) :
  consumes_on b m -> (forall x, 1 <= b -> total_on (b - 1) (k x)) ->
  consumes_on b (bind m k).
Proof.
  intros Hm Hk s Hs. unfold bind. destruct (Hm s Hs) as [H1 H2].
  destruct (m s) as [x s1| | |] eqn:E; try (split; [discriminate|discriminate]).
  - assert (Hl : List.length s1 < List.length s) by (eapply H2; reflexivity).
    destruct (Hk x ltac:(lia) s1 ltac:(lia)) as [H3 H4]. split; [exact H3|].
    intros y s' E'. specialize (H4 y s' E'). lia.
  - contradiction.
Qed.

Lemma consumes_bind_r {A B} b (m : M A) (k : A -> M B) :
  total_on b m -> (forall x, consumes_on b (k x)) -> consumes_on b (bind m k).
Proof.
  intros Hm Hk s Hs. unfold bind. destruct (Hm s Hs) as [H1 H2].
  destruct (m s) as [x s1| | |] eqn:E; try (split; [discriminate|discriminate]).
  - assert (Hl : List.length s1 <= List.length s) by (eapply H2; reflexivity).
    destruct (Hk x s1 ltac:(lia)) as [H3 H4]. split; [exact H3|].
    intros y s' E'. specialize (H4 y s' E'). lia.
  - contradiction.
Qed.

Create HintDb total.
#[export] Hint Extern 1 (_ <= _) => lia : total.
#[export] Hint Resolve total_ret total_fail total_get_src total_src0 : total.
#[export] Hint Resolve consumes_total | 10 : total.
#[export] Hint Resolve consumes_fail consumes_advance : total.

(** Walks a method body: a bind whose first part consumes a token leaves
    one token less to the rest. *)
Ltac walk_total :=
  repeat first
    [ solve [auto 4 with total]
    | match goal with
      | |- total_on _ (bind _ _) =>
          first
            [ apply consumes_total, consumes_bind_l;
              [ solve [auto 4 with total] | intros ? ? ]
            | apply total_bind; [ | intros ? ] ]
      | |- consumes_on _ (bind _ _) =>
          first
            [ apply consumes_bind_l;
              [ solve [auto 4 with total] | intros ? ? ]
            | apply consumes_bind_r; [ | intros ? ] ]
      | |- total_on _ (match ?x with _ => _ end) => destruct x
      | |- consumes_on _ (match ?x with _ => _ end) => destruct x
      end ].

Section Total.

Context `{TO : t.Ops} `{AO : a.Ops} `{BO : base38.Ops}.
Variables (tm : t.Map) (filename : string) (lastLine : N).

Lemma total_line b : total_on b (line lastLine).
Proof.
  intros s _. split; [discriminate|]. intros y s' E. inversion E. subst. lia.
Qed.

Lemma total_peek1 b : total_on b peek1.
Proof.
  intros s _. split; [discriminate|]. intros y s' E. inversion E. subst. lia.
Qed.

Local Hint Resolve total_line total_peek1 : total.

Lemma total_peek1Key b : total_on b peek1Key.
Proof. unfold peek1Key. walk_total. Qed.

Local Hint Resolve total_peek1Key : total.

Lemma total_check b k what : total_on b (check tm filename lastLine k what).
Proof. unfold check. walk_total. Qed.

Lemma consumes_expectStrLiteral b :
  consumes_on b (expectStrLiteral tm filename lastLine).
Proof. unfold expectStrLiteral. walk_total. Qed.

Lemma consumes_parseIdent b : consumes_on b (parseIdent tm filename lastLine).
Proof. unfold parseIdent. walk_total. Qed.

Local Hint Resolve total_check : total.
Local Hint Resolve consumes_expectStrLiteral consumes_parseIdent : total.

Lemma consumes_parseQualifiedIdent b :
  consumes_on b (parseQualifiedIdent tm filename lastLine).
Proof. unfold parseQualifiedIdent. walk_total. Qed.

Lemma total_parseLabel b : total_on b (parseLabel tm filename lastLine).
Proof. unfold parseLabel. walk_total. Qed.

Lemma total_closeList b stop : total_on b (closeList stop).
Proof. unfold closeList. walk_total. Qed.

Lemma total_assertsSorted b asserts :
  total_on b (assertsSorted filename lastLine asserts).
Proof. unfold assertsSorted. walk_total. Qed.

Local Hint Resolve consumes_parseQualifiedIdent : total.
Local Hint Resolve total_parseLabel total_closeList total_assertsSorted : total.

Lemma parseListLoop_total n : forall b stop pe acc,
  b + 1 <= n -> total_on b pe ->
  total_on b (parseListLoop tm filename lastLine n stop pe acc).
Proof.
  induction n as [|n IH]; intros b stop pe acc Hn Hpe; [lia|].
  simpl.
  assert (IH' : forall acc, 1 <= b ->
            total_on (b - 1) (parseListLoop tm filename lastLine n stop pe acc)).
  { intros. apply IH; [lia|]. eapply total_weaken; [|exact Hpe]. lia. }
  clear IH. walk_total.
Qed.

Lemma parseList_total n b stop pe :
  b + 1 <= n -> total_on b pe ->
  total_on b (parseList tm filename lastLine n stop pe).
Proof.
  intros Hn Hpe. unfold parseList.
  pose proof (parseListLoop_total n b stop pe [] Hn Hpe).
  walk_total.
Qed.

Lemma parseList_consumes n b pe :
  b + 1 <= n -> total_on b pe ->
  consumes_on b (parseList tm filename lastLine n t.KeyCloseParen pe).
Proof.
  intros Hn Hpe. unfold parseList. simpl.
  assert (Hloop : 1 <= b -> total_on (b - 1)
            (parseListLoop tm filename lastLine n t.KeyCloseParen pe [])).
  { intros. apply parseListLoop_total; [lia|]. eapply total_weaken; [|exact Hpe]. lia. }
  apply consumes_bind_l; [|intros; auto].
  walk_total.
Qed.

Local Hint Resolve parseList_total : total.
Local Hint Resolve parseList_consumes : total.

Lemma expr_total n :
  (forall b, 8 * b + 1 <= n -> consumes_on b (parseTypeExpr tm filename lastLine n)) /\
  (forall b, 8 * b + 1 <= n -> forall sep, consumes_on b (parseBracket tm filename lastLine n sep)) /\
  (forall b, 8 * b + 1 <= n -> consumes_on b (parseArgNode tm filename lastLine n)) /\
  (forall b, 8 * b + 2 <= n -> consumes_on b (parseExpr tm filename lastLine n)) /\
  (forall b, 8 * b + 1 <= n -> forall x args, total_on b (parseExprLoop tm filename lastLine n x args)) /\
  (forall b, 8 * b + 1 <= n -> consumes_on b (parseOperand tm filename lastLine n)) /\
  (forall b, 8 * b + 2 <= n -> forall lhs, total_on b (parseOperandLoop tm filename lastLine n lhs)).
Proof.
  induction n as [|n IH].
  - repeat match goal with |- _ /\ _ => split end; intros b H; lia.
  - destruct IH as (A1 & A2 & A3 & A4 & A5 & A6 & A7).
    repeat match goal with |- _ /\ _ => split end; intros b Hb; intros; simpl.
    + walk_total. 
    + walk_total. 
    + walk_total. 
    + walk_total.
    + walk_total. 
    + walk_total. 
    + walk_total. 
Qed.

Ltac use_expr_total :=
  intros; match goal with
          | |- _ _ (_ _ _ _ ?n) => apply (expr_total n); lia
          | |- _ _ (_ _ _ _ ?n _) => apply (expr_total n); lia
          | |- _ _ (_ _ _ _ ?n _ _) => apply (expr_total n); lia
          end.

Lemma parseTypeExpr_consumes n b : 8 * b + 1 <= n ->
  consumes_on b (parseTypeExpr tm filename lastLine n).
Proof. use_expr_total. Qed.

Lemma parseBracket_consumes n b sep : 8 * b + 1 <= n ->
  consumes_on b (parseBracket tm filename lastLine n sep).
Proof. use_expr_total. Qed.

Lemma parseArgNode_consumes n b : 8 * b + 1 <= n ->
  consumes_on b (parseArgNode tm filename lastLine n).
Proof. use_expr_total. Qed.

Lemma parseExpr_consumes n b : 8 * b + 2 <= n ->
  consumes_on b (parseExpr tm filename lastLine n).
Proof. use_expr_total. Qed.

Lemma parseOperand_consumes n b : 8 * b + 1 <= n ->
  consumes_on b (parseOperand tm filename lastLine n).
Proof. use_expr_total. Qed.

Local Hint Resolve parseTypeExpr_consumes parseBracket_consumes parseArgNode_consumes
  parseExpr_consumes parseOperand_consumes : total.

Ltac total_by_cases n :=
  destruct n as [|n]; [lia|]; simpl; walk_total.

Lemma parseTryExpr_consumes n b : 8 * b + 1 <= n ->
  consumes_on b (parseTryExpr tm filename lastLine n).
Proof. intros H. total_by_cases n. Qed.

Local Hint Resolve parseTryExpr_consumes : total.

Lemma parseVar_consumes n b inIterate : 8 * b + 1 <= n ->
  consumes_on b (parseVar tm filename lastLine n inIterate).
Proof. intros H. total_by_cases n. Qed.

Local Hint Resolve parseVar_consumes : total.

Lemma parseIterateVariableNode_consumes n b : 8 * b + 2 <= n ->
  consumes_on b (parseIterateVariableNode tm filename lastLine n).
Proof. intros H. total_by_cases n. Qed.

Lemma parseAssertNode_consumes n b : 8 * b + 1 <= n ->
  consumes_on b (parseAssertNode tm filename lastLine n).
Proof. intros H. total_by_cases n. Qed.

Local Hint Resolve parseIterateVariableNode_consumes parseAssertNode_consumes : total.

Lemma parseAsserts_total n b : 8 * b + 1 <= n ->
  total_on b (parseAsserts tm filename lastLine n).
Proof. intros H. total_by_cases n. Qed.

Lemma parseExprNode_consumes n b : 8 * b + 3 <= n ->
  consumes_on b (parseExprNode tm filename lastLine n).
Proof. intros H. total_by_cases n. Qed.

Lemma parseFieldNode_consumes n b : 8 * b + 1 <= n ->
  consumes_on b (parseFieldNode tm filename lastLine n).
Proof. intros H. total_by_cases n. Qed.

Local Hint Resolve parseAsserts_total parseExprNode_consumes parseFieldNode_consumes : total.

Lemma parseDollarExpr_consumes n b : 8 * b + 1 <= n ->
  consumes_on b (parseDollarExpr tm filename lastLine n).
Proof. intros H. total_by_cases n. Qed.

Local Hint Resolve parseDollarExpr_consumes : total.

Lemma stmt_total n :
  (forall b, 8 * b + 1 <= n -> consumes_on b (parseBlock tm filename lastLine n)) /\
  (forall b, 8 * b + 5 <= n ->
     forall block, total_on b (parseBlockLoop tm filename lastLine n block)) /\
  (forall b, 8 * b + 4 <= n -> consumes_on b (parseStatement tm filename lastLine n)) /\
  (forall b, 8 * b + 3 <= n -> consumes_on b (parseStatement1 tm filename lastLine n)) /\
  (forall b, 8 * b + 1 <= n -> consumes_on b (parseIf tm filename lastLine n)).
Proof.
  induction n as [|n IH].
  - repeat match goal with |- _ /\ _ => split end; intros b H; lia.
  - destruct IH as (A1 & A2 & A3 & A4 & A5).
    repeat match goal with |- _ /\ _ => split end; intros b Hb; intros; simpl;
      walk_total.
Qed.

Lemma parseBlock_consumes n b : 8 * b + 1 <= n ->
  consumes_on b (parseBlock tm filename lastLine n).
Proof. intros. apply (stmt_total n). lia. Qed.

Local Hint Resolve parseBlock_consumes : total.

Lemma parseTopLevelDecl_consumes n b : 8 * b + 1 <= n ->
  consumes_on b (parseTopLevelDecl tm filename lastLine n).
Proof. intros H. total_by_cases n. Qed.

Local Hint Resolve parseTopLevelDecl_consumes : total.

Lemma parseFileLoop_total n : forall b decls, 8 * b + 2 <= n ->
  total_on b (parseFileLoop tm filename lastLine n decls).
Proof.
  induction n as [|n IH]; intros b decls Hb; [lia|].
  simpl. walk_total.
Qed.

Lemma parseFile_total n b : 8 * b + 2 <= n ->
  total_on b (parseFile tm filename lastLine n).
Proof. intros. unfold parseFile. apply parseFileLoop_total. assumption. Qed.

End Total.

(** The entry points never run out of budget, and a larger budget gives
    the same outcome: [Parse] and [ParseExpr] are the outcomes of the Go
    functions. *)
Lemma Parse_total `{TO : t.Ops} `{AO : a.Ops} `{BO : base38.Ops}
    (tm : t.Map) (filename : string) (src : list t.Token) :
  Parse tm filename src <> OutOfFuel.
Proof.
  unfold Parse.
  apply (parseFile_total tm filename (lastLineOf src) (fuelFor src) (List.length src));
    unfold fuelFor; lia.
Qed.

Lemma ParseExpr_total `{TO : t.Ops} `{AO : a.Ops}
    (tm : t.Map) (filename : string) (src : list t.Token) :
  ParseExpr tm filename src <> OutOfFuel.
Proof.
  unfold ParseExpr.
  apply (parseExpr_consumes tm filename (lastLineOf src) (fuelFor src) (List.length src));
    unfold fuelFor; lia.
Qed.

Lemma Parse_budget `{TO : t.Ops} `{AO : a.Ops} `{BO : base38.Ops}
    (tm : t.Map) (filename : string) (src : list t.Token) (n : nat) :
  fuelFor src <= n ->
  parseFile tm filename (lastLineOf src) n src = Parse tm filename src.
Proof.
  intros H. unfold parseFile.
  apply (parseFileLoop_mono tm filename (lastLineOf src) (fuelFor src) n [] H).
  apply Parse_total.
Qed.

Lemma ParseExpr_budget `{TO : t.Ops} `{AO : a.Ops}
    (tm : t.Map) (filename : string) (src : list t.Token) (n : nat) :
  fuelFor src <= n ->
  parseExpr tm filename (lastLineOf src) n src = ParseExpr tm filename src.
Proof.
  intros H.
  apply (parseExpr_mono tm filename (lastLineOf src) (fuelFor src) n H).
  apply ParseExpr_total.
Qed.



(** ** Running a method step by step *)

Lemma returns_intro {A} (f : nat -> M A) s r n0 :
  (forall n m, n <= m -> refines (f n) (f m)) ->
  f n0 s = r -> r <> OutOfFuel -> returns f s r.
Proof.
  intros Hmono E Hr. split; [exact Hr|]. exists n0. intros n Hn.
  rewrite <- E. apply (Hmono n0 n Hn). rewrite E. exact Hr.
Qed.

Lemma returns_unique {A} (f : nat -> M A) s r1 r2 :
  returns f s r1 -> returns f s r2 -> r1 = r2.
Proof.
  intros [_ [n1 H1]] [_ [n2 H2]].
  rewrite <- (H1 (max n1 n2)) by lia. apply H2. lia.
Qed.

Lemma bind_Ok {A B} (m : M A) (k : A -> M B) s x s' :
  m s = Ok x s' -> bind m k s = k x s'.
Proof. intros E. unfold bind. rewrite E. reflexivity. Qed.

Lemma bind_Err {A B} (m : M A) (k : A -> M B) s e :
  m s = Err e -> bind m k s = Err e.
Proof. intros E. unfold bind. rewrite E. reflexivity. Qed.

Lemma bind_ret {A B} (x : A) (k : A -> M B) s : bind (ret x) k s = k x s.
Proof. reflexivity. Qed.

Lemma bind_bind {A B C} (m : M A) (f : A -> M B) (g : B -> M C) s :
  bind (bind m f) g s = bind m (fun x => bind (f x) g) s.
Proof. unfold bind. destruct (m s); reflexivity. Qed.

Lemma bind_src0 {B} (k : t.Token -> M B) x s : bind src0 k (x :: s) = k x (x :: s).
Proof. reflexivity. Qed.

Lemma bind_get_src {B} (k : list t.Token -> M B) s : bind get_src k s = k s s.
Proof. reflexivity. Qed.

Lemma bind_advance {B} (k : unit -> M B) x s : bind advance k (x :: s) = k tt s.
Proof. reflexivity. Qed.

Lemma bind_peek1 {B} (k : t.ID -> M B) x s :
  bind peek1 k (x :: s) = k (t.Token_ID x) (x :: s).
Proof. reflexivity. Qed.

Lemma bind_peek1Key `{TO : t.Ops} {B} (k : t.Key -> M B) x s :
  bind peek1Key k (x :: s) = k (t.ID_Key (t.Token_ID x)) (x :: s).
Proof. reflexivity. Qed.

Lemma bind_line {B} lastLine (k : N -> M B) x s :
  bind (line lastLine) k (x :: s) = k (t.Token_Line x) (x :: s).
Proof. reflexivity. Qed.

Lemma bind_peek1_any {B} (k : t.ID -> M B) s :
  bind peek1 k s = k (peek1Of s) s.
Proof. destruct s; reflexivity. Qed.

Lemma bind_peek1Key_any `{TO : t.Ops} {B} (k : t.Key -> M B) s :
  bind peek1Key k s = k (t.ID_Key (peek1Of s)) s.
Proof. destruct s; reflexivity. Qed.

Lemma bind_line_any {B} lastLine (k : N -> M B) s :
  bind (line lastLine) k s = k (lineOf lastLine s) s.
Proof. destruct s; reflexivity. Qed.

(** One step of a run on a non-empty [p.src]. *)
Ltac run_step :=
  first
    [ rewrite bind_ret | rewrite bind_src0 | rewrite bind_get_src
    | rewrite bind_advance | rewrite bind_peek1Key | rewrite bind_peek1
    | rewrite bind_line | rewrite bind_bind ];
  cbv beta iota.

(** ** The shape of the errors *)

Lemma errors_bind {A B} lines P (m : M A) (k : A -> M B) :
  errors_satisfy lines P m -> (forall x, errors_satisfy lines P (k x)) ->
  errors_satisfy lines P (bind m k).
Proof.
  intros Hm Hk s Hs. unfold bind. specialize (Hm s Hs).
  destruct (m s) as [x s1|e1| |]; auto. apply Hk. exact Hm.
Qed.

Lemma errors_fail {A} lines (P : error -> Prop) e :
  P e -> errors_satisfy lines P (@fail A e).
Proof. intros H s Hs. exact H. Qed.

Lemma errors_ret {A} lines P (x : A) : errors_satisfy lines P (ret x).
Proof. intros s Hs. exact Hs. Qed.

Lemma errors_out_of_fuel {A} lines P : errors_satisfy lines P (@out_of_fuel A).
Proof. intros s Hs. exact I. Qed.

Lemma errors_get_src lines P : errors_satisfy lines P get_src.
Proof. intros s Hs. exact Hs. Qed.

Lemma errors_advance lines P : errors_satisfy lines P advance.
Proof. intros [|x s] Hs; [exact I|]. inversion Hs; assumption. Qed.

Lemma errors_src0 lines P : errors_satisfy lines P src0.
Proof. intros [|x s] Hs; [exact I|exact Hs]. Qed.

Lemma errors_line lines P lastLine : errors_satisfy lines P (line lastLine).
Proof. intros s Hs. exact Hs. Qed.

Lemma errors_peek1 lines P : errors_satisfy lines P peek1.
Proof. intros s Hs. exact Hs. Qed.

(** [p.line()] is a line among [lines]; so is the line of [p.src[0]]. *)
Lemma errors_bind_line {B} lines P lastLine (k : N -> M B) :
  In lastLine lines ->
  (forall l, In l lines -> errors_satisfy lines P (k l)) ->
  errors_satisfy lines P (bind (line lastLine) k).
Proof.
  intros Hl Hk s Hs. rewrite bind_line_any. apply Hk; [|exact Hs].
  destruct s as [|x s]; [exact Hl|]. inversion Hs; assumption.
Qed.

Lemma errors_bind_src0 {B} lines P (k : t.Token -> M B) :
  (forall x, In (t.Token_Line x) lines -> errors_satisfy lines P (k x)) ->
  errors_satisfy lines P (bind src0 k).
Proof.
  intros Hk [|x s] Hs; [exact I|]. rewrite bind_src0. apply Hk; [|exact Hs].
  inversion Hs; assumption.
Qed.

Create HintDb errors.
#[export] Hint Resolve errors_ret errors_out_of_fuel errors_get_src errors_advance
  errors_src0 errors_line errors_peek1 : errors.

(** Walks a method body; an error at a leaf is positioned, by computation
    on its format, or is one of the unpositioned errors. *)
Ltac error_leaf :=
  apply errors_fail;
  first
    [ left; split;
      [ vm_compute; reflexivity
      | cbn [rev app]; split; [ reflexivity | assumption ] ]
    | right; constructor ].

Ltac walk_errors :=
  repeat first
    [ solve [auto 4 with errors]
    | error_leaf
    | apply errors_bind_line; [ assumption | intros ? ? ]
    | apply errors_bind_src0; intros ? ?
    | apply errors_bind; [ | intros ? ]
    | match goal with
      | |- errors_satisfy _ _ (match ?x with _ => _ end) => destruct x
      end ].

Section Errors.

Context `{TO : t.Ops} `{AO : a.Ops} `{BO : base38.Ops}.
Variables (tm : t.Map) (filename : string) (lastLine : N).
Variable lines : list N.
Hypothesis lastLine_in_lines : In lastLine lines.

Lemma errors_peek1Key : errors_satisfy lines (wellFormed filename lines) peek1Key.
Proof. unfold peek1Key. walk_errors. Qed.

Local Hint Resolve errors_peek1Key : errors.

Lemma errors_expectStrLiteral : errors_satisfy lines (wellFormed filename lines) (expectStrLiteral tm filename lastLine).
Proof. unfold expectStrLiteral. walk_errors. Qed.

Lemma errors_parseIdent : errors_satisfy lines (wellFormed filename lines) (parseIdent tm filename lastLine).
Proof. unfold parseIdent. walk_errors. Qed.

Local Hint Resolve errors_expectStrLiteral errors_parseIdent : errors.

Lemma errors_parseQualifiedIdent : errors_satisfy lines (wellFormed filename lines) (parseQualifiedIdent tm filename lastLine).
Proof. unfold parseQualifiedIdent. walk_errors. Qed.

Lemma errors_parseLabel : errors_satisfy lines (wellFormed filename lines) (parseLabel tm filename lastLine).
Proof. unfold parseLabel. walk_errors. Qed.

Lemma errors_closeList stop : errors_satisfy lines (wellFormed filename lines) (closeList stop).
Proof. unfold closeList. walk_errors. Qed.

Lemma assertsSortedLoop_error l asserts : forall seenInv seenPost e,
  assertsSortedLoop filename l seenInv seenPost asserts = Some e ->
  e = bareAssertError filename l \/ e = orderError filename l.
Proof.
  induction asserts as [|x rest IH]; intros seenInv seenPost e; simpl.
  - discriminate.
  - destruct (t.ID_Key (a.Keyword x));
      try (apply IH);
      try (intros E; inversion E; auto; fail).
    + destruct (seenPost || seenInv)%bool; [intros E; inversion E; auto|apply IH].
    + destruct seenPost; [intros E; inversion E; auto|apply IH].
Qed.

Lemma errors_assertsSorted asserts :
  errors_satisfy lines (wellFormed filename lines)
    (assertsSorted filename lastLine asserts).
Proof.
  unfold assertsSorted. apply errors_bind_line; [assumption|intros l Hl].
  destruct (assertsSortedLoop filename l false false asserts) as [e|] eqn:E;
    [|auto with errors].
  apply errors_fail.
  destruct (assertsSortedLoop_error _ _ _ _ _ E); subst e; left;
    (split; [vm_compute; reflexivity|cbn [rev app]; split; [reflexivity|assumption]]).
Qed.

Local Hint Resolve errors_parseQualifiedIdent errors_parseLabel errors_closeList
  errors_assertsSorted : errors.

Lemma errors_parseListLoop n : forall stop pe acc,
  errors_satisfy lines (wellFormed filename lines) pe -> errors_satisfy lines (wellFormed filename lines) (parseListLoop tm filename lastLine n stop pe acc).
Proof.
  induction n as [|n IH]; intros stop pe acc Hpe; simpl; walk_errors.
Qed.

Lemma errors_parseList n stop pe :
  errors_satisfy lines (wellFormed filename lines) pe -> errors_satisfy lines (wellFormed filename lines) (parseList tm filename lastLine n stop pe).
Proof.
  intros Hpe. pose proof errors_parseListLoop.
  unfold parseList, check. walk_errors.
Qed.

Local Hint Resolve errors_parseList : errors.

Lemma errors_expr n :
  errors_satisfy lines (wellFormed filename lines) (parseTypeExpr tm filename lastLine n) /\
  (forall sep, errors_satisfy lines (wellFormed filename lines) (parseBracket tm filename lastLine n sep)) /\
  errors_satisfy lines (wellFormed filename lines) (parseArgNode tm filename lastLine n) /\
  errors_satisfy lines (wellFormed filename lines) (parseExpr tm filename lastLine n) /\
  (forall x args, errors_satisfy lines (wellFormed filename lines) (parseExprLoop tm filename lastLine n x args)) /\
  errors_satisfy lines (wellFormed filename lines) (parseOperand tm filename lastLine n) /\
  (forall lhs, errors_satisfy lines (wellFormed filename lines) (parseOperandLoop tm filename lastLine n lhs)).
Proof.
  induction n as [|n IH].
  - repeat match goal with |- _ /\ _ => split end; intros; apply errors_out_of_fuel.
  - destruct IH as (A1 & A2 & A3 & A4 & A5 & A6 & A7).
    repeat match goal with |- _ /\ _ => split end; intros; simpl; unfold check, noForm;
      walk_errors.
Qed.

Lemma errors_parseTypeExpr n : errors_satisfy lines (wellFormed filename lines) (parseTypeExpr tm filename lastLine n).
Proof. apply (errors_expr n). Qed.
Lemma errors_parseBracket n sep : errors_satisfy lines (wellFormed filename lines) (parseBracket tm filename lastLine n sep).
Proof. apply (errors_expr n). Qed.
Lemma errors_parseArgNode n : errors_satisfy lines (wellFormed filename lines) (parseArgNode tm filename lastLine n).
Proof. apply (errors_expr n). Qed.
Lemma errors_parseExpr n : errors_satisfy lines (wellFormed filename lines) (parseExpr tm filename lastLine n).
Proof. apply (errors_expr n). Qed.
Lemma errors_parseOperand n : errors_satisfy lines (wellFormed filename lines) (parseOperand tm filename lastLine n).
Proof. apply (errors_expr n). Qed.

Local Hint Resolve errors_parseTypeExpr errors_parseBracket errors_parseArgNode
  errors_parseExpr errors_parseOperand : errors.

Ltac errors_by_cases n :=
  destruct n as [|n]; [apply errors_out_of_fuel|];
  simpl; unfold check, noForm, invalidPackageID; walk_errors.

Lemma errors_parseTryExpr n : errors_satisfy lines (wellFormed filename lines) (parseTryExpr tm filename lastLine n).
Proof. errors_by_cases n. Qed.

Local Hint Resolve errors_parseTryExpr : errors.

Lemma errors_parseVar n inIterate : errors_satisfy lines (wellFormed filename lines) (parseVar tm filename lastLine n inIterate).
Proof. errors_by_cases n. Qed.

Local Hint Resolve errors_parseVar : errors.

Lemma errors_parseIterateVariableNode n :
  errors_satisfy lines (wellFormed filename lines) (parseIterateVariableNode tm filename lastLine n).
Proof. errors_by_cases n. Qed.

Lemma errors_parseAssertNode n : errors_satisfy lines (wellFormed filename lines) (parseAssertNode tm filename lastLine n).
Proof. errors_by_cases n. Qed.

Local Hint Resolve errors_parseIterateVariableNode errors_parseAssertNode : errors.

Lemma errors_parseAsserts n : errors_satisfy lines (wellFormed filename lines) (parseAsserts tm filename lastLine n).
Proof. errors_by_cases n. Qed.

Lemma errors_parseExprNode n : errors_satisfy lines (wellFormed filename lines) (parseExprNode tm filename lastLine n).
Proof. errors_by_cases n. Qed.

Lemma errors_parseFieldNode n : errors_satisfy lines (wellFormed filename lines) (parseFieldNode tm filename lastLine n).
Proof. errors_by_cases n. Qed.

Local Hint Resolve errors_parseAsserts errors_parseExprNode errors_parseFieldNode
  : errors.

Lemma errors_parseDollarExpr n : errors_satisfy lines (wellFormed filename lines) (parseDollarExpr tm filename lastLine n).
Proof. errors_by_cases n. Qed.

Local Hint Resolve errors_parseDollarExpr : errors.

Lemma errors_stmt n :
  errors_satisfy lines (wellFormed filename lines) (parseBlock tm filename lastLine n) /\
  (forall block, errors_satisfy lines (wellFormed filename lines) (parseBlockLoop tm filename lastLine n block)) /\
  errors_satisfy lines (wellFormed filename lines) (parseStatement tm filename lastLine n) /\
  errors_satisfy lines (wellFormed filename lines) (parseStatement1 tm filename lastLine n) /\
  errors_satisfy lines (wellFormed filename lines) (parseIf tm filename lastLine n).
Proof.
  induction n as [|n IH].
  - repeat match goal with |- _ /\ _ => split end; intros; apply errors_out_of_fuel.
  - destruct IH as (A1 & A2 & A3 & A4 & A5).
    repeat match goal with |- _ /\ _ => split end; intros; simpl; unfold check;
      walk_errors.
Qed.

Lemma errors_parseBlock n : errors_satisfy lines (wellFormed filename lines) (parseBlock tm filename lastLine n).
Proof. apply (errors_stmt n). Qed.

Local Hint Resolve errors_parseBlock : errors.

Lemma errors_parseTopLevelDecl n : errors_satisfy lines (wellFormed filename lines) (parseTopLevelDecl tm filename lastLine n).
Proof. errors_by_cases n. Qed.

Local Hint Resolve errors_parseTopLevelDecl : errors.

Lemma errors_parseFileLoop n : forall decls,
  errors_satisfy lines (wellFormed filename lines) (parseFileLoop tm filename lastLine n decls).
Proof.
  induction n as [|n IH]; intros decls; simpl; walk_errors.
Qed.

End Errors.

(** ** The assertion-chain validator *)

Section Chains.
Context `{TO : t.Ops} `{AO : a.Ops} `{BO : base38.Ops}.
Variables (tm : t.Map) (filename : string) (lastLine : N).

(** The chain that remains acceptable once the loop has seen an [inv]
    ([seenInv]) or a [post] ([seenPost]). *)
Lemma assertsSortedLoop_posts l seenInv asserts :
  Forall (fun n => keywordKey n = t.KeyPost) asserts ->
  forall seenPost, assertsSortedLoop filename l seenInv seenPost asserts = None.
Proof.
  induction 1 as [|x rest Hx _ IH]; intros seenPost; simpl; [reflexivity|].
  unfold keywordKey in Hx. rewrite Hx. apply IH.
Qed.

Lemma assertsSortedLoop_invs l invs posts :
  Forall (fun n => keywordKey n = t.KeyInv) invs ->
  Forall (fun n => keywordKey n = t.KeyPost) posts ->
  forall seenInv,
    assertsSortedLoop filename l seenInv false (invs ++ posts) = None.
Proof.
  induction 1 as [|x rest Hx _ IH]; intros Hposts seenInv; simpl.
  - apply assertsSortedLoop_posts. exact Hposts.
  - unfold keywordKey in Hx. rewrite Hx. apply IH. exact Hposts.
Qed.

Lemma assertsSortedLoop_pres l pres invs posts :
  Forall (fun n => keywordKey n = t.KeyPre) pres ->
  Forall (fun n => keywordKey n = t.KeyInv) invs ->
  Forall (fun n => keywordKey n = t.KeyPost) posts ->
  assertsSortedLoop filename l false false (pres ++ invs ++ posts) = None.
Proof.
  induction 1 as [|x rest Hx _ IH]; intros Hinvs Hposts; simpl.
  - apply assertsSortedLoop_invs; assumption.
  - unfold keywordKey in Hx. rewrite Hx. simpl. apply IH; assumption.
Qed.

(** What the loop has accepted when it returns the nil error. *)
Lemma assertsSortedLoop_accepted l asserts :
  chainKeywords asserts ->
  forall seenInv seenPost,
    assertsSortedLoop filename l seenInv seenPost asserts = None ->
    noBareAssert asserts /\
    exists pres invs posts,
      asserts = (pres ++ invs ++ posts)%list /\
      Forall (fun n => keywordKey n = t.KeyPre) pres /\
      Forall (fun n => keywordKey n = t.KeyInv) invs /\
      Forall (fun n => keywordKey n = t.KeyPost) posts /\
      (seenInv || seenPost = true -> pres = []) /\
      (seenPost = true -> invs = []).
Proof.
  induction 1 as [|x rest Hx _ IH]; intros seenInv seenPost E.
  - split; [constructor|]. exists [], [], []. repeat split; auto.
  - simpl in E. unfold keywordKey in Hx.
    assert (Hk : forall k, t.ID_Key (a.Keyword x) = k -> keywordKey x = k)
      by (intros; assumption).
    destruct Hx as [Hx|[Hx|[Hx|[Hx|[]]]]]; rewrite <- Hx in E.
    + discriminate.
    + destruct (seenPost || seenInv) eqn:F; [discriminate|].
      apply orb_false_elim in F. destruct F; subst.
      destruct (IH _ _ E) as (Hb & pres & invs & posts & -> & Hp & Hi & Ho & H1 & H2).
      split; [constructor; [rewrite (Hk _ (eq_sym Hx)); discriminate|exact Hb]|].
      exists (x :: pres), invs, posts.
      repeat split; auto; try (constructor; auto);
        simpl; intros HH; discriminate HH.
    + destruct seenPost; [discriminate|].
      destruct (IH _ _ E) as (Hb & pres & invs & posts & -> & Hp & Hi & Ho & H1 & H2).
      rewrite (H1 eq_refl) in *. simpl.
      split; [constructor; [rewrite (Hk _ (eq_sym Hx)); discriminate|exact Hb]|].
      exists [], (x :: invs), posts.
      repeat split; auto; try (constructor; auto);
        simpl; intros HH; discriminate HH.
    + destruct (IH _ _ E) as (Hb & pres & invs & posts & -> & Hp & Hi & Ho & H1 & H2).
      rewrite (H1 (orb_true_r _)), (H2 eq_refl) in *. simpl.
      split; [constructor; [rewrite (Hk _ (eq_sym Hx)); discriminate|exact Hb]|].
      exists [], [], (x :: posts).
      repeat split; auto; constructor; auto.
Qed.

Lemma assertsSortedLoop_None_iff l asserts :
  chainKeywords asserts ->
  (assertsSortedLoop filename l false false asserts = None <->
   noBareAssert asserts /\ preInvPost asserts).
Proof.
  intros Hc. split.
  - intros E. destruct (assertsSortedLoop_accepted l asserts Hc _ _ E)
      as (Hb & pres & invs & posts & Heq & Hp & Hi & Ho & _).
    split; [exact Hb|]. exists pres, invs, posts. auto.
  - intros (_ & pres & invs & posts & -> & Hp & Hi & Ho).
    apply assertsSortedLoop_pres; assumption.
Qed.

Lemma assertsSorted_run asserts s :
  assertsSorted filename lastLine asserts s =
  match assertsSortedLoop filename
          (match s with x :: _ => t.Token_Line x | [] => lastLine end)
          false false asserts with
  | Some e => Err e
  | None => Ok tt s
  end.
Proof.
  unfold assertsSorted, bind, line.
  destruct (assertsSortedLoop _ _ _ _ _); reflexivity.
Qed.


Lemma parseAsserts_chain comma rest asserts s :
  t.ID_Key (t.Token_ID comma) = t.KeyComma ->
  returns (fun n => parseList tm filename lastLine n t.KeyOpenCurly
                      (parseAssertNode tm filename lastLine n))
          rest (Ok asserts s) ->
  returns (parseAsserts tm filename lastLine) (comma :: rest)
          (match assertsSortedLoop filename
                   (match s with x :: _ => t.Token_Line x | [] => lastLine end)
                   false false asserts with
           | Some e => Err e
           | None => Ok asserts s
           end).
Proof.
  intros Hk [_ [n0 H]]. split.
  - destruct (assertsSortedLoop _ _ _ _ _); discriminate.
  - exists (S n0). intros n Hn. destruct n as [|n]; [lia|].
    simpl. unfold bind at 1. unfold peek1Key, bind at 1, peek1, ret.
    cbn [t.Token_ID]. rewrite Hk. cbn.
    erewrite bind_Ok by (apply H; lia).
    cbv beta. unfold bind at 1. rewrite assertsSorted_run.
    destruct (assertsSortedLoop _ _ _ _ _); reflexivity.
Qed.

Lemma parseTopLevelDecl_func_chain vis func rest0 id0 id1 tok1 rest1
    inFields s3 outFields comma rest4 asserts s5 e :
  t.ID_Key (t.Token_ID vis) = t.KeyPub \/ t.ID_Key (t.Token_ID vis) = t.KeyPri ->
  t.ID_Key (t.Token_ID func) = t.KeyFunc ->
  parseQualifiedIdent tm filename lastLine rest0 = Ok (id0, id1) (tok1 :: rest1) ->
  negb (N.eqb id0 0) && t.ID_IsBuiltIn id0 = false ->
  t.ID_IsBuiltIn id1 = false ->
  returns (fun n => parseList tm filename lastLine n t.KeyCloseParen
                      (parseFieldNode tm filename lastLine n))
          (afterPurityMarker (tok1 :: rest1)) (Ok inFields s3) ->
  returns (fun n => parseList tm filename lastLine n t.KeyCloseParen
                      (parseFieldNode tm filename lastLine n))
          s3 (Ok outFields (comma :: rest4)) ->
  t.ID_Key (t.Token_ID comma) = t.KeyComma ->
  returns (fun n => parseList tm filename lastLine n t.KeyOpenCurly
                      (parseAssertNode tm filename lastLine n))
          rest4 (Ok asserts s5) ->
  assertsSortedLoop filename
    (match s5 with x :: _ => t.Token_Line x | [] => lastLine end)
    false false asserts = Some e ->
  returns (parseTopLevelDecl tm filename lastLine) (vis :: func :: rest0) (Err e).
Proof.
  intros Hvis Hfunc Hq Hrecv Hname [_ [n1 Hin]] [_ [n2 Hout]] Hcomma [_ [n3 Hchain]] He.
  split; [discriminate|].
  exists (S (n1 + n2 + n3)). intros n Hn. destruct n as [|n]; [lia|].
  unfold parseTopLevelDecl. cbv iota.
  do 2 run_step.
  destruct Hvis as [Hvis|Hvis]; rewrite Hvis; cbv iota.
  all: do 2 run_step; rewrite Hfunc; cbv iota; run_step.
  all: erewrite bind_Ok by exact Hq; cbv iota; rewrite Hrecv, Hname.
  all: run_step.
  all: unfold afterPurityMarker, t.Token_Key in Hin.
  all: destruct (t.ID_Key (t.Token_ID tok1)); repeat run_step.
  all: (erewrite bind_Ok by (apply Hin; lia)); cbv beta.
  all: (erewrite bind_Ok by (apply Hout; lia)); cbv beta.
  all: run_step; rewrite Hcomma; cbv iota; repeat run_step.
  all: (erewrite bind_Ok by (apply Hchain; lia)); cbv beta.
  all: rewrite bind_bind; unfold bind at 1; rewrite assertsSorted_run, He; reflexivity.
Qed.
End Chains.

(** ** Properties of the specification *)

Import (hints) Sample.

(** A run on concrete tokens returns what it computes with a fixed
    budget. *)
Ltac returns_by n mono :=
  apply (returns_intro _ _ _ n);
  [ intros ? ? ?; apply mono; assumption
  | vm_compute; reflexivity
  | discriminate ].

(** C1.  A chain of assert nodes with keywords among assert, pre, inv and
    post is accepted by assertsSorted exactly when it has no bare assert
    and its keywords match pre* inv* post*.  A chain that violates this
    makes assertsSorted return an error, and with it parseAsserts (the
    chain of a while or iterate header) and parseTopLevelDecl (the chain
    of a func header).  On the sample table, [pre a, post b, inv c] fails
    on a func, a while and an iterate header, [pre a, inv b, post c]
    parses, and a chain with a bare assert on a func fails. *)
Theorem C1_assertion_chain_order :
  (forall `{TO : t.Ops} `{AO : a.Ops} `{BO : base38.Ops}
          (tm : t.Map) (filename : string) (lastLine : N)
          (asserts : list a.Node),
     chainKeywords asserts ->
     (forall s, assertsSorted filename lastLine asserts s = Ok tt s <->
                noBareAssert asserts /\ preInvPost asserts) /\
     (~ (noBareAssert asserts /\ preInvPost asserts) ->
      (forall s, exists e, assertsSorted filename lastLine asserts s = Err e) /\
      (forall comma rest s,
         t.ID_Key (t.Token_ID comma) = t.KeyComma ->
         returns (fun n => parseList tm filename lastLine n t.KeyOpenCurly
                             (parseAssertNode tm filename lastLine n))
                 rest (Ok asserts s) ->
         exists e, returns (parseAsserts tm filename lastLine) (comma :: rest) (Err e)) /\
      (forall vis func rest0 id0 id1 tok1 rest1 inFields s3 outFields comma rest4 s5,
         t.ID_Key (t.Token_ID vis) = t.KeyPub \/ t.ID_Key (t.Token_ID vis) = t.KeyPri ->
         t.ID_Key (t.Token_ID func) = t.KeyFunc ->
         parseQualifiedIdent tm filename lastLine rest0 = Ok (id0, id1) (tok1 :: rest1) ->
         negb (N.eqb id0 0) && t.ID_IsBuiltIn id0 = false ->
         t.ID_IsBuiltIn id1 = false ->
         returns (fun n => parseList tm filename lastLine n t.KeyCloseParen
                             (parseFieldNode tm filename lastLine n))
                 (afterPurityMarker (tok1 :: rest1)) (Ok inFields s3) ->
         returns (fun n => parseList tm filename lastLine n t.KeyCloseParen
                             (parseFieldNode tm filename lastLine n))
                 s3 (Ok outFields (comma :: rest4)) ->
         t.ID_Key (t.Token_ID comma) = t.KeyComma ->
         returns (fun n => parseList tm filename lastLine n t.KeyOpenCurly
                             (parseAssertNode tm filename lastLine n))
                 rest4 (Ok asserts s5) ->
         exists e, returns (parseTopLevelDecl tm filename lastLine)
                           (vis :: func :: rest0) (Err e)))) /\
  Parse Sample.tm "f.puffs" (Sample.funcWithChain Sample.chainPrePostInv)
    = Err (orderError "f.puffs" 1) /\
  Parse Sample.tm "f.puffs" (Sample.whileWithChain Sample.chainPrePostInv)
    = Err (orderError "f.puffs" 1) /\
  Parse Sample.tm "f.puffs" (Sample.iterateWithChain Sample.chainPrePostInv)
    = Err (orderError "f.puffs" 1) /\
  Parse Sample.tm "f.puffs" (Sample.funcWithChain Sample.chainWithAssert)
    = Err (bareAssertError "f.puffs" 1) /\
  (exists f, Parse Sample.tm "f.puffs" (Sample.funcWithChain Sample.chainPreInvPost)
             = Ok f []) /\
  (exists f, Parse Sample.tm "f.puffs" (Sample.whileWithChain Sample.chainPreInvPost)
             = Ok f []) /\
  (exists f, Parse Sample.tm "f.puffs" (Sample.iterateWithChain Sample.chainPreInvPost)
             = Ok f []).
Proof.
  split; [|repeat split; try (vm_compute; reflexivity);
           eexists; vm_compute; reflexivity].
  intros TO AO BO tm filename lastLine asserts Hc.
  assert (Hiff : forall s, assertsSorted filename lastLine asserts s = Ok tt s <->
                           noBareAssert asserts /\ preInvPost asserts).
  { intros s. rewrite assertsSorted_run.
    set (l := match s with x :: _ => t.Token_Line x | [] => lastLine end).
    pose proof (assertsSortedLoop_None_iff filename l asserts Hc) as Hl.
    destruct (assertsSortedLoop filename l false false asserts) eqn:E.
    - split; [discriminate|]. intros H. apply Hl in H. discriminate H.
    - split; [|reflexivity]. intros _. apply Hl. reflexivity. }
  split; [exact Hiff|].
  intros Hbad.
  assert (Herr : forall l, exists e, assertsSortedLoop filename l false false asserts = Some e).
  { intros l. destruct (assertsSortedLoop filename l false false asserts) eqn:E.
    - eexists; reflexivity.
    - exfalso. apply Hbad. apply (assertsSortedLoop_None_iff filename l asserts Hc). exact E. }
  split; [|split].
  - intros s. rewrite assertsSorted_run.
    destruct (Herr (match s with x :: _ => t.Token_Line x | [] => lastLine end)) as [e ->].
    eexists; reflexivity.
  - intros comma rest s Hk Hl.
    destruct (Herr (match s with x :: _ => t.Token_Line x | [] => lastLine end)) as [e He].
    exists e. pose proof (parseAsserts_chain tm filename lastLine comma rest asserts s Hk Hl) as H.
    rewrite He in H. exact H.
  - intros vis func rest0 id0 id1 tok1 rest1 inFields s3 outFields comma rest4 s5
           Hvis Hfunc Hq Hrecv Hname Hin Hout Hcomma Hchain.
    destruct (Herr (match s5 with x :: _ => t.Token_Line x | [] => lastLine end)) as [e He].
    exists e. eapply parseTopLevelDecl_func_chain; eassumption.
Qed.

(** The chain [post b, pre a], on the sample table, is rejected, alone and
    after a while condition. *)
Lemma C1_assertion_chain_order_witness :
  chainKeywords [Sample.assertOf Sample.IDPost Sample.IDb;
                 Sample.assertOf Sample.IDPre Sample.IDa] /\
  ~ (noBareAssert [Sample.assertOf Sample.IDPost Sample.IDb;
                   Sample.assertOf Sample.IDPre Sample.IDa] /\
     preInvPost [Sample.assertOf Sample.IDPost Sample.IDb;
                 Sample.assertOf Sample.IDPre Sample.IDa]) /\
  (exists e, assertsSorted "f.puffs" 0
               [Sample.assertOf Sample.IDPost Sample.IDb;
                Sample.assertOf Sample.IDPre Sample.IDa] [] = Err e) /\
  (exists e, returns (parseAsserts Sample.tm "f.puffs" 0%N)
               (Sample.onLine 1 [Sample.IDComma; Sample.IDPost; Sample.IDb; Sample.IDComma;
                                 Sample.IDPre; Sample.IDa; Sample.IDOpenCurly])
               (Err e)).
Proof.
  assert (Hc : chainKeywords [Sample.assertOf Sample.IDPost Sample.IDb;
                              Sample.assertOf Sample.IDPre Sample.IDa]).
  { repeat constructor; vm_compute; tauto. }
  destruct (proj1 C1_assertion_chain_order Sample.tokenOps Sample.astOps
              Sample.base38Ops Sample.tm "f.puffs" 0%N _ Hc) as [Hiff Hrej].
  assert (Hbad : ~ (noBareAssert [Sample.assertOf Sample.IDPost Sample.IDb;
                                  Sample.assertOf Sample.IDPre Sample.IDa] /\
                    preInvPost [Sample.assertOf Sample.IDPost Sample.IDb;
                                Sample.assertOf Sample.IDPre Sample.IDa])).
  { intros H. apply (Hiff []) in H. vm_compute in H. discriminate H. }
  split; [exact Hc|]. split; [exact Hbad|].
  destruct (Hrej Hbad) as (H1 & H2 & _).
  split; [apply H1|].
  apply (H2 (t.mkToken Sample.IDComma 1)
            (Sample.onLine 1 [Sample.IDPost; Sample.IDb; Sample.IDComma;
                              Sample.IDPre; Sample.IDa; Sample.IDOpenCurly])
            (Sample.onLine 1 [Sample.IDOpenCurly])).
  - vm_compute. reflexivity.
  - apply (returns_intro _ _ _ 8).
    + intros n m H. apply parseList_mono; [exact H|]. apply parseAssertNode_mono. exact H.
    + vm_compute. reflexivity.
    + discriminate.
Defined.

(** *** The entry points and the end of the stream *)

Lemma parseFileLoop_Ok `{TO : t.Ops} `{AO : a.Ops} `{BO : base38.Ops}
    (tm : t.Map) (filename : string) (lastLine : N) n :
  forall decls s f rest,
    parseFileLoop tm filename lastLine n decls s = Ok f rest -> rest = [].
Proof.
  induction n as [|n IH]; intros decls s f rest; simpl; [discriminate|].
  rewrite bind_get_src. destruct s as [|x s].
  - intros E. inversion E. reflexivity.
  - unfold bind at 1.
    destruct (parseTopLevelDecl tm filename lastLine n (x :: s)); try discriminate.
    apply IH.
Qed.

(** C2 (amended).  When Parse returns successfully, the whole token
    stream has been consumed: parseFile leaves its loop only on an empty
    [p.src]. *)
Theorem C2_Parse_consumes_all `{TO : t.Ops} `{AO : a.Ops} `{BO : base38.Ops}
    (tm : t.Map) (filename : string) (src : list t.Token)
    (f : a.File) (rest : list t.Token) :
  Parse tm filename src = Ok f rest -> rest = [].
Proof. unfold Parse, parseFile. apply parseFileLoop_Ok. Qed.

(** The empty function [pri func f()() {};] is parsed to the end. *)
Lemma C2_Parse_consumes_all_witness :
  exists f rest,
    Parse Sample.tm "f.puffs" (Sample.funcWithBody []) = Ok f rest /\ rest = [].
Proof.
  eexists. eexists. split.
  - vm_compute. reflexivity.
  - eapply (C2_Parse_consumes_all Sample.tm "f.puffs" (Sample.funcWithBody [])).
    vm_compute. reflexivity.
Defined.

(** C2, as stated, fails for ParseExpr: on the two tokens [a b] it
    returns the expression [a] and leaves [b] unconsumed. *)
Lemma C2_ParseExpr_leaves_tokens :
  ParseExpr Sample.tm "f.puffs" (Sample.onLine 1 [Sample.IDa; Sample.IDb])
  = Ok (Sample.exprOf Sample.IDa) (Sample.onLine 1 [Sample.IDb]) /\
  Sample.onLine 1 [Sample.IDb] <> [].
Proof. split; [vm_compute; reflexivity|discriminate]. Qed.

(** *** parseList *)

Section ParseList.

Context `{TO : t.Ops}.
Variables (tm : t.Map) (filename : string) (lastLine : N).
Variables (stop : t.Key) (parseElem : M a.Node).

Lemma Key_eqb_eq x y : t.Key_eqb x y = true <-> x = y.
Proof.
  unfold t.Key_eqb. destruct (t.Key_eq_dec x y); split; auto; discriminate.
Qed.

Lemma Key_eqb_refl x : t.Key_eqb x x = true.
Proof. apply Key_eqb_eq. reflexivity. Qed.

Lemma Key_eqb_neq x y : x <> y -> t.Key_eqb x y = false.
Proof.
  intros H. destruct (t.Key_eqb x y) eqn:E; [|reflexivity].
  apply Key_eqb_eq in E. contradiction.
Qed.

Lemma closeList_run {B} (k : unit -> M B) x rest :
  bind (closeList stop) k (x :: rest) = k tt (afterStop stop x rest).
Proof.
  unfold closeList, afterStop. destruct (t.Key_eqb stop t.KeyCloseParen); reflexivity.
Qed.

Lemma parseListLoop_stop n acc x rest :
  t.ID_Key (t.Token_ID x) = stop ->
  parseListLoop tm filename lastLine (S n) stop parseElem acc (x :: rest)
  = Ok acc (afterStop stop x rest).
Proof.
  intros H. simpl. rewrite bind_get_src. rewrite H, Key_eqb_refl.
  rewrite closeList_run. reflexivity.
Qed.

Lemma parseListLoop_elem n acc x rest elem s1 :
  t.ID_Key (t.Token_ID x) <> stop ->
  parseElem (x :: rest) = Ok elem s1 ->
  parseListLoop tm filename lastLine (S n) stop parseElem acc (x :: rest)
  = (k <- peek1Key ;;
     if t.Key_eqb k stop then closeList stop ;; ret (acc ++ [elem])%list
     else match k with
          | t.KeyComma =>
              advance ;;
              parseListLoop tm filename lastLine n stop parseElem (acc ++ [elem])%list
          | _ =>
              l <- line lastLine ;;
              fail (Errorf "parse: expected %q, got %q at %s:%d"
                           [AStr (t.ByKey tm stop); AStr (t.ByKey tm k);
                            AStr filename; ANum l])
          end) s1.
Proof.
  intros H E. simpl. rewrite bind_get_src. rewrite (Key_eqb_neq _ _ H).
  erewrite bind_Ok by exact E. reflexivity.
Qed.

Lemma parseListLoop_ListOf s elems s' :
  ListOf stop parseElem s elems s' ->
  forall n acc, List.length elems < n ->
    exists x rest, s' = x :: rest /\
      parseListLoop tm filename lastLine n stop parseElem acc s
      = Ok (acc ++ elems)%list (afterStop stop x rest).
Proof.
  induction 1 as [x rest Hx|x rest elem x' rest' Hx He Hx'
                 |x rest elem x' rest' elems s' Hx He Hx' Hc Hl IH];
    intros n acc Hn; (destruct n as [|n]; [simpl in Hn; lia|]).
  - exists x, rest. split; [reflexivity|].
    rewrite parseListLoop_stop by exact Hx. rewrite app_nil_r. reflexivity.
  - exists x', rest'. split; [reflexivity|].
    rewrite (parseListLoop_elem _ _ _ _ _ _ Hx He).
    rewrite bind_peek1Key, Hx', Key_eqb_refl, closeList_run. reflexivity.
  - destruct (IH n (acc ++ [elem])%list ltac:(simpl in Hn; lia)) as (y & r & -> & E).
    exists y, r. split; [reflexivity|].
    rewrite (parseListLoop_elem _ _ _ _ _ _ Hx He).
    rewrite bind_peek1Key, (Key_eqb_neq _ _ Hx'), Hc, bind_advance, E.
    rewrite <- app_assoc. reflexivity.
Qed.

End ParseList.

(** C3.  parseList with the closing parenthesis as stop key requires an
    opening parenthesis and consumes it; with another stop key it consumes
    no opener.  Then, at the stop token it returns the accumulated
    sequence, consuming the stop token only in the paren-wrapped case;
    after an element it ends at the stop token, goes on after a comma and
    returns an error on any other token or at the end of the stream; so a
    sequence of elements separated by commas, with or without a comma
    before the stop token, is returned in order. *)
Theorem C3_parseList `{TO : t.Ops} (tm : t.Map) (filename : string) (lastLine : N)
    (stop : t.Key) (parseElem : M a.Node) :
  (* the opener *)
  (stop = t.KeyCloseParen ->
   (forall n x rest,
      t.ID_Key (t.Token_ID x) = t.KeyOpenParen ->
      parseList tm filename lastLine n stop parseElem (x :: rest)
      = parseListLoop tm filename lastLine n stop parseElem [] rest) /\
   (forall n s,
      t.ID_Key (peek1Of s) <> t.KeyOpenParen ->
      parseList tm filename lastLine n stop parseElem s
      = Err (Errorf ("parse: expected " ++ quoted "(" ++ ", got %q at %s:%d")
                    [AStr (t.ByKey tm (t.ID_Key (peek1Of s))); AStr filename;
                     ANum (lineOf lastLine s)]))) /\
  (stop <> t.KeyCloseParen ->
   forall n s,
     parseList tm filename lastLine n stop parseElem s
     = parseListLoop tm filename lastLine n stop parseElem [] s) /\
  (* the loop, at the stop token and at the end of the stream *)
  (forall n acc x rest,
     t.ID_Key (t.Token_ID x) = stop ->
     parseListLoop tm filename lastLine (S n) stop parseElem acc (x :: rest)
     = Ok acc (afterStop stop x rest)) /\
  (forall n acc,
     parseListLoop tm filename lastLine (S n) stop parseElem acc []
     = Err (Errorf "parse: expected %q at %s:%d"
                   [AStr (t.ByKey tm stop); AStr filename; ANum lastLine])) /\
  (* the loop, at an element *)
  (forall n acc x rest e,
     t.ID_Key (t.Token_ID x) <> stop ->
     parseElem (x :: rest) = Err e ->
     parseListLoop tm filename lastLine (S n) stop parseElem acc (x :: rest) = Err e) /\
  (forall n acc x rest elem s1,
     t.ID_Key (t.Token_ID x) <> stop ->
     parseElem (x :: rest) = Ok elem s1 ->
     (forall x' rest',
        s1 = x' :: rest' ->
        t.ID_Key (t.Token_ID x') = stop ->
        parseListLoop tm filename lastLine (S n) stop parseElem acc (x :: rest)
        = Ok (acc ++ [elem])%list (afterStop stop x' rest')) /\
     (forall x' rest',
        s1 = x' :: rest' ->
        t.ID_Key (t.Token_ID x') <> stop ->
        t.ID_Key (t.Token_ID x') = t.KeyComma ->
        parseListLoop tm filename lastLine (S n) stop parseElem acc (x :: rest)
        = parseListLoop tm filename lastLine n stop parseElem (acc ++ [elem])%list rest') /\
     (t.ID_Key (peek1Of s1) <> stop ->
      t.ID_Key (peek1Of s1) <> t.KeyComma ->
      parseListLoop tm filename lastLine (S n) stop parseElem acc (x :: rest)
      = Err (Errorf "parse: expected %q, got %q at %s:%d"
                    [AStr (t.ByKey tm stop);
                     AStr (t.ByKey tm (t.ID_Key (peek1Of s1)));
                     AStr filename; ANum (lineOf lastLine s1)]))) /\
  (* a whole list *)
  (forall s elems x rest,
     ListOf stop parseElem s elems (x :: rest) ->
     forall n, List.length elems < n ->
       parseListLoop tm filename lastLine n stop parseElem [] s
       = Ok elems (afterStop stop x rest)).
Proof.
  split; [|split; [|split; [|split; [|split; [|split]]]]].
  - intros ->. split.
    + intros n x rest H. unfold parseList. rewrite Key_eqb_refl.
      rewrite bind_bind. unfold check. rewrite bind_bind, bind_peek1Key.
      rewrite H, Key_eqb_refl. reflexivity.
    + intros n s H. unfold parseList. rewrite Key_eqb_refl.
      rewrite bind_bind. unfold check. rewrite bind_bind, bind_peek1Key_any.
      rewrite (Key_eqb_neq _ _ H). cbn [negb]. cbv iota.
      rewrite !bind_bind, bind_line_any. reflexivity.
  - intros H n s. unfold parseList. rewrite (Key_eqb_neq _ _ H). reflexivity.
  - intros. apply parseListLoop_stop. assumption.
  - intros n acc. reflexivity.
  - intros n acc x rest e Hx He. simpl. rewrite bind_get_src, (Key_eqb_neq _ _ Hx).
    erewrite bind_Err by exact He. reflexivity.
  - intros n acc x rest elem s1 Hx He.
    rewrite (parseListLoop_elem tm filename lastLine stop parseElem _ _ _ _ _ _ Hx He).
    rewrite bind_peek1Key_any. split; [|split].
    + intros x' rest' -> H. cbn [peek1Of]. rewrite H, Key_eqb_refl, closeList_run.
      reflexivity.
    + intros x' rest' -> H1 H2. cbn [peek1Of].
      rewrite (Key_eqb_neq _ _ H1), H2, bind_advance. reflexivity.
    + intros H1 H2. rewrite (Key_eqb_neq _ _ H1).
      destruct (t.ID_Key (peek1Of s1)); try (rewrite bind_line_any; reflexivity).
      contradiction.
  - intros s elems x rest Hl n Hn.
    destruct (parseListLoop_ListOf tm filename lastLine stop parseElem _ _ _ Hl n [] Hn)
      as (y & r & Heq & E).
    inversion Heq; subst. exact E.
Qed.

(** [(a: 1, b: 2,)], with the comma before the parenthesis. *)
Lemma C3_parseList_witness :
  ListOf t.KeyCloseParen (parseArgNode Sample.tm "f.puffs" 0%N 8)
    (Sample.onLine 1 [Sample.IDa; Sample.IDColon; Sample.ID1; Sample.IDComma;
                      Sample.IDb; Sample.IDColon; Sample.ID2; Sample.IDComma;
                      Sample.IDCloseParen])
    [Sample.argOf Sample.IDa Sample.ID1; Sample.argOf Sample.IDb Sample.ID2]
    (Sample.onLine 1 [Sample.IDCloseParen]) /\
  parseListLoop Sample.tm "f.puffs" 0%N 3 t.KeyCloseParen
    (parseArgNode Sample.tm "f.puffs" 0%N 8) []
    (Sample.onLine 1 [Sample.IDa; Sample.IDColon; Sample.ID1; Sample.IDComma;
                      Sample.IDb; Sample.IDColon; Sample.ID2; Sample.IDComma;
                      Sample.IDCloseParen])
  = Ok [Sample.argOf Sample.IDa Sample.ID1; Sample.argOf Sample.IDb Sample.ID2] [].
Proof.
  assert (H : ListOf t.KeyCloseParen (parseArgNode Sample.tm "f.puffs" 0%N 8)
    (Sample.onLine 1 [Sample.IDa; Sample.IDColon; Sample.ID1; Sample.IDComma;
                      Sample.IDb; Sample.IDColon; Sample.ID2; Sample.IDComma;
                      Sample.IDCloseParen])
    [Sample.argOf Sample.IDa Sample.ID1; Sample.argOf Sample.IDb Sample.ID2]
    (Sample.onLine 1 [Sample.IDCloseParen])).
  { eapply ListOf_comma;
      [vm_compute; discriminate|vm_compute; reflexivity|vm_compute; discriminate
      |vm_compute; reflexivity|].
    eapply ListOf_comma;
      [vm_compute; discriminate|vm_compute; reflexivity|vm_compute; discriminate
      |vm_compute; reflexivity|].
    apply ListOf_stop. vm_compute. reflexivity. }
  split; [exact H|].
  exact (proj2 (proj2 (proj2 (proj2 (proj2 (proj2
           (C3_parseList Sample.tm "f.puffs" 0%N t.KeyCloseParen
              (parseArgNode Sample.tm "f.puffs" 0%N 8)))))))
           _ _ _ _ H 3 ltac:(simpl; lia)).
Defined.

Section Expressions.

Context `{TO : t.Ops} `{AO : a.Ops} `{BO : base38.Ops}.
Variables (tm : t.Map) (filename : string) (lastLine : N).

Lemma parseRHS_mono x n m : n <= m ->
  refines (parseRHS tm filename lastLine x n) (parseRHS tm filename lastLine x m).
Proof.
  intros H. unfold parseRHS.
  destruct (t.ID_Key x); auto using parseTypeExpr_mono, parseOperand_mono.
Qed.

Lemma parseExprLoop_run x s more s' :
  OperandRun tm filename lastLine x s more s' ->
  forall args,
    returns (fun n => parseExprLoop tm filename lastLine n x args) s
            (Ok (args ++ more)%list s').
Proof.
  induction 1 as [s Hs|y rest arg s1 more s' Hy [_ [n1 Harg]] _ IH]; intros args.
  - split; [discriminate|]. exists 1. intros n Hn. destruct n as [|n]; [lia|].
    simpl. rewrite bind_peek1_any.
    destruct (N.eqb_spec (peek1Of s) x) as [E|_]; [contradiction|].
    rewrite app_nil_r. reflexivity.
  - destruct (IH (args ++ [arg])%list) as [_ [n2 Hloop]].
    split; [discriminate|]. exists (S (n1 + n2)). intros n Hn.
    destruct n as [|n]; [lia|].
    simpl. rewrite bind_peek1, Hy, N.eqb_refl, bind_advance.
    erewrite bind_Ok by (apply Harg; lia). cbv beta.
    rewrite Hloop by lia. rewrite <- app_assoc. reflexivity.
Qed.

(** parseExpr after one operand, a binary operator and its right-hand
    side. *)
Lemma parseExpr_after_rhs n s lhs y rest1 rhs s2 :
  parseOperand tm filename lastLine n s = Ok lhs (y :: rest1) ->
  t.ID_IsBinaryOp (t.Token_ID y) = true ->
  parseRHS tm filename lastLine (t.Token_ID y) n rest1 = Ok rhs s2 ->
  parseExpr tm filename lastLine (S n) s
  = (let x := t.Token_ID y in
     if negb (t.ID_IsAssociativeOp x) || negb (N.eqb x (peek1Of s2)) then
       if N.eqb (t.ID_BinaryForm x) 0 then Err (noForm "binary" x)
       else Ok (a.NewExpr 0%N (t.ID_BinaryForm x) 0%N (Some lhs) None (Some rhs) []) s2
     else
       bind (parseExprLoop tm filename lastLine n x [lhs; rhs])
            (fun args =>
               if N.eqb (t.ID_AssociativeForm x) 0 then fail (noForm "associative" x)
               else ret (a.NewExpr 0%N (t.ID_AssociativeForm x) 0%N None None None args))
            s2).
Proof.
  intros Hl Hb Hr. simpl.
  erewrite bind_Ok by exact Hl. cbv beta.
  rewrite bind_peek1, Hb, bind_advance.
  unfold parseRHS in Hr.
  erewrite bind_Ok by exact Hr. cbv beta.
  rewrite bind_peek1_any. cbv zeta.
  destruct (negb (t.ID_IsAssociativeOp (t.Token_ID y))
            || negb (N.eqb (t.Token_ID y) (peek1Of s2))); [|reflexivity].
  destruct (N.eqb (t.ID_BinaryForm (t.Token_ID y)) 0); reflexivity.
Qed.

Lemma parseExpr_binary s lhs y rest1 rhs s2 :
  returns (parseOperand tm filename lastLine) s (Ok lhs (y :: rest1)) ->
  t.ID_IsBinaryOp (t.Token_ID y) = true ->
  returns (parseRHS tm filename lastLine (t.Token_ID y)) rest1 (Ok rhs s2) ->
  t.ID_IsAssociativeOp (t.Token_ID y) = false \/ peek1Of s2 <> t.Token_ID y ->
  t.ID_BinaryForm (t.Token_ID y) <> 0%N ->
  returns (parseExpr tm filename lastLine) s
    (Ok (a.NewExpr 0%N (t.ID_BinaryForm (t.Token_ID y)) 0%N (Some lhs) None (Some rhs) [])
        s2).
Proof.
  intros [_ [n1 Hl]] Hb [_ [n2 Hr]] Hna Hform.
  split; [discriminate|]. exists (S (n1 + n2)). intros n Hn.
  destruct n as [|n]; [lia|].
  rewrite (parseExpr_after_rhs n s lhs y rest1 rhs s2) by (auto; apply Hl || apply Hr; lia).
  cbv zeta.
  replace (negb (t.ID_IsAssociativeOp (t.Token_ID y))
           || negb (N.eqb (t.Token_ID y) (peek1Of s2))) with true.
  - destruct (N.eqb_spec (t.ID_BinaryForm (t.Token_ID y)) 0); [contradiction|reflexivity].
  - symmetry. destruct Hna as [-> | Hne]; [reflexivity|].
    destruct (N.eqb_spec (t.Token_ID y) (peek1Of s2)) as [E|_].
    + exfalso. apply Hne. symmetry. exact E.
    + apply orb_true_r.
Qed.

Lemma parseExpr_associative s lhs y rest1 rhs s2 more s3 :
  returns (parseOperand tm filename lastLine) s (Ok lhs (y :: rest1)) ->
  t.ID_IsBinaryOp (t.Token_ID y) = true ->
  returns (parseRHS tm filename lastLine (t.Token_ID y)) rest1 (Ok rhs s2) ->
  t.ID_IsAssociativeOp (t.Token_ID y) = true ->
  peek1Of s2 = t.Token_ID y ->
  OperandRun tm filename lastLine (t.Token_ID y) s2 more s3 ->
  t.ID_AssociativeForm (t.Token_ID y) <> 0%N ->
  returns (parseExpr tm filename lastLine) s
    (Ok (a.NewExpr 0%N (t.ID_AssociativeForm (t.Token_ID y)) 0%N None None None
                   (lhs :: rhs :: more))
        s3).
Proof.
  intros [_ [n1 Hl]] Hb [_ [n2 Hr]] Ha Hp Hrun Hform.
  destruct (parseExprLoop_run _ _ _ _ Hrun [lhs; rhs]) as [_ [n3 Hloop]].
  split; [discriminate|]. exists (S (n1 + n2 + n3)). intros n Hn.
  destruct n as [|n]; [lia|].
  rewrite (parseExpr_after_rhs n s lhs y rest1 rhs s2) by (auto; apply Hl || apply Hr; lia).
  cbv zeta. rewrite Ha, Hp, N.eqb_refl. simpl negb. simpl orb. cbv iota.
  erewrite bind_Ok by (apply Hloop; lia). cbv beta.
  destruct (N.eqb_spec (t.ID_AssociativeForm (t.Token_ID y)) 0); [contradiction|reflexivity].
Qed.

End Expressions.

(** C4.  After one operand and one binary operator with its right-hand
    side: when the operator is associative and the next token is the same
    operator, parseExpr consumes the following operator-operand pairs and
    returns one node under the associative form of the operator, whose
    operands are all the operands in order; otherwise it returns one node
    under the binary form of the operator with the two operands, leaving
    the next token unconsumed.  On the sample table [a and b and c] gives
    one [and] node with the three operands. *)
Theorem C4_parseExpr_folding :
  (forall `{TO : t.Ops} `{AO : a.Ops} (tm : t.Map) (filename : string) (lastLine : N)
          (s : list t.Token) (lhs : a.Node) (y : t.Token) (rest1 : list t.Token)
          (rhs : a.Node) (s2 : list t.Token),
     returns (parseOperand tm filename lastLine) s (Ok lhs (y :: rest1)) ->
     t.ID_IsBinaryOp (t.Token_ID y) = true ->
     returns (parseRHS tm filename lastLine (t.Token_ID y)) rest1 (Ok rhs s2) ->
     (t.ID_IsAssociativeOp (t.Token_ID y) = true ->
      peek1Of s2 = t.Token_ID y ->
      t.ID_AssociativeForm (t.Token_ID y) <> 0%N ->
      forall more s3,
        OperandRun tm filename lastLine (t.Token_ID y) s2 more s3 ->
        returns (parseExpr tm filename lastLine) s
          (Ok (a.NewExpr 0%N (t.ID_AssociativeForm (t.Token_ID y)) 0%N None None None
                         (lhs :: rhs :: more))
              s3)) /\
     (t.ID_IsAssociativeOp (t.Token_ID y) = false \/ peek1Of s2 <> t.Token_ID y ->
      t.ID_BinaryForm (t.Token_ID y) <> 0%N ->
      returns (parseExpr tm filename lastLine) s
        (Ok (a.NewExpr 0%N (t.ID_BinaryForm (t.Token_ID y)) 0%N (Some lhs) None
                       (Some rhs) [])
            s2))) /\
  ParseExpr Sample.tm "f.puffs"
    (Sample.onLine 1 [Sample.IDa; Sample.IDAnd; Sample.IDb; Sample.IDAnd; Sample.IDc])
  = Ok (a.NewExpr 0%N Sample.IDXAssociativeAnd 0%N None None None
          [Sample.exprOf Sample.IDa; Sample.exprOf Sample.IDb; Sample.exprOf Sample.IDc])
       [] /\
  ParseExpr Sample.tm "f.puffs"
    (Sample.onLine 1 [Sample.IDa; Sample.IDAnd; Sample.IDb])
  = Ok (a.NewExpr 0%N Sample.IDXBinaryAnd 0%N (Some (Sample.exprOf Sample.IDa)) None
          (Some (Sample.exprOf Sample.IDb)) [])
       [].
Proof.
  split; [|split; vm_compute; reflexivity].
  intros TO AO tm filename lastLine s lhs y rest1 rhs s2 Hl Hb Hr. split.
  - intros Ha Hp Hform more s3 Hrun.
    eapply parseExpr_associative; eassumption.
  - intros Hna Hform. eapply parseExpr_binary; eassumption.
Qed.

(** [a and b and c]. *)
Lemma C4_parseExpr_folding_witness :
  returns (parseExpr Sample.tm "f.puffs" 0%N)
    (Sample.onLine 1 [Sample.IDa; Sample.IDAnd; Sample.IDb; Sample.IDAnd; Sample.IDc])
    (Ok (a.NewExpr 0%N Sample.IDXAssociativeAnd 0%N None None None
           [Sample.exprOf Sample.IDa; Sample.exprOf Sample.IDb; Sample.exprOf Sample.IDc])
        []).
Proof.
  refine (proj1 (proj1 C4_parseExpr_folding Sample.tokenOps Sample.astOps Sample.tm
                   "f.puffs" 0%N
                   (Sample.onLine 1 [Sample.IDa; Sample.IDAnd; Sample.IDb; Sample.IDAnd;
                                     Sample.IDc])
                   (Sample.exprOf Sample.IDa) (t.mkToken Sample.IDAnd 1)
                   (Sample.onLine 1 [Sample.IDb; Sample.IDAnd; Sample.IDc])
                   (Sample.exprOf Sample.IDb)
                   (Sample.onLine 1 [Sample.IDAnd; Sample.IDc]) _ _ _)
                _ _ _ [Sample.exprOf Sample.IDc] [] _).
  - returns_by 4 (parseOperand_mono Sample.tm "f.puffs" 0%N).
  - vm_compute. reflexivity.
  - returns_by 4 (parseRHS_mono Sample.tm "f.puffs" 0%N Sample.IDAnd).
  - vm_compute. reflexivity.
  - vm_compute. reflexivity.
  - vm_compute. discriminate.
  - eapply OperandRun_step.
    + reflexivity.
    + returns_by 4 (parseOperand_mono Sample.tm "f.puffs" 0%N).
    + apply OperandRun_done. vm_compute. discriminate.
Defined.

Section Statements.

Context `{TO : t.Ops} `{AO : a.Ops} `{BO : base38.Ops}.
Variables (tm : t.Map) (filename : string) (lastLine : N).

Lemma check_ok {B} k what (cont : unit -> M B) x rest :
  t.ID_Key (t.Token_ID x) = k ->
  bind (check tm filename lastLine k what) cont (x :: rest) = cont tt (x :: rest).
Proof.
  intros H. unfold check. rewrite bind_bind, bind_peek1Key, H, Key_eqb_refl.
  reflexivity.
Qed.

Lemma check_fails {B} k what (cont : unit -> M B) x rest :
  t.ID_Key (t.Token_ID x) <> k ->
  bind (check tm filename lastLine k what) cont (x :: rest)
  = Err (Errorf ("parse: expected " ++ what ++ ", got %q at %s:%d")
                [AStr (t.ByKey tm (t.ID_Key (t.Token_ID x))); AStr filename;
                 ANum (t.Token_Line x)]).
Proof.
  intros H. unfold check. rewrite bind_bind, bind_peek1Key, (Key_eqb_neq _ _ H).
  reflexivity.
Qed.






(** parseTryExpr after the [try] token, on the outcome of parseExpr. *)
Lemma parseTryExpr_call x rest call s' :
  t.ID_Key (t.Token_ID x) = t.KeyTry ->
  returns (parseExpr tm filename lastLine) rest (Ok call s') ->
  returns (parseTryExpr tm filename lastLine) (x :: rest)
    (if N.eqb (a.ID0 call) t.IDOpenParen then
       Ok (a.NewExpr (a.Flags_of call) t.IDTry (a.ID1 call) (a.LHS call)
                     (a.MHS call) (a.RHS call) (a.Args call)) s'
     else
       Err (Errorf ("parse: expected function call after " ++ quoted "try"
                    ++ ", got %q at %s:%d")
                   [AStr (a.Expr_String call tm); AStr filename;
                    ANum (lineOf lastLine s')])).
Proof.
  intros Hx [_ [n1 Hcall]]. split.
  - destruct (N.eqb (a.ID0 call) t.IDOpenParen); discriminate.
  - exists (S n1). intros n Hn. destruct n as [|n]; [lia|].
    simpl. rewrite check_ok by exact Hx. rewrite bind_advance.
    erewrite bind_Ok by (apply Hcall; lia). cbv beta.
    destruct (N.eqb (a.ID0 call) t.IDOpenParen); simpl; [reflexivity|].
    rewrite bind_line_any. reflexivity.
Qed.

Lemma parseTryExpr_error x rest e :
  t.ID_Key (t.Token_ID x) = t.KeyTry ->
  returns (parseExpr tm filename lastLine) rest (Err e) ->
  returns (parseTryExpr tm filename lastLine) (x :: rest) (Err e).
Proof.
  intros Hx [_ [n1 Hcall]]. split; [discriminate|].
  exists (S n1). intros n Hn. destruct n as [|n]; [lia|].
  simpl. rewrite check_ok by exact Hx. rewrite bind_advance.
  erewrite bind_Err by (apply Hcall; lia). reflexivity.
Qed.

End Statements.



Section TryExpr.

Context `{TO : t.Ops} `{AO : a.Ops} `{BO : base38.Ops}.
Variables (tm : t.Map) (filename : string) (lastLine : N).

(** parseExpr returns: with enough budget it gives an outcome that a
    larger budget does not change. *)
Lemma parseExpr_returns s :
  exists r, returns (parseExpr tm filename lastLine) s r.
Proof.
  pose (n0 := 8 * List.length s + 2).
  exists (parseExpr tm filename lastLine n0 s).
  assert (Hr : parseExpr tm filename lastLine n0 s <> OutOfFuel).
  { apply (parseExpr_consumes tm filename lastLine n0 (List.length s)); unfold n0; lia. }
  split; [exact Hr|]. exists n0. intros n Hn.
  apply (parseExpr_mono tm filename lastLine n0 n Hn). exact Hr.
Qed.

Lemma parseTryExpr_panic x rest :
  t.ID_Key (t.Token_ID x) = t.KeyTry ->
  returns (parseExpr tm filename lastLine) rest Panic ->
  returns (parseTryExpr tm filename lastLine) (x :: rest) Panic.
Proof.
  intros Hx [_ [n1 Hcall]]. split; [discriminate|].
  exists (S n1). intros n Hn. destruct n as [|n]; [lia|].
  simpl. rewrite check_ok by exact Hx. rewrite bind_advance.
  unfold bind. rewrite Hcall by lia. reflexivity.
Qed.

Lemma parseTryExpr_succeeds_iff x rest :
  t.ID_Key (t.Token_ID x) = t.KeyTry ->
  ((exists node s', returns (parseTryExpr tm filename lastLine) (x :: rest) (Ok node s'))
   <->
   (exists call s', returns (parseExpr tm filename lastLine) rest (Ok call s') /\
                    a.ID0 call = t.IDOpenParen)).
Proof.
  intros Hx. split.
  - intros (node & s' & Hnode).
    destruct (parseExpr_returns rest) as [[call s1|e| |] Hr].
    + pose proof (parseTryExpr_call tm filename lastLine x rest call s1 Hx Hr) as Ht.
      destruct (N.eqb_spec (a.ID0 call) t.IDOpenParen) as [E|E].
      * exists call, s1. split; assumption.
      * pose proof (returns_unique _ _ _ _ Hnode Ht) as F. discriminate F.
    + pose proof (parseTryExpr_error tm filename lastLine x rest e Hx Hr) as Ht.
      pose proof (returns_unique _ _ _ _ Hnode Ht) as F. discriminate F.
    + pose proof (parseTryExpr_panic x rest Hx Hr) as Ht.
      pose proof (returns_unique _ _ _ _ Hnode Ht) as F. discriminate F.
    + destruct Hr as [Hr _]. contradiction.
  - intros (call & s' & Hr & E).
    pose proof (parseTryExpr_call tm filename lastLine x rest call s' Hx Hr) as Ht.
    rewrite E, N.eqb_refl in Ht. eauto.
Qed.

End TryExpr.

(** C6 (amended).  After the [try] token, parseTryExpr succeeds exactly
    when the expression parses and its top operator tag is the call tag;
    it then returns the try-tagged node with the flags, callee and
    arguments of the call, and otherwise the error of parseExpr or the
    positioned error that a function call was expected.  On the sample
    table [var x T = try (1 + 2);] fails and
    [var x T = try f(a: 1, b: 2);], whose arguments are named,
    parses. *)
Theorem C6_try_requires_call :
  (forall `{TO : t.Ops} `{AO : a.Ops} (tm : t.Map) (filename : string) (lastLine : N)
          (x : t.Token) (rest : list t.Token),
     t.ID_Key (t.Token_ID x) = t.KeyTry ->
     ((exists node s',
         returns (parseTryExpr tm filename lastLine) (x :: rest) (Ok node s'))
      <->
      (exists call s', returns (parseExpr tm filename lastLine) rest (Ok call s') /\
                       a.ID0 call = t.IDOpenParen)) /\
     (forall call s',
        returns (parseExpr tm filename lastLine) rest (Ok call s') ->
        (a.ID0 call = t.IDOpenParen ->
         returns (parseTryExpr tm filename lastLine) (x :: rest)
           (Ok (a.NewExpr (a.Flags_of call) t.IDTry (a.ID1 call) (a.LHS call)
                          (a.MHS call) (a.RHS call) (a.Args call)) s')) /\
        (a.ID0 call <> t.IDOpenParen ->
         exists e,
           returns (parseTryExpr tm filename lastLine) (x :: rest) (Err e) /\
           positioned filename [lineOf lastLine s'] e)) /\
     (forall e,
        returns (parseExpr tm filename lastLine) rest (Err e) ->
        returns (parseTryExpr tm filename lastLine) (x :: rest) (Err e))) /\
  Parse Sample.tm "f.puffs" (Sample.funcWithBody Sample.varTryNoCall)
  = Err (Errorf ("parse: expected function call after " ++ quoted "try"
                 ++ ", got %q at %s:%d")
                [AStr "<expr>"; AStr "f.puffs"; ANum 1]) /\
  Parse Sample.tm "f.puffs" (Sample.funcWithBody Sample.varTryNamed)
  = Ok (a.NewFile "f.puffs"
          [a.NewFunc 0%N "f.puffs" 1%N 0%N Sample.IDf
             (Some (a.NewStruct 0%N "f.puffs" 1%N Sample.IDIn []))
             (Some (a.NewStruct 0%N "f.puffs" 1%N Sample.IDOut []))
             []
             [a.SetFilenameLine "f.puffs" 1%N
                (a.NewVar Sample.IDEq Sample.IDx (Some Sample.typeT)
                   (Some (a.NewExpr 0%N Sample.IDTry 0%N
                            (Some (Sample.exprOf Sample.IDf)) None None
                            [Sample.argOf Sample.IDa Sample.ID1;
                             Sample.argOf Sample.IDb Sample.ID2])))]])
       [].
Proof.
  split; [|split; vm_compute; reflexivity].
  intros TO AO tm filename lastLine x rest Hx. split; [|split].
  - apply parseTryExpr_succeeds_iff. exact Hx.
  - intros call s' Hr.
    pose proof (parseTryExpr_call tm filename lastLine x rest call s' Hx Hr) as Ht.
    split; intros E.
    + rewrite E, N.eqb_refl in Ht. exact Ht.
    + destruct (N.eqb_spec (a.ID0 call) t.IDOpenParen) as [F|_]; [contradiction|].
      eexists. split; [exact Ht|].
      split; [vm_compute; reflexivity|]. cbn [rev app In]. auto.
  - intros e Hr. eapply parseTryExpr_error; eassumption.
Qed.

(** [try f(a: 1)]. *)
Lemma C6_try_requires_call_witness :
  returns (parseTryExpr Sample.tm "f.puffs" 0%N)
    (Sample.onLine 1 [Sample.IDTry; Sample.IDf; Sample.IDOpenParen; Sample.IDa;
                      Sample.IDColon; Sample.ID1; Sample.IDCloseParen])
    (Ok (a.NewExpr 0%N Sample.IDTry 0%N (Some (Sample.exprOf Sample.IDf)) None None
           [Sample.argOf Sample.IDa Sample.ID1])
        []).
Proof.
  refine (proj1 (proj1 (proj2 (proj1 C6_try_requires_call Sample.tokenOps Sample.astOps
                                 Sample.tm "f.puffs" 0%N (t.mkToken Sample.IDTry 1)
                                 (Sample.onLine 1 [Sample.IDf; Sample.IDOpenParen; Sample.IDa;
                                                   Sample.IDColon; Sample.ID1;
                                                   Sample.IDCloseParen]) _))
                  (a.NewExpr 0%N Sample.IDOpenParen 0%N (Some (Sample.exprOf Sample.IDf))
                     None None [Sample.argOf Sample.IDa Sample.ID1])
                  [] _) _).
  - vm_compute. reflexivity.
  - returns_by 8 (parseExpr_mono Sample.tm "f.puffs" 0%N).
  - vm_compute. reflexivity.
Defined.

(** C6, as stated, fails on its second example: [f(1, 2)] is not a call,
    because every call argument is [name: value], so
    [var x T = try f(1, 2);] does not parse. *)
Lemma C6_try_positional_call_fails :
  Parse Sample.tm "f.puffs" (Sample.funcWithBody Sample.varTryPositional)
  = Err (Errorf "parse: expected identifier, got %q at %s:%d"
                [AStr "1"; AStr "f.puffs"; ANum 1]).
Proof. vm_compute. reflexivity. Qed.

Section Iterate.

Context `{TO : t.Ops} `{AO : a.Ops} `{BO : base38.Ops}.
Variables (tm : t.Map) (filename : string) (lastLine : N).

Lemma isUnrollCount_In s : isUnrollCount s = true <-> In s unrollCounts.
Proof.
  unfold isUnrollCount. rewrite existsb_exists. split.
  - intros (x & Hx & E). apply String.eqb_eq in E. subst. exact Hx.
  - intros H. exists s. split; [exact H|apply String.eqb_refl].
Qed.

(** parseStatement1 on [iterate . u ...], up to the unroll count. *)
Lemma parseStatement1_iterate n it dot u rest :
  t.ID_Key (t.Token_ID it) = t.KeyIterate ->
  t.ID_Key (t.Token_ID dot) = t.KeyDot ->
  parseStatement1 tm filename lastLine (S n) (it :: dot :: u :: rest)
  = (let unrollStr := t.ByKey tm (t.ID_Key (t.Token_ID u)) in
     if negb (t.ID_IsLiteral (t.Token_ID u)) then
       Err (Errorf "parse: expected literal unroll count, got %q at %s:%d"
                   [AStr unrollStr; AStr filename; ANum (t.Token_Line u)])
     else if negb (isUnrollCount unrollStr) then
       Err (Errorf "parse: expected power-of-2 unroll count in [1..256], got %q at %s:%d"
                   [AStr unrollStr; AStr filename; ANum (lineOf lastLine rest)])
     else
       (label <- parseLabel tm filename lastLine ;;
        vars <- parseList tm filename lastLine n t.KeyCloseParen
                  (parseIterateVariableNode tm filename lastLine n) ;;
        asserts <- parseAsserts tm filename lastLine n ;;
        body <- parseBlock tm filename lastLine n ;;
        ret (a.NewIterate label
               (Some (a.NewExpr 0%N 0%N (t.Token_ID u) None None None []))
               vars asserts body)) rest).
Proof.
  intros Hit Hdot. simpl. rewrite bind_peek1, Hit. cbv iota.
  rewrite bind_advance, check_ok by exact Hdot. cbv beta.
  rewrite bind_advance. cbv beta. rewrite bind_peek1. cbv beta zeta.
  destruct (t.ID_IsLiteral (t.Token_ID u)); cbn [negb]; cbv iota.
  - rewrite bind_advance. cbv beta.
    destruct (isUnrollCount (t.ByKey tm (t.ID_Key (t.Token_ID u)))); cbn [negb]; cbv iota.
    + reflexivity.
    + rewrite bind_line_any. reflexivity.
  - rewrite bind_line. reflexivity.
Qed.

End Iterate.

(** C7.  In an iterate statement the token after [iterate.] is the
    unroll count: a token that is not a literal, or a literal whose text
    is not one of 1, 2, 4, 8, 16, 32, 64, 128, 256, makes parseStatement1
    return an error; a literal with one of these texts is kept as the unroll count
    of the iterate node; so a statement [iterate . u ...] that parses has
    such a literal.  On the sample table [iterate.3] fails and
    [iterate.16] parses. *)
Theorem C7_iterate_unroll_count :
  (forall `{TO : t.Ops} `{AO : a.Ops} (tm : t.Map) (filename : string) (lastLine : N)
          (it dot u : t.Token) (rest : list t.Token),
     t.ID_Key (t.Token_ID it) = t.KeyIterate ->
     t.ID_Key (t.Token_ID dot) = t.KeyDot ->
     (t.ID_IsLiteral (t.Token_ID u) = false ->
      returns (parseStatement1 tm filename lastLine) (it :: dot :: u :: rest)
        (Err (Errorf "parse: expected literal unroll count, got %q at %s:%d"
                     [AStr (t.ByKey tm (t.ID_Key (t.Token_ID u))); AStr filename;
                      ANum (t.Token_Line u)]))) /\
     (t.ID_IsLiteral (t.Token_ID u) = true ->
      ~ In (t.ByKey tm (t.ID_Key (t.Token_ID u)))
           ["1"; "2"; "4"; "8"; "16"; "32"; "64"; "128"; "256"] ->
      returns (parseStatement1 tm filename lastLine) (it :: dot :: u :: rest)
        (Err (Errorf "parse: expected power-of-2 unroll count in [1..256], got %q at %s:%d"
                     [AStr (t.ByKey tm (t.ID_Key (t.Token_ID u))); AStr filename;
                      ANum (lineOf lastLine rest)]))) /\
     (t.ID_IsLiteral (t.Token_ID u) = true ->
      In (t.ByKey tm (t.ID_Key (t.Token_ID u)))
         ["1"; "2"; "4"; "8"; "16"; "32"; "64"; "128"; "256"] ->
      forall label s1 vars s2 asserts s3 body s4,
        parseLabel tm filename lastLine rest = Ok label s1 ->
        returns (fun n => parseList tm filename lastLine n t.KeyCloseParen
                            (parseIterateVariableNode tm filename lastLine n))
                s1 (Ok vars s2) ->
        returns (parseAsserts tm filename lastLine) s2 (Ok asserts s3) ->
        returns (parseBlock tm filename lastLine) s3 (Ok body s4) ->
        returns (parseStatement1 tm filename lastLine) (it :: dot :: u :: rest)
          (Ok (a.NewIterate label
                 (Some (a.NewExpr 0%N 0%N (t.Token_ID u) None None None []))
                 vars asserts body)
              s4)) /\
     (forall st s',
        returns (parseStatement1 tm filename lastLine) (it :: dot :: u :: rest)
                (Ok st s') ->
        t.ID_IsLiteral (t.Token_ID u) = true /\
        In (t.ByKey tm (t.ID_Key (t.Token_ID u)))
           ["1"; "2"; "4"; "8"; "16"; "32"; "64"; "128"; "256"])) /\
  Parse Sample.tm "f.puffs"
    (Sample.funcWithBody (Sample.iterateUnroll Sample.ID3))
  = Err (Errorf "parse: expected power-of-2 unroll count in [1..256], got %q at %s:%d"
                [AStr "3"; AStr "f.puffs"; ANum 1]) /\
  Parse Sample.tm "f.puffs"
    (Sample.funcWithBody (Sample.iterateUnroll Sample.ID16))
  = Ok (a.NewFile "f.puffs"
          [a.NewFunc 0%N "f.puffs" 1%N 0%N Sample.IDf
             (Some (a.NewStruct 0%N "f.puffs" 1%N Sample.IDIn []))
             (Some (a.NewStruct 0%N "f.puffs" 1%N Sample.IDOut []))
             []
             [a.SetFilenameLine "f.puffs" 1%N
                (a.NewIterate 0%N (Some (Sample.exprOf Sample.ID16)) [] [] [])]])
       [].
Proof.
  split; [|split; vm_compute; reflexivity].
  intros TO AO tm filename lastLine it dot u rest Hit Hdot.
  fold unrollCounts.
  assert (Hnl : t.ID_IsLiteral (t.Token_ID u) = false ->
    returns (parseStatement1 tm filename lastLine) (it :: dot :: u :: rest)
      (Err (Errorf "parse: expected literal unroll count, got %q at %s:%d"
                   [AStr (t.ByKey tm (t.ID_Key (t.Token_ID u))); AStr filename;
                    ANum (t.Token_Line u)]))).
  { intros Hl. split; [discriminate|]. exists 1. intros n Hn.
    destruct n as [|n]; [lia|].
    rewrite parseStatement1_iterate by assumption. cbv zeta. rewrite Hl. reflexivity. }
  assert (Hnw : t.ID_IsLiteral (t.Token_ID u) = true ->
    ~ In (t.ByKey tm (t.ID_Key (t.Token_ID u))) unrollCounts ->
    returns (parseStatement1 tm filename lastLine) (it :: dot :: u :: rest)
      (Err (Errorf "parse: expected power-of-2 unroll count in [1..256], got %q at %s:%d"
                   [AStr (t.ByKey tm (t.ID_Key (t.Token_ID u))); AStr filename;
                    ANum (lineOf lastLine rest)]))).
  { intros Hl Hw. split; [discriminate|]. exists 1. intros n Hn.
    destruct n as [|n]; [lia|].
    rewrite parseStatement1_iterate by assumption. cbv zeta. rewrite Hl.
    destruct (isUnrollCount (t.ByKey tm (t.ID_Key (t.Token_ID u)))) eqn:E.
    - exfalso. apply Hw. apply isUnrollCount_In. exact E.
    - reflexivity. }
  split; [exact Hnl|]. split; [exact Hnw|]. split.
  - intros Hl Hw label s1 vars s2 asserts s3 body s4 Hlabel
           [_ [n1 Hvars]] [_ [n2 Hasserts]] [_ [n3 Hbody]].
    split; [discriminate|]. exists (S (n1 + n2 + n3)). intros n Hn.
    destruct n as [|n]; [lia|].
    rewrite parseStatement1_iterate by assumption. cbv zeta. rewrite Hl.
    apply isUnrollCount_In in Hw. rewrite Hw. cbn [negb]. cbv iota.
    erewrite bind_Ok by exact Hlabel. cbv beta.
    erewrite bind_Ok by (apply Hvars; lia). cbv beta.
    erewrite bind_Ok by (apply Hasserts; lia). cbv beta.
    erewrite bind_Ok by (apply Hbody; lia). reflexivity.
  - intros st s' Hst.
    destruct (t.ID_IsLiteral (t.Token_ID u)) eqn:Hl.
    + split; [reflexivity|].
      destruct (isUnrollCount (t.ByKey tm (t.ID_Key (t.Token_ID u)))) eqn:E.
      * apply isUnrollCount_In. exact E.
      * exfalso.
        assert (Hw : ~ In (t.ByKey tm (t.ID_Key (t.Token_ID u))) unrollCounts).
        { intros H. apply isUnrollCount_In in H. rewrite H in E. discriminate E. }
        pose proof (returns_unique _ _ _ _ Hst (Hnw eq_refl Hw)) as F. discriminate F.
    + exfalso. pose proof (returns_unique _ _ _ _ Hst (Hnl eq_refl)) as F.
      discriminate F.
Qed.

(** [iterate.3]. *)
Lemma C7_iterate_unroll_count_witness :
  returns (parseStatement1 Sample.tm "f.puffs" 0%N)
    (Sample.onLine 1 (Sample.iterateUnroll Sample.ID3))
    (Err (Errorf "parse: expected power-of-2 unroll count in [1..256], got %q at %s:%d"
                 [AStr "3"; AStr "f.puffs"; ANum 1])).
Proof.
  refine (proj1 (proj2 (proj1 C7_iterate_unroll_count Sample.tokenOps Sample.astOps
                          Sample.tm "f.puffs" 0%N (t.mkToken Sample.IDIterate 1)
                          (t.mkToken Sample.IDDot 1) (t.mkToken Sample.ID3 1)
                          (Sample.onLine 1 [Sample.IDOpenParen; Sample.IDCloseParen;
                                            Sample.IDOpenCurly; Sample.IDCloseCurly;
                                            Sample.IDSemicolon]) _ _)) _ _).
  - vm_compute. reflexivity.
  - vm_compute. reflexivity.
  - vm_compute. reflexivity.
  - vm_compute. intros H.
    repeat (destruct H as [H|H]; [discriminate H|]). exact H.
Defined.

Section FuncNames.

Context `{TO : t.Ops} `{AO : a.Ops} `{BO : base38.Ops}.
Variables (tm : t.Map) (filename : string) (lastLine : N).

Lemma parseIdent_ident x rest :
  t.ID_IsIdent (t.Token_ID x) = true ->
  parseIdent tm filename lastLine (x :: rest) = Ok (t.Token_ID x) rest.
Proof.
  intros H. unfold parseIdent. rewrite bind_get_src. unfold t.Token_IsIdent.
  rewrite H. reflexivity.
Qed.

Lemma parseQualifiedIdent_receiver r dot nm rest :
  t.ID_IsIdent (t.Token_ID r) = true ->
  t.ID_Key (t.Token_ID dot) = t.KeyDot ->
  t.ID_IsIdent (t.Token_ID nm) = true ->
  parseQualifiedIdent tm filename lastLine (r :: dot :: nm :: rest)
  = Ok (t.Token_ID r, t.Token_ID nm) rest.
Proof.
  intros Hr Hd Hn. unfold parseQualifiedIdent.
  erewrite bind_Ok by (apply parseIdent_ident; exact Hr). cbv beta.
  rewrite bind_peek1Key, Hd. cbv iota. rewrite bind_advance.
  erewrite bind_Ok by (apply parseIdent_ident; exact Hn). reflexivity.
Qed.

Lemma parseQualifiedIdent_name nm rest :
  t.ID_IsIdent (t.Token_ID nm) = true ->
  t.ID_Key (peek1Of rest) <> t.KeyDot ->
  parseQualifiedIdent tm filename lastLine (nm :: rest) = Ok (0%N, t.Token_ID nm) rest.
Proof.
  intros Hn Hd. unfold parseQualifiedIdent.
  erewrite bind_Ok by (apply parseIdent_ident; exact Hn). cbv beta.
  rewrite bind_peek1Key_any.
  destruct (t.ID_Key (peek1Of rest)); try reflexivity. contradiction.
Qed.

(** parseTopLevelDecl on [(pub|pri) func ...], up to the two checks of
    the qualified identifier. *)
Lemma parseTopLevelDecl_func_names n vis func rest0 id0 id1 s1 :
  t.ID_Key (t.Token_ID vis) = t.KeyPub \/ t.ID_Key (t.Token_ID vis) = t.KeyPri ->
  t.ID_Key (t.Token_ID func) = t.KeyFunc ->
  parseQualifiedIdent tm filename lastLine rest0 = Ok (id0, id1) s1 ->
  (negb (N.eqb id0 0) && t.ID_IsBuiltIn id0 = true ->
   parseTopLevelDecl tm filename lastLine (S n) (vis :: func :: rest0)
   = Err (Errorf "parse: built-in %q used for func receiver at %s:%d"
                 [AStr (t.ByID tm id0); AStr filename; ANum (lineOf lastLine s1)])) /\
  (negb (N.eqb id0 0) && t.ID_IsBuiltIn id0 = false ->
   t.ID_IsBuiltIn id1 = true ->
   parseTopLevelDecl tm filename lastLine (S n) (vis :: func :: rest0)
   = Err (Errorf "parse: built-in %q used for func name at %s:%d"
                 [AStr (t.ByID tm id1); AStr filename; ANum (lineOf lastLine s1)])).
Proof.
  intros Hvis Hfunc Hq.
  split; [intros Hrecv|intros Hrecv Hname].
  all: unfold parseTopLevelDecl; cbv iota; do 2 run_step.
  all: destruct Hvis as [Hvis|Hvis]; rewrite Hvis; cbv iota.
  all: do 2 run_step; rewrite Hfunc; cbv iota; run_step.
  all: erewrite bind_Ok by exact Hq; cbv iota.
  all: rewrite Hrecv; try rewrite Hname; rewrite bind_line_any; reflexivity.
Qed.

End FuncNames.

(** An error of the first declaration is the error of Parse. *)
Lemma Parse_first_declaration `{TO : t.Ops} `{AO : a.Ops} `{BO : base38.Ops}
    (tm : t.Map) (filename : string) (x : t.Token) (rest : list t.Token) (e : error) :
  (forall n, parseTopLevelDecl tm filename (lastLineOf (x :: rest)) (S n) (x :: rest)
             = Err e) ->
  Parse tm filename (x :: rest) = Err e.
Proof.
  intros H. unfold Parse, parseFile, fuelFor.
  replace (16 * S (List.length (x :: rest))) with (S (S (16 * List.length (x :: rest) + 14)))
    by lia.
  generalize (16 * List.length (x :: rest) + 14). intros k.
  revert H. generalize (lastLineOf (x :: rest)). intros l H.
  cbn [parseFileLoop]. rewrite bind_get_src.
  erewrite bind_Err by apply H. reflexivity.
Qed.

(** C8.  In a func declaration, after [pub] or [pri] and [func], a
    receiver that is a built-in identifier makes parseTopLevelDecl return
    the error [built-in ... used for func receiver], and otherwise a name
    that is a built-in identifier the error [built-in ... used for func
    name], whatever tokens follow the qualified identifier; for the first
    declaration of a file this is the error of Parse.  On the sample table
    [pri func u8.f] and [pri func a.in *] fail so. *)
Theorem C8_builtin_func_names :
  (forall `{TO : t.Ops} `{AO : a.Ops} `{BO : base38.Ops}
          (tm : t.Map) (filename : string) (vis func : t.Token),
     t.ID_Key (t.Token_ID vis) = t.KeyPub \/ t.ID_Key (t.Token_ID vis) = t.KeyPri ->
     t.ID_Key (t.Token_ID func) = t.KeyFunc ->
     (forall r dot nm rest,
        t.ID_IsIdent (t.Token_ID r) = true ->
        t.ID_Key (t.Token_ID dot) = t.KeyDot ->
        t.ID_IsIdent (t.Token_ID nm) = true ->
        t.Token_ID r <> 0%N ->
        t.ID_IsBuiltIn (t.Token_ID r) = true ->
        (forall lastLine n,
           parseTopLevelDecl tm filename lastLine (S n) (vis :: func :: r :: dot :: nm :: rest)
           = Err (receiverError tm filename (t.Token_ID r) (lineOf lastLine rest))) /\
        Parse tm filename (vis :: func :: r :: dot :: nm :: rest)
        = Err (receiverError tm filename (t.Token_ID r)
                 (lineOf (lastLineOf (vis :: func :: r :: dot :: nm :: rest)) rest))) /\
     (forall r dot nm rest,
        t.ID_IsIdent (t.Token_ID r) = true ->
        t.ID_Key (t.Token_ID dot) = t.KeyDot ->
        t.ID_IsIdent (t.Token_ID nm) = true ->
        t.ID_IsBuiltIn (t.Token_ID r) = false ->
        t.ID_IsBuiltIn (t.Token_ID nm) = true ->
        (forall lastLine n,
           parseTopLevelDecl tm filename lastLine (S n) (vis :: func :: r :: dot :: nm :: rest)
           = Err (nameError tm filename (t.Token_ID nm) (lineOf lastLine rest))) /\
        Parse tm filename (vis :: func :: r :: dot :: nm :: rest)
        = Err (nameError tm filename (t.Token_ID nm)
                 (lineOf (lastLineOf (vis :: func :: r :: dot :: nm :: rest)) rest))) /\
     (forall nm rest,
        t.ID_IsIdent (t.Token_ID nm) = true ->
        t.ID_Key (peek1Of rest) <> t.KeyDot ->
        t.ID_IsBuiltIn (t.Token_ID nm) = true ->
        (forall lastLine n,
           parseTopLevelDecl tm filename lastLine (S n) (vis :: func :: nm :: rest)
           = Err (nameError tm filename (t.Token_ID nm) (lineOf lastLine rest))) /\
        Parse tm filename (vis :: func :: nm :: rest)
        = Err (nameError tm filename (t.Token_ID nm)
                 (lineOf (lastLineOf (vis :: func :: nm :: rest)) rest)))) /\
  Parse Sample.tm "f.puffs"
    (Sample.onLine 3 [Sample.IDPri; Sample.IDFunc; Sample.IDU8; Sample.IDDot; Sample.IDf])
  = Err (Errorf "parse: built-in %q used for func receiver at %s:%d"
                [AStr "u8"; AStr "f.puffs"; ANum 3]) /\
  Parse Sample.tm "f.puffs"
    (Sample.onLine 3 [Sample.IDPri; Sample.IDFunc; Sample.IDa; Sample.IDDot; Sample.IDIn;
                      Sample.IDStar])
  = Err (Errorf "parse: built-in %q used for func name at %s:%d"
                [AStr "in"; AStr "f.puffs"; ANum 3]).
Proof.
  split; [|split; vm_compute; reflexivity].
  intros TO AO BO tm filename vis func Hvis Hfunc. split; [|split].
  - intros r dot nm rest Hr Hdot Hnm Hr0 Hb.
    assert (H : forall lastLine n,
      parseTopLevelDecl tm filename lastLine (S n) (vis :: func :: r :: dot :: nm :: rest)
      = Err (receiverError tm filename (t.Token_ID r) (lineOf lastLine rest))).
    { intros lastLine n.
      apply (parseTopLevelDecl_func_names tm filename lastLine n vis func _ _ _ rest
               Hvis Hfunc
               (parseQualifiedIdent_receiver tm filename lastLine r dot nm rest Hr Hdot Hnm)).
      rewrite Hb. destruct (N.eqb_spec (t.Token_ID r) 0); [contradiction|reflexivity]. }
    split; [exact H|]. apply Parse_first_declaration. intros n. apply H.
  - intros r dot nm rest Hr Hdot Hnm Hrb Hb.
    assert (H : forall lastLine n,
      parseTopLevelDecl tm filename lastLine (S n) (vis :: func :: r :: dot :: nm :: rest)
      = Err (nameError tm filename (t.Token_ID nm) (lineOf lastLine rest))).
    { intros lastLine n.
      apply (parseTopLevelDecl_func_names tm filename lastLine n vis func _ _ _ rest
               Hvis Hfunc
               (parseQualifiedIdent_receiver tm filename lastLine r dot nm rest Hr Hdot Hnm)).
      - rewrite Hrb. apply andb_false_r.
      - exact Hb. }
    split; [exact H|]. apply Parse_first_declaration. intros n. apply H.
  - intros nm rest Hnm Hdot Hb.
    assert (H : forall lastLine n,
      parseTopLevelDecl tm filename lastLine (S n) (vis :: func :: nm :: rest)
      = Err (nameError tm filename (t.Token_ID nm) (lineOf lastLine rest))).
    { intros lastLine n.
      apply (parseTopLevelDecl_func_names tm filename lastLine n vis func _ _ _ rest
               Hvis Hfunc
               (parseQualifiedIdent_name tm filename lastLine nm rest Hnm Hdot)).
      - reflexivity.
      - exact Hb. }
    split; [exact H|]. apply Parse_first_declaration. intros n. apply H.
Qed.

(** [pri func u8.f]. *)
Lemma C8_builtin_func_names_witness :
  Parse Sample.tm "f.puffs"
    (Sample.onLine 3 [Sample.IDPri; Sample.IDFunc; Sample.IDU8; Sample.IDDot; Sample.IDf])
  = Err (receiverError Sample.tm "f.puffs" Sample.IDU8 3).
Proof.
  refine (proj2 (proj1 (proj1 C8_builtin_func_names Sample.tokenOps Sample.astOps
                          Sample.base38Ops Sample.tm "f.puffs"
                          (t.mkToken Sample.IDPri 3) (t.mkToken Sample.IDFunc 3) _ _)
                  (t.mkToken Sample.IDU8 3) (t.mkToken Sample.IDDot 3)
                  (t.mkToken Sample.IDf 3) [] _ _ _ _ _)).
  - right. vm_compute. reflexivity.
  - vm_compute. reflexivity.
  - vm_compute. reflexivity.
  - vm_compute. reflexivity.
  - vm_compute. reflexivity.
  - vm_compute. discriminate.
  - vm_compute. reflexivity.
Defined.

(** Every error that Parse or ParseExpr returns is of the shape
    [parse: <problem> at <filename>:<line>], with the filename of the call
    and a line of the source, or is one of the errors that parse.go
    formats without a position: the internal error of an operator without
    a unary, binary or associative form, and the error of an invalid
    package id. *)
Theorem errors_positioned_or_not `{TO : t.Ops} `{AO : a.Ops} `{BO : base38.Ops}
    (tm : t.Map) (filename : string) (src : list t.Token) (e : error) :
  (Parse tm filename src = Err e ->
   positioned filename (sourceLines src) e \/ unpositioned e) /\
  (ParseExpr tm filename src = Err e ->
   positioned filename (sourceLines src) e \/ unpositioned e).
Proof.
  assert (Hl : In (lastLineOf src) (sourceLines src)) by (left; reflexivity).
  assert (Hs : onLines (sourceLines src) src).
  { apply Forall_forall. intros x Hx. right. apply in_map. exact Hx. }
  split; intros H.
  - pose proof (errors_parseFileLoop tm filename (lastLineOf src) (sourceLines src) Hl
                  (fuelFor src) [] src Hs) as G.
    unfold Parse, parseFile in H. rewrite H in G. exact G.
  - pose proof (errors_parseExpr tm filename (lastLineOf src) (sourceLines src) Hl
                  (fuelFor src) src Hs) as G.
    unfold ParseExpr in H. rewrite H in G. exact G.
Qed.

(** The error of a func without a name, on the sample table, is
    positioned on the line of the tokens. *)
Lemma errors_positioned_or_not_example :
  Parse Sample.tm "f.puffs" (Sample.onLine 7 [Sample.IDPri; Sample.IDFunc])
  = Err (Errorf "parse: expected identifier at %s:%d" [AStr "f.puffs"; ANum 7]) /\
  (positioned "f.puffs" [7%N; 7%N; 7%N]
     (Errorf "parse: expected identifier at %s:%d" [AStr "f.puffs"; ANum 7]) \/
   unpositioned (Errorf "parse: expected identifier at %s:%d" [AStr "f.puffs"; ANum 7])).
Proof.
  assert (H : Parse Sample.tm "f.puffs" (Sample.onLine 7 [Sample.IDPri; Sample.IDFunc])
              = Err (Errorf "parse: expected identifier at %s:%d"
                            [AStr "f.puffs"; ANum 7]))
    by (vm_compute; reflexivity).
  split; [exact H|].
  exact (proj1 (errors_positioned_or_not Sample.tm "f.puffs"
                  (Sample.onLine 7 [Sample.IDPri; Sample.IDFunc]) _) H).
Defined.

(** C9.  The code does not do what the claim says: the error of an
    invalid package id has no position, unlike the other diagnostics of
    the same branch.  On the sample table, [packageid "!";] on line 3
    returns [parse: %q is not a valid packageid], which has the shape
    [parse: <problem> at <filename>:<line>] for no line. *)
Lemma C9_packageid_error_has_no_position :
  Parse Sample.tm "f.puffs"
    (Sample.onLine 3 [Sample.IDPackageID; Sample.IDStrBang; Sample.IDSemicolon])
  = Err (Errorf "parse: %q is not a valid packageid" [AStr "!"]) /\
  forall lines,
    ~ positioned "f.puffs" lines (Errorf "parse: %q is not a valid packageid" [AStr "!"]).
Proof.
  split; [vm_compute; reflexivity|].
  intros lines [H _]. vm_compute in H. discriminate H.
Qed.

(** C10.  On the empty token sequence Parse returns the file with the
    given filename and no declarations.  ParseExpr returns the error
    [expected identifier], at line 0, when the zero ID that peek1 gives at
    the end of the stream has no classification. *)
Theorem C10_empty_input `{TO : t.Ops} `{AO : a.Ops} `{BO : base38.Ops}
    (tm : t.Map) (filename : string) :
  Parse tm filename [] = Ok (a.NewFile filename []) [] /\
  (zeroIDInert ->
   ParseExpr tm filename []
   = Err (Errorf "parse: expected identifier at %s:%d" [AStr filename; ANum 0])).
Proof.
  split; [reflexivity|].
  intros ([k Hk] & Hu & Hl).
  unfold ParseExpr.
  change (fuelFor []) with (S (S 14)). change (lastLineOf []) with 0%N.
  generalize 14. intros n.
  simpl. unfold bind at 1. unfold bind at 1. cbn [peek1].
  rewrite Hu, Hl, Hk. reflexivity.
Qed.

(** The sample table satisfies the condition on the zero ID. *)
Lemma C10_empty_input_witness :
  zeroIDInert /\
  ParseExpr Sample.tm "f.puffs" []
  = Err (Errorf "parse: expected identifier at %s:%d" [AStr "f.puffs"; ANum 0]).
Proof.
  assert (H : @zeroIDInert Sample.tokenOps).
  { split; [exists 0%N; reflexivity|]. repeat split; vm_compute; reflexivity. }
  split; [exact H|].
  exact (proj2 (C10_empty_input Sample.tm "f.puffs") H).
Defined.


(** ** Further properties of the parser *)

(** *** Termination *)

(** X1.  Parse and ParseExpr terminate on every token sequence: the
    recursion of the parser is bounded by a linear function of the number
    of tokens, so the run of parseFile, and that of parseExpr, returns a
    value, an error or a panic once the recursion budget is large enough,
    and this outcome is the one that the entry point gives. *)
Theorem Parse_terminates `{TO : t.Ops} `{AO : a.Ops} `{BO : base38.Ops}
    (tm : t.Map) (filename : string) (src : list t.Token) :
  returns (parseFile tm filename (lastLineOf src)) src (Parse tm filename src) /\
  returns (parseExpr tm filename (lastLineOf src)) src (ParseExpr tm filename src).
Proof.
  split.
  - split; [apply Parse_total|]. exists (fuelFor src). intros n Hn.
    apply Parse_budget. exact Hn.
  - split; [apply ParseExpr_total|]. exists (fuelFor src). intros n Hn.
    apply ParseExpr_budget. exact Hn.
Qed.

(** *** Progress *)

Lemma suffix_bind {A B} (m : M A) (k : A -> M B) :
  leaves_suffix m -> (forall x, leaves_suffix (k x)) -> leaves_suffix (bind m k).
Proof.
  intros Hm Hk s y s'. unfold bind. destruct (m s) as [x s1| | |] eqn:E; try discriminate.
  intros E'. destruct (Hm _ _ _ E) as [p1 ->]. destruct (Hk _ _ _ _ E') as [p2 ->].
  exists (p1 ++ p2)%list. rewrite <- app_assoc. reflexivity.
Qed.

Lemma suffix_ret {A} (x : A) : leaves_suffix (ret x).
Proof. intros s y s' E. inversion E. exists []. reflexivity. Qed.

Lemma suffix_fail {A} e : leaves_suffix (@fail A e).
Proof. intros s y s' E. discriminate E. Qed.

Lemma suffix_out_of_fuel {A} : leaves_suffix (@out_of_fuel A).
Proof. intros s y s' E. discriminate E. Qed.

Lemma suffix_get_src : leaves_suffix get_src.
Proof. intros s y s' E. inversion E. exists []. reflexivity. Qed.

Lemma suffix_advance : leaves_suffix advance.
Proof.
  intros [|x s] y s' E; [discriminate E|]. inversion E. exists [x]. reflexivity.
Qed.

Lemma suffix_src0 : leaves_suffix src0.
Proof.
  intros [|x s] y s' E; [discriminate E|]. inversion E. exists []. reflexivity.
Qed.

Lemma suffix_line lastLine : leaves_suffix (line lastLine).
Proof. intros s y s' E. inversion E. exists []. reflexivity. Qed.

Lemma suffix_peek1 : leaves_suffix peek1.
Proof. intros s y s' E. inversion E. exists []. reflexivity. Qed.

Create HintDb suffix.
#[export] Hint Resolve suffix_ret suffix_fail suffix_out_of_fuel suffix_get_src
  suffix_advance suffix_src0 suffix_line suffix_peek1 : suffix.

Ltac walk_suffix :=
  repeat first
    [ solve [auto 4 with suffix]
    | apply suffix_bind; [ | intros ? ]
    | match goal with
      | |- leaves_suffix (match ?x with _ => _ end) => destruct x
      end ].

Section Suffix.

Context `{TO : t.Ops} `{AO : a.Ops} `{BO : base38.Ops}.
Variables (tm : t.Map) (filename : string) (lastLine : N).

Lemma suffix_peek1Key : leaves_suffix peek1Key.
Proof. unfold peek1Key. walk_suffix. Qed.

Local Hint Resolve suffix_peek1Key : suffix.

Lemma suffix_check k what : leaves_suffix (check tm filename lastLine k what).
Proof. unfold check. walk_suffix. Qed.

Lemma suffix_expectStrLiteral : leaves_suffix (expectStrLiteral tm filename lastLine).
Proof. unfold expectStrLiteral. walk_suffix. Qed.

Lemma suffix_parseIdent : leaves_suffix (parseIdent tm filename lastLine).
Proof. unfold parseIdent. walk_suffix. Qed.

Local Hint Resolve suffix_check suffix_expectStrLiteral suffix_parseIdent : suffix.

Lemma suffix_parseQualifiedIdent : leaves_suffix (parseQualifiedIdent tm filename lastLine).
Proof. unfold parseQualifiedIdent. walk_suffix. Qed.

Lemma suffix_parseLabel : leaves_suffix (parseLabel tm filename lastLine).
Proof. unfold parseLabel. walk_suffix. Qed.

Lemma suffix_closeList stop : leaves_suffix (closeList stop).
Proof. unfold closeList. walk_suffix. Qed.

Lemma suffix_assertsSorted asserts : leaves_suffix (assertsSorted filename lastLine asserts).
Proof. unfold assertsSorted. walk_suffix. Qed.

Local Hint Resolve suffix_parseQualifiedIdent suffix_parseLabel suffix_closeList
  suffix_assertsSorted : suffix.

Lemma suffix_parseListLoop n : forall stop pe acc,
  leaves_suffix pe -> leaves_suffix (parseListLoop tm filename lastLine n stop pe acc).
Proof.
  induction n as [|n IH]; intros stop pe acc Hpe; simpl; walk_suffix.
Qed.

Lemma suffix_parseList n stop pe :
  leaves_suffix pe -> leaves_suffix (parseList tm filename lastLine n stop pe).
Proof.
  intros Hpe. pose proof suffix_parseListLoop. unfold parseList. walk_suffix.
Qed.

Local Hint Resolve suffix_parseList : suffix.

Lemma suffix_expr n :
  leaves_suffix (parseTypeExpr tm filename lastLine n) /\
  (forall sep, leaves_suffix (parseBracket tm filename lastLine n sep)) /\
  leaves_suffix (parseArgNode tm filename lastLine n) /\
  leaves_suffix (parseExpr tm filename lastLine n) /\
  (forall x args, leaves_suffix (parseExprLoop tm filename lastLine n x args)) /\
  leaves_suffix (parseOperand tm filename lastLine n) /\
  (forall lhs, leaves_suffix (parseOperandLoop tm filename lastLine n lhs)).
Proof.
  induction n as [|n IH].
  - repeat match goal with |- _ /\ _ => split end; intros; apply suffix_out_of_fuel.
  - destruct IH as (A1 & A2 & A3 & A4 & A5 & A6 & A7).
    repeat match goal with |- _ /\ _ => split end; intros; simpl; walk_suffix.
Qed.

Lemma suffix_parseTypeExpr n : leaves_suffix (parseTypeExpr tm filename lastLine n).
Proof. apply (suffix_expr n). Qed.
Lemma suffix_parseBracket n sep : leaves_suffix (parseBracket tm filename lastLine n sep).
Proof. apply (suffix_expr n). Qed.
Lemma suffix_parseArgNode n : leaves_suffix (parseArgNode tm filename lastLine n).
Proof. apply (suffix_expr n). Qed.
Lemma suffix_parseExpr n : leaves_suffix (parseExpr tm filename lastLine n).
Proof. apply (suffix_expr n). Qed.
Lemma suffix_parseOperand n : leaves_suffix (parseOperand tm filename lastLine n).
Proof. apply (suffix_expr n). Qed.

Local Hint Resolve suffix_parseTypeExpr suffix_parseBracket suffix_parseArgNode
  suffix_parseExpr suffix_parseOperand : suffix.

Ltac suffix_by_cases n :=
  destruct n as [|n]; [apply suffix_out_of_fuel|]; simpl; walk_suffix.

Lemma suffix_parseTryExpr n : leaves_suffix (parseTryExpr tm filename lastLine n).
Proof. suffix_by_cases n. Qed.

Local Hint Resolve suffix_parseTryExpr : suffix.

Lemma suffix_parseVar n inIterate : leaves_suffix (parseVar tm filename lastLine n inIterate).
Proof. suffix_by_cases n. Qed.

Local Hint Resolve suffix_parseVar : suffix.

Lemma suffix_parseIterateVariableNode n :
  leaves_suffix (parseIterateVariableNode tm filename lastLine n).
Proof. suffix_by_cases n. Qed.

Lemma suffix_parseAssertNode n : leaves_suffix (parseAssertNode tm filename lastLine n).
Proof. suffix_by_cases n. Qed.

Local Hint Resolve suffix_parseIterateVariableNode suffix_parseAssertNode : suffix.

Lemma suffix_parseAsserts n : leaves_suffix (parseAsserts tm filename lastLine n).
Proof. suffix_by_cases n. Qed.

Lemma suffix_parseExprNode n : leaves_suffix (parseExprNode tm filename lastLine n).
Proof. suffix_by_cases n. Qed.

Lemma suffix_parseFieldNode n : leaves_suffix (parseFieldNode tm filename lastLine n).
Proof. suffix_by_cases n. Qed.

Local Hint Resolve suffix_parseAsserts suffix_parseExprNode suffix_parseFieldNode : suffix.

Lemma suffix_parseDollarExpr n : leaves_suffix (parseDollarExpr tm filename lastLine n).
Proof. suffix_by_cases n. Qed.

Local Hint Resolve suffix_parseDollarExpr : suffix.

Lemma suffix_stmt n :
  leaves_suffix (parseBlock tm filename lastLine n) /\
  (forall block, leaves_suffix (parseBlockLoop tm filename lastLine n block)) /\
  leaves_suffix (parseStatement tm filename lastLine n) /\
  leaves_suffix (parseStatement1 tm filename lastLine n) /\
  leaves_suffix (parseIf tm filename lastLine n).
Proof.
  induction n as [|n IH].
  - repeat match goal with |- _ /\ _ => split end; intros; apply suffix_out_of_fuel.
  - destruct IH as (A1 & A2 & A3 & A4 & A5).
    repeat match goal with |- _ /\ _ => split end; intros; simpl; walk_suffix.
Qed.

Lemma suffix_parseBlock n : leaves_suffix (parseBlock tm filename lastLine n).
Proof. apply (suffix_stmt n). Qed.

Lemma suffix_parseStatement n : leaves_suffix (parseStatement tm filename lastLine n).
Proof. apply (suffix_stmt n). Qed.

Local Hint Resolve suffix_parseBlock : suffix.

Lemma suffix_parseTopLevelDecl n : leaves_suffix (parseTopLevelDecl tm filename lastLine n).
Proof. suffix_by_cases n. Qed.

(** A successful run that consumes leaves a proper suffix. *)
Lemma proper_suffix {A} (f : nat -> M A) (bound : nat -> nat) :
  (forall n m, n <= m -> refines (f n) (f m)) ->
  (forall n, leaves_suffix (f n)) ->
  (forall n b, bound b <= n -> consumes_on b (f n)) ->
  forall n s x s', f n s = Ok x s' ->
    exists pre, pre <> [] /\ s = (pre ++ s')%list.
Proof.
  intros Hmono Hsuf Hcons n s x s' E.
  destruct (Hsuf n s x s' E) as [pre ->].
  exists pre. split; [|reflexivity].
  intros ->. simpl in E.
  pose (N := max n (bound (List.length s'))).
  assert (E' : f N s' = Ok x s').
  { rewrite <- E. apply (Hmono n N); [unfold N; lia|]. rewrite E. discriminate. }
  destruct (Hcons N (List.length s') ltac:(unfold N; lia) s' (le_n _)) as [_ H].
  specialize (H _ _ E'). lia.
Qed.

End Suffix.

(** X2.  A declaration, a block, a statement, an expression or a type
    expression that parses consumes at least one token and nothing but a
    prefix of the remaining tokens: what is left is a proper suffix of
    what the method started on. *)
Theorem parse_progress `{TO : t.Ops} `{AO : a.Ops} `{BO : base38.Ops}
    (tm : t.Map) (filename : string) (lastLine : N) (n : nat) (s s' : list t.Token) :
  (forall d, parseTopLevelDecl tm filename lastLine n s = Ok d s' ->
             exists pre, pre <> [] /\ s = (pre ++ s')%list) /\
  (forall b, parseBlock tm filename lastLine n s = Ok b s' ->
             exists pre, pre <> [] /\ s = (pre ++ s')%list) /\
  (forall st, parseStatement tm filename lastLine n s = Ok st s' ->
              exists pre, pre <> [] /\ s = (pre ++ s')%list) /\
  (forall e, parseExpr tm filename lastLine n s = Ok e s' ->
             exists pre, pre <> [] /\ s = (pre ++ s')%list) /\
  (forall ty, parseTypeExpr tm filename lastLine n s = Ok ty s' ->
              exists pre, pre <> [] /\ s = (pre ++ s')%list).
Proof.
  repeat match goal with |- _ /\ _ => split end; intros x E.
  - eapply (proper_suffix (parseTopLevelDecl tm filename lastLine) (fun b => 8 * b + 1));
      eauto using parseTopLevelDecl_mono, suffix_parseTopLevelDecl, parseTopLevelDecl_consumes.
  - eapply (proper_suffix (parseBlock tm filename lastLine) (fun b => 8 * b + 1));
      eauto using parseBlock_mono, suffix_parseBlock, parseBlock_consumes.
  - eapply (proper_suffix (parseStatement tm filename lastLine) (fun b => 8 * b + 4));
      eauto using parseStatement_mono, suffix_parseStatement.
    intros. apply (stmt_total tm filename lastLine n0). assumption.
  - eapply (proper_suffix (parseExpr tm filename lastLine) (fun b => 8 * b + 2));
      eauto using parseExpr_mono, suffix_parseExpr, parseExpr_consumes.
  - eapply (proper_suffix (parseTypeExpr tm filename lastLine) (fun b => 8 * b + 1));
      eauto using parseTypeExpr_mono, suffix_parseTypeExpr, parseTypeExpr_consumes.
Qed.

Lemma parse_progress_witness :
  exists pre, pre <> [] /\
    Sample.onLine 1 [Sample.IDa; Sample.IDPlus; Sample.IDb; Sample.IDSemicolon]
    = (pre ++ Sample.onLine 1 [Sample.IDSemicolon])%list.
Proof.
  refine (proj1 (proj2 (proj2 (proj2
            (parse_progress Sample.tm "f.puffs" 1%N 4
               (Sample.onLine 1 [Sample.IDa; Sample.IDPlus; Sample.IDb; Sample.IDSemicolon])
               (Sample.onLine 1 [Sample.IDSemicolon])))))
            (a.NewExpr 0%N Sample.IDXBinaryPlus 0%N (Some (Sample.exprOf Sample.IDa)) None
                       (Some (Sample.exprOf Sample.IDb)) []) _).
  vm_compute. reflexivity.
Defined.

(** *** No panic *)

Lemma np_bind {A B} (m : M A) (k : A -> M B) s :
  m s <> Panic -> (forall x s', m s = Ok x s' -> k x s' <> Panic) ->
  bind m k s <> Panic.
Proof.
  intros Hm Hk. unfold bind. destruct (m s) as [x s'| | |]; try discriminate.
  - apply Hk. reflexivity.
  - contradiction.
Qed.

Lemma bind_fail {A B} e (k : A -> M B) s : bind (fail e) k s = Err e.
Proof. reflexivity. Qed.

Create HintDb np.

(** Closes a goal whose context says that the zero ID has a class or a
    named key. *)
Ltac np_zero :=
  exfalso; cbn [peek1Of] in *;
  repeat match goal with
         | H : (_ && _)%bool = true |- _ => apply andb_prop in H; destruct H
         | H : t.Key_eqb _ _ = true |- _ => apply Key_eqb_eq in H
         | H : N.eqb _ _ = true |- _ => apply N.eqb_eq in H
         end;
  congruence.

Ltac np_call := solve [ auto 3 with np | eauto 3 with np ].

Ltac np_step :=
  lazymatch goal with
  | |- ret _ _ <> Panic => discriminate
  | |- fail _ _ <> Panic => discriminate
  | |- out_of_fuel _ <> Panic => discriminate
  | |- bind (bind _ _) _ _ <> Panic => rewrite bind_bind
  | |- bind (ret _) _ _ <> Panic => rewrite bind_ret
  | |- bind (fail _) _ _ <> Panic => rewrite bind_fail; discriminate
  | |- bind get_src _ _ <> Panic => rewrite bind_get_src
  | |- bind peek1 _ _ <> Panic => rewrite bind_peek1_any
  | |- bind peek1Key _ _ <> Panic => rewrite bind_peek1Key_any
  | |- bind (line _) _ _ <> Panic => rewrite bind_line_any
  | |- bind advance _ (_ :: _) <> Panic => rewrite bind_advance
  | |- bind advance _ ?s <> Panic =>
      destruct s; [ np_zero | rewrite bind_advance; cbn [peek1Of] in * ]
  | |- bind src0 _ (_ :: _) <> Panic => rewrite bind_src0
  | |- bind src0 _ ?s <> Panic =>
      destruct s; [ np_zero | rewrite bind_src0; cbn [peek1Of] in * ]
  | |- advance (_ :: _) <> Panic => discriminate
  | |- advance ?s <> Panic => destruct s; [ np_zero | discriminate ]
  | |- bind (if negb ?b then _ else _) _ _ <> Panic => destruct b eqn:?; cbn [negb]
  | |- bind (if ?b then _ else _) _ _ <> Panic => destruct b eqn:?
  | |- bind (match ?x with _ => _ end) ?k _ <> Panic =>
      lazymatch type of k with
      | N -> _ =>
          (* a choice of flags: the branches join *)
          apply np_bind;
          [ destruct x eqn:?; solve [ repeat np_step ] | intros ? ? _ ]
      | _ => first [ is_var x; destruct x | destruct x eqn:? ]
      end
  | |- (if negb ?b then _ else _) _ <> Panic => destruct b eqn:?; cbn [negb]
  | |- (if ?b then _ else _) _ <> Panic => destruct b eqn:?
  | |- (match ?x with _ => _ end) _ <> Panic =>
      first [ is_var x; destruct x | destruct x eqn:? ]
  | |- bind ?m _ _ <> Panic => apply np_bind; [ np_call | intros ? ? _ ]
  | |- _ => np_call
  end; cbv beta match zeta; cbn [peek1Of].

Ltac walk_np := repeat np_step.

Section NoPanic.

Context `{TO : t.Ops} `{AO : a.Ops} `{BO : base38.Ops}.
Variables (tm : t.Map) (filename : string) (lastLine : N).
Hypothesis Hzero : zeroIDInvalid.

Ltac np_start :=
  destruct Hzero as ([k0 Hk] & Hu & Hl & Hs & Hb & Ha & Hc & Hd); intros.

Lemma np_expectStrLiteral s : expectStrLiteral tm filename lastLine s <> Panic.
Proof. np_start. unfold expectStrLiteral. walk_np. Qed.

Lemma np_parseIdent s : parseIdent tm filename lastLine s <> Panic.
Proof. np_start. unfold parseIdent. walk_np. Qed.

Local Hint Resolve np_expectStrLiteral np_parseIdent : np.

Lemma np_parseQualifiedIdent s : parseQualifiedIdent tm filename lastLine s <> Panic.
Proof. np_start. unfold parseQualifiedIdent. walk_np. Qed.

Lemma np_parseLabel s : parseLabel tm filename lastLine s <> Panic.
Proof. np_start. unfold parseLabel. walk_np. Qed.

Lemma np_assertsSorted asserts s : assertsSorted filename lastLine asserts s <> Panic.
Proof. np_start. unfold assertsSorted. walk_np. Qed.

Local Hint Resolve np_parseQualifiedIdent np_parseLabel np_assertsSorted : np.

Lemma np_parseListLoop n : forall stop pe acc,
  (forall s, pe s <> Panic) ->
  forall s, parseListLoop tm filename lastLine n stop pe acc s <> Panic.
Proof.
  np_start. revert stop pe acc H s.
  induction n as [|n IH]; intros stop pe acc Hpe s; simpl; [discriminate|].
  unfold closeList. walk_np.
Qed.

Lemma np_parseList n stop pe :
  (forall s, pe s <> Panic) ->
  forall s, parseList tm filename lastLine n stop pe s <> Panic.
Proof.
  intros Hpe s. pose proof (np_parseListLoop n stop pe [] Hpe) as Hloop.
  np_start. unfold parseList, check. walk_np.
Qed.

Local Hint Resolve np_parseList : np.

Lemma zero_not_binary x :
  t.ID_IsBinaryOp x = true -> x <> 0%N.
Proof. np_start. intros ->. congruence. Qed.

Local Hint Resolve zero_not_binary : np.

Lemma np_expr n :
  (forall s, parseTypeExpr tm filename lastLine n s <> Panic) /\
  (forall sep, t.ID_Key sep <> t.ID_Key 0%N ->
     forall s, parseBracket tm filename lastLine n sep s <> Panic) /\
  (forall s, parseArgNode tm filename lastLine n s <> Panic) /\
  (forall s, parseExpr tm filename lastLine n s <> Panic) /\
  (forall x args, x <> 0%N ->
     forall s, parseExprLoop tm filename lastLine n x args s <> Panic) /\
  (forall s, parseOperand tm filename lastLine n s <> Panic) /\
  (forall lhs s, parseOperandLoop tm filename lastLine n lhs s <> Panic).
Proof.
  np_start.
  induction n as [|n IH].
  - repeat match goal with |- _ /\ _ => split end; intros; discriminate.
  - destruct IH as (A1 & A2 & A3 & A4 & A5 & A6 & A7).
    repeat match goal with |- _ /\ _ => split end; intros; simpl; unfold check.
    + walk_np.
    + walk_np.
    + walk_np.
    + walk_np.
    + walk_np.
    + walk_np.
    + walk_np.
Qed.

Lemma np_parseTypeExpr n s : parseTypeExpr tm filename lastLine n s <> Panic.
Proof. apply (np_expr n). Qed.
Lemma np_parseBracket n sep s :
  t.ID_Key sep <> t.ID_Key 0%N -> parseBracket tm filename lastLine n sep s <> Panic.
Proof. intros H. apply (np_expr n). exact H. Qed.
Lemma np_parseArgNode n s : parseArgNode tm filename lastLine n s <> Panic.
Proof. apply (np_expr n). Qed.
Lemma np_parseExpr n s : parseExpr tm filename lastLine n s <> Panic.
Proof. apply (np_expr n). Qed.
Lemma np_parseOperand n s : parseOperand tm filename lastLine n s <> Panic.
Proof. apply (np_expr n). Qed.

Local Hint Resolve np_parseTypeExpr np_parseBracket np_parseArgNode np_parseExpr
  np_parseOperand : np.

Ltac np_by_cases n :=
  np_start; destruct n as [|n]; [discriminate|]; simpl; unfold check; walk_np.

Lemma np_parseTryExpr n s : parseTryExpr tm filename lastLine n s <> Panic.
Proof. np_by_cases n. Qed.

Local Hint Resolve np_parseTryExpr : np.

Lemma np_parseVar n inIterate s : parseVar tm filename lastLine n inIterate s <> Panic.
Proof. np_by_cases n. Qed.

Local Hint Resolve np_parseVar : np.

Lemma np_parseIterateVariableNode n s :
  parseIterateVariableNode tm filename lastLine n s <> Panic.
Proof. np_by_cases n. Qed.

Lemma np_parseAssertNode n s : parseAssertNode tm filename lastLine n s <> Panic.
Proof. np_by_cases n. Qed.

Local Hint Resolve np_parseIterateVariableNode np_parseAssertNode : np.

Lemma np_parseAsserts n s : parseAsserts tm filename lastLine n s <> Panic.
Proof. np_by_cases n. Qed.

Lemma np_parseExprNode n s : parseExprNode tm filename lastLine n s <> Panic.
Proof. np_by_cases n. Qed.

Lemma np_parseFieldNode n s : parseFieldNode tm filename lastLine n s <> Panic.
Proof. np_by_cases n. Qed.

Local Hint Resolve np_parseAsserts np_parseExprNode np_parseFieldNode : np.

Lemma np_parseDollarExpr n s : parseDollarExpr tm filename lastLine n s <> Panic.
Proof. np_by_cases n. Qed.

Local Hint Resolve np_parseDollarExpr : np.

Lemma np_stmt n :
  (forall s, parseBlock tm filename lastLine n s <> Panic) /\
  (forall block s, parseBlockLoop tm filename lastLine n block s <> Panic) /\
  (forall s, parseStatement tm filename lastLine n s <> Panic) /\
  (forall s, parseStatement1 tm filename lastLine n s <> Panic) /\
  (forall s, parseIf tm filename lastLine n s <> Panic).
Proof.
  np_start.
  induction n as [|n IH].
  - repeat match goal with |- _ /\ _ => split end; intros; discriminate.
  - destruct IH as (A1 & A2 & A3 & A4 & A5).
    repeat match goal with |- _ /\ _ => split end; intros; simpl; unfold check;
      walk_np.
Qed.

Lemma np_parseBlock n s : parseBlock tm filename lastLine n s <> Panic.
Proof. apply (np_stmt n). Qed.

Local Hint Resolve np_parseBlock : np.

Lemma np_parseTopLevelDecl n x s :
  parseTopLevelDecl tm filename lastLine n (x :: s) <> Panic.
Proof. np_by_cases n. Qed.

Local Hint Resolve np_parseTopLevelDecl : np.

Lemma np_parseFileLoop n : forall decls s,
  parseFileLoop tm filename lastLine n decls s <> Panic.
Proof.
  np_start. revert decls s.
  induction n as [|n IH]; intros decls s; simpl; [discriminate|]. walk_np.
Qed.

End NoPanic.

(** X3.  When the zero ID is in no class of tokens and has none of the
    keys that parse.go names, Parse and ParseExpr never panic: the parser
    does not slice or index an empty [p.src], on any token sequence. *)
Theorem Parse_never_panics `{TO : t.Ops} `{AO : a.Ops} `{BO : base38.Ops}
    (tm : t.Map) (filename : string) (src : list t.Token) :
  zeroIDInvalid ->
  Parse tm filename src <> Panic /\ ParseExpr tm filename src <> Panic.
Proof.
  intros H. split.
  - apply np_parseFileLoop. exact H.
  - apply np_parseExpr. exact H.
Qed.

Lemma Parse_never_panics_witness :
  Parse Sample.tm "f.puffs" (Sample.onLine 1 [Sample.IDPri; Sample.IDFunc]) <> Panic /\
  ParseExpr Sample.tm "f.puffs" (Sample.onLine 1 [Sample.IDPri; Sample.IDFunc]) <> Panic.
Proof.
  apply Parse_never_panics.
  split; [exists 0%N; reflexivity|].
  repeat split; try reflexivity; vm_compute; discriminate.
Defined.

(** *** The file as a sequence of declarations *)

Section FileLoop.
Context `{TO : t.Ops} `{AO : a.Ops} `{BO : base38.Ops}.
Variables (tm : t.Map) (filename : string).

Lemma parseFileLoop_acc lastLine n : forall acc s,
  parseFileLoop tm filename lastLine n acc s
  = prependDecls acc (parseFileLoop tm filename lastLine n [] s).
Proof.
  induction n as [|n IH]; intros acc s; [reflexivity|].
  cbn [parseFileLoop]. rewrite !bind_get_src. destruct s as [|x s].
  - simpl. rewrite app_nil_r. reflexivity.
  - unfold bind.
    destruct (parseTopLevelDecl tm filename lastLine n (x :: s)) as [d s1| | |];
      try reflexivity.
    rewrite (IH (acc ++ [d])%list), (IH ([] ++ [d])%list).
    destruct (parseFileLoop tm filename lastLine n [] s1); try reflexivity.
    simpl. rewrite <- app_assoc. reflexivity.
Qed.

Lemma lastLineOf_suffix pre s : s <> [] -> lastLineOf (pre ++ s) = lastLineOf s.
Proof.
  intros Hs. unfold lastLineOf. rewrite map_app.
  induction pre as [|x pre IH]; [reflexivity|].
  simpl. destruct (map t.Token_Line pre ++ map t.Token_Line s)%list eqn:E; [|exact IH].
  apply app_eq_nil in E. destruct E as [_ E]. destruct s; [contradiction|discriminate E].
Qed.

(** parseFile does not read [lastLine] on an empty stream. *)
Lemma parseFileLoop_nil l1 l2 n acc :
  parseFileLoop tm filename l1 n acc [] = parseFileLoop tm filename l2 n acc [].
Proof. destruct n; reflexivity. Qed.

Lemma fuelFor_S (src : list t.Token) :
  exists k, fuelFor src = S k /\ 8 * List.length src + 2 <= k.
Proof. exists (16 * List.length src + 15). unfold fuelFor. lia. Qed.

Lemma Parse_step src d s' :
  returns (parseTopLevelDecl tm filename (lastLineOf src)) src (Ok d s') ->
  Parse tm filename src = prependDecls [d] (Parse tm filename s').
Proof.
  intros [_ [n0 Hd]].
  destruct src as [|x rest].
  { specialize (Hd (S n0) ltac:(lia)). discriminate Hd. }
  remember (x :: rest) as src eqn:Esrc.
  set (l := lastLineOf src) in *.
  destruct (fuelFor_S src) as (k & Ek & Hk).
  assert (Hdk : parseTopLevelDecl tm filename l k src = Ok d s').
  { rewrite <- (Hd (max k n0)) by lia. symmetry.
    apply (parseTopLevelDecl_mono tm filename l k (max k n0)); [lia|].
    apply (parseTopLevelDecl_consumes tm filename l k (List.length src)); lia. }
  destruct (suffix_parseTopLevelDecl tm filename l k src d s' Hdk) as [pre Hpre].
  assert (Hlen : List.length s' < List.length src).
  { destruct (parseTopLevelDecl_consumes tm filename l k (List.length src) ltac:(lia)
                src (le_n _)) as [_ H]. exact (H _ _ Hdk). }
  assert (Hf : fuelFor s' <= k) by (unfold fuelFor in *; lia).
  unfold Parse at 1. unfold parseFile. fold l. rewrite Ek.
  cbn [parseFileLoop]. rewrite bind_get_src.
  transitivity (bind (parseTopLevelDecl tm filename l k)
                  (fun d0 => parseFileLoop tm filename l k ([] ++ [d0])%list) src).
  { rewrite Esrc. reflexivity. }
  erewrite bind_Ok by exact Hdk.
  rewrite parseFileLoop_acc. simpl app. f_equal.
  rewrite <- (Parse_budget tm filename s' k Hf). unfold parseFile.
  destruct s' as [|y s'].
  - apply parseFileLoop_nil.
  - unfold l. rewrite Hpre. rewrite lastLineOf_suffix by discriminate. reflexivity.
Qed.

Lemma Parse_step_error src e :
  returns (parseTopLevelDecl tm filename (lastLineOf src)) src (Err e) ->
  Parse tm filename src = Err e.
Proof.
  intros [_ [n0 Hd]].
  destruct src as [|x rest].
  { specialize (Hd (S n0) ltac:(lia)). discriminate Hd. }
  remember (x :: rest) as src eqn:Esrc.
  set (l := lastLineOf src) in *.
  destruct (fuelFor_S src) as (k & Ek & Hk).
  assert (Hdk : parseTopLevelDecl tm filename l k src = Err e).
  { rewrite <- (Hd (max k n0)) by lia. symmetry.
    apply (parseTopLevelDecl_mono tm filename l k (max k n0)); [lia|].
    apply (parseTopLevelDecl_consumes tm filename l k (List.length src)); lia. }
  unfold Parse. unfold parseFile. fold l. rewrite Ek.
  cbn [parseFileLoop]. rewrite bind_get_src.
  transitivity (bind (parseTopLevelDecl tm filename l k)
                  (fun d0 => parseFileLoop tm filename l k ([] ++ [d0])%list) src).
  { rewrite Esrc. reflexivity. }
  erewrite bind_Err by exact Hdk. reflexivity.
Qed.

End FileLoop.

(** X4.  Parse works declaration by declaration.  When the first
    declaration of [src] parses and leaves [s'], the outcome of Parse on
    [src] is that of Parse on [s'] with the declaration put in front of
    its declarations (an error or a panic of the rest is that of the
    whole); when the first declaration fails, its error is that of
    Parse. *)
Theorem Parse_by_declarations `{TO : t.Ops} `{AO : a.Ops} `{BO : base38.Ops}
    (tm : t.Map) (filename : string) (src : list t.Token) :
  (forall d s',
     returns (parseTopLevelDecl tm filename (lastLineOf src)) src (Ok d s') ->
     Parse tm filename src = prependDecls [d] (Parse tm filename s')) /\
  (forall e,
     returns (parseTopLevelDecl tm filename (lastLineOf src)) src (Err e) ->
     Parse tm filename src = Err e).
Proof.
  split.
  - intros d s'. apply Parse_step.
  - intros e. apply Parse_step_error.
Qed.

Lemma Parse_by_declarations_witness :
  Parse Sample.tm "f.puffs" (Sample.funcWithBody [] ++ Sample.funcWithBody [Sample.IDa])
  = prependDecls
      [a.NewFunc 0%N "f.puffs" 1%N 0%N Sample.IDf
         (Some (a.NewStruct 0%N "f.puffs" 1%N Sample.IDIn []))
         (Some (a.NewStruct 0%N "f.puffs" 1%N Sample.IDOut [])) [] []]
      (Parse Sample.tm "f.puffs" (Sample.funcWithBody [Sample.IDa])).
Proof.
  apply (proj1 (Parse_by_declarations Sample.tm "f.puffs"
                  (Sample.funcWithBody [] ++ Sample.funcWithBody [Sample.IDa]))).
  returns_by 8 (parseTopLevelDecl_mono Sample.tm "f.puffs" 1%N).
Defined.

(** *** Unrecognized declarations *)

Section Unrecognized.
Context `{TO : t.Ops} `{AO : a.Ops} `{BO : base38.Ops}.
Variables (tm : t.Map) (filename : string) (lastLine : N).

Lemma parseTopLevelDecl_unrecognized n x rest :
  startsDecl (t.ID_Key (t.Token_ID x)) = false \/
  (t.ID_Key (t.Token_ID x) = t.KeyPub \/ t.ID_Key (t.Token_ID x) = t.KeyPri) /\
  followsVisibility (t.ID_Key (peek1Of rest)) = false ->
  parseTopLevelDecl tm filename lastLine (S n) (x :: rest)
  = Err (unrecognizedDecl filename (t.Token_Line x)).
Proof.
  intros H. unfold parseTopLevelDecl. rewrite bind_src0. cbv beta zeta.
  rewrite bind_peek1Key.
  destruct H as [H|[[H|H] H']].
  - destruct (t.ID_Key (t.Token_ID x)); try discriminate H; reflexivity.
  - rewrite H. cbv iota. rewrite bind_advance, bind_peek1Key_any.
    destruct (t.ID_Key (peek1Of rest)); try discriminate H'; reflexivity.
  - rewrite H. cbv iota. rewrite bind_advance, bind_peek1Key_any.
    destruct (t.ID_Key (peek1Of rest)); try discriminate H'; reflexivity.
Qed.

End Unrecognized.

(** X5.  A file whose first token is not packageid, use, pub or pri, or
    whose first token is pub or pri and is not followed by const, func,
    error, suspension or struct (the end of the stream included), is
    rejected with the error [unrecognized top level declaration], at the
    line of the first token. *)
Theorem unrecognized_declaration `{TO : t.Ops} `{AO : a.Ops} `{BO : base38.Ops}
    (tm : t.Map) (filename : string) (x : t.Token) (rest : list t.Token) :
  startsDecl (t.ID_Key (t.Token_ID x)) = false \/
  (t.ID_Key (t.Token_ID x) = t.KeyPub \/ t.ID_Key (t.Token_ID x) = t.KeyPri) /\
  followsVisibility (t.ID_Key (peek1Of rest)) = false ->
  Parse tm filename (x :: rest) = Err (unrecognizedDecl filename (t.Token_Line x)).
Proof.
  intros H. apply Parse_first_declaration. intros n.
  apply parseTopLevelDecl_unrecognized. exact H.
Qed.

Lemma unrecognized_declaration_witness :
  Parse Sample.tm "f.puffs"
        (t.mkToken Sample.IDPub 3 :: t.mkToken Sample.IDVar 4 :: Sample.onLine 5 [Sample.IDx])
  = Err (unrecognizedDecl "f.puffs" 3).
Proof.
  apply (unrecognized_declaration Sample.tm "f.puffs" (t.mkToken Sample.IDPub 3)).
  right. split; [left; reflexivity|reflexivity].
Defined.

(** *** The shape of the tree and its positions *)

Lemma everywhere_intro P n :
  P n -> Forall (everywhere P) (children n) -> everywhere P n.
Proof.
  intros Hn Hc m Hm. destruct Hm as [|n c m Hin Hm]; [exact Hn|].
  rewrite Forall_forall in Hc. apply (Hc c Hin). exact Hm.
Qed.

Lemma everywhere_here P n : everywhere P n -> P n.
Proof. intros H. apply H. constructor. Qed.

Lemma everywhere_children P n : everywhere P n -> Forall (everywhere P) (children n).
Proof.
  intros H. apply Forall_forall. intros c Hc m Hm. apply H.
  eapply within_child; eassumption.
Qed.

Lemma yields_bind {A B} lines (Q1 : A -> Prop) (Q : B -> Prop) (m : M A) (k : A -> M B) :
  yields lines Q1 m -> (forall x, Q1 x -> yields lines Q (k x)) ->
  yields lines Q (bind m k).
Proof.
  intros Hm Hk s Hs. unfold bind. specialize (Hm s Hs).
  destruct (m s) as [x s1| | |]; auto. destruct Hm as [H1 H2]. apply Hk; assumption.
Qed.

Lemma yields_weaken {A} lines (Q1 Q : A -> Prop) (m : M A) :
  yields lines Q1 m -> (forall x, Q1 x -> Q x) -> yields lines Q m.
Proof.
  intros Hm HQ s Hs. specialize (Hm s Hs). destruct (m s); auto.
  destruct Hm; split; auto.
Qed.

Lemma yields_ret {A} lines (Q : A -> Prop) x : Q x -> yields lines Q (ret x).
Proof. intros H s Hs. split; assumption. Qed.

Lemma yields_fail {A} lines (Q : A -> Prop) e : yields lines Q (fail e).
Proof. intros s Hs. exact I. Qed.

Lemma yields_out_of_fuel {A} lines (Q : A -> Prop) : yields lines Q out_of_fuel.
Proof. intros s Hs. exact I. Qed.

Lemma yields_assoc {A B C} lines (Q : C -> Prop) (m : M A) (f : A -> M B) (g : B -> M C) :
  yields lines Q (bind m (fun x => bind (f x) g)) -> yields lines Q (bind (bind m f) g).
Proof. intros H s Hs. rewrite bind_bind. apply H. exact Hs. Qed.

Lemma yields_ret_bind {A B} lines (Q : B -> Prop) (x : A) (k : A -> M B) :
  yields lines Q (k x) -> yields lines Q (bind (ret x) k).
Proof. intros H s Hs. apply H. exact Hs. Qed.

Lemma yields_fail_bind {A B} lines (Q : B -> Prop) e (k : A -> M B) :
  yields lines Q (bind (fail e) k).
Proof. intros s Hs. exact I. Qed.

Lemma yields_get_src lines : yields lines (fun _ => True) get_src.
Proof. intros s Hs. split; auto. Qed.

Lemma yields_advance lines : yields lines (fun _ => True) advance.
Proof. intros [|x s] Hs; [exact I|]. split; auto. inversion Hs; assumption. Qed.

Lemma yields_line lines lastLine : yields lines (fun _ => True) (line lastLine).
Proof. intros s Hs. split; auto. Qed.

Lemma yields_peek1 lines : yields lines (fun _ => True) peek1.
Proof. intros s Hs. split; auto. Qed.

Lemma yields_bind_src0 {B} lines (Q : B -> Prop) (k : t.Token -> M B) :
  (forall x, In (t.Token_Line x) lines -> yields lines Q (k x)) ->
  yields lines Q (bind src0 k).
Proof.
  intros Hk [|x s] Hs; [exact I|]. rewrite bind_src0. apply Hk; [|exact Hs].
  inversion Hs; assumption.
Qed.

Create HintDb yields.
#[export] Hint Resolve yields_get_src yields_advance yields_line yields_peek1 : yields.

(** Any method yields a value of which nothing is said. *)
Lemma yields_True_of_errors {A} lines P (m : M A) :
  errors_satisfy lines P m -> yields lines (fun _ => True) m.
Proof.
  intros H s Hs. specialize (H s Hs). destruct (m s); auto.
Qed.

Section ShapeFacts.
Context `{TO : t.Ops} `{AO : a.Ops}.
Variables (tm : t.Map) (filename : string) (lines : list N).

Lemma nodeOf_kind k n : nodeOf tm filename lines k n -> kindIs k n.
Proof. intros [H _]. exact H. Qed.

Lemma nodeOf_everywhere k n :
  nodeOf tm filename lines k n -> everywhere (wellFormedNode tm filename lines) n.
Proof. intros [_ H]. exact H. Qed.

Lemma nodeOf_operandOf_expr n : nodeOf tm filename lines a.KExpr n -> operandOf tm filename lines n.
Proof. intros [H1 H2]. split; [left; exact H1|exact H2]. Qed.

Lemma nodeOf_operandOf_type n :
  nodeOf tm filename lines a.KTypeExpr n -> operandOf tm filename lines n.
Proof. intros [H1 H2]. split; [right; exact H1|exact H2]. Qed.

Lemma operandOf_kind n : operandOf tm filename lines n -> operandKind n.
Proof. intros [H _]. exact H. Qed.

Lemma operandOf_everywhere n :
  operandOf tm filename lines n -> everywhere (wellFormedNode tm filename lines) n.
Proof. intros [_ H]. exact H. Qed.

Lemma statementOf_kind n : statementOf tm filename lines n -> statementKind n.
Proof. intros (H & _ & _). exact H. Qed.

Lemma statementOf_positioned n :
  statementOf tm filename lines n -> positionedStatement filename lines n.
Proof. intros (_ & H & _). exact H. Qed.

Lemma statementOf_everywhere n :
  statementOf tm filename lines n -> everywhere (wellFormedNode tm filename lines) n.
Proof. intros (_ & _ & H). exact H. Qed.

Lemma Forall_impl' {A} (P Q : A -> Prop) l :
  (forall x, P x -> Q x) -> Forall P l -> Forall Q l.
Proof. intros H. apply Forall_impl. exact H. Qed.

Lemma Forall_nodeOf_kind k l : Forall (nodeOf tm filename lines k) l -> Forall (kindIs k) l.
Proof. apply Forall_impl'. apply nodeOf_kind. Qed.

Lemma Forall_nodeOf_everywhere k l :
  Forall (nodeOf tm filename lines k) l ->
  Forall (everywhere (wellFormedNode tm filename lines)) l.
Proof. apply Forall_impl'. apply nodeOf_everywhere. Qed.

Lemma Forall_operandOf_kind l : Forall (operandOf tm filename lines) l -> Forall operandKind l.
Proof. apply Forall_impl'. apply operandOf_kind. Qed.

Lemma Forall_operandOf_everywhere l :
  Forall (operandOf tm filename lines) l ->
  Forall (everywhere (wellFormedNode tm filename lines)) l.
Proof. apply Forall_impl'. apply operandOf_everywhere. Qed.

Lemma Forall_nodeOf_operandOf l :
  Forall (nodeOf tm filename lines a.KExpr) l -> Forall (operandOf tm filename lines) l.
Proof. apply Forall_impl'. apply nodeOf_operandOf_expr. Qed.

Lemma Forall_statementOf_kind l :
  Forall (statementOf tm filename lines) l -> Forall statementKind l.
Proof. apply Forall_impl'. apply statementOf_kind. Qed.

Lemma Forall_statementOf_positioned l :
  Forall (statementOf tm filename lines) l ->
  Forall (positionedStatement filename lines) l.
Proof. apply Forall_impl'. apply statementOf_positioned. Qed.

Lemma Forall_statementOf_everywhere l :
  Forall (statementOf tm filename lines) l ->
  Forall (everywhere (wellFormedNode tm filename lines)) l.
Proof. apply Forall_impl'. apply statementOf_everywhere. Qed.

Lemma optionally_impl (P Q : a.Node -> Prop) o :
  (forall x, P x -> Q x) -> optionally P o -> optionally Q o.
Proof. intros H. destruct o; simpl; auto. Qed.

Lemma optionally_nodeOf_kind k o :
  optionally (nodeOf tm filename lines k) o -> optionally (kindIs k) o.
Proof. apply optionally_impl. apply nodeOf_kind. Qed.

Lemma optionally_nodeOf_operandKind o :
  optionally (nodeOf tm filename lines a.KExpr) o -> optionally operandKind o.
Proof. apply optionally_impl. intros x [H _]. left. exact H. Qed.

Lemma optionally_children k o :
  optionally (nodeOf tm filename lines k) o ->
  Forall (everywhere (wellFormedNode tm filename lines)) (optNodes o).
Proof. destruct o; simpl; intros H; constructor; [apply H|constructor]. Qed.

Lemma wellFormedNode_desc n n' :
  a.desc n = a.desc n' ->
  wellFormedNode tm filename lines n -> wellFormedNode tm filename lines n'.
Proof.
  unfold wellFormedNode, wellShaped, blocksPositioned, validNode. intros ->. auto.
Qed.

Lemma children_desc n n' : a.desc n = a.desc n' -> children n = children n'.
Proof. unfold children. intros ->. reflexivity. Qed.

Lemma everywhere_desc n n' :
  a.desc n = a.desc n' ->
  everywhere (wellFormedNode tm filename lines) n ->
  everywhere (wellFormedNode tm filename lines) n'.
Proof.
  intros E H. apply everywhere_intro.
  - apply (wellFormedNode_desc n n' E). apply everywhere_here. exact H.
  - rewrite <- (children_desc n n' E). apply everywhere_children. exact H.
Qed.

Lemma everywhere_SetFilenameLine f l n :
  everywhere (wellFormedNode tm filename lines) n ->
  everywhere (wellFormedNode tm filename lines) (a.SetFilenameLine f l n).
Proof. apply everywhere_desc. destruct n; reflexivity. Qed.

Lemma positionedAt_SetFilenameLine l n :
  In l lines -> positionedAt filename lines (a.SetFilenameLine filename l n).
Proof. intros Hl. split; [reflexivity|exact Hl]. Qed.

Lemma stamp_statement l st :
  In l lines ->
  unstampedStatementOf tm filename lines st ->
  statementOf tm filename lines
    (a.stampVariables filename l (a.SetFilenameLine filename l st)).
Proof.
  intros Hl [Hk Hw].
  pose proof (everywhere_here _ _ Hw) as Hh.
  pose proof (everywhere_children _ _ Hw) as Hc.
  destruct st as [f0 l0 d].
  destruct d; unfold a.SetFilenameLine, a.stampVariables; cbn [a.desc].
  all: try (split; [exact Hk|split; [split; [split; [reflexivity|exact Hl]|exact I]
                   |refine (everywhere_desc _ _ _ Hw); reflexivity]]).
  (* the iterate statement *)
  destruct Hh as (Hshape & Hpos & Hvalid).
  unfold wellShaped in Hshape. cbn [a.desc] in Hshape.
  destruct Hshape as (Hu & Hv & Ha & Hb).
  unfold blocksPositioned in Hpos. cbn [a.desc] in Hpos.
  unfold children in Hc. cbn [a.desc] in Hc.
  apply Forall_app in Hc. destruct Hc as [Hcu Hc].
  apply Forall_app in Hc. destruct Hc as [Hcv Hc].
  split; [exact Hk|]. split.
  - split; [split; [reflexivity|exact Hl]|].
    cbn [a.desc]. apply Forall_forall. intros v Hv'. apply in_map_iff in Hv'.
    destruct Hv' as (v0 & <- & _). apply positionedAt_SetFilenameLine. exact Hl.
  - apply everywhere_intro.
    + split; [|split; [exact Hpos|exact Hvalid]].
      unfold wellShaped. cbn [a.desc]. repeat split; try assumption.
      apply Forall_forall. intros v Hv'. apply in_map_iff in Hv'.
      destruct Hv' as (v0 & <- & Hin). rewrite Forall_forall in Hv.
      specialize (Hv v0 Hin). destruct v0. exact Hv.
    + unfold children. cbn [a.desc].
      apply Forall_app. split; [exact Hcu|]. apply Forall_app. split; [|exact Hc].
      apply Forall_forall. intros v Hv'. apply in_map_iff in Hv'.
      destruct Hv' as (v0 & <- & Hin). rewrite Forall_forall in Hcv.
      apply everywhere_SetFilenameLine. apply Hcv. exact Hin.
Qed.

Lemma nodeOf_unstampedStatementOf k n :
  isStatementKind k = true ->
  nodeOf tm filename lines k n -> unstampedStatementOf tm filename lines n.
Proof.
  intros Hk [H1 H2]. split; [|exact H2]. unfold statementKind. unfold kindIs in H1.
  rewrite H1. exact Hk.
Qed.

Lemma nodeOf_try call op x :
  nodeOf tm filename lines a.KExpr call ->
  nodeOf tm filename lines a.KExpr
    (a.NewExpr (a.Flags_of call) op x (a.LHS call) (a.MHS call) (a.RHS call)
               (a.Args call)).
Proof.
  intros [Hk Hw]. pose proof (everywhere_here _ _ Hw) as Hh.
  pose proof (everywhere_children _ _ Hw) as Hc.
  destruct call as [f l d]. unfold kindIs, a.Kind_of in Hk. cbn [a.desc] in Hk.
  destruct d; try discriminate Hk.
  split; [reflexivity|]. apply everywhere_intro; [exact Hh|exact Hc].
Qed.

Lemma sortedChain_nil : sortedChain [].
Proof.
  split; [constructor|]. exists [], [], []. repeat split; constructor.
Qed.

Lemma Forall_nodeOf_chainKeywords l :
  Forall (nodeOf tm filename lines a.KAssert) l -> chainKeywords l.
Proof.
  apply Forall_impl'. intros n [Hk Hw]. apply everywhere_here in Hw.
  destruct Hw as (_ & _ & Hv). destruct n as [f0 l0 d].
  unfold kindIs, a.Kind_of in Hk. cbn [a.desc] in Hk.
  destruct d; try discriminate Hk. exact Hv.
Qed.

Lemma receiver_ok (receiver : t.ID) :
  (negb (N.eqb receiver 0) && t.ID_IsBuiltIn receiver)%bool = false ->
  receiver = 0%N \/ t.ID_IsBuiltIn receiver = false.
Proof.
  intros H. apply andb_false_iff in H. destruct H as [H|H]; [left|right; exact H].
  apply negb_false_iff in H. apply N.eqb_eq. exact H.
Qed.

End ShapeFacts.

Create HintDb shape.
#[export] Hint Resolve nodeOf_kind nodeOf_everywhere nodeOf_operandOf_expr
  nodeOf_operandOf_type operandOf_kind operandOf_everywhere statementOf_kind
  statementOf_positioned
  statementOf_everywhere Forall_nodeOf_kind Forall_nodeOf_everywhere
  Forall_operandOf_kind Forall_operandOf_everywhere Forall_nodeOf_operandOf
  Forall_statementOf_kind Forall_statementOf_positioned
  Forall_statementOf_everywhere optionally_nodeOf_kind optionally_nodeOf_operandKind
  optionally_children : shape.
#[export] Hint Extern 1 (kindIs _ _) => reflexivity : shape.
#[export] Hint Extern 1 (operandKind _) => (left; solve [eauto with shape]) : shape.
#[export] Hint Extern 1 (operandKind _) => (right; solve [eauto with shape]) : shape.
#[export] Hint Extern 2 (_ \/ _) => (left; solve [eauto with shape]) : shape.
#[export] Hint Extern 2 (_ \/ _) => (right; solve [eauto with shape]) : shape.

(** Proves that a node built by a constructor function is well formed
    everywhere, from what is known of the nodes it is built from. *)
Ltac shape_leaf :=
  cbv beta;
  repeat match goal with
         | H : _ /\ _ |- _ => destruct H
         end;
  repeat match goal with
         | |- _ => assumption
         | |- nodeOf _ _ _ _ (a.NewExpr _ _ _ (a.LHS _) _ _ _) => apply nodeOf_try
         | |- nodeOf _ _ _ _ _ => split; [reflexivity|apply everywhere_intro]
         | |- sortedChain [] => apply sortedChain_nil
         | H : ?k = _ |- In ?k (_ :: _) => rewrite H; simpl; tauto
         | |- In (if ?b then _ else _) (_ :: _) => destruct b
         | |- In _ [0%N; impureCall; suspendibleCall] =>
             unfold impureCall, suspendibleCall; simpl; auto 6
         | H : isUnrollCount ?s = true |- In ?s (_ :: _) =>
             apply (proj1 (isUnrollCount_In s)); exact H
         | H : (negb (N.eqb ?r 0) && t.ID_IsBuiltIn ?r)%bool = false |- ?r = 0%N \/ _ =>
             apply (receiver_ok _ H)
         | |- exists _, Some _ = Some _ /\ _ => eexists; split; [reflexivity|]
         | |- declNames _ =>
             unfold declNames;
             cbn [a.desc a.NewConst a.NewFunc a.NewStatus a.NewStruct a.NewPackageID
               a.NewUse]
         | |- wellFormedNode _ _ _ _ =>
             unfold wellFormedNode, wellShaped, blocksPositioned, validNode;
             cbn [a.desc a.NewExpr a.NewTypeExpr a.NewArg a.NewVar
               a.NewField a.NewAssert a.NewAssign a.NewJump a.NewIf a.NewIterate a.NewWhile
               a.NewReturn a.NewConst a.NewFunc a.NewStatus a.NewStruct a.NewPackageID
               a.NewUse a.unstamped present optionally]
         | |- Forall _ (children _) =>
             unfold children; cbn [a.desc a.NewExpr a.NewTypeExpr a.NewArg a.NewVar
               a.NewField a.NewAssert a.NewAssign a.NewJump a.NewIf a.NewIterate a.NewWhile
               a.NewReturn a.NewConst a.NewFunc a.NewStatus a.NewStruct a.NewPackageID
               a.NewUse a.unstamped optNodes app]
         | |- _ /\ _ => split
         | |- True => exact I
         | |- _ <> _ -> _ =>
             let H := fresh in
             intros H; first [ reflexivity | exfalso; apply H; reflexivity ]
         | |- unstampedStatementOf _ _ _ _ =>
             first [ eapply nodeOf_unstampedStatementOf; [|eassumption]; reflexivity
                   | split; [reflexivity|apply everywhere_intro] ]
         | |- declOf _ _ _ _ =>
             split; [reflexivity|split; [split; [reflexivity|assumption]
                                        |split; [|apply everywhere_intro]]]
         | |- everywhere _ (a.NewStruct _ _ _ _ _) => apply everywhere_intro
         | |- everywhere _ (a.NewExpr _ _ _ _ _ _ _) => apply everywhere_intro
         | |- kindIs _ _ => reflexivity
         | |- Forall _ (_ ++ _)%list => apply Forall_app; split
         | |- Forall _ (_ :: _) => constructor
         | |- Forall _ [] => constructor
         | |- Forall _ (optNodes ?o) => solve [eauto with shape]
         end;
  try solve [eauto 6 with shape].

Ltac yields_call :=
  first [ solve [eauto 3 with yields]
        | match goal with
          | H : forall _, _ -> yields _ _ _ |- _ => eapply H; solve [shape_leaf]
          | H : forall _ _, _ -> yields _ _ _ |- _ => eapply H; solve [shape_leaf]
          end ].

Ltac yields_step :=
  lazymatch goal with
  | |- yields _ _ (ret _) => apply yields_ret; shape_leaf
  | |- yields _ _ (fail _) => apply yields_fail
  | |- yields _ _ out_of_fuel => apply yields_out_of_fuel
  | |- yields _ _ (bind (bind _ _) _) => apply yields_assoc
  | |- yields _ _ (bind (ret _) _) => apply yields_ret_bind
  | |- yields _ _ (bind (fail _) _) => apply yields_fail_bind
  | |- yields _ _ (bind src0 _) => apply yields_bind_src0; intros ? ?
  | |- yields _ _ (bind (if negb ?b then _ else _) _) => destruct b eqn:?; cbn [negb]
  | |- yields _ _ (bind (if ?b then _ else _) _) => destruct b eqn:?
  | |- yields _ _ (bind (match ?x with _ => _ end) ?k) =>
      lazymatch type of k with
      | N -> _ =>
          (* a choice of flags: the branches join *)
          apply (yields_bind _ (fun _ => True));
          [ destruct x; solve [ repeat yields_step ] | intros ? _ ]
      | _ => first [ is_var x; destruct x | destruct x eqn:? ]
      end
  | |- yields _ _ (if negb ?b then _ else _) => destruct b eqn:?; cbn [negb]
  | |- yields _ _ (if ?b then _ else _) => destruct b eqn:?
  | |- yields _ _ (match ?x with _ => _ end) =>
      first [ is_var x; destruct x | destruct x eqn:? ]
  | |- yields _ _ (bind _ _) =>
      eapply yields_bind; [ yields_call | intros ? ? ]
  | |- yields _ _ _ =>
      first [ yields_call
            | eapply yields_weaken; [ yields_call | intros ? ?; shape_leaf ] ]
  end; cbv beta match zeta; cbn [fst snd] in *.

Ltac walk_yields := repeat yields_step.

Section Shape.

Context `{TO : t.Ops} `{AO : a.Ops} `{BO : base38.Ops}.
Variables (tm : t.Map) (filename : string) (lastLine : N).
Variable lines : list N.

Lemma yields_peek1Key : yields lines (fun _ => True) peek1Key.
Proof. unfold peek1Key. walk_yields. Qed.

Local Hint Resolve yields_peek1Key : yields.

Lemma yields_check k what : yields lines (fun _ => True) (check tm filename lastLine k what).
Proof. unfold check. walk_yields. Qed.

Lemma yields_expectStrLiteral :
  yields lines (fun _ => True) (expectStrLiteral tm filename lastLine).
Proof. unfold expectStrLiteral. walk_yields. Qed.

Lemma yields_parseIdent : yields lines (fun _ => True) (parseIdent tm filename lastLine).
Proof. unfold parseIdent. walk_yields. Qed.

Local Hint Resolve yields_check yields_expectStrLiteral yields_parseIdent : yields.

Lemma yields_parseQualifiedIdent :
  yields lines (fun _ => True) (parseQualifiedIdent tm filename lastLine).
Proof. unfold parseQualifiedIdent. walk_yields. Qed.

Lemma yields_parseLabel : yields lines (fun _ => True) (parseLabel tm filename lastLine).
Proof. unfold parseLabel. walk_yields. Qed.

Lemma yields_closeList stop : yields lines (fun _ => True) (closeList stop).
Proof. unfold closeList. walk_yields. Qed.

Lemma yields_assertsSorted asserts :
  chainKeywords asserts ->
  yields lines (fun _ => sortedChain asserts) (assertsSorted filename lastLine asserts).
Proof.
  intros Hc s Hs. rewrite assertsSorted_run.
  destruct (assertsSortedLoop filename _ false false asserts) eqn:E; [exact I|].
  split; [exact Hs|]. eapply assertsSortedLoop_None_iff; eassumption.
Qed.

Local Hint Resolve yields_parseQualifiedIdent yields_parseLabel yields_closeList
  yields_assertsSorted Forall_nodeOf_chainKeywords : yields.

Lemma yields_parseListLoop (Q : a.Node -> Prop) n : forall stop pe acc,
  yields lines Q pe -> Forall Q acc ->
  yields lines (Forall Q) (parseListLoop tm filename lastLine n stop pe acc).
Proof.
  induction n as [|n IH]; intros stop pe acc Hpe Hacc; simpl; walk_yields.
  all: try (apply IH; [assumption|]).
  all: try (apply Forall_app; split; [assumption|constructor; [assumption|constructor]]).
Qed.

Lemma yields_parseList (Q : a.Node -> Prop) n stop pe :
  yields lines Q pe ->
  yields lines (Forall Q) (parseList tm filename lastLine n stop pe).
Proof.
  intros Hpe.
  pose proof (yields_parseListLoop Q n stop pe [] Hpe (Forall_nil _)).
  unfold parseList. walk_yields.
Qed.

Local Hint Resolve yields_parseList : yields.

Lemma yields_expr n :
  yields lines (nodeOf tm filename lines a.KTypeExpr) (parseTypeExpr tm filename lastLine n) /\
  (forall sep,
     yields lines (fun r => optionally (nodeOf tm filename lines a.KExpr) (snd (fst r)) /\
                            optionally (nodeOf tm filename lines a.KExpr) (snd r))
            (parseBracket tm filename lastLine n sep)) /\
  yields lines (nodeOf tm filename lines a.KArg) (parseArgNode tm filename lastLine n) /\
  yields lines (nodeOf tm filename lines a.KExpr) (parseExpr tm filename lastLine n) /\
  (forall x args, Forall (operandOf tm filename lines) args ->
     yields lines (Forall (operandOf tm filename lines))
            (parseExprLoop tm filename lastLine n x args)) /\
  yields lines (nodeOf tm filename lines a.KExpr) (parseOperand tm filename lastLine n) /\
  (forall lhs, nodeOf tm filename lines a.KExpr lhs ->
     yields lines (nodeOf tm filename lines a.KExpr)
            (parseOperandLoop tm filename lastLine n lhs)).
Proof.
  induction n as [|n IH].
  - repeat match goal with |- _ /\ _ => split end; intros; apply yields_out_of_fuel.
  - destruct IH as (A1 & A2 & A3 & A4 & A5 & A6 & A7).
    repeat match goal with |- _ /\ _ => split end; intros; simpl.
    + walk_yields.
    + walk_yields.
    + walk_yields.
    + walk_yields.
    + walk_yields.
    + walk_yields.
    + walk_yields.
Qed.

Lemma yields_parseTypeExpr n :
  yields lines (nodeOf tm filename lines a.KTypeExpr) (parseTypeExpr tm filename lastLine n).
Proof. apply (yields_expr n). Qed.
Lemma yields_parseBracket n sep :
  yields lines (fun r => optionally (nodeOf tm filename lines a.KExpr) (snd (fst r)) /\
                         optionally (nodeOf tm filename lines a.KExpr) (snd r))
         (parseBracket tm filename lastLine n sep).
Proof. apply (yields_expr n). Qed.
Lemma yields_parseArgNode n :
  yields lines (nodeOf tm filename lines a.KArg) (parseArgNode tm filename lastLine n).
Proof. apply (yields_expr n). Qed.
Lemma yields_parseExpr n :
  yields lines (nodeOf tm filename lines a.KExpr) (parseExpr tm filename lastLine n).
Proof. apply (yields_expr n). Qed.
Lemma yields_parseOperand n :
  yields lines (nodeOf tm filename lines a.KExpr) (parseOperand tm filename lastLine n).
Proof. apply (yields_expr n). Qed.

Local Hint Resolve yields_parseTypeExpr yields_parseBracket yields_parseArgNode
  yields_parseExpr yields_parseOperand : yields.

Ltac yields_by_cases n :=
  destruct n as [|n]; [apply yields_out_of_fuel|]; simpl; walk_yields.

Lemma yields_parseTryExpr n :
  yields lines (nodeOf tm filename lines a.KExpr) (parseTryExpr tm filename lastLine n).
Proof.
  yields_by_cases n.
Qed.

Local Hint Resolve yields_parseTryExpr : yields.

Lemma yields_parseVar n inIterate :
  yields lines (nodeOf tm filename lines a.KVar) (parseVar tm filename lastLine n inIterate).
Proof. yields_by_cases n. Qed.

Local Hint Resolve yields_parseVar : yields.

Lemma yields_parseIterateVariableNode n :
  yields lines (nodeOf tm filename lines a.KVar)
         (parseIterateVariableNode tm filename lastLine n).
Proof. yields_by_cases n. Qed.

Lemma yields_parseAssertNode n :
  yields lines (nodeOf tm filename lines a.KAssert) (parseAssertNode tm filename lastLine n).
Proof. yields_by_cases n. Qed.

Local Hint Resolve yields_parseIterateVariableNode yields_parseAssertNode : yields.

Lemma yields_parseAsserts n :
  yields lines (fun asserts => Forall (nodeOf tm filename lines a.KAssert) asserts /\
                               sortedChain asserts)
         (parseAsserts tm filename lastLine n).
Proof. yields_by_cases n. Qed.

Lemma yields_parseExprNode n :
  yields lines (nodeOf tm filename lines a.KExpr) (parseExprNode tm filename lastLine n).
Proof. yields_by_cases n. Qed.

Lemma yields_parseFieldNode n :
  yields lines (nodeOf tm filename lines a.KField) (parseFieldNode tm filename lastLine n).
Proof. yields_by_cases n. Qed.

Local Hint Resolve yields_parseAsserts yields_parseExprNode yields_parseFieldNode : yields.

Lemma yields_parseDollarExpr n :
  yields lines (nodeOf tm filename lines a.KExpr) (parseDollarExpr tm filename lastLine n).
Proof. yields_by_cases n. Qed.

Local Hint Resolve yields_parseDollarExpr : yields.

Lemma yields_stmt n :
  yields lines (Forall (statementOf tm filename lines)) (parseBlock tm filename lastLine n) /\
  (forall block, Forall (statementOf tm filename lines) block ->
     yields lines (Forall (statementOf tm filename lines))
            (parseBlockLoop tm filename lastLine n block)) /\
  (forall x rest, onLines lines (x :: rest) ->
     match parseStatement tm filename lastLine n (x :: rest) with
     | Ok st s' => onLines lines s' /\ statementOf tm filename lines st
     | _ => True
     end) /\
  yields lines (unstampedStatementOf tm filename lines)
         (parseStatement1 tm filename lastLine n) /\
  yields lines (nodeOf tm filename lines a.KIf) (parseIf tm filename lastLine n).
Proof.
  induction n as [|n IH].
  - repeat match goal with |- _ /\ _ => split end; intros;
      first [exact I|apply yields_out_of_fuel].
  - destruct IH as (A1 & A2 & A3 & A4 & A5).
    repeat match goal with |- _ /\ _ => split end; intros; simpl.
    + walk_yields.
    + (* parseBlockLoop: parseStatement runs on a non-empty p.src *)
      intros s Hs. rewrite bind_get_src. destruct s as [|x rest].
      { rewrite bind_line_any. exact I. }
      destruct (t.Key_eqb (t.ID_Key (t.Token_ID x)) t.KeyCloseCurly).
      { rewrite bind_advance. split; [inversion Hs; assumption|assumption]. }
      unfold bind at 1. specialize (A3 x rest Hs).
      destruct (parseStatement tm filename lastLine n (x :: rest)) as [st s1| | |];
        try exact I.
      destruct A3 as [Hs1 Hst].
      refine ((_ : yields lines (Forall (statementOf tm filename lines)) _) s1 Hs1).
      walk_yields.
    + (* parseStatement: the line of the first token *)
      rewrite bind_get_src. cbv zeta iota.
      assert (Hx : In (t.Token_Line x) lines) by (inversion H; assumption).
      refine ((_ : yields lines (statementOf tm filename lines) _) (x :: rest) H).
      eapply yields_bind; [exact A4|]. intros st Hst.
      apply yields_ret. apply stamp_statement; assumption.
    + walk_yields.
    + walk_yields.
Qed.

Lemma yields_parseBlock n :
  yields lines (Forall (statementOf tm filename lines)) (parseBlock tm filename lastLine n).
Proof. apply (yields_stmt n). Qed.

Local Hint Resolve yields_parseBlock : yields.

Lemma yields_parseTopLevelDecl n :
  yields lines (declOf tm filename lines) (parseTopLevelDecl tm filename lastLine n).
Proof. yields_by_cases n. Qed.

Local Hint Resolve yields_parseTopLevelDecl : yields.

Lemma yields_parseFileLoop n : forall decls,
  Forall (declOf tm filename lines) decls ->
  yields lines (fun f => a.File_Filename f = filename /\
                         Forall (declOf tm filename lines) (a.File_TopLevelDecls f))
         (parseFileLoop tm filename lastLine n decls).
Proof.
  induction n as [|n IH]; intros decls Hd; simpl; walk_yields.
Qed.

End Shape.

Lemma Parse_shape `{TO : t.Ops} `{AO : a.Ops} `{BO : base38.Ops}
    (tm : t.Map) (filename : string) (src : list t.Token) (f : a.File) rest :
  Parse tm filename src = Ok f rest ->
  a.File_Filename f = filename /\
  Forall (declOf tm filename (map t.Token_Line src)) (a.File_TopLevelDecls f).
Proof.
  intros E.
  assert (Hs : onLines (map t.Token_Line src) src).
  { apply Forall_forall. intros x Hx. apply in_map. exact Hx. }
  pose proof (yields_parseFileLoop tm filename (lastLineOf src) (map t.Token_Line src)
                (fuelFor src) [] (Forall_nil _) src Hs) as G.
  unfold Parse, parseFile in E. rewrite E in G. apply G.
Qed.

Lemma everywhere_impl (P Q : a.Node -> Prop) n :
  (forall m, P m -> Q m) -> everywhere P n -> everywhere Q n.
Proof. intros H Hn m Hm. apply H. apply Hn. exact Hm. Qed.



(** X7.  The file that Parse returns carries the filename; every
    top-level declaration carries the filename and the line of a token of
    the source; and, everywhere in the tree, the statements of the body of
    a func, if, while or iterate node carry the filename and the line of a
    token of the source, as do the variables of an iterate statement. *)
Theorem Parse_positions `{TO : t.Ops} `{AO : a.Ops} `{BO : base38.Ops}
    (tm : t.Map) (filename : string) (src : list t.Token) (f : a.File)
    (rest : list t.Token) :
  Parse tm filename src = Ok f rest ->
  a.File_Filename f = filename /\
  Forall (fun d => positionedAt filename (map t.Token_Line src) d /\
                   everywhere (blocksPositioned filename (map t.Token_Line src)) d)
         (a.File_TopLevelDecls f).
Proof.
  intros E. destruct (Parse_shape tm filename src f rest E) as [Hf H].
  split; [exact Hf|].
  revert H. apply Forall_impl. intros d (_ & Hp & _ & Hw). split; [exact Hp|].
  revert Hw. apply everywhere_impl. intros m (_ & Hm & _). exact Hm.
Qed.

Lemma Parse_positions_witness :
  exists f,
    Parse Sample.tm "f.puffs"
          (Sample.onLine 1 (Sample.funcHeader ++ [Sample.IDOpenCurly])
           ++ Sample.onLine 2 [Sample.IDa; Sample.IDEq; Sample.IDb; Sample.IDSemicolon]
           ++ Sample.onLine 3 [Sample.IDCloseCurly; Sample.IDSemicolon]) = Ok f [] /\
    a.File_Filename f = "f.puffs" /\
    Forall (fun d => positionedAt "f.puffs" [1; 1; 1; 1; 1; 1; 1; 1; 2; 2; 2; 2; 3; 3]%N d /\
                     everywhere (blocksPositioned "f.puffs"
                                   [1; 1; 1; 1; 1; 1; 1; 1; 2; 2; 2; 2; 3; 3]%N) d)
           (a.File_TopLevelDecls f).
Proof.
  eexists. split; [vm_compute; reflexivity|].
  eapply (Parse_positions Sample.tm "f.puffs"
            (Sample.onLine 1 (Sample.funcHeader ++ [Sample.IDOpenCurly])
             ++ Sample.onLine 2 [Sample.IDa; Sample.IDEq; Sample.IDb; Sample.IDSemicolon]
             ++ Sample.onLine 3 [Sample.IDCloseCurly; Sample.IDSemicolon])).
  vm_compute. reflexivity.
Defined.

(** X8.  In the file that Parse returns: no top-level struct has a
    built-in name; and, everywhere in the tree, no func has a built-in
    receiver or name, the flags of every expression are none or those of a
    call marked [!] or [?], the keyword of every assert node is assert,
    pre, inv or post and that of every jump is break or continue, the
    chain of every func, while and iterate node has no bare assert and is
    ordered pre* inv* post*, and the unroll count of every iterate node is
    a literal whose text is in the whitelist. *)
Theorem Parse_tree_invariants `{TO : t.Ops} `{AO : a.Ops} `{BO : base38.Ops}
    (tm : t.Map) (filename : string) (src : list t.Token) (f : a.File)
    (rest : list t.Token) :
  Parse tm filename src = Ok f rest ->
  Forall (fun d => declNames d /\ everywhere (validNode tm) d) (a.File_TopLevelDecls f).
Proof.
  intros E. destruct (Parse_shape tm filename src f rest E) as [_ H].
  revert H. apply Forall_impl. intros d (_ & _ & Hn & Hw). split; [exact Hn|].
  revert Hw. apply everywhere_impl. intros m (_ & _ & Hm). exact Hm.
Qed.

Lemma Parse_tree_invariants_witness :
  exists f,
    Parse Sample.tm "f.puffs" (Sample.iterateWithChain Sample.chainPreInvPost) = Ok f [] /\
    Forall (fun d => declNames d /\ everywhere (validNode Sample.tm) d)
           (a.File_TopLevelDecls f).
Proof.
  eexists. split; [vm_compute; reflexivity|].
  apply (Parse_tree_invariants Sample.tm "f.puffs"
           (Sample.iterateWithChain Sample.chainPreInvPost) _ []).
  vm_compute. reflexivity.
Defined.

(** *** The position of a declaration and of a statement *)

Lemma results_bind {A B} (Q : B -> Prop) (m : M A) (k : A -> M B) :
  (forall x, results Q (k x)) -> results Q (bind m k).
Proof.
  intros Hk s v s'. unfold bind. destruct (m s) as [x s1| | |]; try discriminate.
  apply Hk.
Qed.

Lemma results_ret {A} (Q : A -> Prop) x : Q x -> results Q (ret x).
Proof. intros H s v s' E. inversion E. subst. exact H. Qed.

Lemma results_fail {A} (Q : A -> Prop) e : results Q (fail e).
Proof. intros s v s' E. discriminate E. Qed.

Ltac walk_results :=
  repeat first
    [ apply results_fail
    | apply results_ret; split; reflexivity
    | apply results_bind; intros ?
    | match goal with
      | |- results _ (match ?x with _ => _ end) => destruct x
      end ].

Section FirstToken.
Context `{TO : t.Ops} `{AO : a.Ops} `{BO : base38.Ops}.
Variables (tm : t.Map) (filename : string) (lastLine : N).

Lemma parseTopLevelDecl_position n x rest d s' :
  parseTopLevelDecl tm filename lastLine n (x :: rest) = Ok d s' ->
  a.Filename d = filename /\ a.Line d = t.Token_Line x.
Proof.
  destruct n as [|n]; [discriminate|].
  unfold parseTopLevelDecl. rewrite bind_src0. cbv beta zeta.
  revert d s'.
  refine ((_ : results (fun d => a.Filename d = filename /\ a.Line d = t.Token_Line x) _)
            (x :: rest)).
  walk_results.
Qed.

Lemma parseStatement_position n x rest st s' :
  parseStatement tm filename lastLine n (x :: rest) = Ok st s' ->
  a.Filename st = filename /\ a.Line st = t.Token_Line x /\
  match a.desc st with
  | a.DIterate _ _ vars _ _ =>
      Forall (fun v => a.Filename v = filename /\ a.Line v = t.Token_Line x) vars
  | _ => True
  end.
Proof.
  destruct n as [|n]; [discriminate|].
  simpl. rewrite bind_get_src. cbv zeta iota. unfold bind.
  destruct (parseStatement1 tm filename lastLine n (x :: rest)) as [s1 r| | |];
    try discriminate.
  intros E. inversion E; subst. clear E.
  destruct s1 as [f0 l0 d]. destruct d; simpl; auto.
  repeat split. apply Forall_forall. intros v Hv. apply in_map_iff in Hv.
  destruct Hv as (v0 & <- & _). destruct v0. split; reflexivity.
Qed.

End FirstToken.

(** X9.  A top-level declaration that parses carries the filename and the
    line of its first token, and so does a statement; the variables of an
    iterate statement carry the filename and the line of the first token
    of the statement. *)
Theorem position_of_first_token `{TO : t.Ops} `{AO : a.Ops} `{BO : base38.Ops}
    (tm : t.Map) (filename : string) (lastLine : N) (n : nat)
    (x : t.Token) (rest : list t.Token) :
  (forall d s',
     parseTopLevelDecl tm filename lastLine n (x :: rest) = Ok d s' ->
     a.Filename d = filename /\ a.Line d = t.Token_Line x) /\
  (forall st s',
     parseStatement tm filename lastLine n (x :: rest) = Ok st s' ->
     a.Filename st = filename /\ a.Line st = t.Token_Line x /\
     match a.desc st with
     | a.DIterate _ _ vars _ _ =>
         Forall (fun v => a.Filename v = filename /\ a.Line v = t.Token_Line x) vars
     | _ => True
     end).
Proof.
  split.
  - intros d s'. apply parseTopLevelDecl_position.
  - intros st s'. apply parseStatement_position.
Qed.

Lemma position_of_first_token_witness :
  exists st,
    parseStatement Sample.tm "f.puffs" 9%N 8
      (t.mkToken Sample.IDa 5 :: Sample.onLine 6 [Sample.IDEq; Sample.IDb; Sample.IDSemicolon])
    = Ok st (Sample.onLine 6 [Sample.IDSemicolon]) /\
    a.Filename st = "f.puffs" /\ a.Line st = 5%N.
Proof.
  eexists. split; [vm_compute; reflexivity|].
  refine ((fun H => conj (proj1 H) (proj1 (proj2 H)))
            (proj2 (position_of_first_token Sample.tm "f.puffs" 9%N 8
                      (t.mkToken Sample.IDa 5)
                      (Sample.onLine 6 [Sample.IDEq; Sample.IDb; Sample.IDSemicolon]))
                   _ (Sample.onLine 6 [Sample.IDSemicolon]) _)).
  vm_compute. reflexivity.
Defined.

(** *** Independence of the positions *)

Lemma corr_bind {A B} (R1 : A -> A -> Prop) (R : B -> B -> Prop)
    (m1 m2 : M A) (k1 k2 : A -> M B) :
  corresponds R1 m1 m2 ->
  (forall x y, R1 x y -> corresponds R (k1 x) (k2 y)) ->
  corresponds R (bind m1 k1) (bind m2 k2).
Proof.
  intros Hm Hk s1 s2 Hs. unfold bind. specialize (Hm s1 s2 Hs).
  destruct (m1 s1) as [x t1|e1| |], (m2 s2) as [y t2|e2| |]; simpl in Hm;
    try contradiction; try exact Hm.
  destruct Hm as [Hxy Ht]. apply Hk; assumption.
Qed.

Lemma corr_weaken {A} (R1 R : A -> A -> Prop) (m1 m2 : M A) :
  corresponds R1 m1 m2 -> (forall x y, R1 x y -> R x y) -> corresponds R m1 m2.
Proof.
  intros Hm HR s1 s2 Hs. specialize (Hm s1 s2 Hs).
  destruct (m1 s1), (m2 s2); simpl in *; try contradiction; try exact Hm.
  destruct Hm; split; auto.
Qed.

Lemma corr_ret {A} (R : A -> A -> Prop) x y : R x y -> corresponds R (ret x) (ret y).
Proof. intros H s1 s2 Hs. split; assumption. Qed.

Lemma corr_fail {A} (R : A -> A -> Prop) e1 e2 :
  sameFormat e1 e2 -> corresponds R (fail e1) (fail e2).
Proof. intros H s1 s2 Hs. exact H. Qed.

Lemma corr_out_of_fuel {A} (R : A -> A -> Prop) : corresponds R out_of_fuel out_of_fuel.
Proof. intros s1 s2 Hs. exact I. Qed.

Lemma corr_assoc {A B C} (R : C -> C -> Prop)
    (m1 m2 : M A) (f1 f2 : A -> M B) (g1 g2 : B -> M C) :
  corresponds R (bind m1 (fun x => bind (f1 x) g1)) (bind m2 (fun x => bind (f2 x) g2)) ->
  corresponds R (bind (bind m1 f1) g1) (bind (bind m2 f2) g2).
Proof. intros H s1 s2 Hs. rewrite !bind_bind. apply H. exact Hs. Qed.

Lemma corr_ret_bind {A B} (R : B -> B -> Prop) (x y : A) (k1 k2 : A -> M B) :
  corresponds R (k1 x) (k2 y) -> corresponds R (bind (ret x) k1) (bind (ret y) k2).
Proof. intros H s1 s2 Hs. apply H. exact Hs. Qed.

Lemma corr_fail_bind {A B} (R : B -> B -> Prop) e1 e2 (k1 k2 : A -> M B) :
  sameFormat e1 e2 -> corresponds R (bind (fail e1) k1) (bind (fail e2) k2).
Proof. intros H s1 s2 Hs. exact H. Qed.

Lemma sameIDs_nil_cons x s : ~ sameIDs [] (x :: s).
Proof. discriminate. Qed.

Lemma sameIDs_cons_nil x s : ~ sameIDs (x :: s) [].
Proof. discriminate. Qed.

Lemma sameIDs_cons x1 s1 x2 s2 :
  sameIDs (x1 :: s1) (x2 :: s2) -> t.Token_ID x1 = t.Token_ID x2 /\ sameIDs s1 s2.
Proof. unfold sameIDs. simpl. intros H. injection H as H1 H2. split; assumption. Qed.

Lemma sameIDs_peek1Of s1 s2 : sameIDs s1 s2 -> peek1Of s1 = peek1Of s2.
Proof.
  destruct s1, s2; try discriminate; [reflexivity|].
  intros H. apply sameIDs_cons in H. apply H.
Qed.

Lemma corr_get_src : corresponds sameIDs get_src get_src.
Proof. intros s1 s2 Hs. split; assumption. Qed.

Lemma corr_advance : corresponds eq advance advance.
Proof.
  intros [|x1 s1] [|x2 s2] Hs; try discriminate; [exact I|].
  apply sameIDs_cons in Hs. split; [reflexivity|apply Hs].
Qed.

Lemma corr_src0 :
  corresponds (fun x y => t.Token_ID x = t.Token_ID y) src0 src0.
Proof.
  intros [|x1 s1] [|x2 s2] Hs; try discriminate; [exact I|].
  split; [|exact Hs]. apply sameIDs_cons in Hs. apply Hs.
Qed.

Lemma corr_line l1 l2 : corresponds (fun _ _ => True) (line l1) (line l2).
Proof. intros s1 s2 Hs. split; [exact I|exact Hs]. Qed.

Lemma corr_peek1 : corresponds eq peek1 peek1.
Proof.
  intros s1 s2 Hs. split; [|exact Hs]. apply (sameIDs_peek1Of _ _ Hs).
Qed.

Create HintDb corr.
#[export] Hint Resolve corr_get_src corr_advance corr_src0 corr_line corr_peek1 : corr.

Section SameTree.

Lemma erasePositions_SetFilenameLine f l n :
  erasePositions (a.SetFilenameLine f l n) = erasePositions n.
Proof. destruct n; reflexivity. Qed.

Lemma erasePositions_stamp f l n :
  erasePositions (a.stampVariables f l (a.SetFilenameLine f l n)) = erasePositions n.
Proof.
  destruct n as [f0 l0 d]. destruct d; try reflexivity.
  simpl. rewrite map_map. do 2 f_equal.
  apply map_ext. intros v. apply erasePositions_SetFilenameLine.
Qed.

Lemma sameTree_stamp f1 l1 f2 l2 x y :
  sameTree x y ->
  sameTree (a.stampVariables f1 l1 (a.SetFilenameLine f1 l1 x))
           (a.stampVariables f2 l2 (a.SetFilenameLine f2 l2 y)).
Proof. unfold sameTree. rewrite !erasePositions_stamp. auto. Qed.

Lemma sameTree_ID0 x y : sameTree x y -> a.ID0 x = a.ID0 y.
Proof.
  unfold sameTree. destruct x as [? ? dx], y as [? ? dy].
  destruct dx, dy; simpl; intros H; inversion H; reflexivity.
Qed.

Lemma sameTree_Keyword x y : sameTree x y -> a.Keyword x = a.Keyword y.
Proof.
  unfold sameTree. destruct x as [? ? dx], y as [? ? dy].
  destruct dx, dy; simpl; intros H; inversion H; reflexivity.
Qed.

Lemma sameTree_try x y op :
  sameTree x y ->
  sameTree (a.NewExpr (a.Flags_of x) op (a.ID1 x) (a.LHS x) (a.MHS x) (a.RHS x) (a.Args x))
           (a.NewExpr (a.Flags_of y) op (a.ID1 y) (a.LHS y) (a.MHS y) (a.RHS y) (a.Args y)).
Proof.
  unfold sameTree. destruct x as [? ? dx], y as [? ? dy].
  destruct dx, dy; simpl; intros H; inversion H; try reflexivity.
  unfold a.NewExpr, a.unstamped, a.Flags_of, a.ID1, a.LHS, a.MHS, a.RHS, a.Args.
  simpl. congruence.
Qed.

End SameTree.

#[export] Hint Resolve sameTree_stamp sameTree_try : corr.

(** Proves that two values built alike from corresponding parts are the
    same up to positions. *)
Ltac same_leaf :=
  cbv beta;
  first
    [ exact I
    | reflexivity
    | assumption
    | apply sameTree_stamp; assumption
    | apply sameTree_try; assumption
    | repeat match goal with
             | H : _ /\ _ |- _ => destruct H
             end;
      unfold sameBracket, sameTree, sameTrees, sameOption in *;
      repeat match goal with |- _ /\ _ => split end;
      cbn [fst snd erasePositions erasePositionsIn option_map a.NewExpr a.NewTypeExpr
           a.NewArg a.NewVar a.NewField a.NewAssert a.NewAssign a.NewJump a.NewIf
           a.NewIterate a.NewWhile a.NewReturn a.NewConst a.NewFunc a.NewStatus
           a.NewStruct a.NewPackageID a.NewUse a.unstamped
           a.File_TopLevelDecls a.File_Filename] in *;
      rewrite ?map_app; cbn [map]; congruence ].

Ltac corr_call :=
  first [ solve [eauto 3 with corr]
        | match goal with
          | H : forall _ _, _ -> corresponds _ _ _ |- _ => eapply H; solve [same_leaf]
          | H : forall _ _ _, _ -> corresponds _ _ _ |- _ => eapply H; solve [same_leaf]
          end ].

(** Uses what is known of two corresponding values: equal values are
    identified, tokens have the same ID, sequences the same shape. *)
Ltac corr_related H :=
  cbv beta in H;
  lazymatch type of H with
  | ?x = ?y => first [ subst y | subst x | rewrite <- ?H ]
  | sameTree ?x ?y =>
      rewrite ?(sameTree_ID0 _ _ H)
  | sameBracket ?x ?y =>
      destruct x as [[? ?] ?], y as [[? ?] ?];
      unfold sameBracket in H; cbn [fst snd] in H;
      let H1 := fresh in let H2 := fresh in let H3 := fresh in
      destruct H as (H1 & H2 & H3); subst
  | True => clear H
  | _ => idtac
  end.

Ltac corr_step :=
  lazymatch goal with
  | |- corresponds _ (ret _) (ret _) => apply corr_ret; same_leaf
  | |- corresponds _ (fail _) (fail _) => apply corr_fail; reflexivity
  | |- corresponds _ out_of_fuel out_of_fuel => apply corr_out_of_fuel
  | |- corresponds _ (bind (bind _ _) _) (bind (bind _ _) _) => apply corr_assoc
  | |- corresponds _ (bind (ret _) _) (bind (ret _) _) => apply corr_ret_bind
  | |- corresponds _ (bind (fail _) _) (bind (fail _) _) =>
      apply corr_fail_bind; reflexivity
  | |- corresponds _ (bind (if ?b then _ else _) _) (bind (if ?b then _ else _) _) =>
      destruct b
  | |- corresponds _ (bind (match ?x with _ => _ end) ?k)
                     (bind (match ?x with _ => _ end) _) =>
      lazymatch type of k with
      | N -> _ =>
          (* a choice of flags: the branches join *)
          apply (corr_bind eq);
          [ destruct x; solve [ repeat corr_step ]
          | let a := fresh in let b := fresh in let H := fresh in
            intros a b H; subst b ]
      | _ => destruct x
      end
  | |- corresponds _ (if ?b then _ else _) (if ?b then _ else _) => destruct b
  | |- corresponds _ (match ?s1 with [] => _ | _ :: _ => _ end)
                     (match ?s2 with [] => _ | _ :: _ => _ end) =>
      first
        [ constr_eq s1 s2; destruct s1
        | match goal with
          | H : sameIDs s1 s2 |- _ =>
              destruct s1 as [|? ?], s2 as [|? ?];
              [ | exfalso; exact (sameIDs_nil_cons _ _ H)
                | exfalso; exact (sameIDs_cons_nil _ _ H)
                | apply sameIDs_cons in H; destruct H as [H ?];
                  unfold t.Token_IsIdent, t.Token_Key; rewrite <- ?H ]
          end ]
  | |- corresponds _ (match ?x with _ => _ end) (match ?x with _ => _ end) => destruct x
  | |- corresponds _ (match ?x with (_, _) => _ end) (match ?y with (_, _) => _ end) =>
      destruct x, y;
      cbn [fst snd] in *;
      repeat match goal with
             | H : _ /\ _ |- _ => destruct H
             | H : (_, _) = (_, _) |- _ => injection H as ? ?
             end;
      subst
  | |- corresponds _ (bind src0 _) (bind src0 _) =>
      eapply corr_bind; [ apply corr_src0 | ];
      let x := fresh "x" in let y := fresh "y" in let H := fresh "H" in
      intros x y H; cbv beta in H; unfold t.Token_IsIdent, t.Token_Key; rewrite <- ?H
  | |- corresponds _ (bind _ _) (bind _ _) =>
      eapply corr_bind; [ corr_call | ];
      let x := fresh "x" in let y := fresh "y" in let H := fresh "H" in
      intros x y H; corr_related H
  | |- corresponds _ _ _ =>
      first [ corr_call
            | eapply corr_weaken; [ corr_call | intros ? ? ?; same_leaf ] ]
  end; cbv beta match zeta.

Ltac walk_corr := repeat corr_step.

Section Corresponds.

Context `{TO : t.Ops} `{AO : a.Ops} `{BO : base38.Ops}.
Variables (tm : t.Map) (fn1 fn2 : string) (l1 l2 : N).

Lemma corr_peek1Key : corresponds eq peek1Key peek1Key.
Proof. unfold peek1Key. walk_corr. Qed.

Local Hint Resolve corr_peek1Key : corr.

Lemma corr_check k what :
  corresponds eq (check tm fn1 l1 k what) (check tm fn2 l2 k what).
Proof. unfold check. walk_corr. Qed.

Lemma corr_expectStrLiteral :
  corresponds eq (expectStrLiteral tm fn1 l1) (expectStrLiteral tm fn2 l2).
Proof. unfold expectStrLiteral. walk_corr. Qed.

Lemma corr_parseIdent : corresponds eq (parseIdent tm fn1 l1) (parseIdent tm fn2 l2).
Proof. unfold parseIdent. walk_corr. Qed.

Local Hint Resolve corr_check corr_expectStrLiteral corr_parseIdent : corr.

Lemma corr_parseQualifiedIdent :
  corresponds eq (parseQualifiedIdent tm fn1 l1) (parseQualifiedIdent tm fn2 l2).
Proof. unfold parseQualifiedIdent. walk_corr. Qed.

Lemma corr_parseLabel : corresponds eq (parseLabel tm fn1 l1) (parseLabel tm fn2 l2).
Proof. unfold parseLabel. walk_corr. Qed.

Lemma corr_closeList stop : corresponds eq (closeList stop) (closeList stop).
Proof. unfold closeList. walk_corr. Qed.

Local Hint Resolve corr_parseQualifiedIdent corr_parseLabel corr_closeList : corr.

Lemma assertsSortedLoop_same k1 k2 : forall a1 a2 seenInv seenPost,
  sameTrees a1 a2 ->
  match assertsSortedLoop fn1 k1 seenInv seenPost a1,
        assertsSortedLoop fn2 k2 seenInv seenPost a2 with
  | None, None => True
  | Some e1, Some e2 => sameFormat e1 e2
  | _, _ => False
  end.
Proof.
  induction a1 as [|x1 a1 IH]; intros [|x2 a2] seenInv seenPost H;
    try discriminate H; [exact I|].
  unfold sameTrees in H. simpl in H. injection H as Hx Ha.
  simpl. rewrite (sameTree_Keyword x1 x2 Hx).
  destruct (t.ID_Key (a.Keyword x2)); try (apply IH; exact Ha); try reflexivity.
  - destruct (seenPost || seenInv); [reflexivity|apply IH; exact Ha].
  - destruct seenPost; [reflexivity|apply IH; exact Ha].
Qed.

Lemma corr_assertsSorted a1 a2 :
  sameTrees a1 a2 ->
  corresponds eq (assertsSorted fn1 l1 a1) (assertsSorted fn2 l2 a2).
Proof.
  intros H s1 s2 Hs. rewrite !assertsSorted_run.
  pose proof (assertsSortedLoop_same
                (match s1 with x :: _ => t.Token_Line x | [] => l1 end)
                (match s2 with x :: _ => t.Token_Line x | [] => l2 end)
                a1 a2 false false H) as G.
  destruct (assertsSortedLoop fn1 _ false false a1),
           (assertsSortedLoop fn2 _ false false a2); try contradiction.
  - exact G.
  - split; [reflexivity|exact Hs].
Qed.

Lemma corr_parseListLoop n : forall stop pe1 pe2 acc1 acc2,
  corresponds sameTree pe1 pe2 -> sameTrees acc1 acc2 ->
  corresponds sameTrees (parseListLoop tm fn1 l1 n stop pe1 acc1)
                        (parseListLoop tm fn2 l2 n stop pe2 acc2).
Proof.
  induction n as [|n IH]; intros stop pe1 pe2 acc1 acc2 Hpe Hacc; simpl.
  - apply corr_out_of_fuel.
  - walk_corr. apply IH; [assumption|same_leaf].
Qed.

Lemma corr_parseList n stop pe1 pe2 :
  corresponds sameTree pe1 pe2 ->
  corresponds sameTrees (parseList tm fn1 l1 n stop pe1) (parseList tm fn2 l2 n stop pe2).
Proof.
  intros Hpe.
  assert (Hloop : corresponds sameTrees (parseListLoop tm fn1 l1 n stop pe1 [])
                              (parseListLoop tm fn2 l2 n stop pe2 []))
    by (apply corr_parseListLoop; [assumption|reflexivity]).
  unfold parseList. walk_corr.
Qed.

Local Hint Resolve corr_assertsSorted corr_parseList : corr.

Lemma corr_expr n :
  corresponds sameTree (parseTypeExpr tm fn1 l1 n) (parseTypeExpr tm fn2 l2 n) /\
  (forall sep, corresponds sameBracket (parseBracket tm fn1 l1 n sep)
                           (parseBracket tm fn2 l2 n sep)) /\
  corresponds sameTree (parseArgNode tm fn1 l1 n) (parseArgNode tm fn2 l2 n) /\
  corresponds sameTree (parseExpr tm fn1 l1 n) (parseExpr tm fn2 l2 n) /\
  (forall x args1 args2, sameTrees args1 args2 ->
     corresponds sameTrees (parseExprLoop tm fn1 l1 n x args1)
                 (parseExprLoop tm fn2 l2 n x args2)) /\
  corresponds sameTree (parseOperand tm fn1 l1 n) (parseOperand tm fn2 l2 n) /\
  (forall lhs1 lhs2, sameTree lhs1 lhs2 ->
     corresponds sameTree (parseOperandLoop tm fn1 l1 n lhs1)
                 (parseOperandLoop tm fn2 l2 n lhs2)).
Proof.
  induction n as [|n IH].
  - repeat match goal with |- _ /\ _ => split end; intros; apply corr_out_of_fuel.
  - destruct IH as (A1 & A2 & A3 & A4 & A5 & A6 & A7).
    repeat match goal with |- _ /\ _ => split end; intros; simpl; unfold check.
    + walk_corr.
    + walk_corr.
    + walk_corr.
    + walk_corr.
    + walk_corr.
    + walk_corr.
    + walk_corr.
Qed.

Lemma corr_parseTypeExpr n :
  corresponds sameTree (parseTypeExpr tm fn1 l1 n) (parseTypeExpr tm fn2 l2 n).
Proof. apply (corr_expr n). Qed.
Lemma corr_parseBracket n sep :
  corresponds sameBracket (parseBracket tm fn1 l1 n sep) (parseBracket tm fn2 l2 n sep).
Proof. apply (corr_expr n). Qed.
Lemma corr_parseArgNode n :
  corresponds sameTree (parseArgNode tm fn1 l1 n) (parseArgNode tm fn2 l2 n).
Proof. apply (corr_expr n). Qed.
Lemma corr_parseExpr n :
  corresponds sameTree (parseExpr tm fn1 l1 n) (parseExpr tm fn2 l2 n).
Proof. apply (corr_expr n). Qed.
Lemma corr_parseOperand n :
  corresponds sameTree (parseOperand tm fn1 l1 n) (parseOperand tm fn2 l2 n).
Proof. apply (corr_expr n). Qed.

Local Hint Resolve corr_parseTypeExpr corr_parseBracket corr_parseArgNode
  corr_parseExpr corr_parseOperand : corr.

Ltac corr_by_cases n :=
  destruct n as [|n]; [apply corr_out_of_fuel|]; simpl; unfold check; walk_corr.

Lemma corr_parseTryExpr n :
  corresponds sameTree (parseTryExpr tm fn1 l1 n) (parseTryExpr tm fn2 l2 n).
Proof. corr_by_cases n. Qed.

Local Hint Resolve corr_parseTryExpr : corr.

Lemma corr_parseVar n inIterate :
  corresponds sameTree (parseVar tm fn1 l1 n inIterate) (parseVar tm fn2 l2 n inIterate).
Proof. corr_by_cases n. Qed.

Local Hint Resolve corr_parseVar : corr.

Lemma corr_parseIterateVariableNode n :
  corresponds sameTree (parseIterateVariableNode tm fn1 l1 n)
              (parseIterateVariableNode tm fn2 l2 n).
Proof. corr_by_cases n. Qed.

Lemma corr_parseAssertNode n :
  corresponds sameTree (parseAssertNode tm fn1 l1 n) (parseAssertNode tm fn2 l2 n).
Proof. corr_by_cases n. Qed.

Local Hint Resolve corr_parseIterateVariableNode corr_parseAssertNode : corr.

Lemma corr_parseAsserts n :
  corresponds sameTrees (parseAsserts tm fn1 l1 n) (parseAsserts tm fn2 l2 n).
Proof. corr_by_cases n. Qed.

Lemma corr_parseExprNode n :
  corresponds sameTree (parseExprNode tm fn1 l1 n) (parseExprNode tm fn2 l2 n).
Proof. corr_by_cases n. Qed.

Lemma corr_parseFieldNode n :
  corresponds sameTree (parseFieldNode tm fn1 l1 n) (parseFieldNode tm fn2 l2 n).
Proof. corr_by_cases n. Qed.

Local Hint Resolve corr_parseAsserts corr_parseExprNode corr_parseFieldNode : corr.

Lemma corr_parseDollarExpr n :
  corresponds sameTree (parseDollarExpr tm fn1 l1 n) (parseDollarExpr tm fn2 l2 n).
Proof. corr_by_cases n. Qed.

Local Hint Resolve corr_parseDollarExpr : corr.

Lemma corr_stmt n :
  corresponds sameTrees (parseBlock tm fn1 l1 n) (parseBlock tm fn2 l2 n) /\
  (forall block1 block2, sameTrees block1 block2 ->
     corresponds sameTrees (parseBlockLoop tm fn1 l1 n block1)
                 (parseBlockLoop tm fn2 l2 n block2)) /\
  corresponds sameTree (parseStatement tm fn1 l1 n) (parseStatement tm fn2 l2 n) /\
  corresponds sameTree (parseStatement1 tm fn1 l1 n) (parseStatement1 tm fn2 l2 n) /\
  corresponds sameTree (parseIf tm fn1 l1 n) (parseIf tm fn2 l2 n).
Proof.
  induction n as [|n IH].
  - repeat match goal with |- _ /\ _ => split end; intros; apply corr_out_of_fuel.
  - destruct IH as (A1 & A2 & A3 & A4 & A5).
    repeat match goal with |- _ /\ _ => split end; intros; simpl; unfold check.
    + walk_corr.
    + walk_corr.
    + walk_corr.
    + walk_corr.
    + walk_corr.
Qed.

Lemma corr_parseBlock n :
  corresponds sameTrees (parseBlock tm fn1 l1 n) (parseBlock tm fn2 l2 n).
Proof. apply (corr_stmt n). Qed.

Local Hint Resolve corr_parseBlock : corr.

Lemma corr_parseTopLevelDecl n :
  corresponds sameTree (parseTopLevelDecl tm fn1 l1 n) (parseTopLevelDecl tm fn2 l2 n).
Proof. corr_by_cases n. Qed.

Local Hint Resolve corr_parseTopLevelDecl : corr.

Lemma corr_parseFileLoop n : forall decls1 decls2,
  sameTrees decls1 decls2 ->
  corresponds (fun f1 f2 => sameTrees (a.File_TopLevelDecls f1) (a.File_TopLevelDecls f2))
              (parseFileLoop tm fn1 l1 n decls1) (parseFileLoop tm fn2 l2 n decls2).
Proof.
  induction n as [|n IH]; intros decls1 decls2 Hd; simpl; walk_corr.
Qed.

End Corresponds.

Lemma sameIDs_length s1 s2 : sameIDs s1 s2 -> List.length s1 = List.length s2.
Proof.
  intros H. rewrite <- (length_map t.Token_ID s1), <- (length_map t.Token_ID s2).
  unfold sameIDs in H. rewrite H. reflexivity.
Qed.

(** X10.  The tree does not depend on the positions.  On two token
    sequences with the same IDs, whatever their lines and whatever the two
    filenames, Parse returns files whose declarations are the same up to
    the filenames and lines in the nodes, or errors of the same format,
    and so does ParseExpr (which leaves tokens of the same IDs). *)
Theorem Parse_ignores_positions `{TO : t.Ops} `{AO : a.Ops} `{BO : base38.Ops}
    (tm : t.Map) (fn1 fn2 : string) (src1 src2 : list t.Token) :
  sameIDs src1 src2 ->
  sameOutcome (fun f1 f2 => sameTrees (a.File_TopLevelDecls f1) (a.File_TopLevelDecls f2))
              (Parse tm fn1 src1) (Parse tm fn2 src2) /\
  sameOutcome sameTree (ParseExpr tm fn1 src1) (ParseExpr tm fn2 src2).
Proof.
  intros H. unfold Parse, ParseExpr, parseFile, fuelFor.
  rewrite (sameIDs_length _ _ H). split.
  - apply corr_parseFileLoop; [reflexivity|exact H].
  - apply corr_parseExpr. exact H.
Qed.

Lemma Parse_ignores_positions_witness :
  sameOutcome (fun f1 f2 => sameTrees (a.File_TopLevelDecls f1) (a.File_TopLevelDecls f2))
    (Parse Sample.tm "f.puffs" (Sample.funcWithBody [Sample.IDa; Sample.IDSemicolon]))
    (Parse Sample.tm "g.puffs"
       (Sample.onLine 7 (Sample.funcHeader ++ [Sample.IDOpenCurly])
        ++ Sample.onLine 8 [Sample.IDa; Sample.IDSemicolon]
        ++ Sample.onLine 9 [Sample.IDCloseCurly; Sample.IDSemicolon])) /\
  sameOutcome sameTree
    (ParseExpr Sample.tm "f.puffs" (Sample.funcWithBody [Sample.IDa; Sample.IDSemicolon]))
    (ParseExpr Sample.tm "g.puffs"
       (Sample.onLine 7 (Sample.funcHeader ++ [Sample.IDOpenCurly])
        ++ Sample.onLine 8 [Sample.IDa; Sample.IDSemicolon]
        ++ Sample.onLine 9 [Sample.IDCloseCurly; Sample.IDSemicolon])).
Proof.
  apply Parse_ignores_positions. vm_compute. reflexivity.
Defined.

(** *** Brackets *)

Section Bracket.
Context `{TO : t.Ops} `{AO : a.Ops} `{BO : base38.Ops}.
Variables (tm : t.Map) (filename : string) (lastLine : N).

(** Unfolds parseBracket with a budget that the runs [H1], [H2] of
    parseExpr fit in. *)
Ltac bracket_run n1 n2 :=
  split; [discriminate|];
  exists (S (n1 + n2)); intros n Hn; destruct n as [|n]; [lia|];
  simpl.

Lemma parseBracket_range sep op s1 i c s2 j close s3 :
  t.ID_Key (t.Token_ID op) = t.KeyOpenBracket ->
  peek1Of s1 <> sep ->
  returns (parseExpr tm filename lastLine) s1 (Ok i (c :: s2)) ->
  t.ID_Key (t.Token_ID c) = t.ID_Key sep ->
  t.ID_Key (peek1Of s2) <> t.KeyCloseBracket ->
  returns (parseExpr tm filename lastLine) s2 (Ok j (close :: s3)) ->
  t.ID_Key (t.Token_ID close) = t.KeyCloseBracket ->
  returns (fun n => parseBracket tm filename lastLine n sep) (op :: s1)
          (Ok (sep, Some i, Some j) s3).
Proof.
  intros Hop Hne [_ [n1 Hi]] Hc Hnc [_ [n2 Hj]] Hclose. bracket_run n1 n2.
  rewrite check_ok by exact Hop. rewrite bind_advance, bind_peek1_any.
  destruct (N.eqb_spec (peek1Of s1) sep) as [F|_]; [contradiction|]. cbn [negb].
  rewrite bind_bind. erewrite bind_Ok by (apply Hi; lia). rewrite bind_ret.
  rewrite bind_peek1Key, Hc, Key_eqb_refl, bind_advance, bind_peek1Key_any.
  rewrite (Key_eqb_neq _ _ Hnc). cbn [negb].
  rewrite bind_bind. erewrite bind_Ok by (apply Hj; lia). rewrite bind_ret.
  rewrite check_ok by exact Hclose. rewrite bind_advance. reflexivity.
Qed.

Lemma parseBracket_from sep op s1 i c close s3 :
  t.ID_Key (t.Token_ID op) = t.KeyOpenBracket ->
  peek1Of s1 <> sep ->
  returns (parseExpr tm filename lastLine) s1 (Ok i (c :: close :: s3)) ->
  t.ID_Key (t.Token_ID c) = t.ID_Key sep ->
  t.ID_Key (t.Token_ID close) = t.KeyCloseBracket ->
  returns (fun n => parseBracket tm filename lastLine n sep) (op :: s1)
          (Ok (sep, Some i, None) s3).
Proof.
  intros Hop Hne [_ [n1 Hi]] Hc Hclose. bracket_run n1 0.
  rewrite check_ok by exact Hop. rewrite bind_advance, bind_peek1_any.
  destruct (N.eqb_spec (peek1Of s1) sep) as [F|_]; [contradiction|]. cbn [negb].
  rewrite bind_bind. erewrite bind_Ok by (apply Hi; lia). rewrite bind_ret.
  rewrite bind_peek1Key, Hc, Key_eqb_refl, bind_advance, bind_peek1Key.
  rewrite Hclose, Key_eqb_refl. cbn [negb]. rewrite bind_ret.
  rewrite check_ok by exact Hclose. rewrite bind_advance. reflexivity.
Qed.

Lemma parseBracket_to sep op c s2 j close s3 :
  t.ID_Key (t.Token_ID op) = t.KeyOpenBracket ->
  t.Token_ID c = sep ->
  t.ID_Key (peek1Of s2) <> t.KeyCloseBracket ->
  returns (parseExpr tm filename lastLine) s2 (Ok j (close :: s3)) ->
  t.ID_Key (t.Token_ID close) = t.KeyCloseBracket ->
  returns (fun n => parseBracket tm filename lastLine n sep) (op :: c :: s2)
          (Ok (sep, None, Some j) s3).
Proof.
  intros Hop Hc Hnc [_ [n2 Hj]] Hclose. bracket_run 0 n2.
  rewrite check_ok by exact Hop. rewrite bind_advance, bind_peek1, Hc, N.eqb_refl.
  cbn [negb]. rewrite bind_ret.
  rewrite bind_peek1Key, Hc, Key_eqb_refl, bind_advance, bind_peek1Key_any.
  rewrite (Key_eqb_neq _ _ Hnc). cbn [negb].
  rewrite bind_bind. erewrite bind_Ok by (apply Hj; lia). rewrite bind_ret.
  rewrite check_ok by exact Hclose. rewrite bind_advance. reflexivity.
Qed.

Lemma parseBracket_all sep op c close s3 :
  t.ID_Key (t.Token_ID op) = t.KeyOpenBracket ->
  t.Token_ID c = sep ->
  t.ID_Key (t.Token_ID close) = t.KeyCloseBracket ->
  returns (fun n => parseBracket tm filename lastLine n sep) (op :: c :: close :: s3)
          (Ok (sep, None, None) s3).
Proof.
  intros Hop Hc Hclose. bracket_run 0 0.
  rewrite check_ok by exact Hop. rewrite bind_advance, bind_peek1, Hc, N.eqb_refl.
  cbn [negb]. rewrite bind_ret.
  rewrite bind_peek1Key, Hc, Key_eqb_refl, bind_advance, bind_peek1Key.
  rewrite Hclose, Key_eqb_refl. cbn [negb]. rewrite bind_ret.
  rewrite check_ok by exact Hclose. rewrite bind_advance. reflexivity.
Qed.

Lemma parseBracket_index sep op s1 i close s2 :
  t.ID_Key (t.Token_ID op) = t.KeyOpenBracket ->
  peek1Of s1 <> sep ->
  returns (parseExpr tm filename lastLine) s1 (Ok i (close :: s2)) ->
  t.ID_Key (t.Token_ID close) = t.KeyCloseBracket ->
  t.ID_Key sep <> t.KeyCloseBracket ->
  returns (fun n => parseBracket tm filename lastLine n sep) (op :: s1)
          (if t.Key_eqb (t.ID_Key sep) t.KeyColon
           then Ok (t.IDOpenBracket, None, Some i) s2
           else Err (expectedSeparator tm filename sep close)).
Proof.
  intros Hop Hne [_ [n1 Hi]] Hclose Hsep. split.
  { destruct (t.Key_eqb (t.ID_Key sep) t.KeyColon); discriminate. }
  exists (S n1). intros n Hn. destruct n as [|n]; [lia|]. simpl.
  rewrite check_ok by exact Hop. rewrite bind_advance, bind_peek1_any.
  destruct (N.eqb_spec (peek1Of s1) sep) as [F|_]; [contradiction|]. cbn [negb].
  rewrite bind_bind. erewrite bind_Ok by (apply Hi; lia). rewrite bind_ret.
  rewrite bind_peek1Key, Hclose.
  rewrite (Key_eqb_neq t.KeyCloseBracket (t.ID_Key sep)) by congruence.
  rewrite Key_eqb_refl. cbn [andb]. unfold expectedSeparator. rewrite Hclose.
  destruct (t.Key_eqb (t.ID_Key sep) t.KeyColon).
  - rewrite bind_advance. reflexivity.
  - rewrite bind_line. reflexivity.
Qed.

End Bracket.

(** X11.  parseBracket parses [[i sep j]], [[i sep]], [[sep j]] and
    [[sep]], and returns the separator with the expressions that are
    there.  After [[x] and the closing bracket it returns, when the
    separator is the colon, the index form: [t.IDOpenBracket], no first
    expression, and [x] as the second; with another separator it returns
    the error that the separator is expected, at the closing bracket. *)
Theorem parseBracket_forms `{TO : t.Ops} `{AO : a.Ops} `{BO : base38.Ops}
    (tm : t.Map) (filename : string) (lastLine : N) (sep : t.ID) (op : t.Token) :
  t.ID_Key (t.Token_ID op) = t.KeyOpenBracket ->
  (forall s1 i c s2 j close s3,
     peek1Of s1 <> sep ->
     returns (parseExpr tm filename lastLine) s1 (Ok i (c :: s2)) ->
     t.ID_Key (t.Token_ID c) = t.ID_Key sep ->
     t.ID_Key (peek1Of s2) <> t.KeyCloseBracket ->
     returns (parseExpr tm filename lastLine) s2 (Ok j (close :: s3)) ->
     t.ID_Key (t.Token_ID close) = t.KeyCloseBracket ->
     returns (fun n => parseBracket tm filename lastLine n sep) (op :: s1)
             (Ok (sep, Some i, Some j) s3)) /\
  (forall s1 i c close s3,
     peek1Of s1 <> sep ->
     returns (parseExpr tm filename lastLine) s1 (Ok i (c :: close :: s3)) ->
     t.ID_Key (t.Token_ID c) = t.ID_Key sep ->
     t.ID_Key (t.Token_ID close) = t.KeyCloseBracket ->
     returns (fun n => parseBracket tm filename lastLine n sep) (op :: s1)
             (Ok (sep, Some i, None) s3)) /\
  (forall c s2 j close s3,
     t.Token_ID c = sep ->
     t.ID_Key (peek1Of s2) <> t.KeyCloseBracket ->
     returns (parseExpr tm filename lastLine) s2 (Ok j (close :: s3)) ->
     t.ID_Key (t.Token_ID close) = t.KeyCloseBracket ->
     returns (fun n => parseBracket tm filename lastLine n sep) (op :: c :: s2)
             (Ok (sep, None, Some j) s3)) /\
  (forall c close s3,
     t.Token_ID c = sep ->
     t.ID_Key (t.Token_ID close) = t.KeyCloseBracket ->
     returns (fun n => parseBracket tm filename lastLine n sep) (op :: c :: close :: s3)
             (Ok (sep, None, None) s3)) /\
  (forall s1 x close s2,
     peek1Of s1 <> sep ->
     returns (parseExpr tm filename lastLine) s1 (Ok x (close :: s2)) ->
     t.ID_Key (t.Token_ID close) = t.KeyCloseBracket ->
     t.ID_Key sep <> t.KeyCloseBracket ->
     returns (fun n => parseBracket tm filename lastLine n sep) (op :: s1)
             (if t.Key_eqb (t.ID_Key sep) t.KeyColon
              then Ok (t.IDOpenBracket, None, Some x) s2
              else Err (expectedSeparator tm filename sep close))).
Proof.
  intros Hop. repeat match goal with |- _ /\ _ => split end; intros.
  - eapply parseBracket_range; eassumption.
  - eapply parseBracket_from; eassumption.
  - eapply parseBracket_to; eassumption.
  - eapply parseBracket_all; eassumption.
  - eapply parseBracket_index; eassumption.
Qed.

Lemma parseBracket_forms_witness :
  returns (fun n => parseBracket Sample.tm "f.puffs" 1%N n Sample.IDColon)
    (Sample.onLine 1 [Sample.IDOpenBracket; Sample.ID1; Sample.IDColon; Sample.ID2;
                      Sample.IDCloseBracket; Sample.IDSemicolon])
    (Ok (Sample.IDColon, Some (Sample.exprOf Sample.ID1), Some (Sample.exprOf Sample.ID2))
        (Sample.onLine 1 [Sample.IDSemicolon])) /\
  returns (fun n => parseBracket Sample.tm "f.puffs" 1%N n Sample.IDColon)
    (Sample.onLine 1 [Sample.IDOpenBracket; Sample.ID1; Sample.IDCloseBracket;
                      Sample.IDSemicolon])
    (Ok (Sample.IDOpenBracket, None, Some (Sample.exprOf Sample.ID1))
        (Sample.onLine 1 [Sample.IDSemicolon])) /\
  returns (fun n => parseBracket Sample.tm "f.puffs" 1%N n Sample.IDDotDot)
    (Sample.onLine 1 [Sample.IDOpenBracket; Sample.ID1; Sample.IDCloseBracket;
                      Sample.IDSemicolon])
    (Err (expectedSeparator Sample.tm "f.puffs" Sample.IDDotDot
            (t.mkToken Sample.IDCloseBracket 1))).
Proof.
  pose proof (parseBracket_forms Sample.tm "f.puffs" 1%N Sample.IDColon
                (t.mkToken Sample.IDOpenBracket 1) eq_refl) as Hcolon.
  pose proof (parseBracket_forms Sample.tm "f.puffs" 1%N Sample.IDDotDot
                (t.mkToken Sample.IDOpenBracket 1) eq_refl) as Hdots.
  split; [|split].
  - apply (proj1 Hcolon
             (Sample.onLine 1 [Sample.ID1; Sample.IDColon; Sample.ID2;
                               Sample.IDCloseBracket; Sample.IDSemicolon])
             (Sample.exprOf Sample.ID1) (t.mkToken Sample.IDColon 1)
             (Sample.onLine 1 [Sample.ID2; Sample.IDCloseBracket; Sample.IDSemicolon])
             (Sample.exprOf Sample.ID2) (t.mkToken Sample.IDCloseBracket 1)).
    + vm_compute. discriminate.
    + returns_by 4 (parseExpr_mono Sample.tm "f.puffs" 1%N).
    + reflexivity.
    + vm_compute. discriminate.
    + returns_by 4 (parseExpr_mono Sample.tm "f.puffs" 1%N).
    + reflexivity.
  - apply (proj2 (proj2 (proj2 (proj2 Hcolon)))
             (Sample.onLine 1 [Sample.ID1; Sample.IDCloseBracket; Sample.IDSemicolon])
             (Sample.exprOf Sample.ID1) (t.mkToken Sample.IDCloseBracket 1)).
    + vm_compute. discriminate.
    + returns_by 4 (parseExpr_mono Sample.tm "f.puffs" 1%N).
    + reflexivity.
    + vm_compute. discriminate.
  - apply (proj2 (proj2 (proj2 (proj2 Hdots)))
             (Sample.onLine 1 [Sample.ID1; Sample.IDCloseBracket; Sample.IDSemicolon])
             (Sample.exprOf Sample.ID1) (t.mkToken Sample.IDCloseBracket 1)
             (Sample.onLine 1 [Sample.IDSemicolon])).
    + vm_compute. discriminate.
    + returns_by 4 (parseExpr_mono Sample.tm "f.puffs" 1%N).
    + reflexivity.
    + vm_compute. discriminate.
Defined.

(** *** Selectors *)

Section Selectors.
Context `{TO : t.Ops} `{AO : a.Ops} `{BO : base38.Ops}.
Variables (tm : t.Map) (filename : string) (lastLine : N).

Lemma parseOperandLoop_selectors s ys s' :
  Selectors s ys s' ->
  isPostfixKey (t.ID_Key (peek1Of s')) = false ->
  forall lhs,
    returns (fun n => parseOperandLoop tm filename lastLine n lhs) s
            (Ok (fold_left selectorOf ys lhs) s').
Proof.
  induction 1 as [s|dot y s ys s' Hdot Hy _ IH]; intros Hend lhs.
  - split; [discriminate|]. exists 1. intros n Hn. destruct n as [|n]; [lia|].
    simpl. rewrite bind_peek1Key_any.
    destruct (t.ID_Key (peek1Of s)); try discriminate Hend; reflexivity.
  - destruct (IH Hend (selectorOf lhs (t.Token_ID y))) as [_ [n1 Hloop]].
    split; [discriminate|]. exists (S n1). intros n Hn. destruct n as [|n]; [lia|].
    simpl. rewrite bind_peek1Key, Hdot. cbv iota.
    rewrite bind_advance.
    erewrite bind_Ok by (apply parseIdent_ident; exact Hy). cbv beta.
    apply Hloop. lia.
Qed.

Lemma parseOperand_selectors x s ys s' :
  t.ID_IsUnaryOp (t.Token_ID x) = false ->
  t.ID_IsLiteral (t.Token_ID x) = false ->
  isOperandKeyword (t.ID_Key (t.Token_ID x)) = false ->
  t.ID_IsIdent (t.Token_ID x) = true ->
  Selectors s ys s' ->
  isPostfixKey (t.ID_Key (peek1Of s')) = false ->
  returns (parseOperand tm filename lastLine) (x :: s)
          (Ok (fold_left selectorOf ys
                 (a.NewExpr 0%N 0%N (t.Token_ID x) None None None [])) s').
Proof.
  intros Hu Hl Hk Hi Hs Hend.
  destruct (parseOperandLoop_selectors s ys s' Hs Hend
              (a.NewExpr 0%N 0%N (t.Token_ID x) None None None [])) as [_ [n1 Hloop]].
  split; [discriminate|]. exists (S n1). intros n Hn. destruct n as [|n]; [lia|].
  simpl. rewrite bind_peek1, Hu, Hl.
  destruct (t.ID_Key (t.Token_ID x)); try discriminate Hk.
  all: erewrite bind_Ok by (apply parseIdent_ident; exact Hi); cbv beta.
  all: apply Hloop; lia.
Qed.

End Selectors.

(** X12.  An identifier followed by selectors, [x.y1. ... .yn], up to a
    token that does not continue an operand, parses as an operand to the
    selector expressions nested to the left, [((x.y1).y2) ... .yn], each
    under the operator [t.IDDot]. *)
Theorem parseOperand_selector_chain `{TO : t.Ops} `{AO : a.Ops} `{BO : base38.Ops}
    (tm : t.Map) (filename : string) (lastLine : N)
    (x : t.Token) (s : list t.Token) (ys : list t.ID) (s' : list t.Token) :
  t.ID_IsUnaryOp (t.Token_ID x) = false ->
  t.ID_IsLiteral (t.Token_ID x) = false ->
  isOperandKeyword (t.ID_Key (t.Token_ID x)) = false ->
  t.ID_IsIdent (t.Token_ID x) = true ->
  Selectors s ys s' ->
  isPostfixKey (t.ID_Key (peek1Of s')) = false ->
  returns (parseOperand tm filename lastLine) (x :: s)
          (Ok (fold_left selectorOf ys
                 (a.NewExpr 0%N 0%N (t.Token_ID x) None None None [])) s').
Proof. apply parseOperand_selectors. Qed.

Lemma parseOperand_selector_chain_witness :
  returns (parseOperand Sample.tm "f.puffs" 1%N)
    (Sample.onLine 1 [Sample.IDa; Sample.IDDot; Sample.IDb; Sample.IDDot; Sample.IDc;
                      Sample.IDSemicolon])
    (Ok (selectorOf (selectorOf (Sample.exprOf Sample.IDa) Sample.IDb) Sample.IDc)
        (Sample.onLine 1 [Sample.IDSemicolon])).
Proof.
  apply (parseOperand_selector_chain Sample.tm "f.puffs" 1%N (t.mkToken Sample.IDa 1)
           (Sample.onLine 1 [Sample.IDDot; Sample.IDb; Sample.IDDot; Sample.IDc;
                             Sample.IDSemicolon])
           [Sample.IDb; Sample.IDc] (Sample.onLine 1 [Sample.IDSemicolon]));
    try reflexivity.
  apply (Selectors_cons (t.mkToken Sample.IDDot 1) (t.mkToken Sample.IDb 1));
    try reflexivity.
  apply (Selectors_cons (t.mkToken Sample.IDDot 1) (t.mkToken Sample.IDc 1));
    try reflexivity.
  apply Selectors_nil.
Defined.

(** *** The grammar of blocks *)

Section Blocks.
Context `{TO : t.Ops} `{AO : a.Ops} `{BO : base38.Ops}.
Variables (tm : t.Map) (filename : string) (lastLine : N).

Lemma parseBlockLoop_BlockOf s stmts s' :
  BlockOf tm filename lastLine s stmts s' ->
  forall block,
    returns (fun n => parseBlockLoop tm filename lastLine n block) s
            (Ok (block ++ stmts)%list s').
Proof.
  induction 1 as [x rest Hx|x rest st semi s1 stmts s' Hx [_ [n1 Hst]] Hsemi _ IH];
    intros block.
  - split; [discriminate|]. exists 1. intros n Hn. destruct n as [|n]; [lia|].
    simpl. rewrite bind_get_src, Hx, Key_eqb_refl, bind_advance.
    rewrite app_nil_r. reflexivity.
  - destruct (IH (block ++ [st])%list) as [_ [n2 Hloop]].
    split; [discriminate|]. exists (S (n1 + n2)). intros n Hn.
    destruct n as [|n]; [lia|].
    simpl. rewrite bind_get_src, (Key_eqb_neq _ _ Hx).
    erewrite bind_Ok by (apply Hst; lia). cbv beta.
    rewrite check_ok by exact Hsemi. rewrite bind_advance.
    rewrite Hloop by lia. rewrite <- app_assoc. reflexivity.
Qed.

Lemma parseBlockLoop_inv n : forall block s r s',
  parseBlockLoop tm filename lastLine n block s = Ok r s' ->
  exists stmts, r = (block ++ stmts)%list /\ BlockOf tm filename lastLine s stmts s'.
Proof.
  induction n as [|n IH]; intros block s r s'; [discriminate|].
  simpl. rewrite bind_get_src. destruct s as [|x rest].
  { rewrite bind_line_any. discriminate. }
  destruct (t.Key_eqb (t.ID_Key (t.Token_ID x)) t.KeyCloseCurly) eqn:Ex.
  - rewrite bind_advance. intros E. inversion E; subst.
    exists []. split; [rewrite app_nil_r; reflexivity|].
    apply BlockOf_close. apply Key_eqb_eq. exact Ex.
  - unfold bind at 1.
    destruct (parseStatement tm filename lastLine n (x :: rest)) as [st s1| | |] eqn:Est;
      try discriminate.
    cbv beta. destruct s1 as [|semi s1].
    { unfold check. rewrite !bind_bind, bind_peek1Key_any.
      destruct (t.Key_eqb (t.ID_Key (peek1Of [])) t.KeySemicolon); cbn [negb].
      - rewrite bind_ret. discriminate.
      - rewrite bind_bind, bind_line_any. discriminate. }
    destruct (t.Key_eq_dec (t.ID_Key (t.Token_ID semi)) t.KeySemicolon) as [Hsemi|Hsemi].
    + rewrite check_ok by exact Hsemi. rewrite bind_advance. intros E.
      destruct (IH _ _ _ _ E) as (stmts & -> & Hb).
      exists (st :: stmts). split; [rewrite <- app_assoc; reflexivity|].
      eapply BlockOf_statement; [| |exact Hsemi|exact Hb].
      * intros F. apply Key_eqb_eq in F. congruence.
      * apply (returns_intro _ _ _ n); [|exact Est|discriminate].
        intros a b Hab. apply parseStatement_mono. exact Hab.
    + rewrite check_fails by exact Hsemi. discriminate.
Qed.

End Blocks.

(** X13.  After an opening brace, parseBlock returns the statements
    [stmts] and leaves [s'] exactly when the tokens are the statements
    [stmts], each parsed by parseStatement and followed by a semicolon,
    and then a closing brace, up to [s']. *)
Theorem parseBlock_grammar `{TO : t.Ops} `{AO : a.Ops} `{BO : base38.Ops}
    (tm : t.Map) (filename : string) (lastLine : N)
    (op : t.Token) (s : list t.Token) (stmts : list a.Node) (s' : list t.Token) :
  t.ID_Key (t.Token_ID op) = t.KeyOpenCurly ->
  (returns (parseBlock tm filename lastLine) (op :: s) (Ok stmts s') <->
   BlockOf tm filename lastLine s stmts s').
Proof.
  intros Hop. split.
  - intros [_ [n0 H]]. specialize (H (S n0) ltac:(lia)).
    simpl in H. rewrite check_ok in H by exact Hop.
    rewrite bind_advance in H.
    destruct (parseBlockLoop_inv _ _ _ _ _ _ _ _ H) as (stmts' & -> & Hb). exact Hb.
  - intros Hb. destruct (parseBlockLoop_BlockOf _ _ _ _ _ _ Hb []) as [_ [n1 Hloop]].
    split; [discriminate|]. exists (S n1). intros n Hn. destruct n as [|n]; [lia|].
    simpl. rewrite check_ok by exact Hop. rewrite bind_advance.
    apply Hloop. lia.
Qed.

Lemma parseBlock_grammar_witness :
  returns (parseBlock Sample.tm "f.puffs" 1%N)
    (Sample.onLine 1 [Sample.IDOpenCurly; Sample.IDa; Sample.IDSemicolon;
                      Sample.IDCloseCurly; Sample.IDSemicolon])
    (Ok [a.SetFilenameLine "f.puffs" 1%N (Sample.exprOf Sample.IDa)]
        (Sample.onLine 1 [Sample.IDSemicolon])).
Proof.
  assert (Hop : t.ID_Key (t.Token_ID (t.mkToken Sample.IDOpenCurly 1)) = t.KeyOpenCurly)
    by reflexivity.
  apply (proj2 (parseBlock_grammar Sample.tm "f.puffs" 1%N
                  (t.mkToken Sample.IDOpenCurly 1)
                  (Sample.onLine 1 [Sample.IDa; Sample.IDSemicolon; Sample.IDCloseCurly;
                                    Sample.IDSemicolon])
                  [a.SetFilenameLine "f.puffs" 1%N (Sample.exprOf Sample.IDa)]
                  (Sample.onLine 1 [Sample.IDSemicolon]) Hop)).
  apply (BlockOf_statement (TO:=Sample.tokenOps) (AO:=Sample.astOps) Sample.tm "f.puffs" 1%N
           (t.mkToken Sample.IDa 1)
           (Sample.onLine 1 [Sample.IDSemicolon; Sample.IDCloseCurly; Sample.IDSemicolon])
           _ (t.mkToken Sample.IDSemicolon 1)
           (Sample.onLine 1 [Sample.IDCloseCurly; Sample.IDSemicolon])).
  - vm_compute. discriminate.
  - returns_by 8 (parseStatement_mono Sample.tm "f.puffs" 1%N).
  - reflexivity.
  - apply BlockOf_close. reflexivity.
Defined.

(** *** The grammar of type expressions and of if statements *)

Section Grammar.
Context `{TO : t.Ops} `{AO : a.Ops} `{BO : base38.Ops}.
Variables (tm : t.Map) (filename : string) (lastLine : N).

(** A run with a fixed budget is a run with every larger budget. *)
Lemma parseExpr_returns_of n s r :
  parseExpr tm filename lastLine n s = r -> r <> OutOfFuel ->
  returns (parseExpr tm filename lastLine) s r.
Proof.
  intros E Hr. apply (returns_intro _ _ _ n); [|exact E|exact Hr].
  intros a b Hab. apply parseExpr_mono. exact Hab.
Qed.

Lemma parseBlock_returns_of n s r :
  parseBlock tm filename lastLine n s = r -> r <> OutOfFuel ->
  returns (parseBlock tm filename lastLine) s r.
Proof.
  intros E Hr. apply (returns_intro _ _ _ n); [|exact E|exact Hr].
  intros a b Hab. apply parseBlock_mono. exact Hab.
Qed.

Lemma parseBracket_returns_of n sep s r :
  parseBracket tm filename lastLine n sep s = r -> r <> OutOfFuel ->
  returns (fun n => parseBracket tm filename lastLine n sep) s r.
Proof.
  intros E Hr. apply (returns_intro _ _ _ n); [|exact E|exact Hr].
  intros a b Hab. apply parseBracket_mono. exact Hab.
Qed.

Lemma parseTypeExpr_TypeOf s ty s' :
  TypeOf tm filename lastLine s ty s' ->
  returns (parseTypeExpr tm filename lastLine) s (Ok ty s').
Proof.
  induction 1 as [x rest ty s' Hx _ [_ [n1 IH]]
                 |x y rest ty s' Hx Hy _ [_ [n1 IH]]
                 |x rest len close s1 ty s' Hx Hnc [_ [n2 Hlen]] Hclose _ [_ [n1 IH]]
                 |s pkg name s' Hp Hb Hq Hnb
                 |s pkg name s1 op lhs mhs s' Hp Hb Hq Hob [_ [n2 Hbr]]].
  - split; [discriminate|]. exists (S n1). intros n Hn. destruct n as [|n]; [lia|].
    simpl. rewrite bind_peek1Key, Hx. cbv iota. rewrite bind_advance.
    erewrite bind_Ok by (apply IH; lia). reflexivity.
  - split; [discriminate|]. exists (S n1). intros n Hn. destruct n as [|n]; [lia|].
    simpl. rewrite bind_peek1Key, Hx. cbv iota.
    rewrite bind_advance, bind_peek1Key, Hy. cbv iota.
    rewrite bind_ret. cbv iota. rewrite bind_advance.
    erewrite bind_Ok by (apply IH; lia). reflexivity.
  - split; [discriminate|]. exists (S (n1 + n2)). intros n Hn.
    destruct n as [|n]; [lia|].
    simpl. rewrite bind_peek1Key, Hx. cbv iota.
    rewrite bind_advance, bind_peek1Key_any.
    destruct (t.ID_Key (peek1Of rest)) eqn:E; try contradiction.
    all: rewrite !bind_bind; erewrite bind_Ok by (apply Hlen; lia); cbv beta.
    all: rewrite bind_bind, check_ok by exact Hclose; rewrite bind_ret; cbv iota.
    all: rewrite bind_advance; erewrite bind_Ok by (apply IH; lia); reflexivity.
  - split; [discriminate|]. exists 1. intros n Hn. destruct n as [|n]; [lia|].
    simpl. rewrite bind_peek1Key_any.
    destruct (t.ID_Key (peek1Of s)) eqn:E; try contradiction.
    all: erewrite bind_Ok by exact Hq; cbv iota; rewrite bind_peek1Key_any.
    all: destruct (t.ID_Key (peek1Of s')) eqn:E'; try contradiction; reflexivity.
  - split; [discriminate|]. exists (S n2). intros n Hn. destruct n as [|n]; [lia|].
    simpl. rewrite bind_peek1Key_any.
    destruct (t.ID_Key (peek1Of s)) eqn:E; try contradiction.
    all: erewrite bind_Ok by exact Hq; cbv iota; rewrite bind_peek1Key_any, Hob.
    all: cbv iota; rewrite !bind_bind; erewrite bind_Ok by (apply Hbr; lia).
    all: reflexivity.
Qed.

Lemma parseTypeExpr_inv n : forall s ty s',
  parseTypeExpr tm filename lastLine n s = Ok ty s' ->
  TypeOf tm filename lastLine s ty s'.
Proof.
  induction n as [|n IH]; intros s ty s'; [discriminate|].
  assert (Hname : forall (k : t.Key) (m1 m2 m3 : M a.Node),
             k <> t.KeyPtr -> k <> t.KeyOpenBracket ->
             match k with t.KeyPtr => m1 | t.KeyOpenBracket => m2 | _ => m3 end = m3)
    by (intros k m1 m2 m3 H1 H2; destruct k; try reflexivity; contradiction).
  assert (Hclose : forall (k : t.Key) (m1 m2 : M (t.ID * option a.Node)),
             k <> t.KeyCloseBracket ->
             match k with t.KeyCloseBracket => m1 | _ => m2 end = m2)
    by (intros k m1 m2 H1; destruct k; try reflexivity; contradiction).
  assert (Hopen : forall (k : t.Key) (m1 m2 : M (option a.Node * option a.Node)),
             k <> t.KeyOpenBracket ->
             match k with t.KeyOpenBracket => m1 | _ => m2 end = m2)
    by (intros k m1 m2 H1; destruct k; try reflexivity; contradiction).
  simpl. rewrite bind_peek1Key_any.
  destruct (t.Key_eq_dec (t.ID_Key (peek1Of s)) t.KeyPtr) as [Ep|Ep].
  { rewrite Ep. destruct s as [|x rest]; [discriminate|]. rewrite bind_advance.
    unfold bind at 1.
    destruct (parseTypeExpr tm filename lastLine n rest) as [rhs s1| | |] eqn:Er;
      try discriminate.
    intros H. inversion H; subst. apply TypeOf_ptr; [exact Ep|]. apply IH. exact Er. }
  destruct (t.Key_eq_dec (t.ID_Key (peek1Of s)) t.KeyOpenBracket) as [Eb|Eb].
  { rewrite Eb. destruct s as [|x rest]; [discriminate|]. rewrite bind_advance.
    rewrite bind_peek1Key_any.
    destruct (t.Key_eq_dec (t.ID_Key (peek1Of rest)) t.KeyCloseBracket) as [Ec|Ec].
    - rewrite Ec, bind_ret. destruct rest as [|y rest]; [discriminate|].
      rewrite bind_advance. unfold bind at 1.
      destruct (parseTypeExpr tm filename lastLine n rest) as [rhs s1| | |] eqn:Er;
        try discriminate.
      intros H. inversion H; subst. apply TypeOf_slice; [exact Eb|exact Ec|].
      apply IH. exact Er.
    - rewrite (Hclose _ _ _ Ec). rewrite !bind_bind. unfold bind at 1.
      destruct (parseExpr tm filename lastLine n rest) as [len s1| | |] eqn:El;
        try discriminate.
      cbv beta. rewrite bind_bind. destruct s1 as [|close s1].
      { unfold check. rewrite !bind_bind, bind_peek1Key_any.
        destruct (t.Key_eqb (t.ID_Key (peek1Of [])) t.KeyCloseBracket); cbn [negb].
        - rewrite !bind_ret. discriminate.
        - rewrite bind_bind, bind_line_any. discriminate. }
      destruct (t.Key_eq_dec (t.ID_Key (t.Token_ID close)) t.KeyCloseBracket) as [Hc|Hc].
      + rewrite check_ok by exact Hc. rewrite bind_ret, bind_advance. unfold bind at 1.
        destruct (parseTypeExpr tm filename lastLine n s1) as [rhs s2| | |] eqn:Er;
          try discriminate.
        intros H. inversion H; subst.
        eapply TypeOf_array; [exact Eb|exact Ec| |exact Hc|apply IH; exact Er].
        apply (parseExpr_returns_of n). exact El. discriminate.
      + rewrite check_fails by exact Hc. discriminate. }
  rewrite (Hname _ _ _ _ Ep Eb). unfold bind at 1.
  destruct (parseQualifiedIdent tm filename lastLine s) as [[pkg name] s1| | |] eqn:Eq;
    try discriminate.
  rewrite bind_peek1Key_any.
  destruct (t.Key_eq_dec (t.ID_Key (peek1Of s1)) t.KeyOpenBracket) as [Eo|Eo].
  - rewrite Eo. rewrite !bind_bind. unfold bind at 1.
    destruct (parseBracket tm filename lastLine n t.IDDotDot s1)
      as [[[op lhs] mhs] s2| | |] eqn:Ebr; try discriminate.
    intros H. inversion H; subst.
    eapply TypeOf_refined; [exact Ep|exact Eb|exact Eq|exact Eo|].
    apply (parseBracket_returns_of n). exact Ebr. discriminate.
  - rewrite (Hopen _ _ _ Eo). intros H. inversion H; subst.
    apply TypeOf_name; assumption.
Qed.

Lemma parseIf_IfOf s node s' :
  IfOf tm filename lastLine s node s' ->
  returns (parseIf tm filename lastLine) s (Ok node s').
Proof.
  induction 1 as [x s c s1 bt s' Hx [_ [n1 Hc]] [_ [n2 Hb]] Hne
                 |x s c s1 bt e s2 o s' Hx [_ [n1 Hc]] [_ [n2 Hb]] He Hi _ [_ [n3 IH]]
                 |x s c s1 bt e s2 bf s' Hx [_ [n1 Hc]] [_ [n2 Hb]] He Hni [_ [n3 Hf]]].
  - split; [discriminate|]. exists (S (n1 + n2)). intros n Hn.
    destruct n as [|n]; [lia|].
    simpl. rewrite check_ok by exact Hx. rewrite bind_advance.
    erewrite bind_Ok by (apply Hc; lia). cbv beta.
    erewrite bind_Ok by (apply Hb; lia). cbv beta.
    rewrite bind_peek1Key_any.
    destruct (t.ID_Key (peek1Of s')); try contradiction; reflexivity.
  - split; [discriminate|]. exists (S (n1 + n2 + n3)). intros n Hn.
    destruct n as [|n]; [lia|].
    simpl. rewrite check_ok by exact Hx. rewrite bind_advance.
    erewrite bind_Ok by (apply Hc; lia). cbv beta.
    erewrite bind_Ok by (apply Hb; lia). cbv beta.
    rewrite bind_peek1Key, He. cbv iota.
    rewrite !bind_bind, bind_advance, bind_bind, bind_peek1Key_any, Hi. cbv iota.
    rewrite bind_bind. erewrite bind_Ok by (apply IH; lia). reflexivity.
  - split; [discriminate|]. exists (S (n1 + n2 + n3)). intros n Hn.
    destruct n as [|n]; [lia|].
    simpl. rewrite check_ok by exact Hx. rewrite bind_advance.
    erewrite bind_Ok by (apply Hc; lia). cbv beta.
    erewrite bind_Ok by (apply Hb; lia). cbv beta.
    rewrite bind_peek1Key, He. cbv iota.
    rewrite !bind_bind, bind_advance, bind_bind, bind_peek1Key_any.
    destruct (t.ID_Key (peek1Of s2)); try contradiction.
    all: rewrite bind_bind; erewrite bind_Ok by (apply Hf; lia); reflexivity.
Qed.

Lemma parseIf_inv n : forall s node s',
  parseIf tm filename lastLine n s = Ok node s' ->
  IfOf tm filename lastLine s node s'.
Proof.
  induction n as [|n IH]; intros s node s'; [discriminate|].
  assert (Helse : forall (k : t.Key) (m1 m2 : M (option a.Node * list a.Node)),
             k <> t.KeyElse -> match k with t.KeyElse => m1 | _ => m2 end = m2)
    by (intros k m1 m2 H1; destruct k; try reflexivity; contradiction).
  assert (Hif : forall (k : t.Key) (m1 m2 : M (option a.Node * list a.Node)),
             k <> t.KeyIf -> match k with t.KeyIf => m1 | _ => m2 end = m2)
    by (intros k m1 m2 H1; destruct k; try reflexivity; contradiction).
  simpl. destruct s as [|x s].
  { unfold check. rewrite !bind_bind, bind_peek1Key_any.
    destruct (t.Key_eqb (t.ID_Key (peek1Of [])) t.KeyIf); cbn [negb].
    - rewrite bind_ret. discriminate.
    - rewrite bind_bind, bind_line_any. discriminate. }
  destruct (t.Key_eq_dec (t.ID_Key (t.Token_ID x)) t.KeyIf) as [Hx|Hx];
    [|rewrite check_fails by exact Hx; discriminate].
  rewrite check_ok by exact Hx. rewrite bind_advance. unfold bind at 1.
  destruct (parseExpr tm filename lastLine n s) as [c s1| | |] eqn:Ec; try discriminate.
  unfold bind at 1.
  destruct (parseBlock tm filename lastLine n s1) as [bt s2| | |] eqn:Eb; try discriminate.
  rewrite bind_peek1Key_any.
  assert (Rc := parseExpr_returns_of n s _ Ec ltac:(discriminate)).
  assert (Rb := parseBlock_returns_of n s1 _ Eb ltac:(discriminate)).
  destruct (t.Key_eq_dec (t.ID_Key (peek1Of s2)) t.KeyElse) as [He|He].
  - rewrite He. destruct s2 as [|e s2]; [discriminate|].
    rewrite !bind_bind, bind_advance, bind_bind, bind_peek1Key_any.
    destruct (t.Key_eq_dec (t.ID_Key (peek1Of s2)) t.KeyIf) as [Hi|Hi].
    + rewrite Hi. rewrite bind_bind. unfold bind at 1.
      destruct (parseIf tm filename lastLine n s2) as [o s3| | |] eqn:Eo; try discriminate.
      intros H. inversion H; subst.
      eapply IfOf_else_if; try eassumption. apply IH. exact Eo.
    + rewrite (Hif _ _ _ Hi). rewrite bind_bind. unfold bind at 1.
      destruct (parseBlock tm filename lastLine n s2) as [bf s3| | |] eqn:Ef;
        try discriminate.
      intros H. inversion H; subst.
      eapply IfOf_else; try eassumption.
      apply (parseBlock_returns_of n). exact Ef. discriminate.
  - rewrite (Helse _ _ _ He). intros H. inversion H; subst.
    eapply IfOf_then; eassumption.
Qed.

End Grammar.

(** X14.  parseTypeExpr returns the type [ty] and leaves [s'] exactly
    when the tokens are: [ptr] and a type; [[] and []] and a type (a
    slice); [[], a length expression, []] and a type (an array); or a
    possibly qualified name, followed or not by a refinement in brackets
    with the double dot as separator. *)
Theorem parseTypeExpr_grammar `{TO : t.Ops} `{AO : a.Ops} `{BO : base38.Ops}
    (tm : t.Map) (filename : string) (lastLine : N)
    (s : list t.Token) (ty : a.Node) (s' : list t.Token) :
  returns (parseTypeExpr tm filename lastLine) s (Ok ty s') <->
  TypeOf tm filename lastLine s ty s'.
Proof.
  split.
  - intros [_ [n0 H]]. apply (parseTypeExpr_inv tm filename lastLine n0). apply H. lia.
  - apply parseTypeExpr_TypeOf.
Qed.

Lemma parseTypeExpr_grammar_witness :
  returns (parseTypeExpr Sample.tm "f.puffs" 1%N)
    (Sample.onLine 1 [Sample.IDPtr; Sample.IDOpenBracket; Sample.IDCloseBracket; Sample.IDT;
                      Sample.IDSemicolon])
    (Ok (a.NewTypeExpr Sample.IDPtr 0%N None None
           (Some (a.NewTypeExpr Sample.IDColon 0%N None None (Some Sample.typeT))))
        (Sample.onLine 1 [Sample.IDSemicolon])).
Proof.
  apply (proj2 (parseTypeExpr_grammar Sample.tm "f.puffs" 1%N _ _ _)).
  unfold Sample.onLine. cbn [map].
  apply (TypeOf_ptr (TO:=Sample.tokenOps) (AO:=Sample.astOps) Sample.tm "f.puffs" 1%N
           (t.mkToken Sample.IDPtr 1)); [reflexivity|].
  apply (TypeOf_slice (TO:=Sample.tokenOps) (AO:=Sample.astOps) Sample.tm "f.puffs" 1%N
           (t.mkToken Sample.IDOpenBracket 1)
           (t.mkToken Sample.IDCloseBracket 1)); [reflexivity|reflexivity|].
  apply (TypeOf_name (TO:=Sample.tokenOps) (AO:=Sample.astOps) Sample.tm "f.puffs" 1%N
           (Sample.onLine 1 [Sample.IDT; Sample.IDSemicolon]) 0%N Sample.IDT).
  - vm_compute. discriminate.
  - vm_compute. discriminate.
  - vm_compute. reflexivity.
  - vm_compute. discriminate.
Defined.

(** X15.  parseIf returns the node [node] and leaves [s'] exactly when
    the tokens are [if], a condition and a block, followed by no [else],
    or by [else] and an if statement, or by [else] and a block: the node
    holds the else-if statement or the else block, never both. *)
Theorem parseIf_grammar `{TO : t.Ops} `{AO : a.Ops} `{BO : base38.Ops}
    (tm : t.Map) (filename : string) (lastLine : N)
    (s : list t.Token) (node : a.Node) (s' : list t.Token) :
  returns (parseIf tm filename lastLine) s (Ok node s') <->
  IfOf tm filename lastLine s node s'.
Proof.
  split.
  - intros [_ [n0 H]]. apply (parseIf_inv tm filename lastLine n0). apply H. lia.
  - apply parseIf_IfOf.
Qed.

Lemma parseIf_grammar_witness :
  returns (parseIf Sample.tm "f.puffs" 1%N)
    (Sample.onLine 1 [Sample.IDIf; Sample.IDa; Sample.IDOpenCurly; Sample.IDCloseCurly;
                      Sample.IDElse; Sample.IDOpenCurly; Sample.IDCloseCurly;
                      Sample.IDSemicolon])
    (Ok (a.NewIf (Some (Sample.exprOf Sample.IDa)) None [] [])
        (Sample.onLine 1 [Sample.IDSemicolon])).
Proof.
  apply (proj2 (parseIf_grammar Sample.tm "f.puffs" 1%N _ _ _)).
  unfold Sample.onLine. cbn [map].
  apply (IfOf_else (TO:=Sample.tokenOps) (AO:=Sample.astOps) Sample.tm "f.puffs" 1%N
           (t.mkToken Sample.IDIf 1)
           (Sample.onLine 1 [Sample.IDa; Sample.IDOpenCurly; Sample.IDCloseCurly;
                             Sample.IDElse; Sample.IDOpenCurly; Sample.IDCloseCurly;
                             Sample.IDSemicolon])
           (Sample.exprOf Sample.IDa)
           (Sample.onLine 1 [Sample.IDOpenCurly; Sample.IDCloseCurly; Sample.IDElse;
                             Sample.IDOpenCurly; Sample.IDCloseCurly; Sample.IDSemicolon])
           [] (t.mkToken Sample.IDElse 1)
           (Sample.onLine 1 [Sample.IDOpenCurly; Sample.IDCloseCurly; Sample.IDSemicolon])
           [] (Sample.onLine 1 [Sample.IDSemicolon])).
  - reflexivity.
  - returns_by 4 (parseExpr_mono Sample.tm "f.puffs" 1%N).
  - returns_by 4 (parseBlock_mono Sample.tm "f.puffs" 1%N).
  - reflexivity.
  - vm_compute. discriminate.
  - returns_by 4 (parseBlock_mono Sample.tm "f.puffs" 1%N).
Defined.

(** *** The grammar of expressions *)

Section ExprGrammar.
Context `{TO : t.Ops} `{AO : a.Ops} `{BO : base38.Ops}.
Variables (tm : t.Map) (filename : string) (lastLine : N).

Lemma parseOperand_returns_of n s r :
  parseOperand tm filename lastLine n s = r -> r <> OutOfFuel ->
  returns (parseOperand tm filename lastLine) s r.
Proof.
  intros E Hr. apply (returns_intro _ _ _ n); [|exact E|exact Hr].
  intros a b Hab. apply parseOperand_mono. exact Hab.
Qed.

Lemma parseRHS_returns_of x n s r :
  parseRHS tm filename lastLine x n s = r -> r <> OutOfFuel ->
  returns (parseRHS tm filename lastLine x) s r.
Proof.
  intros E Hr. apply (returns_intro _ _ _ n); [|exact E|exact Hr].
  intros a b Hab. apply parseRHS_mono. exact Hab.
Qed.

Lemma parseExprLoop_inv x n : forall args s r s',
  parseExprLoop tm filename lastLine n x args s = Ok r s' ->
  exists more, r = (args ++ more)%list /\
               OperandRun tm filename lastLine x s more s' /\
               (peek1Of s = x -> more <> []).
Proof.
  induction n as [|n IH]; intros args s r s'; [discriminate|].
  simpl. rewrite bind_peek1_any.
  destruct (N.eqb_spec (peek1Of s) x) as [E|E].
  - destruct s as [|y rest]; [discriminate|]. rewrite bind_advance. unfold bind at 1.
    destruct (parseOperand tm filename lastLine n rest) as [arg s1| | |] eqn:Ea;
      try discriminate.
    intros H. destruct (IH _ _ _ _ H) as (more & -> & Hrun & _).
    exists (arg :: more). split; [rewrite <- app_assoc; reflexivity|]. split.
    + eapply OperandRun_step; [exact E| |exact Hrun].
      apply (parseOperand_returns_of n). exact Ea. discriminate.
    + intros _. discriminate.
  - intros H. inversion H; subst. exists []. split; [rewrite app_nil_r; reflexivity|].
    split; [apply OperandRun_done; exact E|]. intros F. contradiction.
Qed.

Lemma parseExpr_operand s e s' :
  returns (parseOperand tm filename lastLine) s (Ok e s') ->
  t.ID_IsBinaryOp (peek1Of s') = false ->
  returns (parseExpr tm filename lastLine) s (Ok e s').
Proof.
  intros [_ [n1 He]] Hb. split; [discriminate|]. exists (S n1). intros n Hn.
  destruct n as [|n]; [lia|].
  simpl. erewrite bind_Ok by (apply He; lia). cbv beta.
  rewrite bind_peek1_any, Hb. reflexivity.
Qed.

Lemma parseExpr_ExprOf s e s' :
  ExprOf tm filename lastLine s e s' ->
  returns (parseExpr tm filename lastLine) s (Ok e s').
Proof.
  intros H. destruct H.
  - apply parseExpr_operand; assumption.
  - eapply parseExpr_binary; eassumption.
  - eapply parseExpr_associative; eassumption.
Qed.

Lemma parseExpr_inv n s e s' :
  parseExpr tm filename lastLine n s = Ok e s' ->
  ExprOf tm filename lastLine s e s'.
Proof.
  destruct n as [|n]; [discriminate|].
  destruct (parseOperand tm filename lastLine n s) as [lhs s1| | |] eqn:El;
    try (simpl; unfold bind at 1; rewrite El; discriminate).
  assert (Rl := parseOperand_returns_of n s _ El ltac:(discriminate)).
  destruct (t.ID_IsBinaryOp (peek1Of s1)) eqn:Hb.
  - destruct s1 as [|y rest1].
    { simpl. erewrite bind_Ok by exact El. cbv beta.
      rewrite bind_peek1_any, Hb. discriminate. }
    cbn [peek1Of] in Hb.
    destruct (parseRHS tm filename lastLine (t.Token_ID y) n rest1) as [rhs s2| | |] eqn:Er.
    + assert (Rr := parseRHS_returns_of _ n rest1 _ Er ltac:(discriminate)).
      rewrite (parseExpr_after_rhs tm filename lastLine n s lhs y rest1 rhs s2 El Hb Er).
      cbv zeta.
      destruct (t.ID_IsAssociativeOp (t.Token_ID y)) eqn:Ha; cbn [negb orb].
      * destruct (N.eqb_spec (t.Token_ID y) (peek1Of s2)) as [Ep|Ep]; cbn [negb].
        -- unfold bind at 1.
           destruct (parseExprLoop tm filename lastLine n (t.Token_ID y) [lhs; rhs] s2)
             as [args s3| | |] eqn:Eloop; try discriminate.
           destruct (parseExprLoop_inv _ _ _ _ _ _ Eloop) as (more & -> & Hrun & Hne).
           destruct (N.eqb_spec (t.ID_AssociativeForm (t.Token_ID y)) 0) as [F|F];
             [discriminate|].
           intros H. inversion H; subst.
           eapply ExprOf_associative; try eassumption; auto.
        -- destruct (N.eqb_spec (t.ID_BinaryForm (t.Token_ID y)) 0) as [F|F];
             [discriminate|].
           intros H. inversion H; subst.
           eapply ExprOf_binary; try eassumption. right. congruence.
      * destruct (N.eqb_spec (t.ID_BinaryForm (t.Token_ID y)) 0) as [F|F];
          [discriminate|].
        intros H. inversion H; subst.
        eapply ExprOf_binary; try eassumption. left. exact Ha.
    + simpl. erewrite bind_Ok by exact El. cbv beta.
      rewrite bind_peek1, Hb, bind_advance. unfold parseRHS in Er.
      erewrite bind_Err by exact Er. discriminate.
    + simpl. erewrite bind_Ok by exact El. cbv beta.
      rewrite bind_peek1, Hb, bind_advance. unfold parseRHS in Er.
      unfold bind at 1. rewrite Er. discriminate.
    + simpl. erewrite bind_Ok by exact El. cbv beta.
      rewrite bind_peek1, Hb, bind_advance. unfold parseRHS in Er.
      unfold bind at 1. rewrite Er. discriminate.
  - simpl. erewrite bind_Ok by exact El. cbv beta.
    rewrite bind_peek1_any, Hb. intros H. inversion H; subst.
    apply ExprOf_operand; assumption.
Qed.

End ExprGrammar.

(** X16.  parseExpr returns the expression [e] and leaves [s'] exactly
    when the tokens are: one operand, not followed by a binary operator;
    or two operands around a binary operator, which is not associative or
    is not the token after the second operand, and has a binary form; or
    three or more operands separated by one and the same associative
    operator, which has an associative form.  parseExpr returns no other
    expression. *)
Theorem parseExpr_grammar `{TO : t.Ops} `{AO : a.Ops} `{BO : base38.Ops}
    (tm : t.Map) (filename : string) (lastLine : N)
    (s : list t.Token) (e : a.Node) (s' : list t.Token) :
  returns (parseExpr tm filename lastLine) s (Ok e s') <->
  ExprOf tm filename lastLine s e s'.
Proof.
  split.
  - intros [_ [n0 H]]. apply (parseExpr_inv tm filename lastLine n0). apply H. lia.
  - apply parseExpr_ExprOf.
Qed.

Lemma parseExpr_grammar_witness :
  ExprOf Sample.tm "f.puffs" 1%N
    (Sample.onLine 1 [Sample.IDa; Sample.IDMinus; Sample.IDb; Sample.IDMinus; Sample.IDc])
    (a.NewExpr 0%N Sample.IDXBinaryMinus 0%N (Some (Sample.exprOf Sample.IDa)) None
               (Some (Sample.exprOf Sample.IDb)) [])
    (Sample.onLine 1 [Sample.IDMinus; Sample.IDc]).
Proof.
  apply (proj1 (parseExpr_grammar Sample.tm "f.puffs" 1%N _ _ _)).
  returns_by 4 (parseExpr_mono Sample.tm "f.puffs" 1%N).
Defined.

(** *** The grammar of operands *)

Section OperandGrammar.
Context `{TO : t.Ops} `{AO : a.Ops} `{BO : base38.Ops}.
Variables (tm : t.Map) (filename : string) (lastLine : N).

Lemma parseArgs_mono n m : n <= m ->
  refines (parseArgs tm filename lastLine n) (parseArgs tm filename lastLine m).
Proof.
  intros H. unfold parseArgs. apply parseList_mono; [exact H|].
  apply parseArgNode_mono. exact H.
Qed.

Lemma parseArgs_returns_of n s r :
  parseArgs tm filename lastLine n s = r -> r <> OutOfFuel ->
  returns (parseArgs tm filename lastLine) s r.
Proof.
  intros E Hr. apply (returns_intro _ _ _ n); [|exact E|exact Hr].
  intros a b Hab. apply parseArgs_mono. exact Hab.
Qed.

Lemma parseIdent_inv s id s' :
  parseIdent tm filename lastLine s = Ok id s' ->
  exists x, s = x :: s' /\ id = t.Token_ID x /\ t.ID_IsIdent (t.Token_ID x) = true.
Proof.
  unfold parseIdent. rewrite bind_get_src. destruct s as [|x rest].
  - rewrite bind_line_any. discriminate.
  - unfold t.Token_IsIdent. destruct (t.ID_IsIdent (t.Token_ID x)) eqn:Hi; cbn [negb].
    + rewrite bind_advance. intros H. inversion H; subst. exists x. auto.
    + rewrite bind_line. discriminate.
Qed.

Lemma parseOperandLoop_PostfixOf lhs s e s' :
  PostfixOf tm filename lastLine lhs s e s' ->
  returns (fun n => parseOperandLoop tm filename lastLine n lhs) s (Ok e s').
Proof.
  induction 1 as [lhs s Hend
                 |lhs s args s1 e s' Hk [_ [n1 Hargs]] _ [_ [n2 IH]]
                 |lhs x s args s1 e s' Hk [_ [n1 Hargs]] _ [_ [n2 IH]]
                 |lhs x s args s1 e s' Hk [_ [n1 Hargs]] _ [_ [n2 IH]]
                 |lhs s op mhs rhs s1 e s' Hk [_ [n1 Hbr]] _ [_ [n2 IH]]
                 |lhs dot y s e s' Hdot Hy _ [_ [n2 IH]]].
  - split; [discriminate|]. exists 1. intros n Hn. destruct n as [|n]; [lia|].
    simpl. rewrite bind_peek1Key_any.
    destruct (t.ID_Key (peek1Of s)); try discriminate Hend; reflexivity.
  - split; [discriminate|]. exists (S (n1 + n2)). intros n Hn.
    destruct n as [|n]; [lia|].
    simpl. rewrite bind_peek1Key_any, Hk. cbv iota.
    erewrite bind_Ok by (apply Hargs; lia). cbv beta. apply IH. lia.
  - split; [discriminate|]. exists (S (n1 + n2)). intros n Hn.
    destruct n as [|n]; [lia|].
    simpl. rewrite bind_peek1Key, Hk. cbv iota.
    rewrite bind_src0. unfold t.Token_Key. rewrite Hk. cbn [t.Key_eqb].
    rewrite (Key_eqb_neq t.KeyExclam t.KeyQuestion) by discriminate.
    rewrite bind_advance.
    erewrite bind_Ok by (apply Hargs; lia). cbv beta. apply IH. lia.
  - split; [discriminate|]. exists (S (n1 + n2)). intros n Hn.
    destruct n as [|n]; [lia|].
    simpl. rewrite bind_peek1Key, Hk. cbv iota.
    rewrite bind_src0. unfold t.Token_Key. rewrite Hk, Key_eqb_refl.
    rewrite bind_advance.
    erewrite bind_Ok by (apply Hargs; lia). cbv beta. apply IH. lia.
  - split; [discriminate|]. exists (S (n1 + n2)). intros n Hn.
    destruct n as [|n]; [lia|].
    simpl. rewrite bind_peek1Key_any, Hk. cbv iota.
    erewrite bind_Ok by (apply Hbr; lia). cbv beta iota. apply IH. lia.
  - split; [discriminate|]. exists (S n2). intros n Hn. destruct n as [|n]; [lia|].
    simpl. rewrite bind_peek1Key, Hdot. cbv iota.
    rewrite bind_advance.
    erewrite bind_Ok by (apply parseIdent_ident; exact Hy). cbv beta.
    apply IH. lia.
Qed.

Lemma parseOperandLoop_inv n : forall lhs s e s',
  parseOperandLoop tm filename lastLine n lhs s = Ok e s' ->
  PostfixOf tm filename lastLine lhs s e s'.
Proof.
  induction n as [|n IH]; intros lhs s e s'; [discriminate|].
  simpl. rewrite bind_peek1Key_any.
  destruct (t.ID_Key (peek1Of s)) eqn:Ek;
    try (intros H; inversion H; subst; apply PostfixOf_done; rewrite Ek; reflexivity).
  - (* ! *)
    destruct s as [|x s]; [discriminate|]. cbn [peek1Of] in Ek.
    rewrite bind_src0. unfold t.Token_Key. rewrite Ek.
    rewrite (Key_eqb_neq t.KeyExclam t.KeyQuestion) by discriminate.
    rewrite bind_advance. unfold bind at 1.
    destruct (parseList tm filename lastLine n t.KeyCloseParen
                (parseArgNode tm filename lastLine n) s) as [args s1| | |] eqn:Ea;
      try discriminate.
    intros H. eapply PostfixOf_impure_call; [exact Ek| |apply IH; exact H].
    apply (parseArgs_returns_of n). exact Ea. discriminate.
  - (* ? *)
    destruct s as [|x s]; [discriminate|]. cbn [peek1Of] in Ek.
    rewrite bind_src0. unfold t.Token_Key. rewrite Ek, Key_eqb_refl.
    rewrite bind_advance. unfold bind at 1.
    destruct (parseList tm filename lastLine n t.KeyCloseParen
                (parseArgNode tm filename lastLine n) s) as [args s1| | |] eqn:Ea;
      try discriminate.
    intros H. eapply PostfixOf_suspendible_call; [exact Ek| |apply IH; exact H].
    apply (parseArgs_returns_of n). exact Ea. discriminate.
  - (* ( *)
    unfold bind at 1.
    destruct (parseList tm filename lastLine n t.KeyCloseParen
                (parseArgNode tm filename lastLine n) s) as [args s1| | |] eqn:Ea;
      try discriminate.
    intros H. eapply PostfixOf_call; [exact Ek| |apply IH; exact H].
    apply (parseArgs_returns_of n). exact Ea. discriminate.
  - (* . *)
    destruct s as [|dot s]; [discriminate|]. cbn [peek1Of] in Ek.
    rewrite bind_advance. unfold bind at 1.
    destruct (parseIdent tm filename lastLine s) as [id s1| | |] eqn:Ei; try discriminate.
    destruct (parseIdent_inv _ _ _ Ei) as (y & -> & -> & Hy).
    intros H. apply PostfixOf_selector; [exact Ek|exact Hy|apply IH; exact H].
  - (* [ *)
    unfold bind at 1.
    destruct (parseBracket tm filename lastLine n t.IDColon s)
      as [[[op mhs] rhs] s1| | |] eqn:Eb; try discriminate.
    intros H. eapply PostfixOf_bracket; [exact Ek| |apply IH; exact H].
    apply (parseBracket_returns_of tm filename lastLine n). exact Eb. discriminate.
Qed.

Lemma parseOperand_OperandOf s e s' :
  OperandOf tm filename lastLine s e s' ->
  returns (parseOperand tm filename lastLine) s (Ok e s').
Proof.
  induction 1 as [x s rhs s' Hu _ [_ [n1 IH]] Hf
                 |x s Hu Hl
                 |x s e close s' Hu Hl Hk [_ [n1 He]] Hc
                 |x message s Hu Hl Hk Hm
                 |x s e s' Hu Hl Hk Hi Hp].
  - split; [discriminate|]. exists (S n1). intros n Hn. destruct n as [|n]; [lia|].
    simpl. rewrite bind_peek1, Hu, bind_advance.
    erewrite bind_Ok by (apply IH; lia). cbv beta zeta.
    destruct (N.eqb_spec (t.ID_UnaryForm (t.Token_ID x)) 0); [contradiction|reflexivity].
  - split; [discriminate|]. exists 1. intros n Hn. destruct n as [|n]; [lia|].
    simpl. rewrite bind_peek1, Hu, Hl, bind_advance. reflexivity.
  - split; [discriminate|]. exists (S n1). intros n Hn. destruct n as [|n]; [lia|].
    simpl. rewrite bind_peek1, Hu, Hl, Hk. cbv iota. rewrite bind_advance.
    erewrite bind_Ok by (apply He; lia). cbv beta.
    rewrite check_ok by exact Hc. rewrite bind_advance. reflexivity.
  - split; [discriminate|]. exists 1. intros n Hn. destruct n as [|n]; [lia|].
    simpl. rewrite bind_peek1, Hu, Hl.
    assert (Hrun : bind advance
                     (fun _ => bind (expectStrLiteral tm filename lastLine)
                                 (fun m => ret (a.NewExpr 0%N (t.Token_ID x) m None None None [])))
                     (x :: message :: s)
                   = Ok (a.NewExpr 0%N (t.Token_ID x) (t.Token_ID message) None None None []) s).
    { rewrite bind_advance. unfold expectStrLiteral.
      rewrite bind_bind, bind_peek1, Hm. cbn [negb].
      rewrite bind_bind, bind_advance. reflexivity. }
    destruct Hk as [Hk|[Hk|[Hk|[]]]]; rewrite <- Hk; exact Hrun.
  - destruct (parseOperandLoop_PostfixOf _ _ _ _ Hp) as [_ [n1 Hloop]].
    split; [discriminate|]. exists (S n1). intros n Hn. destruct n as [|n]; [lia|].
    simpl. rewrite bind_peek1, Hu, Hl.
    destruct (t.ID_Key (t.Token_ID x)); try discriminate Hk.
    all: erewrite bind_Ok by (apply parseIdent_ident; exact Hi); cbv beta.
    all: apply Hloop; lia.
Qed.

Lemma parseOperand_inv n : forall s e s',
  parseOperand tm filename lastLine n s = Ok e s' ->
  OperandOf tm filename lastLine s e s'.
Proof.
  induction n as [|n IH]; intros s e s'; [discriminate|].
  simpl. rewrite bind_peek1_any.
  destruct (t.ID_IsUnaryOp (peek1Of s)) eqn:Hu.
  { destruct s as [|x s]; [discriminate|]. cbn [peek1Of] in Hu |- *.
    rewrite bind_advance. unfold bind at 1.
    destruct (parseOperand tm filename lastLine n s) as [rhs s1| | |] eqn:Er;
      try discriminate.
    cbv zeta.
    destruct (N.eqb_spec (t.ID_UnaryForm (t.Token_ID x)) 0) as [F|F]; [discriminate|].
    intros H. inversion H; subst.
    apply OperandOf_unary; [exact Hu|apply IH; exact Er|exact F]. }
  destruct (t.ID_IsLiteral (peek1Of s)) eqn:Hl.
  { destruct s as [|x s]; [discriminate|]. cbn [peek1Of] in Hu, Hl |- *.
    rewrite bind_advance. intros H. inversion H; subst.
    apply OperandOf_literal; assumption. }
  destruct (isOperandKeyword (t.ID_Key (peek1Of s))) eqn:Hk.
  - destruct s as [|x s].
    { destruct (t.ID_Key (peek1Of [])); try discriminate Hk; discriminate. }
    cbn [peek1Of] in Hu, Hl, Hk.
    assert (Hstatus :
              In (t.ID_Key (t.Token_ID x)) [t.KeyError; t.KeyStatus; t.KeySuspension] ->
              bind advance
                (fun _ => bind (expectStrLiteral tm filename lastLine)
                            (fun m => ret (a.NewExpr 0%N (t.Token_ID x) m None None None [])))
                (x :: s) = Ok e s' ->
              OperandOf tm filename lastLine (x :: s) e s').
    { intros Hin. rewrite bind_advance. unfold expectStrLiteral.
      rewrite bind_bind, bind_peek1_any.
      destruct (t.ID_IsStrLiteral (peek1Of s)) eqn:Hm; cbn [negb].
      - destruct s as [|message s]; [discriminate|]. cbn [peek1Of] in Hm.
        rewrite bind_bind, bind_advance. intros H. inversion H; subst.
        apply OperandOf_status; assumption.
      - rewrite !bind_bind, bind_line_any. discriminate. }
    cbn [peek1Of].
    destruct (t.ID_Key (t.Token_ID x)) eqn:Ex; try discriminate Hk.
    + (* ( *)
      rewrite bind_advance. unfold bind at 1.
      destruct (parseExpr tm filename lastLine n s) as [expr s1| | |] eqn:Ee;
        try discriminate.
      destruct s1 as [|close s1].
      { unfold check. rewrite !bind_bind, bind_peek1Key_any.
        destruct (t.Key_eqb (t.ID_Key (peek1Of [])) t.KeyCloseParen); cbn [negb].
        - rewrite bind_ret. discriminate.
        - rewrite bind_bind, bind_line_any. discriminate. }
      destruct (t.Key_eq_dec (t.ID_Key (t.Token_ID close)) t.KeyCloseParen) as [Hc|Hc].
      * rewrite check_ok by exact Hc. rewrite bind_advance. intros H. inversion H; subst.
        eapply OperandOf_parenthesized; try eassumption.
        apply (parseExpr_returns_of tm filename lastLine n). exact Ee. discriminate.
      * rewrite check_fails by exact Hc. discriminate.
    + apply Hstatus. simpl. auto.
    + apply Hstatus. simpl. auto.
    + apply Hstatus. simpl. auto.
  - assert (Hname : forall (k : t.Key) (m1 m2 m3 : M a.Node),
               isOperandKeyword k = false ->
               match k with
               | t.KeyOpenParen => m1
               | t.KeyError | t.KeyStatus | t.KeySuspension => m2
               | _ => m3
               end = m3)
      by (intros k m1 m2 m3 Hk'; destruct k; try reflexivity; discriminate Hk').
    rewrite (Hname _ _ _ _ Hk). unfold bind at 1.
    destruct (parseIdent tm filename lastLine s) as [id s1| | |] eqn:Ei; try discriminate.
    destruct (parseIdent_inv _ _ _ Ei) as (x & -> & -> & Hi).
    cbn [peek1Of] in Hu, Hl, Hk.
    intros H. apply OperandOf_name; try assumption.
    apply (parseOperandLoop_inv n). exact H.
Qed.

End OperandGrammar.

(** X17.  parseOperand returns the operand [e] and leaves [s'] exactly
    when the tokens are: a unary operator and an operand (a node under the
    operator's unary form); a literal; an expression in parentheses, which
    is returned as it is, the tokens after the closing parenthesis being
    left; [error], [status] or [suspension] and a string literal; or an
    identifier followed by calls, indexes, ranges and selectors, each
    applied to the expression so far, a call marked [!] carrying the
    impure flags and one marked [?] the impure and suspendible flags. *)
Theorem parseOperand_grammar `{TO : t.Ops} `{AO : a.Ops} `{BO : base38.Ops}
    (tm : t.Map) (filename : string) (lastLine : N)
    (s : list t.Token) (e : a.Node) (s' : list t.Token) :
  returns (parseOperand tm filename lastLine) s (Ok e s') <->
  OperandOf tm filename lastLine s e s'.
Proof.
  split.
  - intros [_ [n0 H]]. apply (parseOperand_inv tm filename lastLine n0). apply H. lia.
  - apply parseOperand_OperandOf.
Qed.

Lemma parseOperand_grammar_witness :
  OperandOf Sample.tm "f.puffs" 1%N
    (Sample.onLine 1 [Sample.IDOpenParen; Sample.IDa; Sample.IDCloseParen; Sample.IDDot;
                      Sample.IDb])
    (Sample.exprOf Sample.IDa)
    (Sample.onLine 1 [Sample.IDDot; Sample.IDb]).
Proof.
  apply (proj1 (parseOperand_grammar Sample.tm "f.puffs" 1%N _ _ _)).
  returns_by 4 (parseOperand_mono Sample.tm "f.puffs" 1%N).
Defined.

(** *** Unterminated blocks *)

Section Unterminated.
Context `{TO : t.Ops} `{AO : a.Ops} `{BO : base38.Ops}.
Variables (tm : t.Map) (filename : string) (lastLine : N).

Lemma parseBlockLoop_open s :
  OpenBlockOf tm filename lastLine s ->
  forall block,
    returns (fun n => parseBlockLoop tm filename lastLine n block) s
            (Err (expectedCloseCurly filename lastLine)).
Proof.
  induction 1 as [|x rest st semi s1 Hx [_ [n1 Hst]] Hsemi _ IH]; intros block.
  - split; [discriminate|]. exists 1. intros n Hn. destruct n as [|n]; [lia|].
    reflexivity.
  - destruct (IH (block ++ [st])%list) as [_ [n2 Hloop]].
    split; [discriminate|]. exists (S (n1 + n2)). intros n Hn.
    destruct n as [|n]; [lia|].
    simpl. rewrite bind_get_src, (Key_eqb_neq _ _ Hx).
    erewrite bind_Ok by (apply Hst; lia). cbv beta.
    rewrite check_ok by exact Hsemi. rewrite bind_advance.
    apply Hloop. lia.
Qed.

End Unterminated.

(** X18.  A block whose closing brace is missing is rejected at the end
    of the stream: after an opening brace and statements that each parse
    and are followed by a semicolon, up to the last token, parseBlock
    returns the error [expected "}"] with the filename and the line of the
    last token of the source ([p.lastLine]). *)
Theorem parseBlock_unterminated `{TO : t.Ops} `{AO : a.Ops} `{BO : base38.Ops}
    (tm : t.Map) (filename : string) (lastLine : N) (op : t.Token) (s : list t.Token) :
  t.ID_Key (t.Token_ID op) = t.KeyOpenCurly ->
  OpenBlockOf tm filename lastLine s ->
  returns (parseBlock tm filename lastLine) (op :: s)
          (Err (expectedCloseCurly filename lastLine)).
Proof.
  intros Hop Hs. destruct (parseBlockLoop_open tm filename lastLine s Hs []) as [_ [n1 Hloop]].
  split; [discriminate|]. exists (S n1). intros n Hn. destruct n as [|n]; [lia|].
  simpl. rewrite check_ok by exact Hop. rewrite bind_advance. apply Hloop. lia.
Qed.

Lemma parseBlock_unterminated_witness :
  returns (parseBlock Sample.tm "f.puffs" 9%N)
    (Sample.onLine 1 [Sample.IDOpenCurly; Sample.IDa; Sample.IDSemicolon])
    (Err (expectedCloseCurly "f.puffs" 9%N)).
Proof.
  assert (Hop : t.ID_Key (t.Token_ID (t.mkToken Sample.IDOpenCurly 1)) = t.KeyOpenCurly)
    by reflexivity.
  apply (parseBlock_unterminated Sample.tm "f.puffs" 9%N (t.mkToken Sample.IDOpenCurly 1)
           (Sample.onLine 1 [Sample.IDa; Sample.IDSemicolon]) Hop).
  apply (OpenBlockOf_statement (TO:=Sample.tokenOps) (AO:=Sample.astOps) Sample.tm "f.puffs"
           9%N (t.mkToken Sample.IDa 1) (Sample.onLine 1 [Sample.IDSemicolon])
           (a.SetFilenameLine "f.puffs" 1%N (Sample.exprOf Sample.IDa))
           (t.mkToken Sample.IDSemicolon 1) []).
  - vm_compute. discriminate.
  - returns_by 8 (parseStatement_mono Sample.tm "f.puffs" 9%N).
  - reflexivity.
  - apply OpenBlockOf_end.
Defined.

(** *** The flags of a declaration *)

Lemma results_assoc {A B C} (Q : C -> Prop) (m : M A) (f : A -> M B) (g : B -> M C) :
  results Q (bind m (fun x => bind (f x) g)) -> results Q (bind (bind m f) g).
Proof. intros H s v s'. rewrite bind_bind. apply H. Qed.

Lemma results_ret_bind {A B} (Q : B -> Prop) (x : A) (k : A -> M B) :
  results Q (k x) -> results Q (bind (ret x) k).
Proof. intros H s v s'. apply H. Qed.

Lemma results_at {A} (Q : A -> Prop) (m : M A) s v s' :
  results Q m -> m s = Ok v s' -> Q v.
Proof. intros H E. exact (H s v s' E). Qed.

(** Walks a method body with the flags that it has computed, up to the
    node that it returns. *)
Ltac effect_step :=
  lazymatch goal with
  | |- results _ (fail _) => apply results_fail
  | |- results _ (ret _) =>
      apply results_ret; split; [reflexivity|];
      cbn [a.Flags_of a.desc a.NewConst a.NewFunc a.NewStatus a.NewStruct N.lor];
      rewrite ?N.lor_0_r; reflexivity
  | |- results _ (bind (bind _ _) _) => apply results_assoc
  | |- results _ (bind (ret _) _) => apply results_ret_bind
  | |- results _ (bind _ _) => apply results_bind; intros ?
  | |- results _ (if ?b then _ else _) => destruct b
  | |- results _ (match ?x with _ => _ end) => destruct x
  end; cbv beta zeta.

(** The declarations whose flags are those of the visibility. *)
Ltac decl_const d H := pattern d; revert H; apply results_at; cbv beta; repeat effect_step.

(** A func: the marker is the token after the qualified identifier. *)
Ltac decl_func d H :=
  rewrite bind_advance in H; unfold bind at 1 in H;
  lazymatch type of H with
  | match ?m with _ => _ end = _ =>
      let id0 := fresh "id0" in let id1 := fresh "id1" in
      let s1 := fresh "s1" in let Eq := fresh "Eq" in
      destruct m as [[id0 id1] s1| | |] eqn:Eq; try discriminate H;
      exists (id0, id1), s1; split; [reflexivity|];
      destruct (negb (N.eqb id0 0) && t.ID_IsBuiltIn id0)%bool;
        [rewrite bind_line_any in H; discriminate H|];
      destruct (t.ID_IsBuiltIn id1); [rewrite bind_line_any in H; discriminate H|];
      rewrite bind_peek1Key_any in H; pattern d; revert H; apply results_at; cbv beta;
      unfold funcEffect; destruct (t.ID_Key (peek1Of s1)); repeat effect_step
  end.

(** A struct: the marker is the token after the name. *)
Ltac decl_struct d H :=
  rewrite bind_advance in H; unfold bind at 1 in H;
  lazymatch type of H with
  | match ?m with _ => _ end = _ =>
      let name0 := fresh "name0" in let s1 := fresh "s1" in let Ei := fresh "Ei" in
      destruct m as [name0 s1| | |] eqn:Ei; try discriminate H;
      let name := fresh "name" in let Hi := fresh "Hi" in
      destruct (parseIdent_inv _ _ _ _ _ _ Ei) as (name & -> & -> & Hi);
      exists name, s1; split; [reflexivity|];
      destruct (t.ID_IsBuiltIn (t.Token_ID name));
        [rewrite bind_line_any in H; discriminate H|];
      rewrite bind_peek1Key_any in H; pattern d; revert H; apply results_at; cbv beta;
      unfold structEffect; destruct (t.ID_Key (peek1Of s1)); repeat effect_step
  end.

(** X19.  The flags of a top-level declaration that starts with [pub] or
    [pri] are fixed by its first token and its effect marker.  The
    visibility gives [FlagsPublic] for [pub] and no flag for [pri].  A
    const and a status ([error], [suspension]) carry the visibility only.
    A func carries the visibility and the effect of the token after its
    qualified name: [FlagsImpure] for [!], [FlagsImpure] and
    [FlagsSuspendible] for [?], nothing otherwise.  A struct carries the
    visibility and, when the token after its name is [?],
    [FlagsSuspendible].  No other second token gives a declaration. *)
Theorem declaration_flags `{TO : t.Ops} `{AO : a.Ops} `{BO : base38.Ops}
    (tm : t.Map) (filename : string) (lastLine : N) (n : nat)
    (x y : t.Token) (rest : list t.Token) (d : a.Node) (s' : list t.Token) :
  t.ID_Key (t.Token_ID x) = t.KeyPub \/ t.ID_Key (t.Token_ID x) = t.KeyPri ->
  parseTopLevelDecl tm filename lastLine n (x :: y :: rest) = Ok d s' ->
  match t.ID_Key (t.Token_ID y) with
  | t.KeyConst => a.Kind_of d = a.KConst /\ a.Flags_of d = visibility x
  | t.KeyError | t.KeySuspension => a.Kind_of d = a.KStatus /\ a.Flags_of d = visibility x
  | t.KeyFunc =>
      exists ids s1,
        parseQualifiedIdent tm filename lastLine rest = Ok ids s1 /\
        a.Kind_of d = a.KFunc /\
        a.Flags_of d = N.lor (visibility x) (funcEffect (t.ID_Key (peek1Of s1)))
  | t.KeyStruct =>
      exists name rest1,
        rest = name :: rest1 /\
        a.Kind_of d = a.KStruct /\
        a.Flags_of d = N.lor (visibility x) (structEffect (t.ID_Key (peek1Of rest1)))
  | _ => False
  end.
Proof.
  intros Hvis H. destruct n as [|n]; [discriminate H|].
  unfold parseTopLevelDecl in H. rewrite bind_src0 in H. cbv beta zeta in H.
  rewrite bind_peek1Key in H. unfold visibility.
  destruct Hvis as [Hx|Hx];
    (rewrite Hx in H |- *; cbv iota in H;
     rewrite bind_advance, bind_peek1Key in H;
     (destruct (t.ID_Key (t.Token_ID y)); try discriminate H);
     [ decl_const d H | decl_func d H | decl_const d H | decl_const d H
     | decl_struct d H ]).
Qed.

Lemma declaration_flags_witness :
  exists ids s1,
    parseQualifiedIdent Sample.tm "f.puffs" 1%N
      (Sample.onLine 1 [Sample.IDf; Sample.IDQuestion; Sample.IDOpenParen;
                        Sample.IDCloseParen; Sample.IDOpenParen; Sample.IDCloseParen;
                        Sample.IDOpenCurly; Sample.IDCloseCurly; Sample.IDSemicolon])
    = Ok ids s1 /\
    a.Kind_of (a.NewFunc 7%N "f.puffs" 1%N 0%N Sample.IDf
                 (Some (a.NewStruct 0%N "f.puffs" 1%N Sample.IDIn []))
                 (Some (a.NewStruct 0%N "f.puffs" 1%N Sample.IDOut [])) [] []) = a.KFunc /\
    7%N = N.lor (visibility (t.mkToken Sample.IDPub 1))
                (funcEffect (t.ID_Key (peek1Of s1))).
Proof.
  refine (declaration_flags Sample.tm "f.puffs" 1%N 8
            (t.mkToken Sample.IDPub 1) (t.mkToken Sample.IDFunc 1)
            (Sample.onLine 1 [Sample.IDf; Sample.IDQuestion; Sample.IDOpenParen;
                              Sample.IDCloseParen; Sample.IDOpenParen; Sample.IDCloseParen;
                              Sample.IDOpenCurly; Sample.IDCloseCurly; Sample.IDSemicolon])
            (a.NewFunc 7%N "f.puffs" 1%N 0%N Sample.IDf
               (Some (a.NewStruct 0%N "f.puffs" 1%N Sample.IDIn []))
               (Some (a.NewStruct 0%N "f.puffs" 1%N Sample.IDOut [])) [] [])
            [] _ _).
  - left. reflexivity.
  - vm_compute. reflexivity.
Defined.
